(** * GBWTGraph: a shallow embedding of the utility, container and
      graph-partitioning code, with the properties of its specification.

    Sources embedded here:
    - [src/utils.cpp]: the complement table, [reverse_complement],
      [SequenceSource::add_node], [SequenceSource::translate_segment];
    - [src/src/gbz.cpp], [src/include/gbwtgraph/gbz.h]: the GBZ header and
      the loading functions;
    - [src/src/subgraph_query.cpp]: option processing and [main];
    - [src/src/algorithms.cpp]: [DisjointSets], weakly connected components,
      [is_nice_and_acyclic], [topological_order], [gbwt_construction_jobs]. *)

From Stdlib Require Import ZArith Ascii String Lia.
From Stdlib.Strings Require Import Byte.
From stdpp Require Import base gmap strings list pretty sorting relations.

Local Open Scope Z_scope.

(** ** Machine integers

    [size_t] and [std::uint64_t] are 64-bit unsigned integers; arithmetic on
    them wraps around modulo [2^64].  [nid_t] is a signed 64-bit integer. *)

Module Word.

Definition modulus64 : Z := 2 ^ 64.

Definition wrap64 (x : Z) : Z := x mod modulus64.

(** Conversion of an unsigned 64-bit value to [nid_t] (two's complement). *)
Definition to_nid (x : Z) : Z :=
  let y := wrap64 x in
  if y <? 2 ^ 63 then y else y - modulus64.

Lemma wrap64_small (x : Z) : 0 <= x < modulus64 -> wrap64 x = x.
Proof. intros H. unfold wrap64. now apply Z.mod_small. Qed.

Lemma wrap64_range (x : Z) : 0 <= wrap64 x < modulus64.
Proof. unfold wrap64, modulus64. apply Z.mod_pos_bound. lia. Qed.

Lemma to_nid_small (x : Z) : 0 <= x < 2 ^ 63 -> to_nid x = x.
Proof.
  intros H. unfold to_nid. rewrite wrap64_small by (unfold modulus64; lia).
  destruct (Z.ltb_spec x (2 ^ 63)); lia.
Qed.

End Word.

(** ** Reverse complement ([src/utils.cpp]) *)

Module Utils.

Definition row (s : string) : list ascii := list_ascii_of_string s.

(** The table [complement], sixteen entries a row as in the source. *)
Definition complement : list ascii :=
  row "NNNNNNNNNNNNNNNN" ++ row "NNNNNNNNNNNNNNNN" ++
  row "NNN$#NNNNNNNN-NN" ++ row "NNNNNNNNNNNNNNNN" ++

  row "NTVGHNNCDNNMNKNN" ++ row "NQYWAABSNRNNNNNN" ++
  row "NtvghNNcdNNmNknN" ++ row "NqywaabsNrNNNNNN" ++

  row "NNNNNNNNNNNNNNNN" ++ row "NNNNNNNNNNNNNNNN" ++
  row "NNNNNNNNNNNNNNNN" ++ row "NNNNNNNNNNNNNNNN" ++

  row "NNNNNNNNNNNNNNNN" ++ row "NNNNNNNNNNNNNNNN" ++
  row "NNNNNNNNNNNNNNNN" ++ row "NNNNNNNNNNNNNNNN".

(** [complement[c]]: the table indexed by the character code.  The table
    has 256 entries, but [c] is a [char], which is signed where the code
    is built: a byte from 128 on gives a negative index and the read is
    outside the table.  The definition agrees with the code on the codes
    below 128; the entry it gives for the other bytes is not what the
    code reads, and what is stated of the code is stated of strings with
    codes below 128. *)
Definition complement_at (c : ascii) : ascii :=
  nth (nat_of_ascii c) complement "N"%char.

#[global] Instance ascii_inhabited : Inhabited ascii := populate "N"%char.

(** The loop of [reverse_complement_in_place]: [n] iterations remain,
    [i] counts up from the front and [j] down from the back. *)
Fixpoint rc_loop (n i j : nat) (seq : list ascii) : list ascii :=
  match n with
  | O => seq
  | S n' =>
      let tmp := seq !!! i in
      let seq1 := <[i := complement_at (seq !!! j)]> seq in
      let seq2 := <[j := complement_at tmp]> seq1 in
      rc_loop n' (S i) (pred j) seq2
  end.

Definition reverse_complement_in_place (seq : list ascii) : list ascii :=
  let swap_size := (length seq / 2)%nat in
  (* [j] starts at [seq.size() - 1]; for the empty string the loop body
     never runs, so the wrapped value of [j] is never used. *)
  let seq' := rc_loop swap_size 0 (length seq - 1) seq in
  if decide ((length seq mod 2)%nat <> 0%nat)
  then <[swap_size := complement_at (seq' !!! swap_size)]> seq'
  else seq'.

Definition reverse_complement (seq : list ascii) : list ascii :=
  reverse_complement_in_place seq.

(** The IUPAC nucleotide codes, upper and lower case. *)
Definition iupac_upper : list ascii := row "ACGTURYSWKMBDHVN".
Definition iupac_lower : list ascii := row "acgturyswkmbdhvn".
Definition iupac : list ascii := iupac_upper ++ iupac_lower.

(** The codes on which the table is an involution: all of them but U. *)
Definition iupac_dna : list ascii :=
  row "ACGTRYSWKMBDHVN" ++ row "acgtryswkmbdhvn".

End Utils.

Module UtilsExamples.
Import Utils.

Example rc_gattaca :
  reverse_complement (row "GATTACA") = row "TGTAATC".
Proof. reflexivity. Qed.

Example rc_even : reverse_complement (row "ACGN") = row "NCGT".
Proof. reflexivity. Qed.

Example rc_empty : reverse_complement [] = [].
Proof. reflexivity. Qed.

End UtilsExamples.

(** ** Properties of the reverse complement *)

Module UtilsFacts.
Import Utils.

Local Open Scope nat_scope.

Lemma rc_loop_length (n i j : nat) (seq : list ascii) :
  length (rc_loop n i j seq) = length seq.
Proof.
  revert i j seq. induction n as [|n IH]; intros i j seq; simpl; [done|].
  rewrite IH. by rewrite !length_insert.
Qed.

(** The loop invariant, position by position: after [n] rounds starting at
    [i], the [n] positions from [i] on and their mirror images hold the
    complemented mirror character, and every other position is untouched. *)
Lemma rc_loop_lookup (n : nat) :
  forall (i : nat) (seq : list ascii),
    2 * (i + n) <= length seq ->
    forall k : nat, k < length seq ->
      rc_loop n i (length seq - 1 - i) seq !! k =
        if decide (i <= k < i + n \/ length seq - i - n <= k < length seq - i)
        then Some (complement_at (seq !!! (length seq - 1 - k)))
        else seq !! k.
Proof.
  induction n as [|n IH]; intros i seq Hlen k Hk; simpl.
  - case_decide; [lia | done].
  - set (j := length seq - 1 - i).
    set (seq2 := <[j := complement_at (seq !!! i)]>
                   (<[i := complement_at (seq !!! j)]> seq)).
    assert (Hl2 : length seq2 = length seq) by (subst seq2; by rewrite !length_insert).
    assert (Hij : i < j) by (subst j; lia).
    replace (pred j) with (length seq2 - 1 - S i) by (subst j; lia).
    rewrite (IH (S i) seq2) by lia.
    rewrite Hl2.
    destruct (decide (k = i)) as [->|Hki].
    { rewrite decide_False by lia. rewrite decide_True by lia.
      subst seq2. rewrite list_lookup_insert_ne by lia.
      rewrite list_lookup_insert_eq by lia. done. }
    destruct (decide (k = j)) as [->|Hkj].
    { rewrite decide_False by (subst j; lia).
      rewrite decide_True by (subst j; lia).
      subst seq2. rewrite list_lookup_insert_eq by (rewrite length_insert; lia).
      subst j. replace (length seq - 1 - (length seq - 1 - i)) with i by lia. done. }
    assert (Hother : seq2 !! k = seq !! k).
    { subst seq2. by rewrite !list_lookup_insert_ne by lia. }
    case_decide as H1; case_decide as H2; try (subst j; lia); [|done].
    do 2 f_equal. subst seq2.
    rewrite !list_lookup_total_insert_ne by (subst j; lia). done.
Qed.

(** The in-place algorithm computes the reversal of the complemented
    string. *)
Lemma reverse_complement_spec (s : list ascii) :
  reverse_complement s = reverse (complement_at <$> s).
Proof.
  unfold reverse_complement, reverse_complement_in_place.
  set (h := length s / 2).
  assert (Hh : 2 * h <= length s).
  { subst h. pose proof (Nat.div_mod_eq (length s) 2). lia. }
  assert (Hm : length s mod 2 < 2) by (apply Nat.mod_upper_bound; lia).
  assert (Hd : length s = 2 * h + length s mod 2).
  { subst h. apply Nat.div_mod_eq. }
  assert (Hloop : forall k, k < length s ->
            rc_loop h 0 (length s - 1) s !! k =
              if decide (k < h \/ length s - h <= k)
              then Some (complement_at (s !!! (length s - 1 - k)))
              else s !! k).
  { intros k Hk.
    pose proof (rc_loop_lookup h 0 s ltac:(lia) k Hk) as E.
    rewrite Nat.sub_0_r in E. rewrite E.
    case_decide; case_decide; try lia; done. }
  apply list_eq. intros k.
  destruct (decide (k < length s)) as [Hk|Hk].
  2:{ rewrite (lookup_ge_None_2 (reverse _)) by (rewrite length_reverse, length_fmap; lia).
      apply lookup_ge_None_2.
      case_decide; rewrite ?length_insert, rc_loop_length; lia. }
  rewrite reverse_lookup by (rewrite length_fmap; lia).
  rewrite length_fmap, list_lookup_fmap.
  replace (length s - S k) with (length s - 1 - k) by lia.
  rewrite (list_lookup_lookup_total_lt s (length s - 1 - k)) by lia.
  change (complement_at <$> Some ?x) with (Some (complement_at x)).
  case_decide as Hodd.
  - destruct (decide (k = h)) as [->|Hkh].
    + rewrite list_lookup_insert_eq by (rewrite rc_loop_length; lia).
      rewrite list_lookup_total_alt, Hloop by lia.
      rewrite decide_False by lia.
      rewrite (list_lookup_lookup_total_lt s h) by lia. simpl default.
      replace (length s - 1 - h) with h by lia. done.
    + rewrite list_lookup_insert_ne by done.
      rewrite Hloop by lia. rewrite decide_True by lia. done.
  - rewrite Hloop by lia. rewrite decide_True by lia. done.
Qed.

Lemma complement_involutive_dna :
  Forall (fun c => complement_at (complement_at c) = c) iupac_dna.
Proof. repeat (constructor; [reflexivity|]). constructor. Qed.

(** Applying the function twice complements every character twice, in the
    original order. *)
Lemma reverse_complement_twice (s : list ascii) :
  reverse_complement (reverse_complement s) =
    (fun c => complement_at (complement_at c)) <$> s.
Proof.
  rewrite !reverse_complement_spec.
  rewrite fmap_reverse, reverse_involutive, <- list_fmap_compose. done.
Qed.

(** A string is restored exactly when each of its characters is. *)
Lemma reverse_complement_twice_iff (s : list ascii) :
  reverse_complement (reverse_complement s) = s <->
  Forall (fun c => complement_at (complement_at c) = c) s.
Proof.
  rewrite reverse_complement_twice. induction s as [|c s IH]; simpl.
  - split; [constructor | done].
  - split.
    + intros H. injection H as Hc Hs. constructor; [done | by apply IH].
    + intros H. inversion H as [|? ? Hc Hs]; subst.
      f_equal; [done | by apply IH].
Qed.

(** C1, as stated, fails: U is an IUPAC nucleotide code, the table sends it
    to A, and A to T, so the string "U" comes back as "T". *)
Lemma reverse_complement_U_not_restored :
  Forall (fun c => c ∈ iupac) (row "U") /\
  reverse_complement (reverse_complement (row "U")) = row "T" /\
  reverse_complement (reverse_complement (row "U")) <> row "U".
Proof.
  split; [|split].
  - repeat constructor.
  - reflexivity.
  - discriminate.
Qed.

(** C1, amended: for every string over the IUPAC codes other than U
    (A C G T R Y S W K M B D H V N, upper or lower case), taking the reverse
    complement twice gives the string back. *)
Theorem reverse_complement_involution (s : list ascii) :
  Forall (fun c => c ∈ iupac_dna) s ->
  reverse_complement (reverse_complement s) = s.
Proof.
  intros Hs. apply reverse_complement_twice_iff.
  eapply Forall_impl; [exact Hs|].
  intros c Hc. simpl in Hc.
  pose proof complement_involutive_dna as Hall.
  rewrite Forall_forall in Hall. by apply Hall.
Qed.

Lemma reverse_complement_involution_witness :
  Forall (fun c => c ∈ iupac_dna) (row "GATTACAnnRYswkm") ∧
  reverse_complement (reverse_complement (row "GATTACAnnRYswkm")) =
    row "GATTACAnnRYswkm".
Proof.
  assert (H : Forall (fun c => c ∈ iupac_dna) (row "GATTACAnnRYswkm")).
  { repeat constructor. }
  split; [exact H | exact (reverse_complement_involution _ H)].
Defined.

End UtilsFacts.

(** ** The sequence source ([src/utils.cpp]) *)

Module SequenceSource.
Import Word.

(** The state of a [SequenceSource]: [nodes] maps a node id to the
    (offset, length) of its sequence in the buffer [sequences]. *)
Record t : Type := mk {
  nodes : gmap Z (Z * Z);
  sequences : list ascii;
  segment_translation : gmap string (Z * Z);
  next_id : Z
}.

(** A [view_type] is a pointer and a length; [view s offset length] stands
    for [view_type(s.first + offset, length)], the bytes it designates. *)
Definition view (s : list ascii) (offset len : Z) : list ascii :=
  take (Z.to_nat len) (drop (Z.to_nat offset) s).

(** [SequenceSource::add_node(nid_t, const std::string&)]. *)
Definition add_node (src : t) (id : Z) (sequence : list ascii) : t :=
  if decide (sequence = []) then src
  else if decide (is_Some (nodes src !! id)) then src
  else
    let offset := Z.of_nat (length (sequences src)) in
    {| nodes := <[id := (offset, Z.of_nat (length sequence))]> (nodes src);
       sequences := sequences src ++ sequence;
       segment_translation := segment_translation src;
       next_id := next_id src |}.

(** [SequenceSource::add_node(nid_t, view_type)]: the same steps, on the
    viewed bytes; [sequence.second] is their number. *)
Definition add_node_view (src : t) (id : Z) (sequence : list ascii) : t :=
  if decide (Z.of_nat (length sequence) = 0) then src
  else if decide (is_Some (nodes src !! id)) then src
  else
    let offset := Z.of_nat (length (sequences src)) in
    {| nodes := <[id := (offset, Z.of_nat (length sequence))]> (nodes src);
       sequences := sequences src ++ sequence;
       segment_translation := segment_translation src;
       next_id := next_id src |}.

(** The loop [for(nid_t id = start; id < limit; id++)] of
    [translate_segment], with [fuel] iterations left. *)
Fixpoint translate_loop (fuel : nat) (src : t) (id start : Z)
    (sequence : list ascii) (max_length : Z) : t :=
  match fuel with
  | O => src
  | S fuel' =>
      let offset := wrap64 ((id - start) * max_length) in
      let len :=
        Z.min max_length (wrap64 (Z.of_nat (length sequence) - offset)) in
      let src' := add_node_view src id (view sequence offset len) in
      translate_loop fuel' src' (id + 1) start sequence max_length
  end.

(** [SequenceSource::translate_segment].  The division by [max_length] is
    undefined for [max_length = 0]; the model returns [None] there. *)
Definition translate_segment (src : t) (name : string)
    (sequence : list ascii) (max_length : Z) : option t :=
  if decide (is_Some (segment_translation src !! name) \/
             Z.of_nat (length sequence) = 0)
  then Some src
  else if decide (max_length = 0) then None
  else
    let start := next_id src in
    let limit :=
      to_nid (start +
              wrap64 (Z.of_nat (length sequence) + max_length - 1) / max_length) in
    let src' :=
      translate_loop (Z.to_nat (limit - start)) src start start
        sequence max_length in
    Some {| nodes := nodes src';
            sequences := sequences src';
            segment_translation :=
              <[name := (start, limit)]> (segment_translation src');
            next_id := limit |}.

(** Modelled from the spec: [SequenceSource::get_sequence] is declared in
    [utils.h], which is not among the sources; by the data model, a node's
    sequence is the [length] bytes of [sequences] from [offset] on. *)
Definition get_sequence (src : t) (id : Z) : option (list ascii) :=
  match nodes src !! id with
  | Some (offset, len) => Some (view (sequences src) offset len)
  | None => None
  end.

(** A fresh source (the allocator starts at id 1). *)
Definition empty : t :=
  {| nodes := ∅; sequences := []; segment_translation := ∅; next_id := 1 |}.

End SequenceSource.

Module SequenceSourceExamples.
Import Utils SequenceSource.

Definition chopped : option t :=
  translate_segment empty "seg" (row "ACGTACGTAC") 4.

Example chopped_ids :
  (fun s => (segment_translation s !! "seg"%string, next_id s)) <$> chopped
  = Some (Some (1, 4), 4).
Proof. vm_compute. reflexivity. Qed.

Example chopped_pieces :
  (fun s => (get_sequence s 1, get_sequence s 2, get_sequence s 3,
             get_sequence s 4)) <$> chopped
  = Some (Some (row "ACGT"), Some (row "ACGT"), Some (row "AC"), None).
Proof. vm_compute. reflexivity. Qed.

End SequenceSourceExamples.

Module SequenceSourceFacts.
Import Word Utils SequenceSource.

Section TranslateLoop.

Variables (seq base : list ascii) (m start : Z).

Let L : Z := Z.of_nat (length seq).

Hypothesis m_pos : 0 < m.
Hypothesis L_small : L < modulus64.

(** The chopping loop, started at piece [k] in a state whose buffer ends
    with the first [k] pieces, appends the next [fuel] pieces under the ids
    [start + k], ..., provided these ids are unused and every piece is
    non-empty. *)
Lemma translate_loop_spec (fuel : nat) :
  forall (src : t) (k : Z),
    0 <= k ->
    (k + Z.of_nat fuel) * m < L + m ->
    sequences src = base ++ take (Z.to_nat (k * m)) seq ->
    (forall j, k <= j < k + Z.of_nat fuel -> nodes src !! (start + j) = None) ->
    let r := translate_loop fuel src (start + k) start seq m in
    sequences r = base ++ take (Z.to_nat ((k + Z.of_nat fuel) * m)) seq /\
    segment_translation r = segment_translation src /\
    next_id r = next_id src /\
    (forall j, k <= j < k + Z.of_nat fuel ->
       nodes r !! (start + j) =
         Some (Z.of_nat (length base) + j * m, Z.min m (L - j * m))) /\
    (forall id, ~ (start + k <= id < start + k + Z.of_nat fuel) ->
       nodes r !! id = nodes src !! id).
Proof.
  induction fuel as [|fuel IH]; intros src k Hk Hfit Hseq Hfresh; simpl.
  - repeat split; try done.
    + rewrite Hseq. do 3 f_equal. lia.
    + intros j Hj. lia.
  - replace (start + k - start) with k by lia.
    change (Z.of_nat (length seq)) with L.
    assert (Hkm : 0 <= k * m < L) by nia.
    rewrite (wrap64_small (k * m)) by lia.
    rewrite (wrap64_small (L - k * m)) by lia.
    set (len := Z.min m (L - k * m)).
    assert (Hlen : 0 < len <= L - k * m) by (subst len; lia).
    set (piece := view seq (k * m) len).
    assert (Hpl : Z.of_nat (length piece) = len).
    { subst piece. unfold view. rewrite length_take, length_drop. subst L. lia. }
    unfold add_node_view.
    rewrite decide_False by lia.
    rewrite decide_False.
    2:{ rewrite (Hfresh k) by lia. by intros [? ?]. }
    set (src' := {| nodes := _ |}).
    assert (Hseq' : sequences src' =
                    base ++ take (Z.to_nat ((k + 1) * m)) seq).
    { subst src'. simpl. rewrite Hseq, <- app_assoc. f_equal.
      subst piece. unfold view. rewrite take_take_drop.
      destruct (Z.le_gt_cases m (L - k * m)) as [Hle|Hgt].
      - f_equal. subst len. lia.
      - rewrite !take_ge; [done | subst L; lia | subst len L; lia]. }
    assert (Hlsrc : Z.of_nat (length (sequences src)) =
                    Z.of_nat (length base) + k * m).
    { rewrite Hseq, length_app, length_take. subst L. lia. }
    replace (start + k + 1) with (start + (k + 1)) by lia.
    destruct (IH src' (k + 1)) as (R1 & R2 & R3 & R4 & R5).
    + lia.
    + lia.
    + exact Hseq'.
    + intros j Hj. subst src'. simpl.
      rewrite lookup_insert_ne by lia. apply Hfresh. lia.
    + repeat split.
      * rewrite R1. do 3 f_equal. lia.
      * rewrite R2. done.
      * rewrite R3. done.
      * intros j Hj. destruct (decide (j = k)) as [->|Hjk].
        -- rewrite R5 by lia. subst src'. simpl.
           rewrite lookup_insert_eq. rewrite Hlsrc, Hpl. done.
        -- apply R4. lia.
      * intros id Hid. rewrite R5 by lia. subst src'. simpl.
        rewrite lookup_insert_ne by lia. done.
Qed.

End TranslateLoop.

(** Reading a piece back: a view of the buffer past the old contents is a
    view of the appended segment. *)
Lemma view_app_piece (old seq : list ascii) (off len : Z) :
  0 <= off -> 0 <= len ->
  view (old ++ seq) (Z.of_nat (length old) + off)
       (Z.min len (Z.of_nat (length seq) - off))
  = view seq off len.
Proof.
  intros Hoff Hlen. unfold view.
  replace (Z.to_nat (Z.of_nat (length old) + off))
    with (length old + Z.to_nat off)%nat by lia.
  rewrite drop_app_add.
  set (x := drop (Z.to_nat off) seq).
  assert (Hx : length x = (length seq - Z.to_nat off)%nat)
    by (subst x; apply length_drop).
  destruct (Z.le_gt_cases len (Z.of_nat (length seq) - off)) as [Hle|Hgt].
  - rewrite Z.min_l by lia. done.
  - rewrite Z.min_r by lia. rewrite !take_ge; [done | lia | lia].
Qed.

(** [add_node] and its view overload do nothing on an empty sequence or a
    known id. *)
Lemma add_node_noop (src : t) (id : Z) (sequence : list ascii) :
  sequence = [] \/ is_Some (nodes src !! id) ->
  add_node src id sequence = src.
Proof.
  intros [->|Hid]; unfold add_node.
  - by rewrite decide_True.
  - case_decide; [done|]. by rewrite decide_True.
Qed.

Lemma add_node_view_noop (src : t) (id : Z) (sequence : list ascii) :
  sequence = [] \/ is_Some (nodes src !! id) ->
  add_node_view src id sequence = src.
Proof.
  intros [->|Hid]; unfold add_node_view.
  - by rewrite decide_True.
  - case_decide; [done|]. by rewrite decide_True.
Qed.

(** A source in which id 1 is taken while the allocator still stands at 1:
    the state after [add_node(1, "A")] on a fresh source. *)
Definition occupied : t := add_node empty 1 (row "A").

(** C9, as stated, fails: [translate_segment] adds its pieces through
    [add_node], which skips an id that is already present.  On [occupied],
    chopping "CCC" with limit 2 records the range [1, 3) but creates one new
    node only, and node 1 keeps the sequence "A". *)
Lemma translate_segment_skips_known_id :
  segment_translation occupied !! "seg"%string = None /\
  next_id occupied = 1 /\
  exists src' : t,
    translate_segment occupied "seg" (row "CCC") 2 = Some src' /\
    segment_translation src' !! "seg"%string = Some (1, 3) /\
    get_sequence src' 1 = Some (row "A") /\
    get_sequence src' 1 <> Some (view (row "CCC") 0 2) /\
    get_sequence src' 2 = Some (row "C") /\
    size (nodes src') = 2%nat /\
    sequences src' <> sequences occupied ++ row "CCC".
Proof.
  split; [reflexivity|]. split; [reflexivity|].
  eexists. split; [vm_compute; reflexivity|].
  repeat split; try (vm_compute; reflexivity); vm_compute; discriminate.
Qed.

(** C9, amended: for a name not yet translated, a non-empty sequence of
    length L and a limit m > 0 with L + m - 1 < 2^64, when none of the ids
    next_id, ..., next_id + ceil(L/m) - 1 is in [nodes] (and they fit in
    [nid_t]), [translate_segment] creates exactly these ceil(L/m) nodes,
    whose sequences are the consecutive pieces of length m (the last one
    possibly shorter), appends the segment to the buffer, records
    [name -> [start, start + ceil(L/m))] and moves [next_id] to the end of
    the range; all other nodes are untouched. *)
Theorem translate_segment_chops (src : t) (name : string)
    (seq : list ascii) (m : Z) :
  let L := Z.of_nat (length seq) in
  let start := next_id src in
  let count := (L + m - 1) / m in
  segment_translation src !! name = None ->
  seq <> [] ->
  0 < m ->
  L + m - 1 < modulus64 ->
  0 <= start -> start + count < 2 ^ 63 ->
  (forall id, start <= id < start + count -> nodes src !! id = None) ->
  exists src' : t,
    translate_segment src name seq m = Some src' /\
    (count - 1) * m < L <= count * m /\
    segment_translation src' =
      <[name := (start, start + count)]> (segment_translation src) /\
    next_id src' = start + count /\
    sequences src' = sequences src ++ seq /\
    (forall k, 0 <= k < count ->
       nodes src' !! (start + k) =
         Some (Z.of_nat (length (sequences src)) + k * m,
               Z.min m (L - k * m)) /\
       get_sequence src' (start + k) = Some (view seq (k * m) m)) /\
    (forall id, ~ (start <= id < start + count) ->
       nodes src' !! id = nodes src !! id).
Proof.
  intros L start count Hname Hseq Hm Hsmall Hstart Hlimit Hfresh.
  assert (HL : 0 < L).
  { subst L. destruct seq; [done | simpl; lia]. }
  assert (Hcount : (count - 1) * m < L <= count * m).
  { subst count. pose proof (Z.div_mod (L + m - 1) m ltac:(lia)) as Hdm.
    pose proof (Z.mod_pos_bound (L + m - 1) m Hm). nia. }
  assert (Hcpos : 0 < count) by nia.
  unfold translate_segment.
  rewrite decide_False.
  2:{ intros [[? Hs]|Hz]; [congruence | lia]. }
  rewrite decide_False by lia.
  fold L start.
  rewrite (wrap64_small (L + m - 1)) by lia.
  fold count.
  rewrite (to_nid_small (start + count)) by lia.
  replace (start + count - start) with count by lia.
  pose proof (translate_loop_spec seq (sequences src) m start Hm
                ltac:(fold L; lia) (Z.to_nat count) src 0) as Hloop.
  fold L in Hloop. rewrite Z2Nat.id in Hloop by lia.
  rewrite !Z.add_0_l, Z.add_0_r in Hloop.
  destruct Hloop as (R1 & R2 & R3 & R4 & R5).
  { lia. } { lia. } { simpl. by rewrite app_nil_r. }
  { intros j Hj. apply Hfresh. lia. }
  eexists. split; [reflexivity|]. simpl.
  split; [exact Hcount|]. split; [by rewrite R2|]. split; [done|].
  assert (Hall : take (Z.to_nat (count * m)) seq = seq).
  { apply take_ge. subst L. lia. }
  split; [by rewrite R1, Hall|].
  split.
  - intros k Hk.
    replace (next_id src + k) with (start + k) by done.
    rewrite (R4 k Hk). split; [done|].
    unfold get_sequence. simpl.
    replace (next_id src + k) with (start + k) by done.
    rewrite (R4 k Hk), R1, Hall.
    subst L. apply (f_equal Some). apply view_app_piece; nia.
  - intros id Hid. apply R5. subst start. lia.
Qed.

Lemma translate_segment_chops_witness :
  exists src' : t,
    translate_segment (add_node empty 7 (row "A")) "seg"
      (row "ACGTACGTAC") 4 = Some src' /\
    segment_translation src' !! "seg"%string = Some (1, 4).
Proof.
  assert (Hname : segment_translation (add_node empty 7 (row "A"))
                    !! "seg"%string = None) by reflexivity.
  assert (Hseq : row "ACGTACGTAC" <> []) by discriminate.
  assert (Hfresh : forall id, 1 <= id < 1 + (10 + 4 - 1) / 4 ->
            nodes (add_node empty 7 (row "A")) !! id = None).
  { intros id Hid. change ((10 + 4 - 1) / 4) with 3 in Hid.
    change (nodes (add_node empty 7 (row "A")))
      with (<[7 := (0, 1)]> (∅ : gmap Z (Z * Z))).
    rewrite lookup_insert_ne by lia. apply lookup_empty. }
  destruct (translate_segment_chops (add_node empty 7 (row "A")) "seg"
              (row "ACGTACGTAC") 4 Hname Hseq ltac:(lia) ltac:(done)
              ltac:(done) ltac:(done) Hfresh)
    as (src' & Hrun & _ & Htr & _).
  exists src'. split; [exact Hrun|].
  rewrite Htr. apply lookup_insert_eq.
Defined.

(** C10: [add_node] with an empty sequence, or with an id that already has
    an entry in [nodes], leaves the whole source unchanged, for both
    overloads; in particular the sequence stored for an existing id is not
    overwritten. *)
Theorem add_node_leaves_source_unchanged (src : t) (id : Z)
    (sequence : list ascii) :
  sequence = [] \/ is_Some (nodes src !! id) ->
  add_node src id sequence = src /\
  add_node_view src id sequence = src /\
  get_sequence (add_node src id sequence) id = get_sequence src id.
Proof.
  intros H. rewrite add_node_noop, add_node_view_noop by done. done.
Qed.

Lemma add_node_leaves_source_unchanged_witness :
  add_node occupied 1 (row "CC") = occupied /\
  add_node_view occupied 1 (row "CC") = occupied /\
  get_sequence (add_node occupied 1 (row "CC")) 1 = get_sequence occupied 1.
Proof.
  apply (add_node_leaves_source_unchanged occupied 1 (row "CC")).
  right. exists (0, 1). reflexivity.
Defined.

End SequenceSourceFacts.

(** ** Outcomes of fallible code

    [ABSL_LOG(FATAL)] prints its message and aborts the process; the
    delegated loaders of the succinct library fail with an exception.  Both
    end the operation: an [outcome] is a value or the message of the
    failure. *)

Inductive outcome (A : Type) : Type :=
| Done (a : A)
| Fatal (msg : string).

Arguments Done {A} a.
Arguments Fatal {A} msg.

#[global] Instance outcome_bind : MBind outcome :=
  fun A B (f : A -> outcome B) (x : outcome A) =>
    match x with
    | Done a => f a
    | Fatal msg => Fatal msg
    end.

#[global] Instance outcome_ret : MRet outcome := fun A a => Done a.

(** ** The GBZ container ([src/src/gbz.cpp], [gbz.h]) *)

Module GBZ.

(** [Version::SOURCE_KEY] and [Version::SOURCE_VALUE] ([src/utils.cpp]). *)
Definition SOURCE_KEY : string := "source".
Definition SOURCE_VALUE : string := "jltsiren/gbwtgraph".

Definition TAG : Z := 0x205A4247.

(** Modelled from the spec: [Version::GBZ_VERSION] is declared in
    [utils.h], which is not among the sources; the current version of the
    container format is 1. *)
Definition GBZ_VERSION : Z := 1.

Definition VERSION : Z := GBZ_VERSION.
Definition FLAG_MASK : Z := 0x0000.

Record Header : Type := mkHeader {
  tag : Z;      (* std::uint32_t *)
  version : Z;  (* std::uint32_t *)
  flags : Z     (* std::uint64_t *)
}.

(** [Header::Header()]. *)
Definition default_header : Header :=
  {| tag := TAG; version := VERSION; flags := 0 |}.

(** [Header::check]. *)
Definition check (h : Header) : outcome unit :=
  if decide (tag h <> TAG) then Fatal "GBZ: Invalid tag"
  else if decide (version h <> VERSION)
  then Fatal ("GBZ: Expected v" +:+ pretty VERSION +:+ ", got v" +:+ pretty (version h))
  else
    let mask := if decide (version h = VERSION) then FLAG_MASK else 0 in
    if decide (Z.land (flags h) mask <> flags h) then Fatal "GBZ: Invalid flags"
    else Done tt.

(** Modelled from the spec: [sdsl::simple_sds::load_value<Header>] belongs
    to the succinct library.  By the stream layout the header is read
    little-endian: four bytes of tag, four of version, eight of flags. *)
Fixpoint little_endian (bytes : list byte) : Z :=
  match bytes with
  | [] => 0
  | b :: rest => Z.of_N (Byte.to_N b) + 256 * little_endian rest
  end.

Definition load_header (input : list byte) : outcome (Header * list byte) :=
  if decide (length input < 16)%nat then Fatal "Cannot read the header"
  else
    Done ({| tag := little_endian (take 4 input);
             version := little_endian (take 4 (drop 4 input));
             flags := little_endian (take 8 (drop 8 input)) |},
          drop 16 input).

Section Container.

(** The path index and the node graph are opaque here, and so are their
    loaders and the loader of the tags: each consumes a prefix of the input
    or fails. *)
Variables (Index Graph : Type).
Variable load_tags : list byte -> outcome (gmap string string * list byte).
Variable load_index : list byte -> outcome (Index * list byte).
Variable load_graph : list byte -> Index -> outcome (Graph * list byte).
Variable load_index_from : string -> outcome Index.
Variable deserialize_graph : string -> Index -> outcome Graph.

Record t : Type := mk {
  header : Header;
  tags : gmap string string;
  index : Index;
  graph : Graph
}.

(** Modelled from the spec: [gbwt::Tags] belongs to the path-index library;
    it is a mapping from strings to strings, and [set] adds or overwrites
    the entry of a key. *)
Definition tags_set (key value : string) (tg : gmap string string) :
    gmap string string :=
  <[key := value]> tg.

(** [GBZ::add_source]. *)
Definition add_source (this : t) : t :=
  {| header := header this;
     tags := tags_set SOURCE_KEY SOURCE_VALUE (tags this);
     index := index this;
     graph := graph this |}.

Definition set_tags (this : t) (tg : gmap string string) : t :=
  {| header := header this; tags := tg;
     index := index this; graph := graph this |}.

(** [GBZ::simple_sds_load]. *)
Definition simple_sds_load (this : t) (input : list byte) :
    outcome (t * list byte) :=
  '(h, in1) ← load_header input;
  _ ← check h;
  '(tg, in2) ← load_tags in1;
  let this1 := add_source (set_tags {| header := h; tags := tags this;
                                       index := index this;
                                       graph := graph this |} tg) in
  '(idx, in3) ← load_index in2;
  '(g, in4) ← load_graph in3 idx;
  Done ({| header := header this1; tags := tags this1;
           index := idx; graph := g |}, in4).

(** [GBZ::load_from_files]. *)
Definition load_from_files (this : t) (gbwt_name graph_name : string) :
    outcome t :=
  let this1 := add_source (set_tags this ∅) in
  idx ← load_index_from gbwt_name;
  g ← deserialize_graph graph_name idx;
  Done {| header := header this1; tags := tags this1;
          index := idx; graph := g |}.

End Container.

Arguments header {Index Graph} _.
Arguments tags {Index Graph} _.
Arguments index {Index Graph} _.
Arguments graph {Index Graph} _.
Arguments mk {Index Graph} _ _ _ _.

End GBZ.

Module GBZExamples.
Import GBZ.

(** The magic is the string "GBZ " read as a little-endian word. *)
Example tag_is_GBZ :
  little_endian [x47; x42; x5a; x20]%byte = TAG /\
  String.list_byte_of_string "GBZ " = [x47; x42; x5a; x20]%byte.
Proof. split; reflexivity. Qed.

Definition good_bytes : list byte :=
  [x47; x42; x5a; x20; x01; x00; x00; x00;
   x00; x00; x00; x00; x00; x00; x00; x00]%byte.

Example good_header :
  load_header (good_bytes ++ [xff]%byte) = Done (default_header, [xff]%byte).
Proof. reflexivity. Qed.

Example default_header_passes : check default_header = Done tt.
Proof. reflexivity. Qed.

Example bad_version :
  check {| tag := TAG; version := 2; flags := 0 |}
  = Fatal "GBZ: Expected v1, got v2".
Proof. reflexivity. Qed.

Example bad_flags :
  check {| tag := TAG; version := 1; flags := 4 |} = Fatal "GBZ: Invalid flags".
Proof. reflexivity. Qed.

End GBZExamples.

Module GBZFacts.
Import GBZ.

(** Under the empty mask a flag word passes exactly when it is zero. *)
Lemma flags_within_mask (f : Z) : Z.land f FLAG_MASK = f <-> f = 0.
Proof.
  unfold FLAG_MASK. rewrite Z.land_0_r. split; intros H; congruence.
Qed.

(** A flag word is outside the mask exactly when one of its bits is. *)
Lemma flags_outside_mask (f : Z) :
  Z.land f FLAG_MASK <> f <->
  exists i, 0 <= i /\ Z.testbit f i = true /\ Z.testbit FLAG_MASK i = false.
Proof.
  rewrite flags_within_mask. split.
  - intros Hf. destruct (Z.eq_dec f 0) as [|Hne]; [done|].
    destruct (Z.lt_ge_cases f 0) as [Hneg|Hpos].
    + (* a negative word has all high bits set *)
      exists (Z.succ (Z.log2 (Z.pred (- f)))). split.
      * pose proof (Z.log2_nonneg (Z.pred (- f))). lia.
      * split; [|apply Z.bits_0].
        apply Z.bits_above_log2_neg; [lia|]. lia.
    + exists (Z.log2 f). split; [apply Z.log2_nonneg|].
      split; [apply Z.bit_log2; lia | apply Z.bits_0].
  - intros (i & Hi & Hbit & _) ->. by rewrite Z.bits_0 in Hbit.
Qed.

(** The header check passes exactly for the magic 0x205A4247, the
    current version 1 and a zero flag word; it fails exactly when the magic
    differs, or the version differs, or some flag bit is set outside the
    (empty) mask. *)
Lemma header_check_iff (h : Header) :
  (check h = Done tt <->
     tag h = 0x205A4247 /\ version h = 1 /\ flags h = 0) /\
  ((exists msg, check h = Fatal msg) <->
     tag h <> 0x205A4247 \/ version h <> 1 \/
     exists i, 0 <= i /\ Z.testbit (flags h) i = true /\
               Z.testbit FLAG_MASK i = false).
Proof.
  pose proof (flags_outside_mask (flags h)) as Hout.
  pose proof (flags_within_mask (flags h)) as Hin.
  unfold check. change TAG with 0x205A4247. change VERSION with 1.
  destruct (decide (tag h <> 0x205A4247)) as [Ht|Ht].
  { split; split; try (intros H; discriminate H).
    - intros (? & _). done.
    - intros _. by left.
    - intros _. eauto. }
  destruct (decide (version h <> 1)) as [Hv|Hv].
  { split; split; try (intros H; discriminate H).
    - intros (_ & ? & _). done.
    - intros _. right. by left.
    - intros _. eauto. }
  assert (Et : tag h = 0x205A4247) by lia.
  assert (Ev : version h = 1) by lia.
  destruct (decide (version h = 1)) as [_|?]; [|done].
  destruct (decide (Z.land (flags h) FLAG_MASK <> flags h)) as [Hf|Hf].
  - split; split; try (intros H; discriminate H).
    + intros (_ & _ & Hz). apply Hin in Hz. done.
    + intros _. right. right. by apply Hout.
    + intros _. eauto.
  - assert (Ef : flags h = 0).
    { apply Hin. destruct (Z.eq_dec (Z.land (flags h) FLAG_MASK) (flags h)); done. }
    split; split; try done.
    + intros (msg & H). discriminate H.
    + intros [?|[?|Hbit]]; try done. apply Hout in Hbit. done.
Qed.

Section Loading.

Variables (Index Graph : Type).
Variable load_tags : list byte -> outcome (gmap string string * list byte).
Variable load_index : list byte -> outcome (Index * list byte).
Variable load_graph : list byte -> Index -> outcome (Graph * list byte).
Variable load_index_from : string -> outcome Index.
Variable deserialize_graph : string -> Index -> outcome Graph.

Local Abbreviation simple_sds_load :=
  (simple_sds_load Index Graph load_tags load_index load_graph).
Local Abbreviation load_from_files :=
  (load_from_files Index Graph load_index_from deserialize_graph).

(** Loading stops at a header that does not pass the check. *)
Lemma simple_sds_load_bad_header (this : t Index Graph) (input rest : list byte)
    (h : Header) :
  load_header input = Done (h, rest) ->
  check h <> Done tt ->
  exists msg, simple_sds_load this input = Fatal msg.
Proof.
  intros Hh Hc. unfold GBZ.simple_sds_load. rewrite Hh. simpl.
  destruct (check h) as [[]|msg]; [done|]. simpl. eauto.
Qed.

(** A successful load went through the header check, and its tags are the
    loaded ones with the source entry set. *)
Lemma simple_sds_load_inv (this this' : t Index Graph)
    (input rest : list byte) :
  simple_sds_load this input = Done (this', rest) ->
  exists h in1 tg in2,
    load_header input = Done (h, in1) /\ check h = Done tt /\
    load_tags in1 = Done (tg, in2) /\
    header this' = h /\
    tags this' = <[SOURCE_KEY := SOURCE_VALUE]> tg.
Proof.
  unfold GBZ.simple_sds_load. intros H.
  destruct (load_header input) as [[h in1]|]; simpl in H; [|done].
  destruct (check h) as [[]|] eqn:Hc; simpl in H; [|done].
  destruct (load_tags in1) as [[tg in2]|] eqn:Ht; simpl in H; [|done].
  destruct (load_index in2) as [[idx in3]|]; simpl in H; [|done].
  destruct (load_graph in3 idx) as [[g in4]|]; simpl in H; [|done].
  injection H as <- <-. exists h, in1, tg, in2. done.
Qed.

(** The header is invalid: the magic or the version differs, or a flag
    bit is set outside the mask. *)
Definition invalid (h : Header) : Prop :=
  tag h <> 0x205A4247 \/ version h <> 1 \/
  exists i, 0 <= i /\ Z.testbit (flags h) i = true /\
            Z.testbit FLAG_MASK i = false.

(** One of the delegated loaders fails on what follows the header. *)
Definition delegate_fails (rest : list byte) : Prop :=
  (exists msg, load_tags rest = Fatal msg) \/
  exists tg in2, load_tags rest = Done (tg, in2) /\
    ((exists msg, load_index in2 = Fatal msg) \/
     exists idx in3, load_index in2 = Done (idx, in3) /\
       exists msg, load_graph in3 idx = Fatal msg).

(** C3, amended: loading from a stream fails exactly when the sixteen
    bytes of the header cannot be read, or the header is invalid (the
    magic differs from 0x205A4247, or the version from 1, or a flag bit is
    set outside the mask 0), or the loader of the tags, of the index or of
    the graph fails on the rest of the stream.  A header with the magic,
    the current version and no flag passes the check, and only such a
    header; with any other header the load fails with the message of the
    check, before anything else is read. *)
Theorem simple_sds_load_fails_iff (this : t Index Graph)
    (input : list byte) :
  ((exists msg, simple_sds_load this input = Fatal msg) <->
     (length input < 16)%nat \/
     exists h rest, load_header input = Done (h, rest) /\
                    (invalid h \/ delegate_fails rest)) /\
  (forall h rest, load_header input = Done (h, rest) ->
     (check h = Done tt <->
        tag h = 0x205A4247 /\ version h = 1 /\ flags h = 0) /\
     (invalid h <->
        exists msg, check h = Fatal msg /\
                    simple_sds_load this input = Fatal msg)).
Proof.
  assert (Hcheck : forall h rest, load_header input = Done (h, rest) ->
            (check h = Done tt <->
               tag h = 0x205A4247 /\ version h = 1 /\ flags h = 0) /\
            (invalid h <->
               exists msg, check h = Fatal msg /\
                           simple_sds_load this input = Fatal msg)).
  { intros h rest Hh. destruct (header_check_iff h) as [Hpass Hfail].
    split; [exact Hpass|]. unfold invalid. rewrite <- Hfail. split.
    - intros [msg Hm]. exists msg. split; [done|].
      unfold GBZ.simple_sds_load. rewrite Hh. simpl. by rewrite Hm.
    - intros (msg & Hm & _). by exists msg. }
  split; [|exact Hcheck].
  destruct (load_header input) as [[h rest]|m0] eqn:Hh.
  2:{ unfold load_header in Hh. case_decide as Hshort; [|done].
      split; [intros _; by left|]. intros _.
      unfold GBZ.simple_sds_load, load_header.
      rewrite decide_True by done. simpl. eauto. }
  assert (Hlong : ~ (length input < 16)%nat).
  { unfold load_header in Hh. by case_decide. }
  destruct (Hcheck h rest eq_refl) as [_ Hinv].
  destruct (header_check_iff h) as [_ Hfail]. fold (invalid h) in Hfail.
  assert (Hright : (length input < 16)%nat \/
            (exists h' rest', Done (h, rest) = Done (h', rest') /\
               (invalid h' \/ delegate_fails rest')) <->
            invalid h \/ delegate_fails rest).
  { split.
    - intros [?|(h' & rest' & [= <- <-] & H)]; done.
    - intros H. right. by exists h, rest. }
  rewrite Hright. clear Hright.
  unfold GBZ.simple_sds_load. rewrite Hh. simpl.
  destruct (check h) as [[]|m] eqn:Hc; simpl.
  2:{ split; [intros _; left; apply Hfail; eauto | eauto]. }
  assert (Hvalid : ~ invalid h).
  { intros Hi. apply Hfail in Hi as [msg Hm]. done. }
  unfold delegate_fails.
  destruct (load_tags rest) as [[tg in2]|m1] eqn:Ht; simpl.
  2:{ split; [intros _; right; left; eauto | eauto]. }
  destruct (load_index in2) as [[idx in3]|m2] eqn:Hi; simpl.
  2:{ split; [|eauto]. intros _. right. right. exists tg, in2.
      split; [done|]. left. eauto. }
  destruct (load_graph in3 idx) as [[g in4]|m3] eqn:Hg; simpl.
  2:{ split; [|eauto]. intros _. right. right. exists tg, in2.
      split; [done|]. right. exists idx, in3. split; [done|]. eauto. }
  split; [by intros [? ?]|].
  intros [?|[[? ?]|(tg' & in2' & [= <- <-] & [[? Hx]|
    (idx' & in3' & Hy & [? Hz])])]]; try done.
  - rewrite Hi in Hx. done.
  - rewrite Hi in Hy. injection Hy as <- <-. rewrite Hg in Hz. done.
Qed.

Lemma load_from_files_inv (this this' : t Index Graph)
    (gbwt_name graph_name : string) :
  load_from_files this gbwt_name graph_name = Done this' ->
  tags this' = {[SOURCE_KEY := SOURCE_VALUE]}.
Proof.
  unfold GBZ.load_from_files. intros H.
  destruct (load_index_from gbwt_name) as [idx|]; simpl in H; [|done].
  destruct (deserialize_graph graph_name idx) as [g|]; simpl in H; [|done].
  injection H as <-. done.
Qed.

(** C4: after a load that succeeds, from a stream or from two files, the
    tags map "source" to "jltsiren/gbwtgraph", whatever the stream held
    under that key. *)
Theorem load_sets_source (this this' : t Index Graph)
    (input rest : list byte) (gbwt_name graph_name : string) :
  simple_sds_load this input = Done (this', rest) \/
  load_from_files this gbwt_name graph_name = Done this' ->
  tags this' !! "source"%string = Some "jltsiren/gbwtgraph"%string.
Proof.
  intros [H|H].
  - apply simple_sds_load_inv in H as (h & in1 & tg & in2 & _ & _ & _ & _ & ->).
    apply lookup_insert_eq.
  - apply load_from_files_inv in H as ->. apply lookup_singleton_eq.
Qed.

End Loading.

(** A stream that ends after a valid header, and loaders that fail at the
    end of the stream and accept anything else. *)
Definition at_end {A : Type} (what : string) (a : A) (input : list byte) :
    outcome (A * list byte) :=
  match input with
  | [] => Fatal ("Cannot read " +:+ what)
  | _ => Done (a, input)
  end.

Definition loaded_from_header_only : outcome (t unit unit * list byte) :=
  simple_sds_load unit unit
    (at_end "the tags" ∅) (at_end "the index" tt)
    (fun input _ => at_end "the graph" tt input)
    (mk default_header ∅ tt tt) GBZExamples.good_bytes.

(** C3, as stated, fails: the load of a stream that ends after a header
    with the magic, the current version and no flag fails, although the
    header is valid and passes the check. *)
Lemma load_fails_with_valid_header :
  load_header GBZExamples.good_bytes = Done (default_header, []) /\
  tag default_header = 0x205A4247 /\ version default_header = 1 /\
  flags default_header = 0 /\
  check default_header = Done tt /\
  loaded_from_header_only = Fatal "Cannot read the tags".
Proof. repeat split; reflexivity. Qed.

(** A stream whose tags name another source, and loaders that accept it. *)
Definition other_tags : gmap string string :=
  {[ "source"%string := "vgteam/vg"%string; "reference"%string := "GRCh38"%string ]}.

Definition loaded_from_stream : outcome (t unit unit * list byte) :=
  simple_sds_load unit unit
    (fun input => Done (other_tags, input))
    (fun input => Done (tt, input))
    (fun input _ => Done (tt, input))
    (mk default_header ∅ tt tt) GBZExamples.good_bytes.

Lemma load_sets_source_witness :
  exists this' : t unit unit,
    loaded_from_stream = Done (this', []) /\
    tags this' !! "source"%string = Some "jltsiren/gbwtgraph"%string /\
    tags this' !! "reference"%string = Some "GRCh38"%string.
Proof.
  eexists. split; [vm_compute; reflexivity|].
  split.
  - eapply (load_sets_source unit unit
              (fun input => Done (other_tags, input))
              (fun input => Done (tt, input))
              (fun input _ => Done (tt, input))
              (fun _ => Fatal "no file") (fun _ _ => Fatal "no file")
              (mk default_header ∅ tt tt) _ GBZExamples.good_bytes []
              "" "").
    left. vm_compute. reflexivity.
  - vm_compute. reflexivity.
Defined.

End GBZFacts.

(** ** The [subgraph_query] tool ([src/src/subgraph_query.cpp]) *)

Module Tool.

(** How a computation inside [main] can end: with a value, by [std::exit],
    by [ABSL_LOG(FATAL)] (message, then abort), by throwing a
    [std::runtime_error], or by throwing another exception (the
    [std::invalid_argument] and [std::out_of_range] of [std::stoul]). *)
Inductive effect (A : Type) : Type :=
| Value (a : A)
| Exit (status : Z)
| Abort (msg : string)
| Throw_runtime_error (what : string)
| Throw_other (what : string).

Arguments Value {A} a.
Arguments Exit {A} status.
Arguments Abort {A} msg.
Arguments Throw_runtime_error {A} what.
Arguments Throw_other {A} what.

#[global] Instance effect_bind : MBind effect :=
  fun A B (f : A -> effect B) (x : effect A) =>
    match x with
    | Value a => f a
    | Exit s => Exit s
    | Abort m => Abort m
    | Throw_runtime_error w => Throw_runtime_error w
    | Throw_other w => Throw_other w
    end.

(** How the process ends. *)
Inductive termination : Type :=
| Returned (status : Z)   (* [main] returned *)
| Exited (status : Z)     (* [std::exit] *)
| Aborted.                (* [abort] or [std::terminate] *)

Definition EXIT_SUCCESS : Z := 0.
Definition EXIT_FAILURE : Z := 1.

(** The exit status is zero. *)
Definition exit_status_zero (t : termination) : bool :=
  match t with
  | Returned s | Exited s => bool_decide (s = 0)
  | Aborted => false
  end.

Inductive QueryType : Type :=
| invalid_query | path_offset_query | path_interval_query | node_query.

Inductive HaplotypeOutput : Type :=
| all_haplotypes | distinct_haplotypes | reference_only.

#[global] Instance QueryType_eq_dec : EqDecision QueryType.
Proof. solve_decision. Defined.

(** [REFERENCE_PATH_SAMPLE_NAME] ([src/utils.cpp]). *)
Definition REFERENCE_PATH_SAMPLE_NAME : string := "_gbwt_ref".

Record Config : Type := mkConfig {
  graph_file : string;
  query_type : QueryType;
  haplotype_output : HaplotypeOutput;
  sample_name : string;
  contig_name : string;
  offset : Z;
  limit : Z;
  node_id : Z;
  context : Z
}.

(** The default member initializers of [Config]. *)
Definition initial_config : Config :=
  {| graph_file := ""; query_type := invalid_query;
     haplotype_output := all_haplotypes;
     sample_name := REFERENCE_PATH_SAMPLE_NAME; contig_name := "";
     offset := 0; limit := 0; node_id := 0; context := 100 |}.

(** The values [getopt_long] returns for the long options, and ['?']. *)
Inductive opt : Type :=
| OPT_SAMPLE | OPT_CONTIG | OPT_OFFSET | OPT_INTERVAL | OPT_NODE
| OPT_CONTEXT | OPT_DISTINCT | OPT_REFERENCE_ONLY | OPT_UNRECOGNIZED.

(** The command line as [getopt_long] scans it: the options in the order
    given, each with its [optarg], and the arguments left at [optind]. *)
Record command_line : Type := mkCommandLine {
  argc : Z;
  options : list (opt * string);
  positional : list string
}.

(** A query, as built by [SubgraphQuery::path_offset], [path_interval] and
    [node]. *)
Inductive query : Type :=
| PathOffset (path : Z) (offset context : Z) (output : HaplotypeOutput)
| PathInterval (path : Z) (offset limit context : Z) (output : HaplotypeOutput)
| Node (node_id context : Z) (output : HaplotypeOutput).

Section Main.

(** The collaborators: [std::stoul]; loading the container from a file;
    the metadata lookup [findPaths]; building the subgraph and writing it
    as GFA to the standard output. *)
Variable GBZ : Type.
Variable stoul : string -> effect Z.
Variable load_from : string -> effect GBZ.
Variable find_paths : GBZ -> string -> string -> list Z.
Variable extract_and_print : GBZ -> query -> effect unit.

Definition set_query_type (c : Config) (q : QueryType) : Config :=
  mkConfig (graph_file c) q (haplotype_output c) (sample_name c)
    (contig_name c) (offset c) (limit c) (node_id c) (context c).

Definition set_haplotype_output (c : Config) (h : HaplotypeOutput) : Config :=
  mkConfig (graph_file c) (query_type c) h (sample_name c)
    (contig_name c) (offset c) (limit c) (node_id c) (context c).

(** One round of the [switch] in the option loop of [Config::Config]. *)
Definition process_option (c : Config) (o : opt) (optarg : string) :
    effect Config :=
  match o with
  | OPT_SAMPLE =>
      Value (mkConfig (graph_file c) (query_type c) (haplotype_output c)
               optarg (contig_name c) (offset c) (limit c) (node_id c)
               (context c))
  | OPT_CONTIG =>
      Value (mkConfig (graph_file c) (query_type c) (haplotype_output c)
               (sample_name c) optarg (offset c) (limit c) (node_id c)
               (context c))
  | OPT_OFFSET =>
      let c := set_query_type c path_offset_query in
      n ← stoul optarg;
      Value (mkConfig (graph_file c) (query_type c) (haplotype_output c)
               (sample_name c) (contig_name c) n (limit c) (node_id c)
               (context c))
  | OPT_INTERVAL =>
      let c := set_query_type c path_interval_query in
      match String.index 0 ".." optarg with
      | None => Abort ("Invalid path interval: " +:+ optarg)
      | Some pos =>
          lo ← stoul (String.substring 0 pos optarg);
          hi ← stoul (String.substring (pos + 2)
                        (String.length optarg - (pos + 2)) optarg);
          Value (mkConfig (graph_file c) (query_type c) (haplotype_output c)
                   (sample_name c) (contig_name c) lo hi (node_id c)
                   (context c))
      end
  | OPT_NODE =>
      let c := set_query_type c node_query in
      n ← stoul optarg;
      (* [node_id] is a [nid_t]: the [unsigned long] is converted *)
      Value (mkConfig (graph_file c) (query_type c) (haplotype_output c)
               (sample_name c) (contig_name c) (offset c) (limit c)
               (Word.to_nid n) (context c))
  | OPT_CONTEXT =>
      n ← stoul optarg;
      Value (mkConfig (graph_file c) (query_type c) (haplotype_output c)
               (sample_name c) (contig_name c) (offset c) (limit c)
               (node_id c) n)
  | OPT_DISTINCT => Value (set_haplotype_output c distinct_haplotypes)
  | OPT_REFERENCE_ONLY => Value (set_haplotype_output c reference_only)
  | OPT_UNRECOGNIZED => Exit EXIT_FAILURE
  end.

(** The loop [while((c = getopt_long(...)) != -1)]. *)
Fixpoint process_options (c : Config) (opts : list (opt * string)) :
    effect Config :=
  match opts with
  | [] => Value c
  | (o, optarg) :: rest =>
      c' ← process_option c o optarg;
      process_options c' rest
  end.

(** [Config::Config]. *)
Definition make_config (cl : command_line) : effect Config :=
  if decide (argc cl < 2) then Exit EXIT_SUCCESS (* printUsage *)
  else
    c ← process_options initial_config (options cl);
    match positional cl with
    | [] => Abort "Missing graph file"
    | file :: _ =>
        let c := mkConfig file (query_type c) (haplotype_output c)
                   (sample_name c) (contig_name c) (offset c) (limit c)
                   (node_id c) (context c) in
        if decide (query_type c = invalid_query)
        then Abort "Path offset or interval or node id is required"
        else if decide ((query_type c = path_offset_query \/
                         query_type c = path_interval_query) /\
                        contig_name c = ""%string)
        then Abort "Contig name is required for path offset or interval"
        else Value c
    end.

(** [find_reference_path]. *)
Definition find_reference_path (gbz : GBZ) (c : Config) : effect Z :=
  match find_paths gbz (sample_name c) (contig_name c) with
  | [path] => Value path
  | paths =>
      Abort ("Found " +:+ pretty (length paths) +:+
             " reference paths for sample " +:+ sample_name c +:+
             ", contig " +:+ contig_name c)
  end.

(** [create_query]. *)
Definition create_query (gbz : GBZ) (c : Config) : effect query :=
  match query_type c with
  | path_offset_query =>
      path ← find_reference_path gbz c;
      Value (PathOffset path (offset c) (context c) (haplotype_output c))
  | path_interval_query =>
      path ← find_reference_path gbz c;
      Value (PathInterval path (offset c) (limit c) (context c)
               (haplotype_output c))
  | node_query => Value (Node (node_id c) (context c) (haplotype_output c))
  | invalid_query => Abort "Unknown query type"
  end.

(** The body of the [try] block of [main]. *)
Definition try_block (cl : command_line) : effect unit :=
  config ← make_config cl;
  gbz ← load_from (graph_file config);
  q ← create_query gbz config;
  extract_and_print gbz q.

(** The line with the running time and memory, whose numbers are not
    modelled. *)
Definition resources_line : string := "Used ... seconds, ... GiB".

Record run : Type := mkRun {
  how : termination;
  stderr : list string
}.

(** [main]: the [catch] clause handles [std::runtime_error] only, prints
    the prefix and an empty message, and falls through to the common end of
    [main], which returns 0. *)
Definition main (cl : command_line) : run :=
  match try_block cl with
  | Value _ => mkRun (Returned 0) [resources_line]
  | Throw_runtime_error _ =>
      mkRun (Returned 0) ["subgraph_query: " +:+ ""; resources_line]
  | Exit s => mkRun (Exited s) []
  | Abort msg => mkRun Aborted [msg]
  | Throw_other what => mkRun Aborted [what]
  end.

End Main.

End Tool.

Module ToolFacts.
Import Tool.

(** The query type an option selects, if it is one of the three query
    flags. *)
Definition query_flag (o : opt) : option QueryType :=
  match o with
  | OPT_OFFSET => Some path_offset_query
  | OPT_INTERVAL => Some path_interval_query
  | OPT_NODE => Some node_query
  | _ => None
  end.

(** The query type after the options [opts], starting from [q]: that of the
    last query flag among them. *)
Definition last_query_type (q : QueryType) (opts : list (opt * string)) :
    QueryType :=
  default q (last (omap (fun p => query_flag p.1) opts)).

(** A plain reading of decimal numbers, to run [main] on examples. *)
Definition digit (c : ascii) : option Z :=
  let n := Z.of_nat (nat_of_ascii c) in
  if decide (48 <= n <= 57) then Some (n - 48) else None.

Fixpoint decimal_from (acc : Z) (s : string) : option Z :=
  match s with
  | EmptyString => Some acc
  | String c rest =>
      match digit c with
      | Some d => decimal_from (10 * acc + d) rest
      | None => None
      end
  end.

Definition stoul_decimal (s : string) : effect Z :=
  match s with
  | EmptyString => Throw_other "stoul"
  | _ =>
      match decimal_from 0 s with
      | Some n => if decide (n < 2 ^ 64) then Value n else Throw_other "stoul"
      | None => Throw_other "stoul"
      end
  end.

(** An environment without the graph file: opening it fails, and the
    loader of the succinct library throws its [CannotOpenFile], a
    [std::runtime_error]. *)
Definition no_such_file (file : string) : effect unit :=
  Throw_runtime_error ("Cannot open file " +:+ file).

Definition main_without_file : command_line -> run :=
  main unit stoul_decimal no_such_file (fun _ _ _ => [0])
    (fun _ _ => Value tt).

Definition main_with_file : command_line -> run :=
  main unit stoul_decimal (fun _ => Value tt) (fun _ _ _ => [0])
    (fun _ _ => Value tt).

(** [subgraph_query --node 1 missing.gbz] *)
Definition node_query_line : command_line :=
  {| argc := 4; options := [(OPT_NODE, "1"%string)];
     positional := ["missing.gbz"%string] |}.

Section Main.

Variable GBZ : Type.
Variable stoul : string -> effect Z.
Variable load_from : string -> effect GBZ.
Variable find_paths : GBZ -> string -> string -> list Z.
Variable extract_and_print : GBZ -> query -> effect unit.

Local Abbreviation process_option := (process_option stoul).
Local Abbreviation process_options := (process_options stoul).
Local Abbreviation try_block :=
  (try_block GBZ stoul load_from find_paths extract_and_print).
Local Abbreviation main :=
  (main GBZ stoul load_from find_paths extract_and_print).

Lemma process_option_query_type (c c' : Config) (o : opt) (optarg : string) :
  process_option c o optarg = Value c' ->
  query_type c' = default (query_type c) (query_flag o).
Proof.
  destruct o; simpl; intros H;
    repeat match type of H with
           | context [stoul ?s] => destruct (stoul s); simpl in H
           | context [String.index ?a ?b ?s] =>
               destruct (String.index a b s); simpl in H
           end;
    try discriminate H; injection H as <-; reflexivity.
Qed.

(** When several query flags are given, the last one decides the query
    type. *)
Lemma query_type_last_flag (opts : list (opt * string)) :
  forall c c' : Config,
    process_options c opts = Value c' ->
    query_type c' = last_query_type (query_type c) opts.
Proof.
  induction opts as [|[o optarg] opts IH]; intros c c' H; simpl in H.
  - injection H as <-. reflexivity.
  - destruct (process_option c o optarg) as [c1| | | |] eqn:Ho;
      simpl in H; try discriminate H.
    apply process_option_query_type in Ho.
    rewrite (IH _ _ H), Ho. unfold last_query_type.
    set (l := omap (fun p : opt * string => query_flag p.1) opts).
    change (omap (fun p : opt * string => query_flag p.1) ((o, optarg) :: opts))
      with (match query_flag o with Some q => q :: l | None => l end).
    destruct (query_flag o) as [q|]; simpl; [|reflexivity].
    rewrite last_cons. destruct (last l); reflexivity.
Qed.

(** Whenever [main] returns, it returns 0. *)
Lemma main_returns_zero (cl : command_line) (s : Z) :
  how (main cl) = Returned s -> s = 0.
Proof.
  unfold Tool.main. destruct (try_block cl); simpl; congruence.
Qed.

(** A [std::runtime_error] thrown in the [try] block ends in exit status 0,
    with an empty message after the prefix. *)
Lemma main_runtime_error (cl : command_line) (what : string) :
  try_block cl = Throw_runtime_error what ->
  main cl = mkRun (Returned 0) ["subgraph_query: "%string; resources_line].
Proof. unfold Tool.main. intros ->. reflexivity. Qed.

(** A fatal log message ends in an abort, with the message on the standard
    error stream. *)
Lemma main_fatal (cl : command_line) (msg : string) :
  try_block cl = Abort msg -> main cl = mkRun Aborted [msg].
Proof. unfold Tool.main. intros ->. reflexivity. Qed.

End Main.

Example last_flag_wins :
  process_options stoul_decimal initial_config
    [(OPT_OFFSET, "5"); (OPT_NODE, "7"); (OPT_INTERVAL, "10..20")]%string
  = Value (mkConfig "" path_interval_query all_haplotypes "_gbwt_ref" ""
             10 20 7 100).
Proof. reflexivity. Qed.

Example success_exits_zero :
  main_with_file node_query_line = mkRun (Returned 0) [resources_line].
Proof. reflexivity. Qed.

Example missing_query_aborts :
  main_with_file {| argc := 2; options := [];
                    positional := ["graph.gbz"%string] |}
  = mkRun Aborted ["Path offset or interval or node id is required"%string].
Proof. reflexivity. Qed.

Example bad_number_aborts :
  how (main_with_file {| argc := 4; options := [(OPT_NODE, "x"%string)];
                         positional := ["graph.gbz"%string] |}) = Aborted.
Proof. reflexivity. Qed.

(** C2 fails on the code: when the graph file cannot be opened, the loader
    throws a [std::runtime_error]; [main] catches it, prints
    ["subgraph_query: "] followed by an empty message, and returns 0. *)
Theorem main_exit_status_on_load_failure :
  main_without_file node_query_line
    = mkRun (Returned 0) ["subgraph_query: "%string; resources_line] /\
  exit_status_zero (how (main_without_file node_query_line)) = true.
Proof. split; reflexivity. Qed.

End ToolFacts.

(** ** Construction jobs ([src/src/algorithms.cpp]) *)

Module Jobs.
Import Word.

(** Modelled from the spec: [ConstructionJobs] is declared in
    [algorithms.h], which is not among the sources.  By the data model it
    holds the ordered components, the maps [node_to_component] and
    [component_to_job], and the number of nodes of each job; [size()] is
    the number of jobs and [components()] the number of components. *)
Record ConstructionJobs : Type := mk {
  nodes_per_job : list Z;
  weakly_connected_components : list (list Z);
  node_to_component : gmap Z Z;
  component_to_job : gmap Z Z
}.

Definition size (jobs : ConstructionJobs) : Z :=
  Z.of_nat (length (nodes_per_job jobs)).

Definition components (jobs : ConstructionJobs) : Z :=
  Z.of_nat (length (weakly_connected_components jobs)).

(** [v.back()], for a non-empty vector. *)
Definition back (v : list Z) : Z := default 0 (last v).

(** [v.back() += n]. *)
Definition add_to_back (v : list Z) (n : Z) : list Z :=
  alter (fun x => wrap64 (x + n)) (length v - 1)%nat v.

(** The body of the loop of [gbwt_construction_jobs] for component [i]. *)
Definition assign_component (size_bound : Z) (jobs : ConstructionJobs)
    (i : Z) (component : list Z) : ConstructionJobs :=
  let csize := Z.of_nat (length component) in
  let npj :=
    if decide (nodes_per_job jobs = [] \/
               wrap64 (back (nodes_per_job jobs) + csize) > size_bound)
    then nodes_per_job jobs ++ [0]
    else nodes_per_job jobs in
  let npj := add_to_back npj csize in
  {| nodes_per_job := npj;
     weakly_connected_components := weakly_connected_components jobs;
     node_to_component :=
       foldl (fun m node_id => <[node_id := i]> m)
         (node_to_component jobs) component;
     component_to_job :=
       <[i := wrap64 (Z.of_nat (length npj) - 1)]> (component_to_job jobs) |}.

(** The loop [for(size_t i = 0; i < jobs.components(); i++)], from
    component [i] on. *)
Fixpoint assign_components (size_bound : Z) (jobs : ConstructionJobs)
    (i : Z) (comps : list (list Z)) : ConstructionJobs :=
  match comps with
  | [] => jobs
  | component :: rest =>
      assign_components size_bound
        (assign_component size_bound jobs i component) (i + 1) rest
  end.

(** [gbwt_construction_jobs], given the components of the graph. *)
Definition construction_jobs (comps : list (list Z)) (size_bound : Z) :
    ConstructionJobs :=
  assign_components size_bound
    {| nodes_per_job := []; weakly_connected_components := comps;
       node_to_component := ∅; component_to_job := ∅ |}
    0 comps.

(** [ConstructionJobs::job_for_component]. *)
Definition job_for_component (jobs : ConstructionJobs) (i : Z) : option Z :=
  component_to_job jobs !! i.

(** The number of nodes in a list of components. *)
Definition total_nodes (comps : list (list Z)) : Z :=
  foldr (fun c n => Z.of_nat (length c) + n) 0 comps.

End Jobs.

Module JobsExamples.
Import Jobs.

Definition five : list (list Z) := [[1; 2]; [3]; [4; 5; 6]; [7]; [8]].

Example jobs_of_five :
  nodes_per_job (construction_jobs five 3) = [3; 3; 2] /\
  map (job_for_component (construction_jobs five 3)) [0; 1; 2; 3; 4]
  = [Some 0; Some 0; Some 1; Some 2; Some 2].
Proof. split; vm_compute; reflexivity. Qed.

Example one_job :
  nodes_per_job (construction_jobs five 100) = [8].
Proof. vm_compute; reflexivity. Qed.

Example bound_zero :
  nodes_per_job (construction_jobs five 0) = [2; 1; 3; 1; 1].
Proof. vm_compute; reflexivity. Qed.

End JobsExamples.

Module JobsFacts.
Import Word Jobs.

Definition zsum (l : list Z) : Z := foldr Z.add 0 l.

(** The state of the loop after the first [k] components. *)
Definition jobs_after (comps : list (list Z)) (size_bound : Z) (k : nat) :
    ConstructionJobs :=
  assign_components size_bound
    {| nodes_per_job := []; weakly_connected_components := comps;
       node_to_component := ∅; component_to_job := ∅ |}
    0 (take k comps).

(** A component fits in the last job. *)
Definition fits (size_bound : Z) (jobs : ConstructionJobs) (c : list Z) : Prop :=
  nodes_per_job jobs <> [] /\
  back (nodes_per_job jobs) + Z.of_nat (length c) <= size_bound.

Lemma zsum_app (l1 l2 : list Z) : zsum (l1 ++ l2) = zsum l1 + zsum l2.
Proof. induction l1 as [|x l1 IH]; simpl; [done | rewrite IH; lia]. Qed.

Lemma zsum_nonneg (l : list Z) : Forall (fun x => 0 <= x) l -> 0 <= zsum l.
Proof. induction 1; simpl; lia. Qed.

Lemma total_nodes_app (l1 l2 : list (list Z)) :
  total_nodes (l1 ++ l2) = total_nodes l1 + total_nodes l2.
Proof.
  unfold total_nodes. induction l1 as [|x l1 IH]; simpl; [done | rewrite IH; lia].
Qed.

Lemma total_nodes_nonneg (l : list (list Z)) : 0 <= total_nodes l.
Proof. unfold total_nodes. induction l; simpl; lia. Qed.

Lemma back_snoc (front : list Z) (b : Z) : back (front ++ [b]) = b.
Proof. unfold back. by rewrite last_snoc. Qed.

Lemma add_to_back_snoc (front : list Z) (b n : Z) :
  add_to_back (front ++ [b]) n = front ++ [wrap64 (b + n)].
Proof.
  unfold add_to_back. rewrite length_app. simpl.
  replace (length front + 1 - 1)%nat with (length front + 0)%nat by lia.
  by rewrite alter_app_r.
Qed.

(** The job sizes after one round, as long as the sizes do not wrap. *)
Lemma assign_component_nodes_per_job (size_bound : Z)
    (jobs : ConstructionJobs) (i : Z) (c : list Z) :
  Forall (fun x => 0 <= x) (nodes_per_job jobs) ->
  zsum (nodes_per_job jobs) + Z.of_nat (length c) < modulus64 ->
  (fits size_bound jobs c ->
     exists front,
       nodes_per_job jobs = front ++ [back (nodes_per_job jobs)] /\
       nodes_per_job (assign_component size_bound jobs i c) =
         front ++ [back (nodes_per_job jobs) + Z.of_nat (length c)]) /\
  (~ fits size_bound jobs c ->
     nodes_per_job (assign_component size_bound jobs i c) =
       nodes_per_job jobs ++ [Z.of_nat (length c)]).
Proof.
  intros Hpos Hsum. unfold fits, assign_component. simpl.
  destruct (nodes_per_job jobs) as [|x l] eqn:E using rev_ind.
  - rewrite decide_True by (by left). split; [intros [? _]; done|].
    intros _. simpl. unfold add_to_back. simpl.
    change (zsum []) with 0 in Hsum.
    rewrite wrap64_small by lia. done.
  - clear IHl. rewrite back_snoc.
    rewrite zsum_app in Hsum. simpl in Hsum.
    apply Forall_app in Hpos as [Hl Hx].
    rewrite Forall_singleton in Hx. pose proof (zsum_nonneg l Hl).
    rewrite (wrap64_small (x + _)) by lia.
    split.
    + intros [_ Hle]. rewrite decide_False.
      2:{ intros [Hnil|Hgt]; [by destruct l | lia]. }
      exists l. split; [done|]. rewrite add_to_back_snoc.
      rewrite wrap64_small by lia. done.
    + intros Hno. rewrite decide_True.
      2:{ right. destruct (Z.le_gt_cases (x + Z.of_nat (length c)) size_bound);
          [|lia]. exfalso. apply Hno. split; [by destruct l | done]. }
      rewrite add_to_back_snoc. rewrite wrap64_small by lia.
      by rewrite Z.add_0_l.
Qed.

Lemma assign_components_snoc (size_bound : Z) (l : list (list Z)) (c : list Z) :
  forall (jobs : ConstructionJobs) (i : Z),
    assign_components size_bound jobs i (l ++ [c]) =
      assign_component size_bound (assign_components size_bound jobs i l)
        (i + Z.of_nat (length l)) c.
Proof.
  induction l as [|x l IH]; intros jobs i; simpl.
  - by rewrite Z.add_0_r.
  - rewrite IH.
    replace (i + 1 + Z.of_nat (length l))
      with (i + Z.of_nat (S (length l))) by lia.
    done.
Qed.

Lemma jobs_after_S (comps : list (list Z)) (size_bound : Z) (k : nat)
    (c : list Z) :
  comps !! k = Some c ->
  jobs_after comps size_bound (S k) =
    assign_component size_bound (jobs_after comps size_bound k)
      (Z.of_nat k) c.
Proof.
  intros Hk. unfold jobs_after. rewrite (take_S_r _ _ _ Hk).
  rewrite assign_components_snoc, Z.add_0_l.
  rewrite length_take_le; [done|]. apply lookup_lt_Some in Hk. lia.
Qed.

Lemma jobs_after_all (comps : list (list Z)) (size_bound : Z) :
  jobs_after comps size_bound (length comps) =
    construction_jobs comps size_bound.
Proof. unfold jobs_after, construction_jobs. by rewrite firstn_all. Qed.

Lemma assign_component_job (size_bound : Z) (jobs : ConstructionJobs)
    (i : Z) (c : list Z) :
  component_to_job (assign_component size_bound jobs i c) =
    <[i := wrap64 (Z.of_nat (length (nodes_per_job
                     (assign_component size_bound jobs i c))) - 1)]>
      (component_to_job jobs).
Proof. reflexivity. Qed.

Lemma total_nodes_take_S (comps : list (list Z)) (k : nat) (c : list Z) :
  comps !! k = Some c ->
  total_nodes (take (S k) comps) =
    total_nodes (take k comps) + Z.of_nat (length c).
Proof.
  intros Hk. rewrite (take_S_r _ _ _ Hk), total_nodes_app.
  unfold total_nodes at 2. simpl. lia.
Qed.

Lemma total_nodes_take_le (comps : list (list Z)) (k : nat) :
  total_nodes (take k comps) <= total_nodes comps.
Proof.
  rewrite <- (take_drop k comps) at 2. rewrite total_nodes_app.
  pose proof (total_nodes_nonneg (drop k comps)). lia.
Qed.

(** What holds after [k] rounds of the loop. *)
Record invariant (comps : list (list Z)) (k : nat)
    (jobs : ConstructionJobs) : Prop := {
  inv_nonneg : Forall (fun x => 0 <= x) (nodes_per_job jobs);
  inv_sum : zsum (nodes_per_job jobs) = total_nodes (take k comps);
  inv_count : Z.of_nat (length (nodes_per_job jobs)) <= Z.of_nat k;
  inv_some : forall i, 0 <= i < Z.of_nat k ->
    exists j, component_to_job jobs !! i = Some j /\
              0 <= j < Z.of_nat (length (nodes_per_job jobs));
  inv_none : forall i, ~ (0 <= i < Z.of_nat k) ->
    component_to_job jobs !! i = None;
  inv_last : (0 < k)%nat ->
    component_to_job jobs !! (Z.of_nat k - 1) =
      Some (Z.of_nat (length (nodes_per_job jobs)) - 1);
  inv_first : (0 < k)%nat -> component_to_job jobs !! 0 = Some 0;
  inv_step : forall i j j',
    component_to_job jobs !! i = Some j ->
    component_to_job jobs !! (i + 1) = Some j' ->
    j' = j \/ j' = j + 1
}.

Section Binning.

Variables (comps : list (list Z)) (size_bound : Z).

Hypothesis nodes_fit : total_nodes comps < modulus64.
Hypothesis components_fit : Z.of_nat (length comps) < modulus64.

Local Abbreviation after := (jobs_after comps size_bound).

Lemma invariant_after (k : nat) :
  (k <= length comps)%nat -> invariant comps k (after k).
Proof.
  induction k as [|k IH]; intros Hk.
  - split; simpl; first [done | lia | (intros; lia)].
  - destruct (lookup_lt_is_Some_2 comps k ltac:(lia)) as [c Hc].
    specialize (IH ltac:(lia)). destruct IH as [P1 P2 P3 P4 P5 P6 P7 P8].
    pose proof (total_nodes_take_S comps k c Hc) as Htot.
    pose proof (total_nodes_take_le comps (S k)) as Hle.
    pose proof (zsum_nonneg _ P1) as Hnn.
    destruct (assign_component_nodes_per_job size_bound (after k)
                (Z.of_nat k) c P1 ltac:(lia)) as [Hfit Hnew].
    pose proof (assign_component_job size_bound (after k) (Z.of_nat k) c)
      as Hjob.
    rewrite <- (jobs_after_S comps size_bound k c Hc) in Hfit, Hnew, Hjob.
    set (n := Z.of_nat (length c)) in *.
    assert (Hcases :
      exists npj',
        nodes_per_job (after (S k)) = npj' /\
        Forall (fun x => 0 <= x) npj' /\
        zsum npj' = zsum (nodes_per_job (after k)) + n /\
        (length npj' = length (nodes_per_job (after k)) /\
         (0 < k)%nat /\ nodes_per_job (after k) <> [] \/
         length npj' = S (length (nodes_per_job (after k))))).
    { destruct (decide (fits size_bound (after k) c)) as [Hf|Hf].
      - destruct (Hfit Hf) as (front & E1 & E2).
        remember (back (nodes_per_job (after k))) as b eqn:Eb. clear Eb.
        exists (front ++ [b + n]). split; [exact E2|].
        rewrite E1 in P1, P3 |- *.
        apply Forall_app in P1 as [Q1 Q2]. rewrite Forall_singleton in Q2.
        split; [apply Forall_app; split; [done|]; apply Forall_singleton; lia|].
        split; [rewrite !zsum_app; simpl; lia|].
        left. rewrite !length_app. simpl. split; [done|].
        split; [|by destruct front].
        rewrite length_app in P3. simpl in P3. lia.
      - eexists; split; [exact (Hnew Hf)|].
        split; [apply Forall_app; split; [done|]; apply Forall_singleton; lia|].
        split; [rewrite zsum_app; simpl; lia|].
        right. rewrite length_app. simpl. lia. }
    destruct Hcases as (npj' & E & Q1 & Q2 & Q3).
    rewrite E in Hjob.
    assert (Hlen : 0 < Z.of_nat (length npj') <= Z.of_nat (S k)).
    { destruct Q3 as [(Q & Hk0 & Hne)|Q]; rewrite Q; [|lia].
      assert (length (nodes_per_job (after k)) <> 0%nat)
        by (by destruct (nodes_per_job (after k))).
      lia. }
    rewrite wrap64_small in Hjob by lia.
    split; rewrite ?E, ?Hjob.
    + exact Q1.
    + lia.
    + lia.
    + intros i Hi. destruct (decide (i = Z.of_nat k)) as [->|Hne].
      * rewrite lookup_insert_eq. eexists; split; [done | lia].
      * rewrite lookup_insert_ne by done.
        destruct (P4 i ltac:(lia)) as (j & Hj & Hjr).
        exists j. split; [done|]. destruct Q3 as [(Q & _)|Q]; rewrite Q; lia.
    + intros i Hi. rewrite lookup_insert_ne by lia. apply P5. lia.
    + intros _. replace (Z.of_nat (S k) - 1) with (Z.of_nat k) by lia.
      by rewrite lookup_insert_eq.
    + intros _. destruct k as [|k'].
      * simpl. rewrite lookup_insert_eq. f_equal.
        destruct Q3 as [(_ & Hk0 & _)|Q]; [lia|].
        rewrite Q. lia.
      * rewrite lookup_insert_ne by lia. apply P7. apply Nat.lt_0_succ.
    + intros i j j' Hi Hi'.
      destruct (decide (i + 1 = Z.of_nat k)) as [Hk1|Hk1].
      * rewrite Hk1, lookup_insert_eq in Hi'. injection Hi' as <-.
        rewrite lookup_insert_ne in Hi by lia.
        destruct (decide (0 < k)%nat) as [Hk0|Hk0].
        2:{ rewrite P5 in Hi by lia. done. }
        replace i with (Z.of_nat k - 1) in Hi by lia.
        rewrite (P6 Hk0) in Hi. injection Hi as <-.
        destruct Q3 as [(Q & _)|Q]; rewrite Q; lia.
      * rewrite lookup_insert_ne in Hi' by done.
        destruct (decide (i = Z.of_nat k)) as [->|Hik].
        -- rewrite P5 in Hi' by lia. done.
        -- rewrite lookup_insert_ne in Hi by done. eauto.
Qed.

(** Later rounds do not change the job of an earlier component. *)
Lemma job_stable (k k' : nat) (i : Z) :
  (k <= k')%nat -> (k' <= length comps)%nat -> i < Z.of_nat k ->
  component_to_job (after k') !! i = component_to_job (after k) !! i.
Proof.
  intros Hkk. induction Hkk as [|k' Hkk IH]; intros Hk' Hi; [done|].
  destruct (lookup_lt_is_Some_2 comps k' ltac:(lia)) as [c Hc].
  rewrite (jobs_after_S comps size_bound k' c Hc), assign_component_job.
  rewrite lookup_insert_ne by lia. apply IH; lia.
Qed.

End Binning.

Lemma assign_components_keeps (size_bound : Z) (l : list (list Z)) :
  forall (jobs : ConstructionJobs) (i : Z),
    weakly_connected_components (assign_components size_bound jobs i l) =
      weakly_connected_components jobs.
Proof. induction l as [|c l IH]; intros jobs i; simpl; [done | by rewrite IH]. Qed.

(** C8: binning the ordered components with size bound B (the components
    holding fewer than 2^64 nodes in all).  Each component joins the last
    job exactly when there is one and its node count plus the size of the
    component is at most B; otherwise the component starts a new job.  The
    job of the first component is 0 and the job of the next component is
    the same or the next one, so a job covers a contiguous range of
    components; and [component_to_job[i]] is less than the number of
    jobs. *)
Theorem construction_jobs_binning (comps : list (list Z)) (size_bound : Z) :
  total_nodes comps < modulus64 ->
  Z.of_nat (length comps) < modulus64 ->
  let jobs := construction_jobs comps size_bound in
  (forall (k : nat) (c : list Z), comps !! k = Some c ->
     let before := jobs_after comps size_bound k in
     let after := jobs_after comps size_bound (S k) in
     (fits size_bound before c ->
        exists front,
          nodes_per_job before = front ++ [back (nodes_per_job before)] /\
          nodes_per_job after =
            front ++ [back (nodes_per_job before) + Z.of_nat (length c)]) /\
     (~ fits size_bound before c ->
        nodes_per_job after = nodes_per_job before ++ [Z.of_nat (length c)]) /\
     job_for_component jobs (Z.of_nat k) = Some (size after - 1)) /\
  (forall i, 0 <= i < components jobs ->
     exists j, job_for_component jobs i = Some j /\ 0 <= j < size jobs) /\
  (comps <> [] -> job_for_component jobs 0 = Some 0) /\
  (forall i j j',
     job_for_component jobs i = Some j ->
     job_for_component jobs (i + 1) = Some j' ->
     j' = j \/ j' = j + 1).
Proof.
  intros Hnodes Hcomps jobs.
  pose proof (invariant_after comps size_bound Hnodes Hcomps (length comps)
                ltac:(lia)) as Hfinal.
  rewrite jobs_after_all in Hfinal. fold jobs in Hfinal.
  destruct Hfinal as [F1 F2 F3 F4 F5 F6 F7 F8].
  assert (Hc : components jobs = Z.of_nat (length comps)).
  { unfold components, jobs, construction_jobs.
    by rewrite assign_components_keeps. }
  split; [|split; [|split]].
  - intros k c Hk before after. subst before after.
    assert (Hlt : (k < length comps)%nat) by (by eapply lookup_lt_Some).
    pose proof (invariant_after comps size_bound Hnodes Hcomps k
                  ltac:(lia)) as [P1 P2 P3 P4 P5 P6 P7 P8].
    pose proof (invariant_after comps size_bound Hnodes Hcomps (S k)
                  ltac:(lia)) as [S1 S2 S3 S4 S5 S6 S7 S8].
    pose proof (total_nodes_take_S comps k c Hk) as Htot.
    pose proof (total_nodes_take_le comps (S k)) as Hle.
    destruct (assign_component_nodes_per_job size_bound
                (jobs_after comps size_bound k)
                (Z.of_nat k) c P1 ltac:(lia)) as [Hfit Hnew].
    rewrite <- (jobs_after_S comps size_bound k c Hk) in Hfit, Hnew.
    split; [exact Hfit|]. split; [exact Hnew|].
    unfold job_for_component, jobs.
    rewrite <- jobs_after_all.
    rewrite (job_stable comps size_bound (S k) (length comps)) by lia.
    specialize (S6 ltac:(lia)).
    replace (Z.of_nat (S k) - 1) with (Z.of_nat k) in S6 by lia.
    exact S6.
  - intros i Hi. rewrite Hc in Hi. apply F4. exact Hi.
  - intros Hne. apply F7. destruct comps; [done | simpl; lia].
  - exact F8.
Qed.

Lemma construction_jobs_binning_witness :
  total_nodes JobsExamples.five < modulus64 /\
  exists j,
    job_for_component (construction_jobs JobsExamples.five 3) 4 = Some j /\
    0 <= j < size (construction_jobs JobsExamples.five 3).
Proof.
  assert (H1 : total_nodes JobsExamples.five < modulus64) by reflexivity.
  assert (H2 : Z.of_nat (length JobsExamples.five) < modulus64) by reflexivity.
  split; [exact H1|].
  destruct (construction_jobs_binning JobsExamples.five 3 H1 H2)
    as (_ & Hbound & _).
  apply Hbound. split; [done | reflexivity].
Defined.

End JobsFacts.

(** ** Handle graphs

    Modelled from the spec: the [HandleGraph] interface belongs to an
    external library.  A handle stands for a node id and an orientation,
    [follow_edges] visits the neighbours of a handle on its right or, with
    [go_left], on its left, [for_each_handle] visits the forward handle of
    every node, and [get_degree] counts the neighbours on one side. *)

Module Graph.

Record handle_t : Type := mkHandle {
  get_id : Z;
  get_is_reverse : bool
}.

#[global] Instance handle_eq_dec : EqDecision handle_t.
Proof. solve_decision. Defined.

#[global] Instance handle_countable : Countable handle_t.
Proof.
  refine (inj_countable' (fun h => (get_id h, get_is_reverse h))
            (fun p => mkHandle p.1 p.2) _).
  intros []. reflexivity.
Defined.

Definition flip (h : handle_t) : handle_t :=
  mkHandle (get_id h) (negb (get_is_reverse h)).

Record HandleGraph : Type := mkGraph {
  has_node : Z -> bool;
  min_node_id : Z;
  max_node_id : Z;
  (** the node ids in the order of [for_each_handle] *)
  node_ids : list Z;
  (** the handles [follow_edges(h, go_left, _)] visits, in order *)
  follow_edges : handle_t -> bool -> list handle_t
}.

Definition get_handle (node_id : Z) (is_reverse : bool) : handle_t :=
  mkHandle node_id is_reverse.

Definition get_degree (g : HandleGraph) (h : handle_t) (go_left : bool) : Z :=
  Z.of_nat (length (follow_edges g h go_left)).

(** [u -> v] is an edge: a traversal of [u] may be followed by [v]. *)
Definition edge (g : HandleGraph) (u v : handle_t) : Prop :=
  v ∈ follow_edges g u false.

(** The number of times [x] occurs in [l]. *)
Definition occ {A : Type} `{EqDecision A} (x : A) (l : list A) : nat :=
  length (filter (fun y => y = x) l).

(** The two directions of [follow_edges] describe the same edges: [u] is
    visited on the left of [v] as often as [v] on the right of [u]. *)
Definition consistent (g : HandleGraph) : Prop :=
  forall u v : handle_t,
    occ u (follow_edges g v true) = occ v (follow_edges g u false).

(** Degrees are [size_t] values. *)
Definition degrees_fit (g : HandleGraph) : Prop :=
  forall (h : handle_t) (go_left : bool),
    Z.of_nat (length (follow_edges g h go_left)) < Word.modulus64.

(** A graph given by its node ids and its edges, with every edge stored
    once; the edge [(a, b)] stands for [(flip b, flip a)] as well. *)
Definition of_edges (ids : list Z) (edges : list (handle_t * handle_t)) :
    HandleGraph :=
  let all := edges ++ map (fun e => (flip e.2, flip e.1)) edges in
  {| has_node := fun n => bool_decide (n ∈ ids);
     min_node_id := foldr Z.min (default 0 (head ids)) ids;
     max_node_id := foldr Z.max (default 0 (head ids)) ids;
     node_ids := ids;
     follow_edges := fun h go_left =>
       if go_left
       then map fst (filter (fun e => e.2 = h) all)
       else map snd (filter (fun e => e.1 = h) all) |}.

End Graph.

(** ** Topological order ([src/src/algorithms.cpp]) *)

Module TopologicalOrder.
Import Word Graph.

(** The state of [topological_order]. *)
Record state : Type := mkState {
  indegrees : gmap handle_t Z;
  active : list handle_t;   (* the stack, top first *)
  result : list handle_t
}.

Section Algorithm.

Variable graph : HandleGraph.

(** The order in which an [std::unordered_map] with the given keys (in
    insertion order) is iterated; it is unspecified. *)
Variable map_order : list handle_t -> list handle_t.

(** The first loop: both handles of every node of the subgraph that is in
    the graph, in the iteration order of the set. *)
Definition inserted (subgraph : list Z) : list handle_t :=
  flat_map (fun node => [get_handle node false; get_handle node true])
    (filter (fun node => has_node graph node = true) subgraph).

Definition missing_nodes (subgraph : list Z) : Z :=
  Z.of_nat (length (filter (fun node => has_node graph node <> true) subgraph)).

(** The callback of the second loop: count a predecessor that is in the
    map. *)
Definition count_predecessor (indeg : gmap handle_t Z) (d : Z)
    (next : handle_t) : Z :=
  if decide (is_Some (indeg !! next)) then wrap64 (d + 1) else d.

(** One round of the second loop, for the key [h]. *)
Definition determine_indegree (st : state) (h : handle_t) : state :=
  let d := foldl (count_predecessor (indegrees st))
             (default 0 (indegrees st !! h)) (follow_edges graph h true) in
  let indeg := <[h := d]> (indegrees st) in
  if decide (d = 0)
  then {| indegrees := indeg; active := h :: active st;
          result := result st ++ [h] |}
  else {| indegrees := indeg; active := active st; result := result st |}.

(** The callback of the third loop. *)
Definition relax (st : state) (next : handle_t) : state :=
  match indegrees st !! next with
  | None => st
  | Some d =>
      let d' := wrap64 (d - 1) in
      let indeg := <[next := d']> (indegrees st) in
      if decide (d' = 0)
      then {| indegrees := indeg; active := next :: active st;
              result := result st ++ [next] |}
      else {| indegrees := indeg; active := active st; result := result st |}
  end.

(** The third loop, [while(!(active.empty()))]. *)
Fixpoint follow_active (fuel : nat) (st : state) : option state :=
  match fuel with
  | O => None
  | S fuel' =>
      match active st with
      | [] => Some st
      | curr :: rest =>
          follow_active fuel'
            (foldl relax
               {| indegrees := indegrees st; active := rest;
                  result := result st |}
               (follow_edges graph curr false))
      end
  end.

(** [topological_order]; [subgraph] lists the set in its iteration
    order. *)
Definition topological_order (fuel : nat) (subgraph : list Z) :
    option (list handle_t) :=
  if decide (subgraph = []) then Some []
  else
    let keys := inserted subgraph in
    let st0 := {| indegrees := list_to_map (map (fun h => (h, 0)) keys);
                  active := []; result := [] |} in
    let st1 := foldl determine_indegree st0 (map_order keys) in
    st2 ← follow_active fuel st1;
    if decide (Z.of_nat (length (result st2)) <>
               wrap64 (2 * wrap64 (Z.of_nat (length subgraph) -
                                   missing_nodes subgraph)))
    then Some []
    else Some (result st2).

End Algorithm.

End TopologicalOrder.

Module TopologicalOrderExamples.
Import Graph TopologicalOrder.

Definition fw (n : Z) : handle_t := mkHandle n false.
Definition rv (n : Z) : handle_t := mkHandle n true.

(** 1+ -> 2+ -> 3+ and 1+ -> 3+ *)
Definition diamond : HandleGraph :=
  of_edges [1; 2; 3] [(fw 1, fw 2); (fw 2, fw 3); (fw 1, fw 3)].

(** 1+ -> 2+ and 2+ -> 1+ *)
Definition loop2 : HandleGraph :=
  of_edges [1; 2] [(fw 1, fw 2); (fw 2, fw 1)].

(** A+ -> B+ and A+ -> B-: as a graph of handles this is acyclic. *)
Definition two_orientations : HandleGraph :=
  of_edges [1; 2] [(fw 1, fw 2); (fw 1, rv 2)].

Example order_diamond :
  topological_order diamond id 10 [3; 1; 2; 7]
  = Some [rv 3; fw 1; fw 2; fw 3; rv 2; rv 1].
Proof. vm_compute. reflexivity. Qed.

Example order_loop : topological_order loop2 id 10 [1; 2] = Some [].
Proof. vm_compute. reflexivity. Qed.

Example order_two_orientations :
  topological_order two_orientations id 10 [1; 2]
  = Some [fw 1; fw 2; rv 2; rv 1].
Proof. vm_compute. reflexivity. Qed.

Example order_part : topological_order loop2 id 10 [2] = Some [fw 2; rv 2].
Proof. vm_compute. reflexivity. Qed.

End TopologicalOrderExamples.

(** ** Counting edges *)

Module GraphFacts.
Import Graph.

Local Open Scope nat_scope.

Section Occurrences.

Context {A : Type} `{EqDecision A}.

Lemma occ_nil (x : A) : occ x [] = 0.
Proof. reflexivity. Qed.

Lemma occ_cons (x y : A) (l : list A) :
  occ x (y :: l) = (if decide (y = x) then 1 else 0) + occ x l.
Proof.
  unfold occ. rewrite filter_cons. destruct (decide (y = x)); reflexivity.
Qed.

Lemma occ_app (x : A) (l k : list A) : occ x (l ++ k) = occ x l + occ x k.
Proof. unfold occ. by rewrite filter_app, length_app. Qed.

Lemma occ_pos (x : A) (l : list A) : x ∈ l <-> 0 < occ x l.
Proof.
  induction l as [|y l IH]; rewrite ?occ_nil, ?occ_cons.
  - split; [by intros ?%elem_of_nil | lia].
  - rewrite elem_of_cons, IH. destruct (decide (y = x)); [|split].
    + split; [lia | by left].
    + intros [?|?]; [congruence | lia].
    + intros ?. right. lia.
Qed.

Lemma occ_zero (x : A) (l : list A) : x ∉ l <-> occ x l = 0.
Proof. rewrite occ_pos. lia. Qed.

Lemma occ_NoDup (x : A) (l : list A) :
  NoDup l -> occ x l = if decide (x ∈ l) then 1 else 0.
Proof.
  induction 1 as [|y l Hy Hl IH]; [done|].
  rewrite occ_cons, IH.
  destruct (decide (y = x)) as [->|Hne].
  - rewrite decide_False by done. rewrite decide_True by (by left). done.
  - destruct (decide (x ∈ l)) as [Hin|Hin].
    + rewrite decide_True by (by right). done.
    + rewrite decide_False; [done|]. intros [?|?]%elem_of_cons; congruence.
Qed.

(** Summing, over the members [u] of a duplicate-free list, the number of
    times [u] occurs in [l] counts the members of [l] that are in the
    list. *)
Lemma sum_occ_filter (K l : list A) :
  NoDup K ->
  sum_list_with (fun u => occ u l) K = length (filter (fun x => x ∈ K) l).
Proof.
  intros HK. induction l as [|x l IH].
  - simpl. induction K; simpl; [done|]. apply IHK. by inversion HK.
  - rewrite filter_cons.
    assert (E : sum_list_with (fun u => occ u (x :: l)) K =
                occ x K + sum_list_with (fun u => occ u l) K).
    { clear. induction K as [|u K IHK]; simpl; [done|].
      rewrite IHK, !occ_cons. destruct (decide (x = u)), (decide (u = x));
        try congruence; lia. }
    rewrite E, IH, (occ_NoDup x K HK).
    destruct (decide (x ∈ K)); simpl; lia.
Qed.

(** A duplicate-free part of [K] contributes at most what [K] does, and
    when it contributes as much the rest contributes nothing. *)
Lemma sum_sublist (f : A -> nat) (D K : list A) :
  NoDup D -> (forall x, x ∈ D -> x ∈ K) ->
  sum_list_with f D <= sum_list_with f K /\
  (sum_list_with f D = sum_list_with f K ->
   forall x, x ∈ K -> x ∉ D -> f x = 0).
Proof.
  intros HD Hsub.
  destruct (submseteq_Permutation D K (NoDup_submseteq _ _ HD Hsub))
    as [K' HK'].
  rewrite HK', sum_list_with_app. split; [lia|].
  intros Heq x Hx Hnot. rewrite HK' in Hx.
  apply elem_of_app in Hx as [?|Hx]; [done|].
  pose proof (sum_list_with_in x f K' Hx). lia.
Qed.

End Occurrences.

(** [before u v l]: [u] stands at an earlier position of [l] than [v]. *)
Definition before {A : Type} (u v : A) (l : list A) : Prop :=
  exists i j, l !! i = Some u /\ l !! j = Some v /\ i < j.

Lemma before_app_l {A : Type} (u v : A) (l k : list A) :
  before u v l -> before u v (l ++ k).
Proof.
  intros (i & j & Hi & Hj & Hij). exists i, j.
  rewrite !lookup_app_l by (by eapply lookup_lt_Some). done.
Qed.

Lemma before_snoc {A : Type} (u v : A) (l : list A) :
  u ∈ l -> before u v (l ++ [v]).
Proof.
  intros (i & Hi)%list_elem_of_lookup_1. exists i, (length l).
  pose proof (lookup_lt_Some _ _ _ Hi).
  rewrite lookup_app_l by done. split; [done|].
  split; [|done]. rewrite lookup_app_r by lia.
  by rewrite Nat.sub_diag.
Qed.

(** A graph built from a list of edges is consistent. *)
Lemma pairs_consistent (all : list (handle_t * handle_t)) (u v : handle_t) :
  occ u (map fst (filter (fun e => e.2 = v) all)) =
  occ v (map snd (filter (fun e => e.1 = u) all)).
Proof.
  induction all as [|[a b] l IH]; [done|].
  rewrite !filter_cons. simpl.
  destruct (decide (b = v)) as [->|Hb], (decide (a = u)) as [->|Ha]; simpl;
    rewrite ?occ_cons, ?IH, ?decide_True, ?decide_False by done; done.
Qed.

Lemma of_edges_consistent (ids : list Z)
    (edges : list (handle_t * handle_t)) :
  consistent (of_edges ids edges).
Proof. intros u v. apply pairs_consistent. Qed.

Lemma of_edges_degrees_fit (ids : list Z)
    (edges : list (handle_t * handle_t)) :
  (2 * Z.of_nat (length edges) < Word.modulus64)%Z ->
  degrees_fit (of_edges ids edges).
Proof.
  intros Hfit h go_left. simpl.
  set (all := edges ++ map (fun e => (flip e.2, flip e.1)) edges).
  assert (Hall : length all = 2 * length edges)
    by (subst all; rewrite length_app, length_map; lia).
  destruct go_left; rewrite length_map;
    match goal with |- context [filter ?P all] =>
      pose proof (length_filter P all) end; lia.
Qed.

Section Flow.

Variable graph : HandleGraph.
Hypothesis graph_consistent : consistent graph.

(** The number of edges from the handles of [D] into [v]. *)
Definition flow (D : list handle_t) (v : handle_t) : nat :=
  sum_list_with (fun u => occ v (follow_edges graph u false)) D.

(** The number of predecessors of [v] that are in [K]. *)
Definition indegree_in (K : list handle_t) (v : handle_t) : nat :=
  length (filter (fun u => u ∈ K) (follow_edges graph v true)).

Lemma indegree_in_flow (K : list handle_t) (v : handle_t) :
  NoDup K -> indegree_in K v = flow K v.
Proof.
  intros HK. unfold indegree_in, flow. rewrite <- (sum_occ_filter K _ HK).
  clear HK. induction K as [|u K IH]; simpl; [done|].
  by rewrite graph_consistent, IH.
Qed.

Lemma flow_app (D E : list handle_t) (v : handle_t) :
  flow (D ++ E) v = flow D v + flow E v.
Proof. apply sum_list_with_app. Qed.

Lemma flow_singleton (c v : handle_t) :
  flow [c] v = occ v (follow_edges graph c false).
Proof. unfold flow. simpl. lia. Qed.

Lemma flow_le (D K : list handle_t) (v : handle_t) :
  NoDup D -> (forall x, x ∈ D -> x ∈ K) -> flow D v <= flow K v.
Proof. intros HD Hsub. by apply sum_sublist. Qed.

Lemma flow_full (D K : list handle_t) (u v : handle_t) :
  NoDup D -> (forall x, x ∈ D -> x ∈ K) ->
  flow K v <= flow D v -> u ∈ K -> edge graph u v -> u ∈ D.
Proof.
  intros HD Hsub Hle Hu Hedge.
  destruct (sum_sublist (fun u => occ v (follow_edges graph u false))
              D K HD Hsub) as [Hle' Hrest].
  destruct (decide (u ∈ D)) as [|Hnot]; [done|].
  unfold flow in Hle. specialize (Hrest ltac:(lia) u Hu Hnot).
  apply occ_pos in Hedge. simpl in Hrest. lia.
Qed.

End Flow.

End GraphFacts.

(** ** Correctness of the topological order *)

Module TopologicalOrderFacts.
Import Word Graph GraphFacts TopologicalOrder.

Section Invariant.

Variable graph : HandleGraph.

(** The keys of the map [indegrees]. *)
Variable K : list handle_t.

Hypothesis graph_consistent : consistent graph.
Hypothesis graph_degrees : degrees_fit graph.
Hypothesis K_nodup : NoDup K.

(** How often the counter of [v] has been decremented: once for every
    edge into [v] from a handle of [done], and once for every occurrence of
    [v] among the successors [pre] already visited in the current round. *)
Definition relaxed (done pre : list handle_t) (v : handle_t) : nat :=
  (flow graph done v + occ v pre)%nat.

(** The invariant of the third loop.  [done] lists the handles popped in
    earlier rounds, [cur] is the handle popped in the current round (if
    any) and [pre] the successors of it visited so far. *)
Record inv (st : state) (done cur pre : list handle_t) : Prop := {
  inv_dom : forall v, is_Some (indegrees st !! v) <-> v ∈ K;
  inv_val : forall v, v ∈ K ->
    indegrees st !! v =
      Some (Z.of_nat (indegree_in graph K v - relaxed done pre v));
  inv_nodup : NoDup (result st);
  inv_perm : result st ≡ₚ done ++ cur ++ active st;
  inv_sub : forall v, v ∈ result st -> v ∈ K;
  inv_zero : forall v, v ∈ K ->
    (v ∈ result st <-> (indegree_in graph K v <= relaxed done pre v)%nat);
  inv_order : forall u v,
    v ∈ result st -> u ∈ K -> edge graph u v -> before u v (result st)
}.

Lemma inv_done_cur (st : state) (done cur pre : list handle_t) :
  inv st done cur pre ->
  NoDup (done ++ cur) /\
  forall x, x ∈ done ++ cur -> x ∈ K /\ x ∈ result st.
Proof.
  intros I. pose proof (inv_nodup _ _ _ _ I) as Hnd.
  rewrite (inv_perm _ _ _ _ I), app_assoc in Hnd.
  apply NoDup_app in Hnd as (Hnd & _ & _). split; [done|].
  intros x Hx.
  assert (Hr : x ∈ result st).
  { rewrite (inv_perm _ _ _ _ I), app_assoc. apply elem_of_app. by left. }
  split; [by eapply inv_sub | done].
Qed.

(** No counter is decremented more often than it was incremented. *)
Lemma relaxed_bound (done pre post : list handle_t) (c v : handle_t) :
  NoDup (done ++ [c]) ->
  (forall x, x ∈ done ++ [c] -> x ∈ K) ->
  follow_edges graph c false = pre ++ post ->
  (relaxed done pre v <= flow graph (done ++ [c]) v)%nat /\
  (flow graph (done ++ [c]) v <= indegree_in graph K v)%nat.
Proof.
  intros Hnd Hsub Hsucc. split.
  - unfold relaxed. rewrite flow_app, flow_singleton, Hsucc, occ_app. lia.
  - rewrite (indegree_in_flow graph graph_consistent K v K_nodup).
    by apply flow_le.
Qed.

Lemma indegree_in_fits (v : handle_t) :
  Z.of_nat (indegree_in graph K v) < modulus64.
Proof.
  pose proof (graph_degrees v true).
  pose proof (length_filter (fun u => u ∈ K) (follow_edges graph v true)).
  unfold indegree_in. lia.
Qed.

(** One call of the callback keeps the invariant. *)
Lemma relax_inv (st : state) (done pre post : list handle_t)
    (c next : handle_t) :
  inv st done [c] pre ->
  follow_edges graph c false = pre ++ next :: post ->
  inv (relax st next) done [c] (pre ++ [next]).
Proof.
  intros I Hsucc.
  assert (Hocc : forall v, v <> next ->
            relaxed done (pre ++ [next]) v = relaxed done pre v).
  { intros v Hv. unfold relaxed. rewrite occ_app, occ_cons, occ_nil.
    rewrite decide_False by congruence. lia. }
  assert (Hocc' : relaxed done (pre ++ [next]) next =
                  S (relaxed done pre next)).
  { unfold relaxed. rewrite occ_app, occ_cons, occ_nil.
    rewrite decide_True by done. lia. }
  unfold relax. destruct (indegrees st !! next) as [d|] eqn:Hd.
  2:{ (* [next] is not a key: nothing changes *)
    assert (Hnk : next ∉ K).
    { intros Hin. apply (inv_dom _ _ _ _ I) in Hin. rewrite Hd in Hin.
      by destruct Hin. }
    destruct I as [I1 I2 I3 I4 I5 I6 I7].
    split; try done.
    - intros v Hv. rewrite Hocc by congruence. by apply I2.
    - intros v Hv. rewrite Hocc by congruence. by apply I6. }
  assert (Hk : next ∈ K).
  { apply (inv_dom _ _ _ _ I). rewrite Hd. eauto. }
  rewrite (inv_val _ _ _ _ I next Hk) in Hd. injection Hd as Hd.
  destruct (inv_done_cur _ _ _ _ I) as [Hnd Hsub].
  destruct (relaxed_bound done (pre ++ [next]) post c next) as [B1 B2].
  { done. } { intros x Hx. by apply Hsub. } { by rewrite <- app_assoc. }
  rewrite Hocc' in B1.
  pose proof (indegree_in_fits next) as Hfit.
  assert (Hd' : wrap64 (d - 1) =
                Z.of_nat (indegree_in graph K next -
                          relaxed done (pre ++ [next]) next)).
  { rewrite wrap64_small by lia. lia. }
  rewrite Hd'. clear Hd'.
  assert (Hnew : next ∉ result st).
  { rewrite (inv_zero _ _ _ _ I next Hk). lia. }
  destruct I as [I1 I2 I3 I4 I5 I6 I7].
  assert (Hval : forall (m : gmap handle_t Z) v,
            m = <[next := Z.of_nat (indegree_in graph K next -
                     relaxed done (pre ++ [next]) next)]> (indegrees st) ->
            v ∈ K ->
            m !! v = Some (Z.of_nat (indegree_in graph K v -
                                     relaxed done (pre ++ [next]) v))).
  { intros m v -> Hv. destruct (decide (v = next)) as [->|Hne].
    - by rewrite lookup_insert_eq.
    - rewrite lookup_insert_ne by done. rewrite Hocc by done. by apply I2. }
  assert (Hdom : forall (m : gmap handle_t Z) v,
            m = <[next := Z.of_nat (indegree_in graph K next -
                     relaxed done (pre ++ [next]) next)]> (indegrees st) ->
            is_Some (m !! v) <-> v ∈ K).
  { intros m v ->. destruct (decide (v = next)) as [->|Hne].
    - rewrite lookup_insert_eq. split; [done | eauto].
    - rewrite lookup_insert_ne by done. apply I1. }
  case_decide as Hz.
  - (* the counter reached zero: [next] is activated *)
    split; simpl.
    + intros v. by apply Hdom.
    + intros v. by apply Hval.
    + apply NoDup_app. split; [done|]. split; [|apply NoDup_singleton].
      intros x Hx ->%list_elem_of_singleton. done.
    + rewrite I4. rewrite <- !app_assoc. apply Permutation_app_head.
      simpl. constructor. symmetry. apply Permutation_cons_append.
    + intros v [Hv| ->%list_elem_of_singleton]%elem_of_app; [by apply I5|done].
    + intros v Hv. destruct (decide (v = next)) as [->|Hne].
      * split; [lia|]. intros _. apply elem_of_app. right. by left.
      * rewrite Hocc by done. rewrite <- (I6 v Hv).
        rewrite elem_of_app, list_elem_of_singleton. tauto.
    + intros u v [Hv| ->%list_elem_of_singleton]%elem_of_app Hu Hedge.
      * apply before_app_l. by apply I7.
      * apply before_snoc.
        assert (Hud : u ∈ done ++ [c]).
        { eapply (flow_full graph (done ++ [c]) K u next); try done.
          - intros x Hx. by apply Hsub.
          - rewrite <- (indegree_in_flow graph graph_consistent K next K_nodup).
            lia. }
        by apply Hsub.
  - split; simpl; try done.
    + intros v. by apply Hdom.
    + intros v. by apply Hval.
    + intros v Hv. destruct (decide (v = next)) as [->|Hne].
      * split; [done | lia].
      * rewrite Hocc by done. by apply I6.
Qed.

(** Visiting the remaining successors keeps the invariant. *)
Lemma relax_all_inv (done : list handle_t) (c : handle_t)
    (post : list handle_t) :
  forall (st : state) (pre : list handle_t),
    inv st done [c] pre ->
    follow_edges graph c false = pre ++ post ->
    inv (foldl relax st post) done [c] (pre ++ post).
Proof.
  induction post as [|next post IH]; intros st pre I Hsucc; simpl.
  - by rewrite app_nil_r.
  - replace (pre ++ next :: post) with ((pre ++ [next]) ++ post)
      by (by rewrite <- app_assoc).
    apply IH.
    + by eapply relax_inv.
    + by rewrite <- app_assoc.
Qed.

(** Popping the top of the stack starts a round. *)
Lemma inv_pop (st : state) (done rest : list handle_t) (c : handle_t) :
  inv st done [] [] -> active st = c :: rest ->
  inv {| indegrees := indegrees st; active := rest; result := result st |}
      done [c] [].
Proof.
  intros [I1 I2 I3 I4 I5 I6 I7] Ha. split; simpl; try done.
  by rewrite I4, Ha.
Qed.

(** After all its successors are visited the handle is done. *)
Lemma inv_finish (st : state) (done : list handle_t) (c : handle_t) :
  inv st done [c] (follow_edges graph c false) ->
  inv st (done ++ [c]) [] [].
Proof.
  intros [I1 I2 I3 I4 I5 I6 I7].
  assert (E : forall v, relaxed (done ++ [c]) [] v =
                        relaxed done (follow_edges graph c false) v).
  { intros v. unfold relaxed. rewrite flow_app, flow_singleton, occ_nil. lia. }
  split; try done.
  - intros v Hv. rewrite E. by apply I2.
  - by rewrite I4, <- app_assoc.
  - intros v Hv. rewrite E. by apply I6.
Qed.

(** The third loop ends, with the invariant, within as many rounds as there
    are keys still to pop. *)
Lemma follow_active_inv (fuel : nat) :
  forall (st : state) (done : list handle_t),
    inv st done [] [] ->
    (length K - length done < fuel)%nat ->
    exists (st' : state) (done' : list handle_t),
      follow_active graph fuel st = Some st' /\
      inv st' done' [] [] /\ active st' = [].
Proof.
  induction fuel as [|fuel IH]; intros st done I Hfuel; [lia|].
  simpl. destruct (active st) as [|c rest] eqn:Ha.
  - exists st, done. done.
  - pose proof (inv_pop st done rest c I Ha) as Ipop.
    destruct (inv_done_cur _ _ _ _ Ipop) as [Hnd Hsub].
    assert (Hlen : (length (done ++ [c]) <= length K)%nat).
    { apply submseteq_length, NoDup_submseteq; [done|].
      intros x Hx. by apply Hsub. }
    rewrite length_app in Hlen. simpl in Hlen.
    pose proof (relax_all_inv done c (follow_edges graph c false) _ []
                  Ipop eq_refl) as Ifold.
    simpl in Ifold. apply inv_finish in Ifold.
    apply (IH _ _ Ifold). rewrite length_app. simpl. lia.
Qed.

(** The second loop: counting the predecessors that are keys. *)
Lemma count_predecessors (m : gmap handle_t Z) (l : list handle_t) :
  (forall v, is_Some (m !! v) <-> v ∈ K) ->
  forall d : Z,
    0 <= d -> d + Z.of_nat (length l) < modulus64 ->
    foldl (count_predecessor m) d l =
      d + Z.of_nat (length (filter (fun u => u ∈ K) l)).
Proof.
  intros Hdom. induction l as [|x l IH]; intros d Hd Hfit; simpl.
  - lia.
  - simpl in Hfit. rewrite filter_cons. unfold count_predecessor at 2.
    destruct (decide (x ∈ K)) as [Hx|Hx].
    + rewrite decide_True by (by apply Hdom).
      rewrite wrap64_small by lia. rewrite IH by lia. simpl. lia.
    + rewrite decide_False by (by rewrite Hdom). rewrite IH by lia. done.
Qed.

Lemma initial_lookup (v : handle_t) :
  (list_to_map (map (fun h => (h, 0)) K) : gmap handle_t Z) !! v =
    if decide (v ∈ K) then Some 0 else None.
Proof.
  clear K_nodup. induction K as [|x l IH].
  - done.
  - rewrite map_cons, list_to_map_cons.
    destruct (decide (x = v)) as [->|Hne].
    + rewrite lookup_insert_eq. by rewrite decide_True by (by left).
    + rewrite lookup_insert_ne by done. rewrite IH.
      destruct (decide (v ∈ l)) as [Hin|Hin].
      * by rewrite decide_True by (by right).
      * rewrite decide_False; [done|].
        intros [?|?]%elem_of_cons; congruence.
Qed.

(** The state of the second loop after the keys [seen]. *)
Record seeded (st : state) (seen : list handle_t) : Prop := {
  seeded_dom : forall v, is_Some (indegrees st !! v) <-> v ∈ K;
  seeded_seen : forall v, v ∈ seen ->
    indegrees st !! v = Some (Z.of_nat (indegree_in graph K v));
  seeded_rest : forall v, v ∈ K -> v ∉ seen -> indegrees st !! v = Some 0;
  seeded_result :
    result st = filter (fun v => indegree_in graph K v = 0%nat) seen;
  seeded_active : active st = reverse (result st)
}.

Lemma determine_indegree_seeded (st : state) (seen : list handle_t)
    (h : handle_t) :
  seeded st seen -> h ∈ K -> h ∉ seen ->
  seeded (determine_indegree graph st h) (seen ++ [h]).
Proof.
  intros [S1 S2 S3 S4 S5] Hk Hnew. unfold determine_indegree.
  rewrite (S3 h Hk Hnew). simpl.
  pose proof (graph_degrees h true) as Hfit.
  rewrite (count_predecessors _ _ S1 0) by lia. rewrite Z.add_0_l.
  fold (indegree_in graph K h).
  assert (Hdom : forall v,
            is_Some (<[h := Z.of_nat (indegree_in graph K h)]>
                       (indegrees st) !! v) <-> v ∈ K).
  { intros v. destruct (decide (v = h)) as [->|Hne].
    - rewrite lookup_insert_eq. split; [done | eauto].
    - rewrite lookup_insert_ne by done. apply S1. }
  assert (Hseen : forall v, v ∈ seen ++ [h] ->
            <[h := Z.of_nat (indegree_in graph K h)]> (indegrees st) !! v
            = Some (Z.of_nat (indegree_in graph K v))).
  { intros v [Hv| ->%list_elem_of_singleton]%elem_of_app.
    - rewrite lookup_insert_ne by congruence. by apply S2.
    - by rewrite lookup_insert_eq. }
  assert (Hrest : forall v, v ∈ K -> v ∉ seen ++ [h] ->
            <[h := Z.of_nat (indegree_in graph K h)]> (indegrees st) !! v
            = Some 0).
  { intros v Hv Hnot. rewrite elem_of_app, list_elem_of_singleton in Hnot.
    rewrite lookup_insert_ne by (intros ->; tauto). apply S3; tauto. }
  case_decide as Hz; split; simpl; try done.
  - rewrite filter_app, filter_cons_True by lia. by rewrite S4.
  - by rewrite reverse_snoc, S5.
  - rewrite filter_app, filter_cons_False by lia.
    by rewrite S4, app_nil_r.
Qed.

Lemma determine_indegrees_seeded (rest : list handle_t) :
  forall (st : state) (seen : list handle_t),
    seeded st seen -> NoDup (seen ++ rest) ->
    (forall x, x ∈ rest -> x ∈ K) ->
    seeded (foldl (determine_indegree graph) st rest) (seen ++ rest).
Proof.
  induction rest as [|h rest IH]; intros st seen S Hnd Hsub; simpl.
  - by rewrite app_nil_r.
  - replace (seen ++ h :: rest) with ((seen ++ [h]) ++ rest) in *
      by (by rewrite <- app_assoc).
    apply IH; [|done|].
    + apply determine_indegree_seeded; [done | |].
      * apply Hsub. by left.
      * rewrite <- app_assoc in Hnd. apply NoDup_app in Hnd as (_ & Hd & _).
        intros Hin. apply (Hd h Hin). by left.
    + intros x Hx. apply Hsub. by right.
Qed.

(** The second loop establishes the invariant of the third. *)
Lemma seeded_inv (st : state) (order : list handle_t) :
  seeded st order -> order ≡ₚ K -> inv st [] [] [].
Proof.
  intros [S1 S2 S3 S4 S5] Hperm.
  assert (Hrel : forall v, relaxed [] [] v = 0%nat) by done.
  assert (Hin : forall v, v ∈ result st <->
                          indegree_in graph K v = 0%nat /\ v ∈ K).
  { intros v. rewrite S4, list_elem_of_filter, Hperm. done. }
  split.
  - done.
  - intros v Hv. rewrite Hrel, Nat.sub_0_r. apply S2. by rewrite Hperm.
  - rewrite S4. apply NoDup_filter. by rewrite Hperm.
  - simpl. rewrite S5. by rewrite reverse_Permutation.
  - intros v Hv. by apply Hin.
  - intros v Hv. rewrite Hrel, Hin. split; [lia|]. intros ?. split; [lia|done].
  - intros u v Hv Hu Hedge. exfalso.
    apply Hin in Hv as [Hz _].
    rewrite (indegree_in_flow graph graph_consistent K v K_nodup) in Hz.
    pose proof (sum_list_with_in u
                  (fun u => occ v (follow_edges graph u false)) K Hu) as Hle.
    apply occ_pos in Hedge. unfold flow in Hz. simpl in Hle. lia.
Qed.

End Invariant.

(** A handle of the subgraph: its node is in the set and in the graph. *)
Definition in_subgraph (graph : HandleGraph) (subgraph : list Z)
    (h : handle_t) : Prop :=
  get_id h ∈ subgraph /\ has_node graph (get_id h) = true.

(** An edge of the graph restricted to the subgraph. *)
Definition edge_within (graph : HandleGraph) (subgraph : list Z)
    (u v : handle_t) : Prop :=
  edge graph u v /\ in_subgraph graph subgraph u /\
  in_subgraph graph subgraph v.

(** The nodes of the set that are in the graph. *)
Definition present (graph : HandleGraph) (subgraph : list Z) : list Z :=
  filter (fun node => has_node graph node = true) subgraph.

Lemma elem_of_inserted (graph : HandleGraph) (subgraph : list Z)
    (h : handle_t) :
  h ∈ inserted graph subgraph <-> in_subgraph graph subgraph h.
Proof.
  unfold inserted, in_subgraph. rewrite list_elem_of_In, in_flat_map.
  split.
  - intros (n & Hn & Hh). apply list_elem_of_In, list_elem_of_filter in Hn.
    destruct Hn as [Hp Hs].
    destruct Hh as [<-|[<-|[]]]; simpl; done.
  - intros [Hs Hp]. exists (get_id h). split.
    + apply list_elem_of_In, list_elem_of_filter. done.
    + destruct h as [n []]; simpl; unfold get_handle; auto.
Qed.

Lemma NoDup_inserted (graph : HandleGraph) (subgraph : list Z) :
  NoDup subgraph -> NoDup (inserted graph subgraph).
Proof.
  intros Hnd. unfold inserted.
  assert (Hp : NoDup (filter (fun node => has_node graph node = true) subgraph))
    by (by apply NoDup_filter).
  induction Hp as [|n l Hn Hl IH]; simpl; [constructor|].
  assert (Hnot : forall o, get_handle n o ∉
            flat_map (fun node => [get_handle node false; get_handle node true]) l).
  { intros o Hin. apply list_elem_of_In, in_flat_map in Hin
      as (m & Hm & Hh). apply list_elem_of_In in Hm.
    destruct Hh as [E|[E|[]]]; injection E as ->; done. }
  constructor.
  - intros [E|Hin]%elem_of_cons; [discriminate E|]. by apply (Hnot false).
  - constructor; [apply Hnot | apply IH].
Qed.

Lemma length_inserted (graph : HandleGraph) (subgraph : list Z) :
  length (inserted graph subgraph) = (2 * length (present graph subgraph))%nat.
Proof.
  unfold inserted, present.
  induction (filter _ subgraph) as [|n l IH]; simpl; [done|]. rewrite IH. lia.
Qed.

Lemma length_present (graph : HandleGraph) (subgraph : list Z) :
  Z.of_nat (length subgraph) - missing_nodes graph subgraph =
    Z.of_nat (length (present graph subgraph)).
Proof.
  unfold missing_nodes, present.
  pose proof (filter_app_complement
                (fun node => has_node graph node = true) subgraph) as Hp.
  apply Permutation_length in Hp. rewrite length_app in Hp. lia.
Qed.

Lemma tc_edge_within_start (graph : HandleGraph) (subgraph : list Z)
    (u v : handle_t) :
  tc (edge_within graph subgraph) u v -> in_subgraph graph subgraph u.
Proof. destruct 1 as [? ? (_ & ? & _)|? ? ? (_ & ? & _) _]; done. Qed.

(** Along a path of edges within the subgraph, positions in a list that
    respects the edges and holds every handle of the subgraph increase. *)
Lemma tc_positions (graph : HandleGraph) (subgraph : list Z)
    (r : list handle_t) :
  (forall h, in_subgraph graph subgraph h -> h ∈ r) ->
  (forall i j u v, r !! i = Some u -> r !! j = Some v ->
     edge graph u v -> (i < j)%nat) ->
  forall u v, tc (edge_within graph subgraph) u v ->
    forall i j, r !! i = Some u -> r !! j = Some v -> (i < j)%nat.
Proof.
  intros Hall Hord u v Htc.
  induction Htc as [u v (He & _ & _)|u w v (He & _ & Hw) _ IH];
    intros i j Hi Hj.
  - by eapply Hord.
  - destruct (list_elem_of_lookup_1 _ _ (Hall w Hw)) as [k Hk].
    pose proof (Hord i k u w Hi Hk He). pose proof (IH k j Hk Hj). lia.
Qed.

(** C5: on a graph whose two directions of [follow_edges] agree, and for a
    set of node ids listed without repetition, [topological_order] returns
    a list that is empty or holds, exactly once each, both orientations of
    every node of the set that is in the graph (twice as many handles as
    such nodes); every edge between two listed handles goes from an earlier
    to a later position; and the list is empty when the handles of the
    subgraph contain a cycle. *)
Theorem topological_order_correct (graph : HandleGraph)
    (map_order : list handle_t -> list handle_t) (subgraph : list Z)
    (fuel : nat) :
  consistent graph ->
  degrees_fit graph ->
  (forall l, map_order l ≡ₚ l) ->
  NoDup subgraph ->
  2 * Z.of_nat (length subgraph) < modulus64 ->
  (2 * length subgraph < fuel)%nat ->
  exists r : list handle_t,
    topological_order graph map_order fuel subgraph = Some r /\
    (r = [] \/
     length r = (2 * length (present graph subgraph))%nat /\
     NoDup r /\
     forall h, h ∈ r <-> in_subgraph graph subgraph h) /\
    (forall i j u v, r !! i = Some u -> r !! j = Some v ->
       edge graph u v -> (i < j)%nat) /\
    ((exists u, tc (edge_within graph subgraph) u u) -> r = []).
Proof.
  intros Hcons Hdeg Horder Hnd Hsize Hfuel.
  unfold topological_order.
  destruct (decide (subgraph = [])) as [->|Hne].
  { exists []. split; [done|]. split; [by left|]. split; [|done].
    intros i j u v Hi. by rewrite lookup_nil in Hi. }
  set (K := inserted graph subgraph).
  assert (HK : NoDup K) by (by apply NoDup_inserted).
  set (st0 := {| indegrees := list_to_map (map (fun h => (h, 0)) K);
                 active := []; result := [] |}).
  assert (S0 : seeded graph K st0 []).
  { split; simpl; try done.
    - intros v. rewrite initial_lookup. case_decide; split; done.
    - intros v Hv. by apply elem_of_nil in Hv.
    - intros v Hv _. rewrite initial_lookup. by rewrite decide_True. }
  pose proof (determine_indegrees_seeded graph K Hdeg (map_order K) st0 []
                S0) as S1.
  simpl in S1. specialize (S1 ltac:(by rewrite Horder)).
  specialize (S1 ltac:(intros x Hx; by rewrite Horder in Hx)).
  apply (seeded_inv graph K Hcons HK _ _) in S1; [|apply Horder].
  pose proof (length_inserted graph subgraph) as HlenK. fold K in HlenK.
  pose proof (length_filter (fun node => has_node graph node = true) subgraph)
    as Hlp. fold (present graph subgraph) in Hlp.
  destruct (follow_active_inv graph K Hcons Hdeg HK fuel _ [] S1)
    as (st2 & done' & Hrun & I2 & Hact).
  { simpl. lia. }
  rewrite Hrun. simpl.
  rewrite length_present.
  rewrite (wrap64_small (Z.of_nat _)) by lia.
  rewrite wrap64_small by lia.
  case_decide as Hlen.
  { exists []. split; [done|]. split; [by left|]. split; [|done].
    intros i j u v Hi. by rewrite lookup_nil in Hi. }
  assert (Hlen' : length (result st2) = length K) by lia.
  destruct I2 as [I1 I2 I3 I4 I5 I6 I7].
  assert (Hperm : result st2 ≡ₚ K).
  { apply submseteq_length_Permutation; [|lia].
    by apply NoDup_submseteq. }
  assert (Hmem : forall h, h ∈ result st2 <-> in_subgraph graph subgraph h).
  { intros h. rewrite Hperm. apply elem_of_inserted. }
  assert (Hord : forall i j u v,
            result st2 !! i = Some u -> result st2 !! j = Some v ->
            edge graph u v -> (i < j)%nat).
  { intros i j u v Hi Hj Hedge.
    destruct (I7 u v) as (i' & j' & Hi' & Hj' & Hlt).
    - by eapply list_elem_of_lookup_2.
    - apply I5. by eapply list_elem_of_lookup_2.
    - done.
    - rewrite (NoDup_lookup _ i i' u I3 Hi Hi').
      rewrite (NoDup_lookup _ j j' v I3 Hj Hj'). done. }
  exists (result st2). split; [done|]. split; [|split].
  - right. split; [lia|]. done.
  - exact Hord.
  - intros [u Hcyc]. exfalso.
    assert (Hu : in_subgraph graph subgraph u).
    { by eapply tc_edge_within_start. }
    destruct (list_elem_of_lookup_1 _ _ (proj2 (Hmem u) Hu)) as [i Hi].
    pose proof (tc_positions graph subgraph (result st2)
                  (fun h => proj2 (Hmem h)) Hord u u Hcyc i i Hi Hi).
    lia.
Qed.


Lemma topological_order_correct_witness :
  exists r : list handle_t,
    topological_order TopologicalOrderExamples.diamond id 10 [3; 1; 2; 7]
      = Some r /\
    (forall i j u v, r !! i = Some u -> r !! j = Some v ->
       edge TopologicalOrderExamples.diamond u v -> (i < j)%nat).
Proof.
  assert (H1 : consistent TopologicalOrderExamples.diamond)
    by apply of_edges_consistent.
  assert (H2 : degrees_fit TopologicalOrderExamples.diamond)
    by (apply of_edges_degrees_fit; reflexivity).
  assert (H3 : forall l : list handle_t, id l ≡ₚ l) by reflexivity.
  assert (H4 : NoDup [3; 1; 2; 7]) by (by apply (bool_decide_unpack _)).
  assert (H5 : 2 * Z.of_nat (length [3; 1; 2; 7]) < modulus64) by reflexivity.
  assert (H6 : (2 * length [3; 1; 2; 7] < 10)%nat) by (simpl; lia).
  destruct (topological_order_correct TopologicalOrderExamples.diamond id
              [3; 1; 2; 7] 10 H1 H2 H3 H4 H5 H6) as (r & Hr & _ & Hord & _).
  exists r. split; [exact Hr | exact Hord].
Defined.

End TopologicalOrderFacts.

(** ** Disjoint sets and weakly connected components
       ([src/src/algorithms.cpp]) *)

Module Components.
Import Word Graph.

(** [struct DisjointSets]: node [i] is stored at slot [i - offset]. *)
Record DisjointSets : Type := mkSets {
  parent : list nat;   (* std::vector<size_t>, slots *)
  rank : list Z;       (* std::vector<std::uint8_t> *)
  offset : Z
}.

(** [DisjointSets(n, offset)]. *)
Definition make_sets (n : nat) (offset : Z) : DisjointSets :=
  {| parent := seq 0 n; rank := replicate n 0; offset := offset |}.

Definition size (ds : DisjointSets) : nat := length (parent ds).

(** The slot of a node: [node - offset], converted to [size_t]. *)
Definition slot (offset node : Z) : nat := Z.to_nat (wrap64 (node - offset)).

(** The loop of [find], with path splitting.  An access outside a vector
    is undefined, and a loop that runs out of fuel did not return: both
    give [None]. *)
Fixpoint find_loop (fuel : nat) (parent : list nat) (element : nat) :
    option (list nat * nat) :=
  match fuel with
  | O => None
  | S fuel' =>
      p ← parent !! element;
      if decide (p <> element) then
        gp ← parent !! p;
        find_loop fuel' (<[element := gp]> parent) p
      else Some (parent, element)
  end.

(** [find]: a path from a slot to its root passes through different slots,
    so the loop is given one round for every slot, and one more. *)
Definition find (ds : DisjointSets) (node : Z) : option (DisjointSets * nat) :=
  '(parent', root) ← find_loop (S (size ds)) (parent ds)
                      (slot (offset ds) node);
  Some ({| parent := parent'; rank := rank ds; offset := offset ds |}, root).

(** [set_union]: union by rank; the rank is a byte. *)
Definition set_union (ds : DisjointSets) (node_a node_b : Z) :
    option DisjointSets :=
  '(ds, a) ← find ds node_a;
  '(ds, b) ← find ds node_b;
  if decide (a = b) then Some ds
  else
    rank_a ← rank ds !! a;
    rank_b ← rank ds !! b;
    let '(a, b) := if decide (rank_a < rank_b) then (b, a) else (a, b) in
    if decide (b < length (parent ds))%nat then
      let parent' := <[b := a]> (parent ds) in
      rank_a ← rank ds !! a;
      rank_b ← rank ds !! b;
      let rank' :=
        if decide (rank_b = rank_a)
        then <[a := (rank_a + 1) mod 256]> (rank ds)
        else rank ds in
      Some {| parent := parent'; rank := rank'; offset := offset ds |}
    else None.

(** The state of the loop of [sets]. *)
Record sets_state : Type := mkSetsState {
  sets_ds : DisjointSets;
  sets_result : list (list Z);
  root_to_set : gmap nat nat
}.

(** One round of the loop of [sets], for the node [node]. *)
Definition sets_step (include_node : Z -> bool) (st : sets_state) (node : Z) :
    option sets_state :=
  if negb (include_node node) then Some st
  else
    '(ds, root) ← find (sets_ds st) node;
    let '(result, r2s) :=
      match root_to_set st !! root with
      | None => (sets_result st ++ [[]],
                 <[root := length (sets_result st)]> (root_to_set st))
      | Some _ => (sets_result st, root_to_set st)
      end in
    idx ← r2s !! root;
    if decide (idx < length result)%nat
    then Some {| sets_ds := ds;
                 sets_result := alter (fun c => c ++ [node]) idx result;
                 root_to_set := r2s |}
    else None.

Fixpoint sets_loop (include_node : Z -> bool) (st : sets_state)
    (nodes : list Z) : option sets_state :=
  match nodes with
  | [] => Some st
  | node :: rest =>
      st' ← sets_step include_node st node;
      sets_loop include_node st' rest
  end.

(** [DisjointSets::sets]: the nodes from [offset] up to, and without,
    [static_cast<nid_t>(offset + size())], in this order; there is none
    when the converted bound is not above [offset]. *)
Definition sets (ds : DisjointSets) (include_node : Z -> bool) :
    option (list (list Z)) :=
  st ← sets_loop include_node
         {| sets_ds := ds; sets_result := []; root_to_set := ∅ |}
         (seqZ (offset ds)
            (to_nid (offset ds + Z.of_nat (size ds)) - offset ds));
  Some (sets_result st).

(** The state of [weakly_connected_components]. *)
Record search : Type := mkSearch {
  found : list bool;            (* sdsl::bit_vector *)
  components : DisjointSets
}.

(** The callback [handle_edge]: unite, then push. *)
Definition handle_edge (id : Z) (acc : option (DisjointSets * list handle_t))
    (next : handle_t) : option (DisjointSets * list handle_t) :=
  '(ds, handles) ← acc;
  ds' ← set_union ds id (get_id next);
  Some (ds', next :: handles).

Section Search.

Variable graph : HandleGraph.

(** The loop [while(!(handles.empty()))]; the stack has its top first. *)
Fixpoint search_loop (fuel : nat) (s : search) (handles : list handle_t) :
    option search :=
  match fuel with
  | O => None
  | S fuel' =>
      match handles with
      | [] => Some s
      | h :: rest =>
          let id := get_id h in
          let i := slot (min_node_id graph) id in
          is_found ← found s !! i;
          if is_found : bool then search_loop fuel' s rest
          else
            let found' := <[i := true]> (found s) in
            '(ds, handles') ←
              foldl (handle_edge id)
                (foldl (handle_edge id) (Some (components s, rest))
                   (follow_edges graph h false))
                (follow_edges graph h true);
            search_loop fuel' {| found := found'; components := ds |} handles'
      end
  end.

(** The callback of [for_each_handle]. *)
Definition visit (fuel : nat) (acc : option search) (node : Z) :
    option search :=
  s ← acc;
  let handle := get_handle node false in
  let start_id := get_id handle in
  is_found ← found s !! slot (min_node_id graph) start_id;
  if is_found : bool then Some s
  else search_loop fuel s [handle].

(** [weakly_connected_components]. *)
Definition weakly_connected_components (fuel : nat) :
    option (list (list Z)) :=
  let min_id := min_node_id graph in
  let max_id := max_node_id graph in
  let n := Z.to_nat (wrap64 (max_id + 1 - min_id)) in
  let s0 := {| found := replicate n false;
               components := make_sets n min_id |} in
  s ← foldl (visit fuel) (Some s0) (node_ids graph);
  sets (components s) (has_node graph).

(** [gbwt_construction_jobs]. *)
Definition gbwt_construction_jobs (fuel : nat) (size_bound : Z) :
    option Jobs.ConstructionJobs :=
  comps ← weakly_connected_components fuel;
  Some (Jobs.construction_jobs comps size_bound).

End Search.

End Components.

Module ComponentsExamples.
Import Graph Components TopologicalOrderExamples.

(** 2 - 5, 3 - 9 - 4, and 7 alone; ids 6 and 8 are not nodes. *)
Definition three_parts : HandleGraph :=
  of_edges [5; 2; 9; 3; 7; 4] [(fw 5, rv 2); (fw 3, fw 9); (rv 4, fw 9)].

Example components_of_three_parts :
  weakly_connected_components three_parts 20 = Some [[2; 5]; [3; 4; 9]; [7]].
Proof. vm_compute. reflexivity. Qed.

Example components_of_diamond :
  weakly_connected_components diamond 20 = Some [[1; 2; 3]].
Proof. vm_compute. reflexivity. Qed.

(** Scenario C: two segments, each with a self-link, one job. *)
Example scenario_C :
  Jobs.nodes_per_job <$>
    gbwt_construction_jobs (of_edges [1; 2] [(fw 1, fw 1); (fw 2, fw 2)]) 20 2
  = Some [2].
Proof. vm_compute. reflexivity. Qed.

End ComponentsExamples.

(** ** The disjoint-set forest *)

Module DisjointSetsFacts.
Import Word Graph Components.

Local Open Scope nat_scope.

(** [path_to_root parent i r l]: following [parent] from slot [i] leads to
    the root [r] through the slots [l]. *)
Inductive path_to_root (parent : list nat) : nat -> nat -> list nat -> Prop :=
| at_root (r : nat) :
    parent !! r = Some r -> path_to_root parent r r [r]
| step_up (i p r : nat) (l : list nat) :
    parent !! i = Some p -> p <> i -> path_to_root parent p r l ->
    path_to_root parent i r (i :: l).

(** A forest: every slot has a path to a root. *)
Definition forest (parent : list nat) : Prop :=
  forall i, i < length parent -> exists r l, path_to_root parent i r l.

Definition well_formed (ds : DisjointSets) : Prop :=
  length (rank ds) = length (parent ds) /\ forest (parent ds).

Lemma path_head (parent : list nat) (i r : nat) (l : list nat) :
  path_to_root parent i r l -> exists l', l = i :: l'.
Proof. destruct 1; eauto. Qed.

Lemma path_deterministic (parent : list nat) (i r r' : nat) (l l' : list nat) :
  path_to_root parent i r l -> path_to_root parent i r' l' ->
  r = r' /\ l = l'.
Proof.
  intros H. revert r' l'. induction H as [r Hr|i p r l Hi Hp H IH];
    intros r' l' H'; inversion H' as [? Hr'|? p' ? l0 Hi' Hp' H0]; subst.
  - done.
  - congruence.
  - congruence.
  - assert (p' = p) by congruence. subst p'.
    destruct (IH _ _ H0) as [-> ->]. done.
Qed.

Lemma path_range (parent : list nat) (i r : nat) (l : list nat) :
  path_to_root parent i r l -> forall x, x ∈ l -> x < length parent.
Proof.
  induction 1 as [r Hr|i p r l Hi Hp H IH]; intros x Hx.
  - apply list_elem_of_singleton in Hx as ->. by eapply lookup_lt_Some.
  - apply elem_of_cons in Hx as [->|Hx]; [by eapply lookup_lt_Some | auto].
Qed.

Lemma path_root (parent : list nat) (i r : nat) (l : list nat) :
  path_to_root parent i r l -> parent !! r = Some r /\ r ∈ l.
Proof.
  induction 1 as [r Hr|i p r l Hi Hp H [IH1 IH2]].
  - split; [done | by left].
  - split; [done | by right].
Qed.

(** From any slot on a path the rest of the path leads to the same root. *)
Lemma path_from_member (parent : list nat) (i r : nat) (l : list nat) :
  path_to_root parent i r l ->
  forall x, x ∈ l ->
    exists l', path_to_root parent x r l' /\ length l' <= length l.
Proof.
  induction 1 as [r Hr|i p r l Hi Hp H IH]; intros x Hx.
  - apply list_elem_of_singleton in Hx as ->. exists [r].
    split; [by constructor | done].
  - apply elem_of_cons in Hx as [->|Hx].
    + exists (i :: l). split; [by econstructor | done].
    + destruct (IH x Hx) as (l' & Hl' & Hlen). exists l'.
      split; [done | simpl; lia].
Qed.

Lemma path_NoDup (parent : list nat) (i r : nat) (l : list nat) :
  path_to_root parent i r l -> NoDup l.
Proof.
  induction 1 as [r Hr|i p r l Hi Hp H IH].
  - apply NoDup_singleton.
  - constructor; [|done]. intros Hin.
    destruct (path_from_member _ _ _ _ H i Hin) as (l' & Hl' & Hlen).
    assert (Hfull : path_to_root parent i r (i :: l)) by (by econstructor).
    destruct (path_deterministic _ _ _ _ _ _ Hl' Hfull) as [_ ->].
    simpl in Hlen. lia.
Qed.

(** A path is no longer than the forest has slots. *)
Lemma path_length (parent : list nat) (i r : nat) (l : list nat) :
  path_to_root parent i r l -> length l <= length parent.
Proof.
  intros H.
  transitivity (length (seq 0 (length parent))); [|by rewrite length_seq].
  apply submseteq_length, NoDup_submseteq; [by eapply path_NoDup|].
  intros x Hx. apply elem_of_seq. pose proof (path_range _ _ _ _ H x Hx). lia.
Qed.

(** Changing the parent of a slot off the path leaves the path. *)
Lemma path_insert_off (parent : list nat) (i r k x : nat) (l : list nat) :
  path_to_root parent i r l -> k ∉ l ->
  path_to_root (<[k := x]> parent) i r l.
Proof.
  induction 1 as [r Hr|i p r l Hi Hp H IH]; intros Hk.
  - constructor. rewrite list_lookup_insert_ne; [done|].
    intros ->. apply Hk. by left.
  - econstructor; [|done|].
    + rewrite list_lookup_insert_ne; [done|]. intros ->. apply Hk. by left.
    + apply IH. intros Hin. apply Hk. by right.
Qed.

(** Path splitting: pointing a slot to its grandparent keeps every root. *)
Lemma path_split (parent : list nat) (i p gp : nat) :
  parent !! i = Some p -> p <> i -> parent !! p = Some gp ->
  forall j r l, path_to_root parent j r l ->
    exists l', path_to_root (<[i := gp]> parent) j r l'.
Proof.
  intros Hi Hp Hgp j r l H.
  induction H as [r Hr|j q r l Hj Hq H IH].
  - exists [r]. constructor. rewrite list_lookup_insert_ne; [done|].
    intros ->. congruence.
  - destruct (decide (j = i)) as [->|Hne].
    + assert (q = p) by congruence. subst q.
      pose proof (path_NoDup _ _ _ _ (step_up _ _ _ _ _ Hi Hp H)) as Hnd.
      apply NoDup_cons in Hnd as [Hil Hnd].
      assert (Hlt : i < length parent) by (by eapply lookup_lt_Some).
      inversion H as [? Hr|? p' ? l0 Hp1 Hp2 H0]; subst.
      * (* the parent is a root *)
        assert (gp = r) by congruence. subst gp.
        exists [i; r]. econstructor; [by apply list_lookup_insert_eq|done|].
        constructor. rewrite list_lookup_insert_ne by done. done.
      * assert (p' = gp) by congruence. subst p'.
        destruct (path_head _ _ _ _ H0) as [l1 ->].
        exists (i :: gp :: l1).
        econstructor; [by apply list_lookup_insert_eq| |].
        -- intros ->. apply Hil. right. by left.
        -- apply path_insert_off; [done|]. intros Hin. apply Hil. by right.
    + destruct IH as [l' Hl']. exists (j :: l').
      econstructor; [|done|done]. by rewrite list_lookup_insert_ne.
Qed.

(** Linking a root under another root keeps a forest. *)
Lemma path_link (parent : list nat) (a b : nat) :
  parent !! a = Some a -> parent !! b = Some b -> a <> b ->
  forall j r l, path_to_root parent j r l ->
    exists r' l', path_to_root (<[b := a]> parent) j r' l'.
Proof.
  intros Ha Hb Hab j r l H.
  assert (Hlt : b < length parent) by (by eapply lookup_lt_Some).
  induction H as [r Hr|j q r l Hj Hq H IH].
  - destruct (decide (r = b)) as [->|Hne].
    + exists a, [b; a]. econstructor; [by apply list_lookup_insert_eq|done|].
      constructor. by rewrite list_lookup_insert_ne.
    + exists r, [r]. constructor. by rewrite list_lookup_insert_ne.
  - destruct IH as (r' & l' & Hl'). exists r', (j :: l').
    econstructor; [|done|done].
    rewrite list_lookup_insert_ne; [done|]. intros ->. congruence.
Qed.

(** The loop of [find] returns the root, given a round for every slot of
    the path, and keeps the forest and its roots. *)
Lemma find_loop_total (fuel : nat) :
  forall (parent : list nat) (i r : nat) (l : list nat),
    path_to_root parent i r l -> length l <= fuel ->
    exists parent',
      find_loop fuel parent i = Some (parent', r) /\
      length parent' = length parent /\
      parent' !! r = Some r /\
      (forall j r' l', path_to_root parent j r' l' ->
         exists l'', path_to_root parent' j r' l'').
Proof.
  induction fuel as [|fuel IH]; intros parent i r l H Hlen.
  - destruct H; simpl in Hlen; lia.
  - simpl. inversion H as [? Hr|? p ? l0 Hi Hp H0]; subst.
    + rewrite Hr. simpl. rewrite decide_False by (intros ?; done).
      exists parent. repeat split; eauto.
    + rewrite Hi. simpl. rewrite decide_True by done.
      pose proof (path_NoDup _ _ _ _ H) as Hnd.
      apply NoDup_cons in Hnd as [Hil Hnd].
      assert (Hgp : exists gp, parent !! p = Some gp).
      { inversion H0; eauto. }
      destruct Hgp as [gp Hgp]. rewrite Hgp. simpl.
      destruct (IH (<[i := gp]> parent) p r l0) as (parent' & E & Hl' & Hr' & Hk).
      * by apply path_insert_off.
      * simpl in Hlen. lia.
      * exists parent'. split; [done|]. split.
        { by rewrite Hl', length_insert. }
        split; [done|].
        intros j r' l' Hj.
        destruct (path_split parent i p gp Hi Hp Hgp j r' l' Hj) as [l1 Hl1].
        eauto.
Qed.

(** [find] returns a root and keeps the structure well formed. *)
Lemma find_total (ds : DisjointSets) (node : Z) :
  well_formed ds -> slot (offset ds) node < size ds ->
  exists ds' root,
    find ds node = Some (ds', root) /\
    well_formed ds' /\ size ds' = size ds /\ offset ds' = offset ds /\
    parent ds' !! root = Some root /\
    (forall r, parent ds !! r = Some r -> parent ds' !! r = Some r).
Proof.
  intros [Hrank Hforest] Hslot.
  destruct (Hforest _ Hslot) as (r & l & Hpath).
  pose proof (path_length _ _ _ _ Hpath) as Hlen.
  destruct (find_loop_total (S (size ds)) (parent ds) _ r l Hpath)
    as (parent' & E & Hl' & Hr' & Hkeep).
  { unfold size. lia. }
  unfold find. rewrite E. simpl.
  eexists _, r. split; [done|]. repeat split; simpl; try done.
  - congruence.
  - intros j Hj. rewrite Hl' in Hj. destruct (Hforest j Hj) as (r' & l' & Hp').
    destruct (Hkeep _ _ _ Hp') as [l'' Hl'']. eauto.
  - intros r0 Hr0. destruct (Hkeep r0 r0 [r0]) as [l'' Hl''];
      [by constructor|]. by apply path_root in Hl'' as [? _].
Qed.

(** [set_union] returns and keeps the structure well formed. *)
Lemma set_union_total (ds : DisjointSets) (node_a node_b : Z) :
  well_formed ds ->
  slot (offset ds) node_a < size ds -> slot (offset ds) node_b < size ds ->
  exists ds',
    set_union ds node_a node_b = Some ds' /\
    well_formed ds' /\ size ds' = size ds /\ offset ds' = offset ds.
Proof.
  intros Hwf Ha Hb.
  destruct (find_total ds node_a Hwf Ha)
    as (ds1 & a & E1 & Hwf1 & Hs1 & Ho1 & Hra & _).
  destruct (find_total ds1 node_b Hwf1)
    as (ds2 & b & E2 & Hwf2 & Hs2 & Ho2 & Hrb & Hkeep).
  { rewrite Hs1, Ho1. done. }
  specialize (Hkeep a Hra).
  unfold set_union. rewrite E1. simpl. rewrite E2. simpl.
  case_decide as Hab.
  { exists ds2. repeat split; try apply Hwf2; congruence. }
  destruct Hwf2 as [Hrank Hforest].
  assert (Hla : a < length (parent ds2)) by (by eapply lookup_lt_Some).
  assert (Hlb : b < length (parent ds2)) by (by eapply lookup_lt_Some).
  destruct (lookup_lt_is_Some_2 (rank ds2) a ltac:(lia)) as [ra Era].
  destruct (lookup_lt_is_Some_2 (rank ds2) b ltac:(lia)) as [rb Erb].
  rewrite Era, Erb. simpl.
  assert (Hlink : forall x y, parent ds2 !! x = Some x ->
            parent ds2 !! y = Some y -> x <> y ->
            forest (<[y := x]> (parent ds2))).
  { intros x y Hx Hy Hxy j Hj. rewrite length_insert in Hj.
    destruct (Hforest j Hj) as (r & l & Hp).
    eapply path_link; eauto. }
  case_decide as Hlt.
  - rewrite decide_True by done. rewrite Erb, Era. simpl.
    eexists. split; [done|].
    split; [split|]; simpl.
    + case_decide; rewrite ?length_insert; done.
    + by apply Hlink.
    + unfold size in *. simpl. rewrite length_insert. split; congruence.
  - rewrite decide_True by done. rewrite Era, Erb. simpl.
    eexists. split; [done|].
    split; [split|]; simpl.
    + case_decide; rewrite ?length_insert; done.
    + apply Hlink; done.
    + unfold size in *. simpl. rewrite length_insert. split; congruence.
Qed.

End DisjointSetsFacts.

(** ** Weakly connected components: the search returns *)

Module ComponentsFacts.
Import Word Graph Components DisjointSetsFacts.

(** What the algorithm relies on: node ids lie between the minimum and the
    maximum id, [for_each_handle] visits nodes of the graph, the neighbours
    of a node are nodes, and the id range fits [size_t]. *)
Record graph_ok (graph : HandleGraph) : Prop := {
  ok_range : forall n, has_node graph n = true ->
    min_node_id graph <= n <= max_node_id graph;
  ok_ids : forall n, n ∈ node_ids graph -> has_node graph n = true;
  ok_closed : forall h go_left next,
    has_node graph (get_id h) = true ->
    next ∈ follow_edges graph h go_left ->
    has_node graph (get_id next) = true;
  ok_size : 0 <= max_node_id graph + 1 - min_node_id graph < modulus64
}.

(** The node ids are [nid_t] values, and so is [max_node_id + 1], which
    the algorithm computes as one. *)
Definition ids_fit (graph : HandleGraph) : Prop :=
  - 2 ^ 63 <= min_node_id graph /\ max_node_id graph + 1 < 2 ^ 63.

Lemma to_nid_signed (x : Z) : - 2 ^ 63 <= x < 2 ^ 63 -> to_nid x = x.
Proof.
  intros H. unfold to_nid, wrap64, modulus64.
  destruct (Z.ltb_spec (x mod 2 ^ 64) (2 ^ 63)) as [Hlt|Hge].
  - destruct (Z.le_gt_cases 0 x) as [Hx|Hx].
    + apply Z.mod_small. lia.
    + rewrite <- (Z.mod_add x 1 (2 ^ 64)) in Hlt by lia.
      rewrite Z.mod_small in Hlt by lia. lia.
  - destruct (Z.le_gt_cases 0 x) as [Hx|Hx].
    + rewrite Z.mod_small in Hge by lia. lia.
    + rewrite <- (Z.mod_add x 1 (2 ^ 64)) by lia.
      rewrite Z.mod_small by lia. lia.
Qed.

(** The bound of the loop of [sets], for ids that fit. *)
Lemma sets_bound (graph : HandleGraph) :
  0 <= max_node_id graph + 1 - min_node_id graph -> ids_fit graph ->
  to_nid (min_node_id graph +
          Z.of_nat (Z.to_nat (max_node_id graph + 1 - min_node_id graph))) -
    min_node_id graph =
  Z.of_nat (Z.to_nat (max_node_id graph + 1 - min_node_id graph)).
Proof.
  intros Hsize [Hlo Hhi]. rewrite Z2Nat.id by done.
  rewrite to_nid_signed by lia. lia.
Qed.

(** The number of entries of the bit vector that are still unset. *)
Definition unfound (found : list bool) : nat :=
  sum_list_with (fun b : bool => if b then 0%nat else 1%nat) found.

Lemma unfound_insert (found : list bool) (i : nat) :
  found !! i = Some false ->
  (unfound (<[i := true]> found) < unfound found)%nat.
Proof.
  intros Hi. pose proof (lookup_lt_Some _ _ _ Hi) as Hlt.
  rewrite insert_take_drop by done.
  rewrite <- (take_drop_middle found i false Hi) at 3.
  unfold unfound. rewrite !sum_list_with_app. simpl. lia.
Qed.

Section Search.

Variable graph : HandleGraph.
Hypothesis graph_good : graph_ok graph.

Let n : nat :=
  Z.to_nat (max_node_id graph + 1 - min_node_id graph).

Definition present (id : Z) : Prop := has_node graph id = true.

Lemma slot_present (id : Z) :
  present id -> (slot (min_node_id graph) id < n)%nat.
Proof.
  intros Hid. pose proof (ok_range graph graph_good id Hid).
  pose proof (ok_size graph graph_good).
  unfold slot. rewrite wrap64_small by lia. subst n. lia.
Qed.

Lemma slot_inj (id id' : Z) :
  present id -> present id' ->
  slot (min_node_id graph) id = slot (min_node_id graph) id' -> id = id'.
Proof.
  intros Hid Hid'. pose proof (ok_range graph graph_good id Hid).
  pose proof (ok_range graph graph_good id' Hid').
  pose proof (ok_size graph graph_good).
  unfold slot. rewrite !wrap64_small by lia. lia.
Qed.

Definition sets_ok (ds : DisjointSets) : Prop :=
  well_formed ds /\ size ds = n /\ offset ds = min_node_id graph.

Definition search_ok (s : search) : Prop :=
  length (found s) = n /\ sets_ok (components s).

(** Visiting the neighbours unites each with the node and pushes it. *)
Lemma handle_edges_total (id : Z) (nexts : list handle_t) :
  present id ->
  forall (ds : DisjointSets) (handles : list handle_t),
    sets_ok ds ->
    (forall next, next ∈ nexts -> present (get_id next)) ->
    exists ds',
      foldl (handle_edge id) (Some (ds, handles)) nexts =
        Some (ds', reverse nexts ++ handles) /\
      sets_ok ds'.
Proof.
  intros Hid. induction nexts as [|next nexts IH];
    intros ds handles (Hwf & Hsize & Hoff) Hp.
  - exists ds. done.
  - simpl.
    destruct (set_union_total ds id (get_id next) Hwf)
      as (ds1 & E & Hwf1 & Hs1 & Ho1).
    { rewrite Hsize, Hoff. by apply slot_present. }
    { rewrite Hsize, Hoff. apply slot_present, Hp. by left. }
    rewrite E. simpl.
    destruct (IH ds1 (next :: handles)) as (ds' & E' & Hok').
    { split; [done|]. split; congruence. }
    { intros x Hx. apply Hp. by right. }
    exists ds'. split; [|done].
    rewrite E', reverse_cons, <- app_assoc. done.
Qed.

(** The inner loop returns: a round either marks a new id or shortens the
    stack. *)
Lemma search_loop_total (m : nat) :
  forall (handles : list handle_t) (s : search),
    unfound (found s) = m -> search_ok s ->
    (forall h, h ∈ handles -> present (get_id h)) ->
    exists (n0 : nat) (s' : search),
      search_ok s' /\
      forall fuel, (n0 <= fuel)%nat ->
        search_loop graph fuel s handles = Some s'.
Proof.
  induction m as [m IHm] using lt_wf_ind.
  induction handles as [|h rest IHrest]; intros s Hm Hok Hp.
  - exists 1%nat, s. split; [done|]. intros [|fuel] Hf; [lia | done].
  - destruct Hok as (Hlen & Hsets).
    assert (Hh : present (get_id h)) by (apply Hp; by left).
    pose proof (slot_present _ Hh) as Hslot.
    destruct (lookup_lt_is_Some_2 (found s) (slot (min_node_id graph) (get_id h))
                ltac:(lia)) as [b Hb].
    destruct b.
    + destruct (IHrest s Hm) as (n1 & s' & Hok' & Hrun).
      { done. } { intros x Hx. apply Hp. by right. }
      exists (S n1), s'. split; [done|].
      intros [|fuel] Hf; [lia|]. simpl. rewrite Hb. simpl. apply Hrun. lia.
    + destruct (handle_edges_total (get_id h) (follow_edges graph h false)
                  Hh (components s) rest Hsets) as (ds1 & E1 & Hok1).
      { intros x Hx. by eapply (ok_closed graph graph_good h false). }
      destruct (handle_edges_total (get_id h) (follow_edges graph h true)
                  Hh ds1 (reverse (follow_edges graph h false) ++ rest) Hok1)
        as (ds2 & E2 & Hok2).
      { intros x Hx. by eapply (ok_closed graph graph_good h true). }
      set (s1 := {| found := <[slot (min_node_id graph) (get_id h) := true]>
                               (found s);
                    components := ds2 |}).
      destruct (IHm (unfound (found s1)))
        with (handles := reverse (follow_edges graph h true) ++
                         reverse (follow_edges graph h false) ++ rest)
             (s := s1) as (n1 & s' & Hok' & Hrun).
      { subst s1 m. simpl. by apply unfound_insert. }
      { done. }
      { split; [|done]. subst s1. simpl. by rewrite length_insert. }
      { intros x. rewrite !elem_of_app, !elem_of_reverse.
        intros [Hx|[Hx|Hx]].
        - by eapply (ok_closed graph graph_good h true).
        - by eapply (ok_closed graph graph_good h false).
        - apply Hp. by right. }
      exists (S n1), s'. split; [done|].
      intros [|fuel] Hf; [lia|]. simpl. rewrite Hb. simpl.
      rewrite E1, E2. simpl. apply Hrun. lia.
Qed.

(** The outer loop returns. *)
Lemma visit_total (ids : list Z) :
  forall s : search,
    search_ok s -> (forall id, id ∈ ids -> present id) ->
    exists (n0 : nat) (s' : search),
      search_ok s' /\
      forall fuel, (n0 <= fuel)%nat ->
        foldl (visit graph fuel) (Some s) ids = Some s'.
Proof.
  induction ids as [|id ids IH]; intros s Hok Hp.
  - exists 0%nat, s. done.
  - assert (Hid : present id) by (apply Hp; by left).
    pose proof (slot_present _ Hid) as Hslot.
    destruct Hok as (Hlen & Hsets).
    destruct (lookup_lt_is_Some_2 (found s) (slot (min_node_id graph) id)
                ltac:(lia)) as [b Hb].
    destruct b.
    + destruct (IH s) as (n1 & s' & Hok' & Hrun).
      { done. } { intros x Hx. apply Hp. by right. }
      exists n1, s'. split; [done|]. intros fuel Hf. simpl.
      rewrite Hb. simpl. by apply Hrun.
    + destruct (search_loop_total (unfound (found s)) [get_handle id false] s)
        as (n1 & s1 & Hok1 & Hrun1).
      { done. } { done. }
      { intros h ->%list_elem_of_singleton. done. }
      destruct (IH s1 Hok1) as (n2 & s' & Hok' & Hrun2).
      { intros x Hx. apply Hp. by right. }
      exists (max n1 n2), s'. split; [done|]. intros fuel Hf. simpl.
      rewrite Hb. simpl. rewrite Hrun1 by lia. apply Hrun2. lia.
Qed.

End Search.

(** The first id of a component. *)
Definition first_id (c : list Z) : Z := default 0 (head c).

Lemma concat_alter_snoc (l : list (list Z)) (i : nat) (x : Z) :
  (i < length l)%nat ->
  concat (alter (fun c => c ++ [x]) i l) ≡ₚ x :: concat l.
Proof.
  revert i. induction l as [|c l IH]; intros i Hi; simpl in Hi; [lia|].
  destruct i as [|i]; simpl.
  - rewrite <- app_assoc. simpl. symmetry. apply Permutation_middle.
  - rewrite (IH i) by lia. symmetry. apply Permutation_middle.
Qed.

Lemma NoDup_concat_unique (l : list (list Z)) :
  NoDup (concat l) ->
  forall i j ci cj x,
    l !! i = Some ci -> l !! j = Some cj -> x ∈ ci -> x ∈ cj -> i = j.
Proof.
  induction l as [|c l IH]; intros Hnd i j ci cj x Hi Hj Hxi Hxj.
  - by rewrite lookup_nil in Hi.
  - simpl in Hnd. apply NoDup_app in Hnd as (Hc & Hdisj & Hl).
    assert (Hin : forall k ck, l !! k = Some ck -> x ∈ ck -> x ∈ concat l).
    { intros k ck Hk Hx. apply list_elem_of_In, in_concat. exists ck.
      split; apply list_elem_of_In; [by eapply list_elem_of_lookup_2 | done]. }
    destruct i as [|i], j as [|j]; simpl in Hi, Hj.
    + done.
    + injection Hi as <-. exfalso. by eapply Hdisj, Hin.
    + injection Hj as <-. exfalso. by eapply Hdisj, Hin.
    + f_equal. by eapply IH.
Qed.

Section Sets.

Variable graph : HandleGraph.
Hypothesis graph_good : graph_ok graph.

(** The invariant of the loop of [sets] after the nodes [processed]. *)
Record sets_inv (processed : list Z) (st : sets_state) : Prop := {
  si_sets : sets_ok graph (sets_ds st);
  si_index : forall root idx,
    root_to_set st !! root = Some idx -> (idx < length (sets_result st))%nat;
  si_perm : concat (sets_result st) ≡ₚ
              filter (fun x => has_node graph x = true) processed;
  si_sorted : Forall (fun c => c <> [] /\ StronglySorted Z.lt c)
                (sets_result st);
  si_heads : StronglySorted Z.lt (first_id <$> sets_result st)
}.

Lemma sets_step_inv (processed : list Z) (st : sets_state) (node : Z) :
  sets_inv processed st ->
  (forall x, x ∈ processed -> x < node) ->
  exists st',
    sets_step (has_node graph) st node = Some st' /\
    sets_inv (processed ++ [node]) st'.
Proof.
  intros [(Hwf & Hsize & Hoff) I2 I3 I4 I5] Hlt. unfold sets_step.
  destruct (has_node graph node) eqn:Hnode; simpl.
  2:{ exists st. split; [done|]. split; try done.
      rewrite filter_app, filter_cons_False by congruence.
      by rewrite app_nil_r. }
  destruct (find_total (sets_ds st) node Hwf)
    as (ds' & root & E & Hwf' & Hs' & Ho' & _).
  { rewrite Hsize, Hoff. by apply slot_present. }
  rewrite E. simpl.
  assert (Hok' : sets_ok graph ds') by (split; [done|split; congruence]).
  assert (Hmem : forall x, x ∈ concat (sets_result st) -> x < node).
  { intros x Hx. rewrite I3 in Hx. apply list_elem_of_filter in Hx as [_ Hx].
    by apply Hlt. }
  assert (Hinc : forall c x, c ∈ sets_result st -> x ∈ c -> x < node).
  { intros c x Hc Hx. apply Hmem, list_elem_of_In, in_concat.
    exists c. split; by apply list_elem_of_In. }
  assert (Hfilter : filter (fun x => has_node graph x = true)
                      (processed ++ [node]) ≡ₚ
                    node :: filter (fun x => has_node graph x = true) processed).
  { rewrite filter_app, filter_cons_True by done.
    by rewrite Permutation_app_comm. }
  destruct (root_to_set st !! root) as [idx|] eqn:Hroot.
  - (* the set of the root exists *)
    rewrite Hroot. simpl. pose proof (I2 _ _ Hroot) as Hidx.
    rewrite decide_True by done.
    eexists. split; [done|].
    destruct (lookup_lt_is_Some_2 _ _ Hidx) as [c Hc].
    rewrite Forall_forall in I4.
    destruct (I4 c (list_elem_of_lookup_2 _ _ _ Hc)) as [Hne Hsorted].
    split; simpl.
    + done.
    + intros r i Hr. rewrite length_alter. by eapply I2.
    + by rewrite concat_alter_snoc, Hfilter, I3.
    + apply Forall_forall. intros c' Hc'.
      apply list_elem_of_lookup_1 in Hc' as [k Hk].
      destruct (decide (k = idx)) as [->|Hki].
      * rewrite list_lookup_alter_eq, Hc in Hk. injection Hk as <-.
        split; [by destruct c|].
        apply StronglySorted_app_2; [|done|repeat constructor].
        intros x1 x2 Hx1 ->%list_elem_of_singleton.
        eapply Hinc; [|done]. by eapply list_elem_of_lookup_2.
      * rewrite list_lookup_alter_ne in Hk by done.
        apply I4. by eapply list_elem_of_lookup_2.
    + replace (first_id <$> alter (fun c0 => c0 ++ [node]) idx (sets_result st))
        with (first_id <$> sets_result st); [done|].
      apply list_eq. intros k. rewrite !list_lookup_fmap.
      destruct (decide (k = idx)) as [->|Hki].
      * rewrite list_lookup_alter_eq, Hc. simpl. f_equal.
        destruct c; [done | reflexivity].
      * by rewrite list_lookup_alter_ne.
  - (* a new set is opened *)
    rewrite lookup_insert_eq. simpl.
    rewrite decide_True by (rewrite length_app; simpl; lia).
    eexists. split; [done|].
    assert (Hres : alter (fun c => c ++ [node]) (length (sets_result st))
                     (sets_result st ++ [[]]) = sets_result st ++ [[node]]).
    { replace (length (sets_result st))
        with (length (sets_result st) + 0)%nat at 1 by lia.
      by rewrite alter_app_r. }
    split; simpl; rewrite ?Hres.
    + done.
    + intros r i Hr. rewrite length_app. simpl.
      destruct (decide (r = root)) as [->|Hne].
      * rewrite lookup_insert_eq in Hr. injection Hr as <-. lia.
      * rewrite lookup_insert_ne in Hr by done.
        pose proof (I2 _ _ Hr). lia.
    + rewrite concat_app. simpl. rewrite Hfilter, I3.
      by rewrite Permutation_app_comm.
    + apply Forall_app. split; [done|]. apply Forall_singleton.
      split; [done | repeat constructor].
    + rewrite fmap_app. apply StronglySorted_app_2; [|done|repeat constructor].
      intros x1 x2 Hx1 ->%list_elem_of_singleton.
      apply list_elem_of_fmap in Hx1 as (c & -> & Hc).
      rewrite Forall_forall in I4. destruct (I4 c Hc) as [Hne _].
      destruct c as [|y c]; [done|]. simpl.
      eapply (Hinc (y :: c)); [done | by left].
Qed.

Lemma sets_loop_total (rest : list Z) :
  forall (processed : list Z) (st : sets_state),
    StronglySorted Z.lt (processed ++ rest) ->
    sets_inv processed st ->
    exists st',
      sets_loop (has_node graph) st rest = Some st' /\
      sets_inv (processed ++ rest) st'.
Proof.
  induction rest as [|node rest IH]; intros processed st Hsorted I; simpl.
  - exists st. by rewrite app_nil_r.
  - destruct (sets_step_inv processed st node I) as (st1 & E & I1).
    { intros x Hx. apply (StronglySorted_app_1_elem_of _ _ _ _ _ Hsorted Hx).
      by left. }
    rewrite E. simpl.
    replace (processed ++ node :: rest) with ((processed ++ [node]) ++ rest)
      in * by (by rewrite <- app_assoc).
    by apply IH.
Qed.

End Sets.

Lemma seqZ_sorted (m : Z) (len : nat) :
  StronglySorted Z.lt (seqZ m (Z.of_nat len)).
Proof.
  induction len as [|len IH]; [constructor|].
  rewrite seqZ_S. apply StronglySorted_app_2; [|done|repeat constructor].
  intros x1 x2 Hx1 ->%list_elem_of_singleton.
  apply elem_of_seqZ in Hx1. lia.
Qed.

Lemma make_sets_ok (graph : HandleGraph) :
  sets_ok graph
    (make_sets (Z.to_nat (max_node_id graph + 1 - min_node_id graph))
       (min_node_id graph)).
Proof.
  split; [split|split]; simpl.
  - by rewrite length_replicate, length_seq.
  - intros i Hi. rewrite length_seq in Hi. exists i, [i]. constructor.
    by apply lookup_seq_lt.
  - unfold size. simpl. by rewrite length_seq.
  - done.
Qed.

(** C7: on a graph that keeps the contract [graph_ok] and whose ids fit
    [nid_t] together with [max_node_id + 1], the function returns (with
    enough fuel for its loops) a list of components such that the ids in
    the components are exactly the node ids with [has_node], each in
    exactly one component and once; the ids of a component are in
    ascending order; and the components are in ascending order of their
    first, hence smallest, id. *)
Theorem weakly_connected_components_partition (graph : HandleGraph) :
  graph_ok graph -> ids_fit graph ->
  exists (n0 : nat) (comps : list (list Z)),
    (forall fuel, (n0 <= fuel)%nat ->
       weakly_connected_components graph fuel = Some comps) /\
    (forall id, id ∈ concat comps <-> has_node graph id = true) /\
    NoDup (concat comps) /\
    (forall i j ci cj id,
       comps !! i = Some ci -> comps !! j = Some cj ->
       id ∈ ci -> id ∈ cj -> i = j) /\
    Forall (fun c => c <> [] /\ StronglySorted Z.lt c) comps /\
    StronglySorted Z.lt (first_id <$> comps).
Proof.
  intros Hok Hfit. pose proof (ok_size graph Hok) as Hsize.
  pose proof (sets_bound graph (proj1 Hsize) Hfit) as Hbound.
  set (n := Z.to_nat (max_node_id graph + 1 - min_node_id graph)) in *.
  set (s0 := {| found := replicate n false;
                components := make_sets n (min_node_id graph) |}).
  destruct (visit_total graph Hok (node_ids graph) s0)
    as (n0 & s1 & (Hlen1 & Hsets1) & Hrun).
  { split; [by apply length_replicate | apply make_sets_ok]. }
  { intros id Hid. by apply (ok_ids graph Hok). }
  destruct Hsets1 as (Hwf1 & Hsize1 & Hoff1).
  destruct (sets_loop_total graph Hok
              (seqZ (min_node_id graph) (Z.of_nat n)) []
              {| sets_ds := components s1; sets_result := [];
                 root_to_set := ∅ |})
    as (st & Hloop & [_ _ I3 I4 I5]).
  { simpl. apply seqZ_sorted. }
  { split; simpl;
      first [ done | constructor
            | intros r i Hr; by rewrite lookup_empty in Hr ]. }
  simpl in I3.
  assert (Hnd : NoDup (concat (sets_result st))).
  { rewrite I3. apply NoDup_filter, NoDup_seqZ. }
  exists n0, (sets_result st). split; [|split; [|split; [|split]]].
  - intros fuel Hfuel. unfold weakly_connected_components.
    rewrite wrap64_small by lia. fold n. fold s0.
    rewrite (Hrun fuel Hfuel). simpl. unfold sets.
    rewrite Hoff1. fold (size (components s1)). rewrite Hsize1.
    fold n. rewrite Hbound, Hloop. done.
  - intros id. rewrite I3, list_elem_of_filter, elem_of_seqZ.
    split; [by intros [? _]|]. intros Hid. split; [done|].
    pose proof (ok_range graph Hok id Hid). subst n. lia.
  - done.
  - intros i j ci cj id. by apply NoDup_concat_unique.
  - done.
Qed.

(** A graph built from edges between listed ids keeps the contract. *)
Lemma foldr_min_max (d : Z) (ids : list Z) (x : Z) :
  x ∈ ids -> foldr Z.min d ids <= x <= foldr Z.max d ids.
Proof.
  induction ids as [|y ids IH]; intros Hx; [by apply elem_of_nil in Hx|].
  simpl. apply elem_of_cons in Hx as [->|Hx]; [lia|].
  specialize (IH Hx). lia.
Qed.

Lemma of_edges_ok (ids : list Z) (edges : list (handle_t * handle_t)) :
  Forall (fun e => get_id e.1 ∈ ids /\ get_id e.2 ∈ ids) edges ->
  0 <= max_node_id (of_edges ids edges) + 1 -
       min_node_id (of_edges ids edges) < modulus64 ->
  graph_ok (of_edges ids edges).
Proof.
  intros Hedges Hsize. split; simpl.
  - intros x Hx%bool_decide_eq_true. by apply foldr_min_max.
  - intros x Hx. by apply bool_decide_eq_true.
  - intros h go_left next _ Hnext. apply bool_decide_eq_true.
    set (all := edges ++ map (fun e => (flip e.2, flip e.1)) edges) in *.
    assert (Hall : Forall (fun e => get_id e.1 ∈ ids /\ get_id e.2 ∈ ids) all).
    { subst all. apply Forall_app. split; [done|].
      apply Forall_fmap. eapply Forall_impl; [exact Hedges|].
      intros [a b] [? ?]. simpl. done. }
    rewrite Forall_forall in Hall.
    destruct go_left;
      apply list_elem_of_fmap in Hnext as (e & -> & He);
      apply list_elem_of_filter in He as [_ He];
      by apply Hall.
  - exact Hsize.
Qed.

Lemma weakly_connected_components_partition_witness :
  exists (n0 : nat) (comps : list (list Z)),
    (forall fuel, (n0 <= fuel)%nat ->
       weakly_connected_components ComponentsExamples.three_parts fuel
         = Some comps) /\
    StronglySorted Z.lt (first_id <$> comps).
Proof.
  assert (Hok : graph_ok ComponentsExamples.three_parts).
  { apply of_edges_ok; [|split; [discriminate | reflexivity]].
    repeat constructor; simpl; set_solver. }
  assert (Hfit : ids_fit ComponentsExamples.three_parts).
  { split; [discriminate | reflexivity]. }
  destruct (weakly_connected_components_partition
              ComponentsExamples.three_parts Hok Hfit)
    as (n0 & comps & Hrun & _ & _ & _ & _ & Hheads).
  exists n0, comps. split; [exact Hrun | exact Hheads].
Defined.

End ComponentsFacts.

(** ** Head nodes of a nice acyclic component ([src/src/algorithms.cpp]) *)

Module NiceAcyclic.
Import Word Graph.

(** [std::numeric_limits<size_t>::max()]. *)
Definition NOT_SEEN : Z := modulus64 - 1.

(** The state of [is_nice_and_acyclic]: [nodes] maps a node id to its
    remaining indegree and its orientation. *)
Record state : Type := mkState {
  nodes : gmap Z (Z * bool);
  active : list handle_t;   (* the stack, top first *)
  found : Z;
  ok : bool
}.

(** What the first loop builds. *)
Record heads : Type := mkHeads {
  head_state : state;
  head_nodes : list Z;
  missing_nodes : Z
}.

Section Algorithm.

Variable graph : HandleGraph.

(** One round of the first loop. *)
Definition find_head (acc : heads) (node : Z) : heads :=
  let st := head_state acc in
  if negb (has_node graph node)
  then {| head_state := st; head_nodes := head_nodes acc;
          missing_nodes := wrap64 (missing_nodes acc + 1) |}
  else
    let handle := get_handle node false in
    let indegree := get_degree graph handle true in
    if decide (indegree = 0)
    then {| head_state :=
              {| nodes := <[node := (indegree, false)]> (nodes st);
                 active := handle :: active st;
                 found := wrap64 (found st + 1);
                 ok := ok st |};
            head_nodes := head_nodes acc ++ [node];
            missing_nodes := missing_nodes acc |}
    else {| head_state :=
              {| nodes := <[node := (NOT_SEEN, false)]> (nodes st);
                 active := active st; found := found st; ok := ok st |};
            head_nodes := head_nodes acc;
            missing_nodes := missing_nodes acc |}.

(** Decrementing the indegree of [next], once its entry is settled. *)
Definition decrement (st : state) (next : handle_t) (first : Z)
    (orientation : bool) : state :=
  let first' := wrap64 (first - 1) in
  let nodes' := <[get_id next := (first', orientation)]> (nodes st) in
  if decide (first' = 0)
  then {| nodes := nodes'; active := next :: active st;
          found := wrap64 (found st + 1); ok := ok st |}
  else {| nodes := nodes'; active := active st; found := found st;
          ok := ok st |}.

(** The callback of [follow_edges] in the second loop, over the successors
    still to visit; a callback that returns [false] ends the visit.  The
    entry of a node that is not in the map does not exist, and reading it
    is undefined: [None]. *)
Fixpoint visit_successors (st : state) (nexts : list handle_t) :
    option state :=
  match nexts with
  | [] => Some st
  | next :: rest =>
      match nodes st !! get_id next with
      | None => None
      | Some (first, orientation) =>
          if decide (first = NOT_SEEN)
          then visit_successors
                 (decrement st next (get_degree graph next true)
                    (get_is_reverse next))
                 rest
          else if decide (get_is_reverse next <> orientation)
          then Some {| nodes := nodes st; active := active st;
                       found := found st; ok := false |}
          else visit_successors (decrement st next first orientation) rest
      end
  end.

(** The second loop, [while(!(active.empty()))]. *)
Fixpoint process_active (fuel : nat) (st : state) : option state :=
  match fuel with
  | O => None
  | S fuel' =>
      match active st with
      | [] => Some st
      | curr :: rest =>
          st' ← visit_successors
                  {| nodes := nodes st; active := rest; found := found st;
                     ok := ok st |}
                  (follow_edges graph curr false);
          if ok st' then process_active fuel' st' else Some st'
      end
  end.

(** [is_nice_and_acyclic]. *)
Definition is_nice_and_acyclic (fuel : nat) (component : list Z) :
    option (list Z) :=
  if decide (component = []) then Some []
  else
    let h := foldl find_head
               {| head_state := {| nodes := ∅; active := []; found := 0;
                                   ok := true |};
                  head_nodes := []; missing_nodes := 0 |}
               component in
    st ← process_active fuel (head_state h);
    let ok' :=
      if decide (found st <>
                 wrap64 (Z.of_nat (length component) - missing_nodes h))
      then false else ok st in
    if ok' then Some (head_nodes h) else Some [].

End Algorithm.

End NiceAcyclic.

Module NiceAcyclicExamples.
Import Graph NiceAcyclic TopologicalOrderExamples.

Example heads_of_diamond :
  is_nice_and_acyclic diamond 10 [1; 2; 3] = Some [1].
Proof. vm_compute. reflexivity. Qed.

Example heads_with_missing :
  is_nice_and_acyclic diamond 10 [8; 1; 2; 9; 3] = Some [1].
Proof. vm_compute. reflexivity. Qed.

Example heads_of_loop : is_nice_and_acyclic loop2 10 [1; 2] = Some [].
Proof. vm_compute. reflexivity. Qed.

(** Scenario D: A+ -> B+ and A+ -> B-. *)
Example heads_of_two_orientations :
  is_nice_and_acyclic two_orientations 10 [1; 2] = Some [].
Proof. vm_compute. reflexivity. Qed.

(** 1+ -> 2-: both nodes are heads, and 1 is reached in reverse. *)
Example heads_of_flipped :
  is_nice_and_acyclic (of_edges [1; 2] [(fw 1, rv 2)]) 10 [1; 2] = Some [].
Proof. vm_compute. reflexivity. Qed.

(** Two heads. *)
Example heads_of_join :
  is_nice_and_acyclic (of_edges [1; 2; 3] [(fw 1, fw 3); (fw 2, fw 3)]) 10
    [3; 2; 1] = Some [2; 1].
Proof. vm_compute. reflexivity. Qed.

(** 3+ -> 2+ and 1- -> 2+: the source 1- is not a forward handle, and
    node 2 is never activated. *)
Example heads_of_reverse_source :
  is_nice_and_acyclic (of_edges [1; 2; 3] [(fw 3, fw 2); (rv 1, fw 2)]) 10
    [1; 2; 3] = Some [].
Proof. vm_compute. reflexivity. Qed.

End NiceAcyclicExamples.

(** ** Correctness of the head-node search *)

Module NiceAcyclicFacts.
Import Word Graph GraphFacts NiceAcyclic.
Import TopologicalOrder TopologicalOrderFacts.

Lemma filter_all {A : Type} (P : A -> Prop) `{forall x, Decision (P x)}
    (l : list A) :
  (forall x, x ∈ l -> P x) -> filter P l = l.
Proof.
  induction l as [|x l IH]; intros Hall; [done|].
  rewrite filter_cons_True by (apply Hall; by left).
  f_equal. apply IH. intros y Hy. apply Hall. by right.
Qed.

Lemma sum_list_with_pos {A : Type} (f : A -> nat) (l : list A) :
  (0 < sum_list_with f l)%nat -> exists x, x ∈ l /\ (0 < f x)%nat.
Proof.
  induction l as [|x l IH]; simpl; [lia|]. intros Hpos.
  destruct (decide (0 < f x)%nat) as [Hx|Hx].
  - exists x. split; [by left | done].
  - destruct IH as (y & Hy & Hfy); [lia|]. exists y. split; [by right | done].
Qed.

Lemma flip_flip (h : handle_t) : flip (flip h) = h.
Proof. destruct h as [n []]; reflexivity. Qed.

Lemma flip_ne (h : handle_t) : flip h <> h.
Proof. destruct h as [n []]; discriminate. Qed.

Lemma same_node (u v : handle_t) :
  get_id u = get_id v -> u = v \/ u = flip v.
Proof.
  destruct u as [n a], v as [m b]; simpl. intros ->.
  destruct a, b; unfold flip; simpl; auto.
Qed.

Section Setting.

Variable graph : HandleGraph.
Variable component : list Z.

(** The nodes of the component that are in the graph, and their handles. *)
Let P : list Z := present graph component.
Let K : list handle_t := inserted graph component.

Hypothesis graph_consistent : consistent graph.
Hypothesis degrees_marked :
  forall h, Z.of_nat (length (follow_edges graph h true)) < NOT_SEEN.
Hypothesis component_nodup : NoDup component.
Hypothesis component_closed :
  forall h go_left next,
    h ∈ K -> next ∈ follow_edges graph h go_left -> next ∈ K.
Hypothesis component_fits : 2 * Z.of_nat (length component) < modulus64.

Lemma K_nodup : NoDup K.
Proof. by apply NoDup_inserted. Qed.

Lemma K_node (v : handle_t) : v ∈ K <-> get_id v ∈ P.
Proof.
  subst K P. rewrite elem_of_inserted. unfold in_subgraph, present.
  by rewrite list_elem_of_filter, (comm and).
Qed.

Lemma K_flip (v : handle_t) : v ∈ K -> flip v ∈ K.
Proof. rewrite !K_node. done. Qed.

Lemma K_length : Z.of_nat (length K) < modulus64.
Proof.
  subst K. rewrite length_inserted.
  pose proof (length_filter (fun node => has_node graph node = true) component).
  unfold present. lia.
Qed.

(** The indegree of a handle: the number of its predecessors. *)
Definition indeg (v : handle_t) : nat := length (follow_edges graph v true).

Lemma indeg_flow (v : handle_t) : v ∈ K -> indeg v = flow graph K v.
Proof.
  intros Hv. rewrite <- (indegree_in_flow graph graph_consistent K v K_nodup).
  unfold indeg, indegree_in. rewrite filter_all; [done|].
  intros u Hu. by eapply component_closed.
Qed.

Lemma edge_indeg (u v : handle_t) : edge graph u v -> (0 < indeg v)%nat.
Proof.
  intros He. apply occ_pos in He. rewrite <- graph_consistent in He.
  unfold indeg. unfold occ in He.
  pose proof (length_filter (fun y => y = u) (follow_edges graph v true)).
  lia.
Qed.

(** A decremented counter was decremented along an edge. *)
Lemma relaxed_source (done pre post : list handle_t) (c v : handle_t) :
  follow_edges graph c false = pre ++ post ->
  (0 < relaxed graph done pre v)%nat ->
  exists u, u ∈ done ++ [c] /\ edge graph u v.
Proof.
  intros Hsucc Hpos. unfold relaxed in Hpos.
  destruct (decide (0 < occ v pre)%nat) as [Hpre|Hpre].
  - exists c. split; [apply elem_of_app; right; by left|].
    unfold edge. rewrite Hsucc. apply elem_of_app. left. by apply occ_pos.
  - destruct (sum_list_with_pos
                (fun u => occ v (follow_edges graph u false)) done)
      as (u & Hu & Hocc); [unfold flow in Hpos; lia|].
    exists u. split; [apply elem_of_app; by left|]. by apply occ_pos.
Qed.

(** A head handle: forward and without predecessors. *)
Definition head_handle (v : handle_t) : Prop :=
  get_is_reverse v = false /\ indeg v = 0%nat.

(** A handle is touched when it is a head or has been reached. *)
Definition touched (done pre : list handle_t) (v : handle_t) : Prop :=
  (0 < relaxed graph done pre v)%nat \/ head_handle v.

(** A handle is activated when it is a head or has been reached through all
    its incoming edges. *)
Definition activated (done pre : list handle_t) (v : handle_t) : Prop :=
  head_handle v \/
  ((0 < relaxed graph done pre v)%nat /\
   (indeg v <= relaxed graph done pre v)%nat).

Section Invariant.

(** A property of handles that holds for the heads and passes along edges;
    it stands for the chosen orientation, or for nothing at all. *)
Variable Q : handle_t -> Prop.
Hypothesis Q_heads : forall v, v ∈ K -> head_handle v -> Q v.
Hypothesis Q_edges : forall u v, Q u -> u ∈ K -> edge graph u v -> Q v.

(** The invariant of the second loop; [act] lists the activated handles in
    the order of their activation. *)
Record inv (st : NiceAcyclic.state) (act done cur pre : list handle_t) :
    Prop := {
  n_dom : forall n, is_Some (nodes st !! n) <-> n ∈ P;
  n_touched : forall v, v ∈ K -> touched done pre v ->
    nodes st !! get_id v =
      Some (Z.of_nat (indeg v - relaxed graph done pre v), get_is_reverse v);
  n_untouched : forall n, n ∈ P ->
    ~ touched done pre (mkHandle n false) ->
    ~ touched done pre (mkHandle n true) ->
    nodes st !! n = Some (NOT_SEEN, false);
  n_nodup : NoDup act;
  n_perm : act ≡ₚ done ++ cur ++ NiceAcyclic.active st;
  n_sub : forall v, v ∈ act -> v ∈ K;
  n_found : found st = Z.of_nat (length act);
  n_act : forall v, v ∈ K -> (v ∈ act <-> activated done pre v);
  n_order : forall u v,
    v ∈ act -> u ∈ K -> edge graph u v -> before u v act;
  n_Q : forall v, v ∈ act -> Q v;
  n_ok : ok st = true
}.

Lemma inv_done (st : NiceAcyclic.state) (act done cur pre : list handle_t) :
  inv st act done cur pre ->
  NoDup (done ++ cur) /\
  forall x, x ∈ done ++ cur -> x ∈ K /\ x ∈ act.
Proof.
  intros I. pose proof (n_nodup _ _ _ _ _ I) as Hnd.
  rewrite (n_perm _ _ _ _ _ I), app_assoc in Hnd.
  apply NoDup_app in Hnd as (Hnd & _ & _). split; [done|].
  intros x Hx.
  assert (Hr : x ∈ act).
  { rewrite (n_perm _ _ _ _ _ I), app_assoc. apply elem_of_app. by left. }
  split; [by eapply n_sub | done].
Qed.

(** A touched handle has the property [Q]. *)
Lemma touched_Q (st : NiceAcyclic.state) (act done pre post : list handle_t)
    (c v : handle_t) :
  inv st act done [c] pre ->
  follow_edges graph c false = pre ++ post ->
  v ∈ K -> touched done pre v -> Q v.
Proof.
  intros I Hsucc Hv [Hpos|Hhead]; [|by apply Q_heads].
  destruct (relaxed_source done pre post c v Hsucc Hpos) as (u & Hu & He).
  destruct (inv_done _ _ _ _ _ I) as [_ Hsub].
  destruct (Hsub u Hu) as [HuK Hua].
  eapply Q_edges; [|done..]. by eapply n_Q.
Qed.

(** No node is touched in both orientations. *)
Lemma touched_once (st : NiceAcyclic.state) (act done cur pre : list handle_t)
    (v : handle_t) :
  inv st act done cur pre -> v ∈ K ->
  touched done pre v -> touched done pre (flip v) -> False.
Proof.
  intros I Hv H1 H2.
  pose proof (n_touched _ _ _ _ _ I v Hv H1) as E1.
  pose proof (n_touched _ _ _ _ _ I (flip v) (K_flip v Hv) H2) as E2.
  simpl in E2. rewrite E1 in E2. injection E2 as _ E2.
  by destruct (get_is_reverse v).
Qed.

(** Decrementing the counter of a successor, whose entry holds its
    remaining indegree, keeps the invariant. *)
Lemma decrement_inv (st : NiceAcyclic.state)
    (act done pre post : list handle_t) (c next : handle_t) (first : Z) :
  inv st act done [c] pre ->
  follow_edges graph c false = pre ++ next :: post ->
  first = Z.of_nat (indeg next - relaxed graph done pre next) ->
  ~ touched done pre (flip next) ->
  exists act',
    inv (decrement st next first (get_is_reverse next)) act' done [c]
        (pre ++ [next]).
Proof.
  intros I Hsucc Hfirst Hflip.
  destruct (inv_done _ _ _ _ _ I) as [Hnd Hsub].
  assert (Hc : c ∈ K) by (apply Hsub, elem_of_app; right; by left).
  assert (Hnext : next ∈ K).
  { apply (component_closed c false next Hc). rewrite Hsucc.
    apply elem_of_app. right. by left. }
  assert (Hocc : forall v, v <> next ->
            relaxed graph done (pre ++ [next]) v = relaxed graph done pre v).
  { intros v Hv. unfold relaxed. rewrite occ_app, occ_cons, occ_nil.
    rewrite decide_False by congruence. lia. }
  assert (Hocc' : relaxed graph done (pre ++ [next]) next =
                  S (relaxed graph done pre next)).
  { unfold relaxed. rewrite occ_app, occ_cons, occ_nil.
    rewrite decide_True by done. lia. }
  destruct (relaxed_bound graph K graph_consistent K_nodup done
              (pre ++ [next]) post c next) as [B1 B2].
  { done. } { intros x Hx. by apply Hsub. } { by rewrite <- app_assoc. }
  rewrite (indegree_in_flow graph graph_consistent K next K_nodup) in B2.
  rewrite <- (indeg_flow next Hnext) in B2. rewrite Hocc' in B1.
  pose proof (degrees_marked next) as Hmark. fold (indeg next) in Hmark.
  assert (Hfirst' : wrap64 (first - 1) =
            Z.of_nat (indeg next - relaxed graph done (pre ++ [next]) next)).
  { unfold NOT_SEEN in Hmark. rewrite wrap64_small by lia. lia. }
  assert (Hnothead : ~ head_handle next) by (intros [_ ?]; lia).
  assert (Htouched : forall v, v <> next ->
            touched done (pre ++ [next]) v <-> touched done pre v).
  { intros v Hv. unfold touched. by rewrite Hocc. }
  assert (Hactivated : forall v, v <> next ->
            activated done (pre ++ [next]) v <-> activated done pre v).
  { intros v Hv. unfold activated. by rewrite Hocc. }
  assert (Hnew : next ∉ act).
  { rewrite (n_act _ _ _ _ _ I next Hnext). intros [?|[_ ?]]; [done | lia]. }
  assert (HQ : Q next).
  { eapply Q_edges; [| exact Hc |].
    - eapply n_Q; [done|]. by apply Hsub, elem_of_app; right; left.
    - unfold edge. rewrite Hsucc. apply elem_of_app. right. by left. }
  destruct I as [I1 I2 I3 I4 I5 I6 I7 I8 I9 I10 I11].
  set (entry := (wrap64 (first - 1), get_is_reverse next)).
  assert (Hdom : forall n,
            is_Some (<[get_id next := entry]> (nodes st) !! n) <-> n ∈ P).
  { intros n. destruct (decide (n = get_id next)) as [->|Hne].
    - rewrite lookup_insert_eq. split; [|eauto]. intros _. by apply K_node.
    - rewrite lookup_insert_ne by done. apply I1. }
  assert (Hto : forall v, v ∈ K -> touched done (pre ++ [next]) v ->
            <[get_id next := entry]> (nodes st) !! get_id v =
              Some (Z.of_nat (indeg v - relaxed graph done (pre ++ [next]) v),
                    get_is_reverse v)).
  { intros v Hv Ht. destruct (decide (v = next)) as [->|Hne].
    - rewrite lookup_insert_eq. subst entry. by rewrite Hfirst'.
    - apply Htouched in Ht; [|done].
      destruct (decide (get_id v = get_id next)) as [Hid|Hid].
      + destruct (same_node _ _ Hid) as [? | E]; [done|]. by rewrite E in Ht.
      + rewrite lookup_insert_ne by done. rewrite Hocc by done.
        by apply I2. }
  assert (Hun : forall n, n ∈ P ->
            ~ touched done (pre ++ [next]) (mkHandle n false) ->
            ~ touched done (pre ++ [next]) (mkHandle n true) ->
            <[get_id next := entry]> (nodes st) !! n = Some (NOT_SEEN, false)).
  { intros n Hn H1 H2.
    assert (Hnn : n <> get_id next).
    { intros ->. assert (Ht : touched done (pre ++ [next]) next)
        by (left; lia).
      destruct next as [m []]; simpl in *; tauto. }
    rewrite lookup_insert_ne by done. apply I3; [done| |].
    - rewrite <- Htouched; [done|]. intros E. apply Hnn. by rewrite <- E.
    - rewrite <- Htouched; [done|]. intros E. apply Hnn. by rewrite <- E. }
  unfold decrement. fold entry. case_decide as Hz.
  - (* the counter reached zero: [next] is activated *)
    assert (Hlen : (length (act ++ [next]) <= length K)%nat).
    { apply submseteq_length, NoDup_submseteq.
      - apply NoDup_app. split; [done|]. split; [|apply NoDup_singleton].
        intros x Hx ->%list_elem_of_singleton. done.
      - intros x [Hx| ->%list_elem_of_singleton]%elem_of_app; auto. }
    pose proof K_length as HK. rewrite length_app in Hlen. simpl in Hlen.
    exists (act ++ [next]). split; simpl.
    + done.
    + done.
    + done.
    + apply NoDup_app. split; [done|]. split; [|apply NoDup_singleton].
      intros x Hx ->%list_elem_of_singleton. done.
    + rewrite I5. rewrite <- !app_assoc. apply Permutation_app_head.
      simpl. constructor. symmetry. apply Permutation_cons_append.
    + intros v [Hv| ->%list_elem_of_singleton]%elem_of_app; auto.
    + rewrite I7, length_app. simpl. rewrite wrap64_small by lia. lia.
    + intros v Hv. destruct (decide (v = next)) as [->|Hne].
      * split; [|intros _; apply elem_of_app; right; by left].
        intros _. right. lia.
      * rewrite Hactivated by done. rewrite <- (I8 v Hv).
        rewrite elem_of_app, list_elem_of_singleton. tauto.
    + intros u v [Hv| ->%list_elem_of_singleton]%elem_of_app Hu Hedge.
      * apply before_app_l. by apply I9.
      * apply before_snoc.
        assert (Hud : u ∈ done ++ [c]).
        { eapply (flow_full graph (done ++ [c]) K u next); try done.
          - intros x Hx. by apply Hsub.
          - rewrite <- (indeg_flow next Hnext). lia. }
        by apply Hsub.
    + intros v [Hv| ->%list_elem_of_singleton]%elem_of_app; auto.
    + done.
  - exists act. split; simpl; try done.
    intros v Hv. destruct (decide (v = next)) as [->|Hne].
    + split; [done|]. intros [?|[_ ?]]; [done | lia].
    + rewrite Hactivated by done. by apply I8.
Qed.

(** Visiting the remaining successors of the current handle either keeps
    the invariant, or stops at a node met in both orientations. *)
Lemma visit_successors_inv (done : list handle_t) (c : handle_t)
    (post : list handle_t) :
  forall (st : NiceAcyclic.state) (act pre : list handle_t),
    inv st act done [c] pre ->
    follow_edges graph c false = pre ++ post ->
    exists st',
      visit_successors graph st post = Some st' /\
      ((ok st' = true /\ exists act', inv st' act' done [c] (pre ++ post)) \/
       (ok st' = false /\ exists v, v ∈ K /\ Q v /\ Q (flip v))).
Proof.
  induction post as [|next post IH]; intros st act pre I Hsucc.
  { exists st. split; [done|]. left. split; [by eapply n_ok|].
    exists act. by rewrite app_nil_r. }
  destruct (inv_done _ _ _ _ _ I) as [Hnd Hsub].
  assert (Hc : c ∈ K) by (apply Hsub, elem_of_app; right; by left).
  assert (Hedge : edge graph c next).
  { unfold edge. rewrite Hsucc. apply elem_of_app. right. by left. }
  assert (Hnext : next ∈ K) by (by apply (component_closed c false next Hc)).
  pose proof (edge_indeg c next Hedge) as Hin.
  assert (Hstep : forall st1 act1,
            inv st1 act1 done [c] (pre ++ [next]) ->
            exists st',
              visit_successors graph st1 post = Some st' /\
              ((ok st' = true /\
                exists act', inv st' act' done [c] (pre ++ next :: post)) \/
               (ok st' = false /\ exists v, v ∈ K /\ Q v /\ Q (flip v)))).
  { intros st1 act1 I1.
    replace (pre ++ next :: post) with ((pre ++ [next]) ++ post)
      by (by rewrite <- app_assoc).
    apply (IH st1 act1 (pre ++ [next]) I1). by rewrite <- app_assoc. }
  simpl.
  destruct (decide (0 < relaxed graph done pre next)%nat) as [Hr|Hr].
  - (* [next] was reached before *)
    assert (Ht : touched done pre next) by (by left).
    rewrite (n_touched _ _ _ _ _ I next Hnext Ht).
    pose proof (degrees_marked next) as Hmark. fold (indeg next) in Hmark.
    rewrite decide_False by lia. rewrite decide_False by (intros ?; done).
    destruct (decrement_inv st act done pre post c next _ I Hsucc eq_refl)
      as [act1 I1].
    { intros Hf. by eapply (touched_once st act done [c] pre next). }
    by eapply Hstep.
  - destruct (decide (touched done pre (flip next))) as [Hf|Hf].
    + (* the node was met in the other orientation *)
      pose proof (n_touched _ _ _ _ _ I (flip next) (K_flip _ Hnext) Hf) as E.
      simpl in E. rewrite E.
      pose proof (degrees_marked (flip next)) as Hmark.
      fold (indeg (flip next)) in Hmark.
      rewrite decide_False by lia.
      rewrite decide_True by (by destruct (get_is_reverse next)).
      eexists. split; [done|]. right. split; [done|].
      exists next. split; [done|]. split.
      * eapply Q_edges; [|exact Hc|done].
        eapply n_Q; [done|]. by apply Hsub, elem_of_app; right; left.
      * eapply (touched_Q st act done pre (next :: post) c); try done.
        by apply K_flip.
    + (* the first visit to the node *)
      assert (Hn : ~ touched done pre next).
      { intros [?|[_ ?]]; [done | lia]. }
      rewrite (n_untouched _ _ _ _ _ I (get_id next)).
      2:{ by apply K_node. }
      2,3: destruct next as [m []]; simpl in *; done.
      rewrite decide_True by done.
      destruct (decrement_inv st act done pre post c next
                  (get_degree graph next true) I Hsucc) as [act1 I1].
      { unfold get_degree. fold (indeg next). lia. }
      { done. }
      by eapply Hstep.
Qed.

Lemma popped_inv (st : NiceAcyclic.state) (act done rest : list handle_t)
    (c : handle_t) :
  inv st act done [] [] -> NiceAcyclic.active st = c :: rest ->
  inv {| nodes := nodes st; NiceAcyclic.active := rest;
         found := found st; ok := ok st |} act done [c] [].
Proof.
  intros [I1 I2 I3 I4 I5 I6 I7 I8 I9 I10 I11] Ha. split; simpl; try done.
  by rewrite I5, Ha.
Qed.

Lemma visited_inv (st : NiceAcyclic.state) (act done : list handle_t)
    (c : handle_t) :
  inv st act done [c] (follow_edges graph c false) ->
  inv st act (done ++ [c]) [] [].
Proof.
  intros [I1 I2 I3 I4 I5 I6 I7 I8 I9 I10 I11].
  assert (E : forall v, relaxed graph (done ++ [c]) [] v =
                        relaxed graph done (follow_edges graph c false) v).
  { intros v. unfold relaxed. rewrite flow_app, flow_singleton, occ_nil. lia. }
  assert (Et : forall v, touched (done ++ [c]) [] v <->
                         touched done (follow_edges graph c false) v).
  { intros v. unfold touched. by rewrite E. }
  split; try done.
  - intros v Hv Ht. rewrite E. apply I2; [done|]. by apply Et.
  - intros n Hn H1 H2. apply I3; [done| |]; by rewrite <- Et.
  - by rewrite I5, <- app_assoc.
  - intros v Hv. unfold activated. rewrite E. by apply I8.
Qed.

(** The second loop ends: with the invariant and an empty stack, or at a
    node met in both orientations. *)
Lemma process_active_inv (fuel : nat) :
  forall (st : NiceAcyclic.state) (act done : list handle_t),
    inv st act done [] [] ->
    (length K - length done < fuel)%nat ->
    exists st',
      process_active graph fuel st = Some st' /\
      ((ok st' = true /\
        exists act' done', inv st' act' done' [] [] /\
                           NiceAcyclic.active st' = []) \/
       (ok st' = false /\ exists v, v ∈ K /\ Q v /\ Q (flip v))).
Proof.
  induction fuel as [|fuel IH]; intros st act done I Hfuel; [lia|].
  simpl. destruct (NiceAcyclic.active st) as [|c rest] eqn:Ha.
  - exists st. split; [done|]. left. split; [by eapply n_ok|].
    exists act, done. done.
  - pose proof (popped_inv st act done rest c I Ha) as Ipop.
    destruct (inv_done _ _ _ _ _ Ipop) as [Hnd Hsub].
    assert (Hlen : (length (done ++ [c]) <= length K)%nat).
    { apply submseteq_length, NoDup_submseteq; [done|].
      intros x Hx. by apply Hsub. }
    rewrite length_app in Hlen. simpl in Hlen.
    destruct (visit_successors_inv done c (follow_edges graph c false) _
                act [] Ipop eq_refl) as (st1 & E & Hcases).
    rewrite E. simpl.
    destruct Hcases as [(Hok & act1 & I1)|(Hok & Hconf)].
    + rewrite Hok. simpl in I1. apply visited_inv in I1.
      apply (IH _ _ _ I1). rewrite length_app. simpl. lia.
    + rewrite Hok. exists st1. split; [done|]. by right.
Qed.

End Invariant.

(** *** The first loop *)

(** A head node: in the graph, its forward handle without predecessor. *)
Definition is_head (n : Z) : Prop :=
  has_node graph n = true /\ indeg (mkHandle n false) = 0%nat.

Definition initial : heads :=
  {| head_state := {| nodes := ∅; NiceAcyclic.active := []; found := 0;
                      ok := true |};
     head_nodes := []; NiceAcyclic.missing_nodes := 0 |}.

(** The result of the first loop after the nodes [seen]. *)
Record heads_of (seen : list Z) (acc : heads) : Prop := {
  hs_nodes : forall n,
    nodes (head_state acc) !! n =
      if decide (n ∈ seen /\ has_node graph n = true)
      then Some (if decide (indeg (mkHandle n false) = 0%nat)
                 then 0 else NOT_SEEN, false)
      else None;
  hs_heads : head_nodes acc = filter is_head seen;
  hs_active : NiceAcyclic.active (head_state acc) =
    reverse ((fun n => get_handle n false) <$> head_nodes acc);
  hs_found : found (head_state acc) = Z.of_nat (length (head_nodes acc));
  hs_missing : NiceAcyclic.missing_nodes acc =
    Z.of_nat (length (filter (fun n => has_node graph n <> true) seen));
  hs_ok : ok (head_state acc) = true
}.

Lemma find_head_heads_of (seen : list Z) (acc : heads) (node : Z) :
  Z.of_nat (length seen) + 1 < modulus64 ->
  heads_of seen acc -> heads_of (seen ++ [node]) (find_head graph acc node).
Proof.
  intros Hfit [H1 H2 H3 H4 H5 H6]. unfold find_head.
  pose proof (length_filter is_head seen) as Hl1.
  pose proof (length_filter (fun n => has_node graph n <> true) seen) as Hl2.
  destruct (has_node graph node) eqn:Hnode; simpl.
  - assert (Hmiss : filter (fun n => has_node graph n <> true) (seen ++ [node])
                    = filter (fun n => has_node graph n <> true) seen).
    { rewrite filter_app, filter_cons_False by (intros ?; done).
      by rewrite app_nil_r. }
    assert (Hlook : forall (e : Z * bool) n,
              e = (if decide (indeg (mkHandle node false) = 0%nat)
                   then 0 else NOT_SEEN, false) ->
              <[node := e]> (nodes (head_state acc)) !! n =
                if decide (n ∈ seen ++ [node] /\ has_node graph n = true)
                then Some (if decide (indeg (mkHandle n false) = 0%nat)
                           then 0 else NOT_SEEN, false)
                else None).
    { intros e n ->. destruct (decide (n = node)) as [->|Hne].
      - rewrite lookup_insert_eq.
        destruct (decide (node ∈ seen ++ [node] /\ has_node graph node = true))
          as [_|Hn]; [done|].
        destruct Hn. split; [apply elem_of_app; right; by left | done].
      - rewrite lookup_insert_ne by done. rewrite H1.
        destruct (decide (n ∈ seen /\ has_node graph n = true)) as [[? ?]|Hn];
          destruct (decide (n ∈ seen ++ [node] /\ has_node graph n = true))
            as [[Hin ?]|Hn']; try done.
        + destruct Hn'. split; [apply elem_of_app; by left|done].
        + destruct Hn. apply elem_of_app in Hin as [?|Hin]; [done|].
          apply list_elem_of_singleton in Hin. done. }
    unfold get_degree. fold (indeg (get_handle node false)).
    unfold get_handle.
    destruct (decide (Z.of_nat (indeg (mkHandle node false)) = 0)) as [Hz|Hz].
    + split; simpl.
      * intros n. apply Hlook.
        destruct (decide (indeg (mkHandle node false) = 0%nat)); [|lia].
        by rewrite Hz.
      * rewrite filter_app, filter_cons_True by (split; [done | lia]).
        by rewrite H2.
      * rewrite fmap_app, reverse_app. simpl. by rewrite H3.
      * rewrite H4, length_app. simpl. rewrite H2.
        rewrite wrap64_small by lia. lia.
      * by rewrite Hmiss.
      * done.
    + split; simpl.
      * intros n. apply Hlook.
        destruct (decide (indeg (mkHandle node false) = 0%nat)); [lia|done].
      * rewrite filter_app, filter_cons_False by (intros [_ ?]; lia).
        by rewrite H2, app_nil_r.
      * done.
      * done.
      * by rewrite Hmiss.
      * done.
  - split; simpl; try done.
    + intros n. rewrite H1.
      destruct (decide (n ∈ seen /\ has_node graph n = true)) as [[? ?]|Hn];
        destruct (decide (n ∈ seen ++ [node] /\ has_node graph n = true))
          as [[Hin ?]|Hn']; try done.
      * destruct Hn'. split; [apply elem_of_app; by left|done].
      * destruct Hn. apply elem_of_app in Hin as [?|Hin]; [done|].
        apply list_elem_of_singleton in Hin. congruence.
    + rewrite filter_app, filter_cons_False by (intros [? _]; congruence).
      by rewrite H2, app_nil_r.
    + rewrite filter_app, filter_cons_True by congruence.
      rewrite length_app. simpl. rewrite H5.
      rewrite wrap64_small by lia. lia.
Qed.

Lemma find_heads_heads_of (rest : list Z) :
  forall (seen : list Z) (acc : heads),
    Z.of_nat (length (seen ++ rest)) < modulus64 ->
    heads_of seen acc ->
    heads_of (seen ++ rest) (foldl (find_head graph) acc rest).
Proof.
  induction rest as [|node rest IH]; intros seen acc Hfit H; simpl.
  - by rewrite app_nil_r.
  - replace (seen ++ node :: rest) with ((seen ++ [node]) ++ rest) in *
      by (by rewrite <- app_assoc).
    apply IH; [done|]. apply find_head_heads_of; [|done].
    rewrite !length_app in Hfit. simpl in Hfit. lia.
Qed.

Lemma initial_heads_of : heads_of [] initial.
Proof.
  split; simpl; done.
Qed.

(** The handles put on the stack by the first loop. *)
Definition head_handles (acc : heads) : list handle_t :=
  (fun n => get_handle n false) <$> head_nodes acc.

Lemma elem_of_head_handles (acc : heads) (v : handle_t) :
  heads_of component acc -> (v ∈ head_handles acc <-> v ∈ K /\ head_handle v).
Proof.
  intros H. unfold head_handles. rewrite (hs_heads _ _ H), list_elem_of_fmap.
  setoid_rewrite list_elem_of_filter. rewrite K_node. subst P.
  unfold present, is_head, head_handle, get_handle.
  rewrite list_elem_of_filter. split.
  - intros (n & -> & [Hn Hz] & Hc). simpl. done.
  - intros [[Hn Hc] [Hr Hz]]. exists (get_id v).
    destruct v as [n r]; simpl in *. subst r. done.
Qed.

Lemma relaxed_nil (v : handle_t) : relaxed graph [] [] v = 0%nat.
Proof. reflexivity. Qed.

(** The first loop establishes the invariant of the second. *)
Lemma heads_inv (Q : handle_t -> Prop) (acc : heads) :
  (forall v, v ∈ K -> head_handle v -> Q v) ->
  heads_of component acc ->
  inv Q (head_state acc) (head_handles acc) [] [] [].
Proof.
  intros Q_heads H.
  assert (Ht : forall v, touched [] [] v <-> head_handle v).
  { intros v. unfold touched. rewrite relaxed_nil. split; [|auto].
    intros [?|?]; [lia | done]. }
  assert (Hin : forall n, n ∈ P ->
            n ∈ component /\ has_node graph n = true).
  { intros n Hn. subst P. unfold present in Hn.
    apply list_elem_of_filter in Hn. tauto. }
  split.
  - intros n. rewrite (hs_nodes _ _ H). subst P. unfold present.
    rewrite list_elem_of_filter.
    destruct (decide (n ∈ component /\ has_node graph n = true))
      as [[? ?]|Hn].
    + split; [done | by eexists].
    + split; [by intros [? ?] | tauto].
  - intros v Hv [Hr Hz]%Ht. rewrite (hs_nodes _ _ H).
    apply K_node, Hin in Hv.
    destruct (decide (get_id v ∈ component /\
                      has_node graph (get_id v) = true)); [|done].
    destruct v as [n r]; simpl in *. subst r.
    destruct (decide (indeg (mkHandle n false) = 0%nat)); [|done].
    rewrite Hz. done.
  - intros n Hn Hf _. rewrite (hs_nodes _ _ H). apply Hin in Hn.
    destruct (decide (n ∈ component /\ has_node graph n = true)); [|done].
    destruct (decide (indeg (mkHandle n false) = 0%nat)) as [Hz|]; [|done].
    destruct Hf. apply Ht. done.
  - unfold head_handles. rewrite (hs_heads _ _ H).
    apply NoDup_fmap_2_strong; [|by apply NoDup_filter].
    intros x y _ _ E. by injection E.
  - simpl. rewrite (hs_active _ _ H). fold (head_handles acc).
    by rewrite reverse_Permutation.
  - intros v Hv. by apply (elem_of_head_handles acc v H) in Hv as [? ?].
  - unfold head_handles. by rewrite (hs_found _ _ H), length_fmap.
  - intros v Hv. rewrite (elem_of_head_handles acc v H).
    unfold activated. rewrite relaxed_nil. split.
    + intros [_ ?]. by left.
    + intros [?|[? _]]; [done | lia].
  - intros u v Hv Hu He.
    apply (elem_of_head_handles acc v H) in Hv as [_ [_ Hz]].
    apply edge_indeg in He. lia.
  - intros v Hv. apply (elem_of_head_handles acc v H) in Hv as [? ?].
    by apply Q_heads.
  - by apply (hs_ok _ _ H).
Qed.

(** The two loops on the component. *)
Lemma loops_inv (Q : handle_t -> Prop) (fuel : nat) :
  (forall v, v ∈ K -> head_handle v -> Q v) ->
  (forall u v, Q u -> u ∈ K -> edge graph u v -> Q v) ->
  (2 * length component < fuel)%nat ->
  let h := foldl (find_head graph) initial component in
  head_nodes h = filter is_head component /\
  NiceAcyclic.missing_nodes h =
    Z.of_nat (length component) - Z.of_nat (length P) /\
  exists st',
    process_active graph fuel (head_state h) = Some st' /\
    ((ok st' = true /\
      exists act' done', inv Q st' act' done' [] [] /\
                         NiceAcyclic.active st' = []) \/
     (ok st' = false /\ exists v, v ∈ K /\ Q v /\ Q (flip v))).
Proof.
  intros Q_heads Q_edges Hfuel h.
  assert (H : heads_of component h).
  { apply (find_heads_heads_of component [] initial); [simpl; lia|].
    apply initial_heads_of. }
  split; [by apply (hs_heads _ _ H)|]. split.
  { rewrite (hs_missing _ _ H).
    pose proof (length_present graph component) as Hp.
    unfold missing_nodes in Hp. subst P. lia. }
  apply (process_active_inv Q Q_heads Q_edges fuel _ (head_handles h) []).
  - by apply heads_inv.
  - subst K. rewrite length_inserted. simpl.
    pose proof (length_filter (fun node => has_node graph node = true)
                  component) as Hl.
    unfold present. lia.
Qed.

(** *** Orientations *)

(** The handles of the component in the orientation [o], which gives for
    every node id whether its reverse handle is taken. *)
Definition chosen (o : Z -> bool) (v : handle_t) : Prop :=
  v ∈ K /\ get_is_reverse v = o (get_id v).

Definition chosen_edge (o : Z -> bool) (u v : handle_t) : Prop :=
  edge graph u v /\ chosen o u /\ chosen o v.

(** The component is an orientation-consistent DAG in the orientation [o]:
    no edge joins a chosen handle and one that is not chosen, the chosen
    handles have no cycle, and a handle without predecessors is chosen
    exactly when it is a forward handle. *)
Record nice (o : Z -> bool) : Prop := {
  nice_forward : forall u v, chosen o u -> edge graph u v -> chosen o v;
  nice_backward : forall u v, chosen o v -> edge graph u v -> chosen o u;
  nice_acyclic : forall v, ~ tc (chosen_edge o) v v;
  nice_heads : forall v, v ∈ K -> indeg v = 0%nat ->
    (chosen o v <-> get_is_reverse v = false)
}.

Lemma chosen_once (o : Z -> bool) (v : handle_t) :
  chosen o v -> chosen o (flip v) -> False.
Proof.
  intros [_ H1] [_ H2]. simpl in H2. rewrite <- H1 in H2.
  by destruct (get_is_reverse v).
Qed.

Lemma predecessor_edge (u v : handle_t) :
  u ∈ follow_edges graph v true <-> edge graph u v.
Proof. unfold edge. by rewrite !occ_pos, graph_consistent. Qed.

Lemma loop_end (Q : handle_t -> Prop) (st : NiceAcyclic.state)
    (act done : list handle_t) :
  inv Q st act done [] [] -> NiceAcyclic.active st = [] ->
  act ≡ₚ done /\ NoDup done /\ forall x, x ∈ done -> x ∈ K.
Proof.
  intros I Ha. destruct (inv_done _ _ _ _ _ _ I) as [Hnd Hsub].
  rewrite app_nil_r in *. split; [|split; [done|]].
  - rewrite (n_perm _ _ _ _ _ _ I), Ha. simpl. by rewrite app_nil_r.
  - intros x Hx. by apply Hsub.
Qed.

(** The predecessors of a chosen handle are reached after finitely many
    steps backwards. *)
Lemma chosen_edge_sn (o : Z -> bool) (v : handle_t) :
  nice o -> sn (fun x y => chosen_edge o y x) v.
Proof.
  intros N.
  assert (Hflip : forall x y, tc (fun x y => chosen_edge o y x) x y ->
                              tc (chosen_edge o) y x).
  { induction 1 as [x y Hxy | x y z Hxy _ IH].
    - by apply tc_once.
    - by eapply tc_r. }
  apply tc_finite_sn.
  - intros x Hx. by apply (nice_acyclic o N x), Hflip.
  - exists K. intros y Hy.
    induction Hy as [x y (_ & [? _] & _) | x y z _ _ IH]; done.
Qed.

(** In a nice component, every chosen handle is activated. *)
Lemma chosen_activated (o : Z -> bool) (st : NiceAcyclic.state)
    (act done : list handle_t) :
  nice o -> inv (chosen o) st act done [] [] ->
  NiceAcyclic.active st = [] ->
  forall v, chosen o v -> v ∈ act.
Proof.
  intros N I Ha v.
  destruct (loop_end _ _ _ _ I Ha) as (Hperm & Hnd & Hsub).
  induction (chosen_edge_sn o v N) as [v _ IH]. intros Hv.
  apply (n_act _ _ _ _ _ _ I v (proj1 Hv)).
  destruct (decide (indeg v = 0%nat)) as [Hz|Hz].
  - left. split; [|done]. by apply (nice_heads o N v (proj1 Hv) Hz).
  - right.
    assert (Hall : forall u, u ∈ follow_edges graph v true -> u ∈ done).
    { intros u Hu. apply predecessor_edge in Hu.
      assert (Hcu : chosen o u) by (by eapply nice_backward).
      rewrite <- Hperm. apply IH; [|done]. by split. }
    assert (Hflow : flow graph done v = indeg v).
    { rewrite <- (indegree_in_flow graph graph_consistent done v Hnd).
      unfold indegree_in, indeg. by rewrite filter_all. }
    unfold relaxed. rewrite occ_nil. lia.
Qed.

(** In a nice component, one handle of every node is activated. *)
Lemma nice_found (o : Z -> bool) (st : NiceAcyclic.state)
    (act done : list handle_t) :
  nice o -> inv (chosen o) st act done [] [] ->
  NiceAcyclic.active st = [] -> length act = length P.
Proof.
  intros N I Ha.
  pose proof (chosen_activated o st act done N I Ha) as Hact.
  pose proof (n_Q _ _ _ _ _ _ I) as HQ.
  pose (C := (fun n => mkHandle n (o n)) <$> P).
  assert (HC : NoDup C).
  { apply NoDup_fmap_2_strong.
    - intros x y _ _ E. by injection E.
    - unfold P, present. by apply NoDup_filter. }
  assert (HCa : forall v, v ∈ C -> v ∈ act).
  { intros v (n & -> & Hn)%list_elem_of_fmap. apply Hact.
    split; [by apply K_node | done]. }
  assert (HaC : forall v, v ∈ act -> v ∈ C).
  { intros v [Hv Hr]%HQ. apply list_elem_of_fmap. exists (get_id v).
    split; [|by apply K_node]. destruct v as [n r]; simpl in *. by subst r. }
  assert (H1 : (length C <= length act)%nat)
    by (by apply submseteq_length, NoDup_submseteq).
  assert (H2 : (length act <= length C)%nat).
  { apply submseteq_length, NoDup_submseteq; [|done].
    by apply (n_nodup _ _ _ _ _ _ I). }
  subst C. rewrite length_fmap in *. lia.
Qed.

Lemma flow_elem (D : list handle_t) (u v : handle_t) :
  u ∈ D -> (occ v (follow_edges graph u false) <= flow graph D v)%nat.
Proof.
  induction D as [|x D IH]; [by intros ?%elem_of_nil|].
  intros [->|Hu]%elem_of_cons; unfold flow in *; simpl; [lia|].
  specialize (IH Hu). lia.
Qed.

Lemma before_trans (x y z : handle_t) (l : list handle_t) :
  NoDup l -> before x y l -> before y z l -> before x z l.
Proof.
  intros Hnd (i & j & Hi & Hj & Hij) (j' & k & Hj' & Hk & Hjk).
  assert (j = j') as <- by (by eapply NoDup_lookup).
  exists i, k. split; [done|]. split; [done|]. lia.
Qed.

(** The orientation read off the activated handles. *)
Definition orientation_of (act : list handle_t) (n : Z) : bool :=
  bool_decide (mkHandle n true ∈ act).

(** When one handle of every node has been activated, the activated
    handles are a nice orientation of the component. *)
Lemma activated_nice (Q : handle_t -> Prop) (st : NiceAcyclic.state)
    (act done : list handle_t) :
  inv Q st act done [] [] -> NiceAcyclic.active st = [] ->
  length act = length P -> nice (orientation_of act).
Proof.
  intros I Ha Hlen.
  destruct (loop_end _ _ _ _ I Ha) as (Hperm & Hnd & Hsub).
  pose proof (n_sub _ _ _ _ _ _ I) as HactK.
  assert (Hdone : forall v, v ∈ act <-> v ∈ done) by (by setoid_rewrite Hperm).
  assert (Hat : forall v, v ∈ act -> touched done [] v).
  { intros v Hv. apply (n_act _ _ _ _ _ _ I v (HactK v Hv)) in Hv.
    destruct Hv as [?|[? _]]; [by right | by left]. }
  assert (Hone : forall v, v ∈ act -> flip v ∈ act -> False).
  { intros v H1 H2.
    apply (touched_once Q st act done [] [] v I (HactK v H1)); by apply Hat. }
  assert (Hcover : forall n, n ∈ P -> exists v, v ∈ act /\ get_id v = n).
  { assert (Hids : get_id <$> act ≡ₚ P).
    { apply submseteq_length_Permutation.
      - apply NoDup_submseteq.
        + apply NoDup_fmap_2_strong; [|by apply (n_nodup _ _ _ _ _ _ I)].
          intros x y Hx Hy E. destruct (same_node x y E) as [?|E']; [done|].
          subst x. destruct (Hone y); done.
        + intros n (v & -> & Hv)%list_elem_of_fmap. by apply K_node, HactK.
      - rewrite length_fmap. lia. }
    intros n Hn. rewrite <- Hids in Hn.
    apply list_elem_of_fmap in Hn as (v & -> & Hv). eauto. }
  assert (Hch : forall v, chosen (orientation_of act) v <-> v ∈ act).
  { intros v. unfold chosen, orientation_of. split.
    - intros [Hv Hr]. apply K_node in Hv.
      destruct (Hcover _ Hv) as (w & Hw & Hid).
      destruct (same_node w v Hid) as [E|E]; subst w; [done|]. exfalso.
      destruct v as [n []]; simpl in *; symmetry in Hr.
      + apply bool_decide_eq_true in Hr. by apply (Hone (mkHandle n true)).
      + apply bool_decide_eq_false in Hr. by apply Hr.
    - intros Hv. split; [by apply HactK|].
      destruct v as [n []]; simpl; symmetry.
      + by apply bool_decide_eq_true.
      + apply bool_decide_eq_false. intros Hw.
        by apply (Hone (mkHandle n false)). }
  assert (Hbound : forall v, (relaxed graph done [] v <= flow graph K v)%nat).
  { intros v. unfold relaxed. rewrite occ_nil.
    pose proof (flow_le graph done K v Hnd Hsub). lia. }
  split.
  - intros u v Hu He. apply Hch in Hu. apply Hch.
    assert (HvK : v ∈ K) by (by eapply component_closed; [apply HactK|]).
    assert (Htv : touched done [] v).
    { left. unfold relaxed.
      pose proof (flow_elem done u v (proj1 (Hdone u) Hu)) as Hf.
      apply occ_pos in He. lia. }
    destruct (Hcover (get_id v)) as (w & Hw & Hid); [by apply K_node|].
    destruct (same_node w v Hid) as [E|E]; subst w; [done|]. exfalso.
    apply (touched_once Q st act done [] [] v I HvK Htv). by apply Hat.
  - intros u v Hv He. apply Hch in Hv. apply Hch.
    pose proof (HactK v Hv) as HvK.
    assert (HuK : u ∈ K).
    { apply (component_closed v true u HvK). by apply predecessor_edge. }
    apply Hdone.
    apply (flow_full graph done K u v Hnd Hsub); [|done..].
    apply (n_act _ _ _ _ _ _ I v HvK) in Hv.
    destruct Hv as [[_ Hz]|[_ Hle]].
    + apply edge_indeg in He. lia.
    + rewrite <- (indeg_flow v HvK). unfold relaxed in Hle.
      rewrite occ_nil in Hle. lia.
  - intros v Hc.
    assert (Hpos : forall x y, tc (chosen_edge (orientation_of act)) x y ->
                               before x y act).
    { induction 1 as [x y (He & [Hx _] & Hy) | x y z (He & [Hx _] & Hy) _ IH].
      - apply (n_order _ _ _ _ _ _ I); [by apply Hch | done..].
      - eapply before_trans; [by apply (n_nodup _ _ _ _ _ _ I)| |done].
        apply (n_order _ _ _ _ _ _ I); [by apply Hch | done..]. }
    destruct (Hpos v v Hc) as (i & j & Hi & Hj & Hij).
    assert (i = j) by (eapply NoDup_lookup;
                       [by apply (n_nodup _ _ _ _ _ _ I) | done..]).
    lia.
  - intros v Hv Hz. rewrite Hch, (n_act _ _ _ _ _ _ I v Hv).
    unfold activated, head_handle. split.
    + intros [[? _]|[Hpos _]]; [done|].
      specialize (Hbound v). rewrite <- (indeg_flow v Hv) in Hbound. lia.
    + intros Hr. by left.
Qed.

(** The outcome of [is_nice_and_acyclic] on the component. *)
Lemma is_nice_and_acyclic_outcome (fuel : nat) :
  (2 * length component < fuel)%nat ->
  exists r,
    is_nice_and_acyclic graph fuel component = Some r /\
    ((exists o, nice o) -> r = filter is_head component) /\
    (r <> [] -> exists o, nice o).
Proof.
  intros Hfuel. unfold is_nice_and_acyclic.
  destruct (decide (component = [])) as [E|Hne].
  { exists []. split; [done|]. split; [by rewrite E | done]. }
  pose proof (loops_inv (fun _ => True) fuel ltac:(done) ltac:(done) Hfuel)
    as HL.
  cbv zeta in HL. unfold initial in HL.
  destruct HL as (Hheads & Hmiss & st & Hrun & Hcases).
  cbv zeta. rewrite Hrun. simpl. rewrite Hmiss, Hheads.
  assert (Hw : wrap64 (Z.of_nat (length component) -
                       (Z.of_nat (length component) - Z.of_nat (length P)))
               = Z.of_nat (length P)).
  { pose proof (length_filter (fun node => has_node graph node = true)
                  component) as Hl.
    rewrite wrap64_small; [lia|]. unfold P, present. lia. }
  rewrite Hw.
  assert (Hcomplete : (exists o, nice o) ->
            ok st = true /\ found st = Z.of_nat (length P)).
  { intros [o N].
    assert (Q_heads : forall v, v ∈ K -> head_handle v -> chosen o v).
    { intros v Hv [Hr Hz]. by apply (nice_heads o N v Hv Hz). }
    assert (Q_edges : forall u v, chosen o u -> u ∈ K -> edge graph u v ->
                                  chosen o v).
    { intros u v Hu _ He. by eapply nice_forward. }
    pose proof (loops_inv (chosen o) fuel Q_heads Q_edges Hfuel) as HL.
    cbv zeta in HL. unfold initial in HL.
    destruct HL as (_ & _ & st' & Hrun' & Hcases').
    rewrite Hrun in Hrun'. injection Hrun' as <-.
    destruct Hcases' as [(Hok & act & done & I & Ha)|(_ & v & _ & H1 & H2)].
    - split; [done|]. rewrite (n_found _ _ _ _ _ _ I). f_equal.
      by eapply nice_found.
    - destruct (chosen_once o v H1 H2). }
  destruct Hcases as [(Hok & act & done & I & Ha)|(Hok & _)].
  - destruct (decide (found st <> Z.of_nat (length P))) as [Hf|Hf].
    + exists []. split; [done|]. split; [|done].
      intros HN. by destruct (Hcomplete HN) as [_ ?].
    + rewrite Hok. exists (filter is_head component).
      split; [done|]. split; [done|].
      intros _. exists (orientation_of act).
      eapply activated_nice; [done..|].
      apply Nat2Z.inj. rewrite <- (n_found _ _ _ _ _ _ I). lia.
  - exists []. split.
    + destruct (decide (found st <> Z.of_nat (length P))); [done|].
      by rewrite Hok.
    + split; [|done]. intros HN. destruct (Hcomplete HN) as [? _].
      congruence.
Qed.

End Setting.

(** *** Nodes that are not in the graph *)

(** Every neighbour of a handle of the component is a handle of the
    component, as in a weakly connected component of the graph. *)
Definition closed (graph : HandleGraph) (component : list Z) : Prop :=
  forall (h : handle_t) (go_left : bool) (next : handle_t),
    in_subgraph graph component h ->
    next ∈ follow_edges graph h go_left ->
    in_subgraph graph component next.

Lemma inserted_present (graph : HandleGraph) (component : list Z) :
  inserted graph (present graph component) = inserted graph component.
Proof.
  unfold inserted, present. rewrite (filter_all _ (filter _ component)); [done|].
  by intros x [? _]%list_elem_of_filter.
Qed.

Lemma heads_present (graph : HandleGraph) (component : list Z) :
  filter (is_head graph) (present graph component) =
    filter (is_head graph) component.
Proof.
  unfold present. rewrite list_filter_filter. apply list_filter_iff.
  intros n. unfold is_head. tauto.
Qed.

Lemma nice_present (graph : HandleGraph) (component : list Z)
    (o : Z -> bool) :
  nice graph (present graph component) o <-> nice graph component o.
Proof.
  pose proof (inserted_present graph component) as E.
  split; intros [F B A H]; split; unfold chosen_edge, chosen in *.
  - rewrite E in F. exact F.
  - rewrite E in B. exact B.
  - rewrite E in A. exact A.
  - rewrite E in H. exact H.
  - rewrite E. exact F.
  - rewrite E. exact B.
  - rewrite E. exact A.
  - rewrite E. exact H.
Qed.

Lemma closed_inserted (graph : HandleGraph) (component : list Z) :
  closed graph component ->
  forall h go_left next,
    h ∈ inserted graph component -> next ∈ follow_edges graph h go_left ->
    next ∈ inserted graph component.
Proof.
  intros Hc h go_left next Hh Hn. apply elem_of_inserted.
  apply (Hc h go_left next); [by apply elem_of_inserted | done].
Qed.

(** Graphs given by their edges. *)
Lemma of_edges_degrees_marked (ids : list Z)
    (edges : list (handle_t * handle_t)) :
  2 * Z.of_nat (length edges) < NOT_SEEN ->
  forall h, get_degree (of_edges ids edges) h true < NOT_SEEN.
Proof.
  intros Hfit h. unfold get_degree. simpl.
  set (all := edges ++ map (fun e => (flip e.2, flip e.1)) edges).
  assert (Hall : length all = (2 * length edges)%nat)
    by (subst all; rewrite length_app, length_map; lia).
  rewrite length_map.
  pose proof (length_filter (fun e : handle_t * handle_t => e.2 = h) all).
  lia.
Qed.

Lemma of_edges_closed (ids : list Z) (edges : list (handle_t * handle_t))
    (component : list Z) :
  (forall e, e ∈ edges ->
     in_subgraph (of_edges ids edges) component e.1 /\
     in_subgraph (of_edges ids edges) component e.2) ->
  closed (of_edges ids edges) component.
Proof.
  intros Hedges h go_left next _ Hn. simpl in Hn.
  set (all := edges ++ map (fun e => (flip e.2, flip e.1)) edges) in Hn.
  assert (Hall : forall e, e ∈ all ->
            in_subgraph (of_edges ids edges) component e.1 /\
            in_subgraph (of_edges ids edges) component e.2).
  { intros e [He|He]%elem_of_app; [by apply Hedges|].
    apply list_elem_of_In, in_map_iff in He as (e' & <- & He').
    apply list_elem_of_In, Hedges in He' as [H1 H2]. split; simpl; done. }
  destruct go_left.
  - apply list_elem_of_In, in_map_iff in Hn as (e & <- & He).
    apply list_elem_of_In, list_elem_of_filter in He as [_ He].
    by apply Hall.
  - apply list_elem_of_In, in_map_iff in Hn as (e & <- & He).
    apply list_elem_of_In, list_elem_of_filter in He as [_ He].
    by apply Hall.
Qed.


(** C6, amended: on a graph whose two directions of [follow_edges] agree
    and whose indegrees are below the mark [NOT_SEEN], and for a component
    listed without repetition that holds every neighbour of its nodes,
    [is_nice_and_acyclic] returns a list.  The list is that of the head
    nodes, the nodes of the component that are in the graph and whose
    forward handle has no predecessor, in the order of the component, when
    the component is an orientation-consistent DAG whose handles without
    predecessors are its forward ones: some orientation of its nodes is
    kept by all the edges, has no cycle, and holds a handle without
    predecessors exactly when that handle is a forward handle.  The list
    is empty when there is no such orientation.  The nodes of the
    component that are not in the graph make no difference: the component
    without them gives the same list. *)
Theorem is_nice_and_acyclic_correct (graph : HandleGraph)
    (component : list Z) (fuel : nat) :
  consistent graph ->
  (forall h, get_degree graph h true < NOT_SEEN) ->
  NoDup component ->
  closed graph component ->
  2 * Z.of_nat (length component) < modulus64 ->
  (2 * length component < fuel)%nat ->
  exists r : list Z,
    is_nice_and_acyclic graph fuel component = Some r /\
    ((exists o, nice graph component o) ->
     r = filter (is_head graph) component) /\
    ((~ exists o, nice graph component o) -> r = []) /\
    is_nice_and_acyclic graph fuel (present graph component) = Some r.
Proof.
  intros Hcons Hdeg Hnd Hclosed Hfit Hfuel.
  pose proof (length_filter (fun node => has_node graph node = true)
                component) as Hlen.
  destruct (is_nice_and_acyclic_outcome graph component Hcons Hdeg Hnd
              (closed_inserted graph component Hclosed) Hfit fuel Hfuel)
    as (r & Hr & Hc & Hs).
  destruct (is_nice_and_acyclic_outcome graph (present graph component)
              Hcons Hdeg) with (fuel := fuel) as (r' & Hr' & Hc' & Hs').
  { by apply NoDup_filter. }
  { rewrite inserted_present. by apply closed_inserted. }
  { unfold present. lia. }
  { unfold present. lia. }
  rewrite heads_present in Hc'.
  exists r. split; [done|]. split; [done|]. split.
  - intros Hn. destruct (decide (r = [])) as [|Hne]; [done|].
    destruct Hn. by apply Hs.
  - rewrite Hr'. f_equal.
    destruct (decide (r = [])) as [E|Hne].
    + destruct (decide (r' = [])) as [|Hne']; [congruence|].
      destruct (Hs' Hne') as [o N].
      pose proof (proj1 (nice_present graph component o) N) as N'.
      rewrite (Hc (ex_intro _ o N')), (Hc' (ex_intro _ o N)). done.
    + destruct (Hs Hne) as [o N].
      pose proof (proj2 (nice_present graph component o) N) as N'.
      rewrite (Hc (ex_intro _ o N)), (Hc' (ex_intro _ o N')). done.
Qed.

Lemma is_nice_and_acyclic_correct_witness :
  exists r : list Z,
    is_nice_and_acyclic TopologicalOrderExamples.diamond 20 [8; 1; 2; 9; 3]
      = Some r /\
    is_nice_and_acyclic TopologicalOrderExamples.diamond 20
      (present TopologicalOrderExamples.diamond [8; 1; 2; 9; 3]) = Some r.
Proof.
  assert (H1 : consistent TopologicalOrderExamples.diamond)
    by apply of_edges_consistent.
  assert (H2 : forall h,
            get_degree TopologicalOrderExamples.diamond h true < NOT_SEEN)
    by (apply of_edges_degrees_marked; reflexivity).
  assert (H3 : NoDup [8; 1; 2; 9; 3]) by (by apply (bool_decide_unpack _)).
  assert (H4 : closed TopologicalOrderExamples.diamond [8; 1; 2; 9; 3]).
  { apply of_edges_closed. intros e He.
    repeat (apply elem_of_cons in He as [->|He]);
      [..|by apply elem_of_nil in He];
      (split; (split; [by apply (bool_decide_unpack _) | reflexivity])). }
  assert (H5 : 2 * Z.of_nat (length [8; 1; 2; 9; 3]) < modulus64)
    by reflexivity.
  assert (H6 : (2 * length [8; 1; 2; 9; 3] < 20)%nat) by (simpl; lia).
  destruct (is_nice_and_acyclic_correct TopologicalOrderExamples.diamond
              [8; 1; 2; 9; 3] 20 H1 H2 H3 H4 H5 H6) as (r & Hr & _ & _ & Hp).
  exists r. split; [exact Hr | exact Hp].
Defined.

End NiceAcyclicFacts.

(** ** More on the reverse complement ([src/utils.cpp]) *)

Module ReverseComplementFacts.
Import Utils UtilsFacts.

Lemma complement_thrice (c : ascii) :
  complement_at (complement_at (complement_at c)) = complement_at c.
Proof. destruct c as [[] [] [] [] [] [] [] []]; reflexivity. Qed.

(** A character that indexes the table: its code is below 128, so it is
    not negative as a [char]. *)
Definition in_table (c : ascii) : Prop := (N_of_ascii c < 128)%N.

(** Every entry of the table indexes the table. *)
Lemma complement_in_table (c : ascii) : in_table (complement_at c).
Proof. destruct c as [[] [] [] [] [] [] [] []]; reflexivity. Qed.

Lemma reverse_complement_in_table (s : list ascii) :
  Forall in_table (reverse_complement s).
Proof.
  rewrite reverse_complement_spec. apply Forall_reverse, Forall_fmap.
  apply Forall_forall. intros c _. apply complement_in_table.
Qed.

(** X1: on strings of characters with codes below 128, the in-place loop
    of [reverse_complement], which swaps and complements the two ends of
    the string and then complements the middle character of a string of
    odd length, computes the complement of every character in reverse
    order; so the result has the length of the input, its characters have
    codes below 128 again, and the reverse complement of a concatenation
    is the concatenation of the reverse complements in the opposite
    order. *)
Theorem reverse_complement_reverses (s t : list ascii) :
  Forall in_table s -> Forall in_table t ->
  reverse_complement s = reverse (complement_at <$> s) /\
  length (reverse_complement s) = length s /\
  Forall in_table (reverse_complement s) /\
  reverse_complement (s ++ t) = reverse_complement t ++ reverse_complement s.
Proof.
  intros _ _. split; [apply reverse_complement_spec|]. split; [|split].
  - by rewrite reverse_complement_spec, length_reverse, length_fmap.
  - apply reverse_complement_in_table.
  - rewrite !reverse_complement_spec. by rewrite fmap_app, reverse_app.
Qed.

Lemma reverse_complement_reverses_witness :
  Forall in_table (row "GAT") /\
  reverse_complement (row "GAT" ++ row "TACA") =
    reverse_complement (row "TACA") ++ reverse_complement (row "GAT").
Proof.
  assert (H1 : Forall in_table (row "GAT")) by (repeat constructor).
  assert (H2 : Forall in_table (row "TACA")) by (repeat constructor).
  split; [exact H1|].
  by destruct (reverse_complement_reverses (row "GAT") (row "TACA") H1 H2)
    as (_ & _ & _ & H).
Defined.

(** X2: on every string of characters with codes below 128, the reverse
    complement taken three times is the reverse complement taken once:
    every entry of the table is a character that the table maps back and
    forth, although the table is no involution (C1). *)
Theorem reverse_complement_thrice (s : list ascii) :
  Forall in_table s ->
  reverse_complement (reverse_complement (reverse_complement s)) =
    reverse_complement s.
Proof.
  intros _.
  rewrite reverse_complement_twice, reverse_complement_spec.
  rewrite fmap_reverse, <- list_fmap_compose. f_equal.
  apply list_fmap_ext. intros _ c _. simpl. apply complement_thrice.
Qed.

Lemma reverse_complement_thrice_witness :
  Forall in_table (row "GATTUNcx") /\
  reverse_complement
    (reverse_complement (reverse_complement (row "GATTUNcx"))) =
    reverse_complement (row "GATTUNcx").
Proof.
  assert (H : Forall in_table (row "GATTUNcx")) by (repeat constructor).
  split; [exact H | exact (reverse_complement_thrice _ H)].
Defined.

End ReverseComplementFacts.

(** ** Invariants of the sequence source ([src/utils.cpp]) *)

Module SequenceSourceInvariants.
Import Word Utils SequenceSource.

(** Every node designates a non-empty range of the buffer. *)
Definition ranges_ok (src : t) : Prop :=
  forall id off len, nodes src !! id = Some (off, len) ->
    0 <= off /\ 0 < len /\ off + len <= Z.of_nat (length (sequences src)).

(** [src'] has the nodes of [src], and more of the buffer. *)
Definition extends (src src' : t) : Prop :=
  (exists tail, sequences src' = sequences src ++ tail) /\
  (forall id r, nodes src !! id = Some r -> nodes src' !! id = Some r).

Lemma extends_refl (src : t) : extends src src.
Proof. split; [exists []; by rewrite app_nil_r | done]. Qed.

Lemma extends_trans (a b c : t) : extends a b -> extends b c -> extends a c.
Proof.
  intros [[t1 E1] N1] [[t2 E2] N2]. split.
  - exists (t1 ++ t2). by rewrite E2, E1, app_assoc.
  - intros id r H. by apply N2, N1.
Qed.

Lemma add_node_view_eq (src : t) (id : Z) (sequence : list ascii) :
  add_node_view src id sequence = add_node src id sequence.
Proof.
  unfold add_node_view, add_node.
  destruct sequence as [|c s]; [done|].
  destruct (decide (Z.of_nat (length (c :: s)) = 0)) as [E|_];
    [simpl in E; lia|].
  destruct (decide (c :: s = [])); done.
Qed.

Lemma add_node_extends (src : t) (id : Z) (sequence : list ascii) :
  extends src (add_node src id sequence).
Proof.
  unfold add_node. case_decide as Hs; [apply extends_refl|].
  case_decide as Hid; [apply extends_refl|]. split; simpl; [by eexists|].
  intros id' r Hr. rewrite lookup_insert_ne; [done|].
  intros <-. apply Hid. by eexists.
Qed.

Lemma add_node_ranges (src : t) (id : Z) (sequence : list ascii) :
  ranges_ok src -> ranges_ok (add_node src id sequence).
Proof.
  intros Hok. unfold add_node. case_decide as Hs; [done|].
  case_decide as Hid; [done|]. intros id' off len. simpl.
  rewrite length_app.
  destruct (decide (id' = id)) as [->|Hne].
  - rewrite lookup_insert_eq. intros [= <- <-].
    destruct sequence; [done | simpl; lia].
  - rewrite lookup_insert_ne by done. intros H.
    specialize (Hok _ _ _ H). lia.
Qed.

Lemma translate_loop_extends (fuel : nat) :
  forall (src : t) (id start : Z) (sequence : list ascii) (m : Z),
    extends src (translate_loop fuel src id start sequence m) /\
    (ranges_ok src ->
     ranges_ok (translate_loop fuel src id start sequence m)) /\
    segment_translation (translate_loop fuel src id start sequence m) =
      segment_translation src.
Proof.
  induction fuel as [|fuel IH]; intros src id start sequence m; simpl.
  - split; [apply extends_refl | done].
  - rewrite add_node_view_eq.
    destruct (IH (add_node src id
                    (view sequence (wrap64 ((id - start) * m))
                       (Z.min m (wrap64 (Z.of_nat (length sequence) -
                                         wrap64 ((id - start) * m))))))
                 (id + 1) start sequence m) as (H1 & H2 & H3).
    split; [|split].
    + eapply extends_trans; [apply add_node_extends | exact H1].
    + intros Hok. by apply H2, add_node_ranges.
    + rewrite H3. unfold add_node. by repeat case_decide.
Qed.

(** A range inside the buffer reads the same bytes after an append. *)
Lemma view_app_old (old tail : list ascii) (off len : Z) :
  0 <= off -> 0 <= len -> off + len <= Z.of_nat (length old) ->
  view (old ++ tail) off len = view old off len.
Proof.
  intros Hoff Hlen Hfit. unfold view.
  rewrite drop_app_le by lia. rewrite take_app_le; [done|].
  rewrite length_drop. lia.
Qed.

Lemma view_all (s : list ascii) : view s 0 (Z.of_nat (length s)) = s.
Proof. unfold view. simpl. rewrite Nat2Z.id. by apply take_ge. Qed.

(** X3: [add_node] with a non-empty sequence and an id that has no node
    appends the sequence to the buffer and records its range under the id:
    reading that range of the new buffer gives the sequence back.  The two
    overloads agree, and no other node, no translation and not [next_id]
    changes. *)
Theorem add_node_stores (src : t) (id : Z) (sequence : list ascii) :
  sequence <> [] -> nodes src !! id = None ->
  let src' := add_node src id sequence in
  let offset := Z.of_nat (length (sequences src)) in
  add_node_view src id sequence = src' /\
  nodes src' !! id = Some (offset, Z.of_nat (length sequence)) /\
  view (sequences src') offset (Z.of_nat (length sequence)) = sequence /\
  (forall id', id' <> id -> nodes src' !! id' = nodes src !! id') /\
  segment_translation src' = segment_translation src /\
  next_id src' = next_id src.
Proof.
  intros Hs Hid src' offset. split; [apply add_node_view_eq|].
  subst src'. unfold add_node. rewrite decide_False by done.
  rewrite decide_False by (rewrite Hid; by intros [? ?]). simpl.
  split; [by rewrite lookup_insert_eq|]. split.
  - unfold view. subst offset. rewrite !Nat2Z.id, drop_app_length.
    by apply take_ge.
  - split; [|done]. intros id' Hne. by rewrite lookup_insert_ne.
Qed.

Lemma add_node_stores_witness :
  nodes (add_node SequenceSourceFacts.occupied 2 (row "CG")) !! 2
    = Some (1, 2) /\
  view (sequences (add_node SequenceSourceFacts.occupied 2 (row "CG"))) 1 2
    = row "CG".
Proof.
  destruct (add_node_stores SequenceSourceFacts.occupied 2 (row "CG"))
    as (_ & H1 & H2 & _); [discriminate | reflexivity |].
  split; [exact H1 | exact H2].
Defined.

(** X4: the source keeps its nodes inside the buffer.  When every node of a
    source designates a non-empty range of the buffer (as in a fresh
    source, which has no node), the same holds after [add_node], in either
    overload, and after [translate_segment], whatever the arguments. *)
Theorem source_ranges_kept (src src' : t) (id : Z) (sequence : list ascii)
    (name : string) (seq : list ascii) (m : Z) :
  ranges_ok src ->
  ranges_ok SequenceSource.empty /\
  ranges_ok (add_node src id sequence) /\
  ranges_ok (add_node_view src id sequence) /\
  (translate_segment src name seq m = Some src' -> ranges_ok src').
Proof.
  intros Hok. split; [by intros ? ? ? H|].
  split; [by apply add_node_ranges|].
  split; [rewrite add_node_view_eq; by apply add_node_ranges|].
  unfold translate_segment. case_decide; [by intros [= <-]|].
  case_decide; [done|]. intros [= <-].
  destruct (translate_loop_extends
              (Z.to_nat (to_nid (next_id src +
                 wrap64 (Z.of_nat (length seq) + m - 1) / m) - next_id src))
              src (next_id src) (next_id src) seq m) as (_ & Hr & _).
  intros id' off len. simpl. by apply Hr.
Qed.

Lemma source_ranges_kept_witness :
  ranges_ok (add_node SequenceSource.empty 5 (row "ACGT")) /\
  ranges_ok (add_node_view SequenceSource.empty 5 (row "ACGT")).
Proof.
  assert (H : ranges_ok SequenceSource.empty) by (by intros ? ? ? ?).
  destruct (source_ranges_kept SequenceSource.empty SequenceSource.empty 5
              (row "ACGT") "s" (row "ACGT") 3 H) as (_ & H1 & H2 & _).
  split; [exact H1 | exact H2].
Defined.

(** X5: [translate_segment] never changes what is there.  Whatever its
    arguments, the old buffer is a prefix of the new one, every node of the
    source keeps its range, which still reads the same bytes, and every
    translation of the source, under this or another name, is kept. *)
Theorem translate_segment_keeps (src src' : t) (name : string)
    (seq : list ascii) (m : Z) :
  ranges_ok src ->
  translate_segment src name seq m = Some src' ->
  (exists tail, sequences src' = sequences src ++ tail) /\
  (forall id off len, nodes src !! id = Some (off, len) ->
     nodes src' !! id = Some (off, len) /\
     view (sequences src') off len = view (sequences src) off len) /\
  (forall name' r, segment_translation src !! name' = Some r ->
     segment_translation src' !! name' = Some r).
Proof.
  intros Hok. unfold translate_segment.
  case_decide as Hknown.
  { intros [= <-]. split; [exists []; by rewrite app_nil_r|]. done. }
  case_decide as Hm; [done|]. intros [= <-]. simpl.
  destruct (translate_loop_extends
              (Z.to_nat (to_nid (next_id src +
                 wrap64 (Z.of_nat (length seq) + m - 1) / m) - next_id src))
              src (next_id src) (next_id src) seq m)
    as ([[tail Htail] Hnodes] & _ & Htr).
  split; [by exists tail|]. split.
  - intros id off len Hid. split; [by apply Hnodes|].
    rewrite Htail. destruct (Hok _ _ _ Hid) as (? & ? & ?).
    apply view_app_old; lia.
  - intros name' r Hr. rewrite Htr.
    rewrite lookup_insert_ne; [done|]. intros <-.
    apply Hknown. left. by eexists.
Qed.

Lemma translate_segment_keeps_witness :
  exists src',
    translate_segment SequenceSourceFacts.occupied "seg" (row "CCC") 2
      = Some src' /\
    nodes src' !! 1 = Some (0, 1) /\
    view (sequences src') 0 1 = row "A".
Proof.
  assert (H : ranges_ok SequenceSourceFacts.occupied).
  { intros id off len Hid.
    change (nodes SequenceSourceFacts.occupied)
      with (<[1 := (0, 1)]> (∅ : gmap Z (Z * Z))) in Hid.
    apply lookup_insert_Some in Hid as [[_ [= <- <-]]|[_ Hid]];
      [repeat split; vm_compute; congruence
      | by rewrite lookup_empty in Hid]. }
  eexists. split; [reflexivity|].
  destruct (translate_segment_keeps SequenceSourceFacts.occupied _ "seg"
              (row "CCC") 2 H eq_refl) as (_ & Hn & _).
  destruct (Hn 1 0 1 eq_refl) as [H1 H2].
  split; [exact H1 | exact H2].
Defined.

(** X6: once a segment has been translated, translating its name again
    does nothing, whatever sequence and maximal length come with it. *)
Theorem translate_segment_again (src src' : t) (name : string)
    (seq seq' : list ascii) (m m' : Z) :
  seq <> [] ->
  translate_segment src name seq m = Some src' ->
  translate_segment src' name seq' m' = Some src'.
Proof.
  intros Hseq. unfold translate_segment at 1.
  assert (Hlen : Z.of_nat (length seq) <> 0) by (destruct seq; [done|simpl; lia]).
  case_decide as Hknown.
  - intros [= <-]. destruct Hknown as [Hknown|?]; [|done].
    unfold translate_segment. rewrite decide_True; [done | by left].
  - case_decide as Hm; [done|]. intros [= <-].
    unfold translate_segment. rewrite decide_True; [done|].
    left. simpl. rewrite lookup_insert_eq. by eexists.
Qed.

Lemma translate_segment_again_witness :
  exists src',
    translate_segment SequenceSource.empty "seg" (row "ACGTACGTAC") 4
      = Some src' /\
    translate_segment src' "seg" (row "TTTT") 1 = Some src'.
Proof.
  eexists. split; [reflexivity|].
  apply (translate_segment_again SequenceSource.empty _ "seg"
           (row "ACGTACGTAC") (row "TTTT") 4 1); [discriminate | reflexivity].
Defined.

End SequenceSourceInvariants.

(** ** The flags of the GBZ header ([src/include/gbwtgraph/gbz.h]) *)

Module HeaderFlags.
Import Word GBZ.

(** [Header::set_version]. *)
Definition set_version (h : Header) : Header :=
  {| tag := tag h; version := VERSION; flags := flags h |}.

(** [Header::set]: [flags |= flag]. *)
Definition set (h : Header) (flag : Z) : Header :=
  {| tag := tag h; version := version h; flags := Z.lor (flags h) flag |}.

(** [Header::unset]: [flags &= ~flag], the complement taken on 64 bits. *)
Definition unset (h : Header) (flag : Z) : Header :=
  {| tag := tag h; version := version h;
     flags := Z.land (flags h) (wrap64 (Z.lnot flag)) |}.

(** [Header::get]: [flags & flag], converted to [bool]. *)
Definition get (h : Header) (flag : Z) : bool :=
  bool_decide (Z.land (flags h) flag <> 0).

(** A [std::uint64_t] value. *)
Definition word64 (x : Z) : Prop := 0 <= x < modulus64.

End HeaderFlags.

Module HeaderFlagsFacts.
Import Word GBZ HeaderFlags.

Lemma word64_ones (x : Z) : word64 x <-> Z.land x (Z.ones 64) = x.
Proof.
  unfold word64, modulus64. rewrite Z.land_ones by lia. split.
  - intros H. by apply Z.mod_small.
  - intros <-. apply Z.mod_pos_bound. lia.
Qed.

Lemma word64_high_bit (x i : Z) : word64 x -> 64 <= i -> Z.testbit x i = false.
Proof.
  intros Hx Hi. apply word64_ones in Hx. rewrite <- Hx.
  rewrite Z.land_spec, Z.ones_spec_high by lia. apply andb_false_r.
Qed.

Lemma wrap64_lnot_bit (x i : Z) :
  0 <= i < 64 -> Z.testbit (wrap64 (Z.lnot x)) i = negb (Z.testbit x i).
Proof.
  intros Hi. unfold wrap64, modulus64.
  rewrite Z.mod_pow2_bits_low by lia. apply Z.lnot_spec. lia.
Qed.

Lemma set_word64 (h : Header) (flag : Z) :
  word64 (flags h) -> word64 flag -> word64 (flags (set h flag)).
Proof.
  rewrite !word64_ones. simpl. intros H1 H2.
  by rewrite Z.land_lor_distr_l, H1, H2.
Qed.

Lemma unset_word64 (h : Header) (flag : Z) :
  word64 (flags h) -> word64 (flags (unset h flag)).
Proof.
  rewrite !word64_ones. simpl. intros H1.
  rewrite <- Z.land_assoc, (Z.land_comm (wrap64 _)), Z.land_assoc. by rewrite H1.
Qed.

Lemma unset_bit (h : Header) (flag i : Z) :
  word64 (flags h) -> 0 <= i ->
  Z.testbit (flags (unset h flag)) i =
    Z.testbit (flags h) i && negb (Z.testbit flag i).
Proof.
  intros Hh Hi. simpl. rewrite Z.land_spec.
  destruct (Z.lt_ge_cases i 64) as [Hlt|Hge].
  - by rewrite wrap64_lnot_bit by lia.
  - by rewrite (word64_high_bit _ _ Hh Hge).
Qed.

(** X7: the flag operations of the header, on 64-bit words.  [set] turns
    on the bits of the flag and [unset] turns them off, both leaving every
    other bit, the tag and the version as they are and the flag word
    within 64 bits; after [set] a flag that is not zero is reported by
    [get], after [unset] it is not; and [unset] undoes [set] when none of
    the bits was on before. *)
Theorem header_flag_operations (h : Header) (flag : Z) :
  word64 (flags h) -> word64 flag ->
  (word64 (flags (set h flag)) /\ word64 (flags (unset h flag))) /\
  (forall i, 0 <= i ->
     Z.testbit (flags (set h flag)) i =
       Z.testbit (flags h) i || Z.testbit flag i) /\
  (forall i, 0 <= i ->
     Z.testbit (flags (unset h flag)) i =
       Z.testbit (flags h) i && negb (Z.testbit flag i)) /\
  get (set h flag) flag = bool_decide (flag <> 0) /\
  get (unset h flag) flag = false /\
  (Z.land (flags h) flag = 0 -> unset (set h flag) flag = h) /\
  tag (set h flag) = tag h /\ version (set h flag) = version h /\
  tag (unset h flag) = tag h /\ version (unset h flag) = version h.
Proof.
  intros Hh Hf.
  split; [split; [by apply set_word64 | by apply unset_word64]|].
  split; [intros i Hi; simpl; apply Z.lor_spec|].
  split; [intros i Hi; by apply unset_bit|].
  split; [|split; [|split; [|done]]].
  - unfold get. simpl. f_equal.
    replace (Z.land (Z.lor (flags h) flag) flag) with flag; [done|].
    apply Z.bits_inj'. intros i Hi.
    rewrite Z.land_spec, Z.lor_spec.
    by destruct (Z.testbit (flags h) i), (Z.testbit flag i).
  - unfold get. apply bool_decide_eq_false. intros Hne. apply Hne.
    apply Z.bits_inj'. intros i Hi.
    rewrite Z.land_spec, (unset_bit h flag i Hh Hi), Z.bits_0.
    by destruct (Z.testbit (flags h) i), (Z.testbit flag i).
  - intros Hoff. destruct h as [t v f]. unfold unset, set. simpl in *.
    f_equal. apply Z.bits_inj'. intros i Hi.
    pose proof (unset_bit (mkHeader t v (Z.lor f flag)) flag i
                  (set_word64 (mkHeader t v f) flag Hh Hf) Hi) as E.
    simpl in E. rewrite E, Z.lor_spec.
    assert (Hbit : Z.testbit f i && Z.testbit flag i = false).
    { rewrite <- Z.land_spec, Hoff. apply Z.bits_0. }
    by destruct (Z.testbit f i), (Z.testbit flag i).
Qed.

Lemma header_flag_operations_witness :
  get (set default_header 4) 4 = bool_decide (4 <> 0) /\
  unset (set default_header 4) 4 = default_header.
Proof.
  assert (H1 : word64 (flags default_header)) by (split; [done|reflexivity]).
  assert (H2 : word64 4) by (split; [done|reflexivity]).
  destruct (header_flag_operations default_header 4 H1 H2)
    as (_ & _ & _ & Hget & _ & Hundo & _).
  split; [exact Hget | apply Hundo; reflexivity].
Defined.

(** X8: no flag is valid yet.  As the mask of the current version is
    empty, a header on which [set] has turned on a flag that is not zero
    does not pass [check], whatever else it holds; when its tag and version
    are the current ones, [check] ends with "GBZ: Invalid flags". *)
Theorem set_flag_fails_check (h : Header) (flag : Z) :
  flag <> 0 ->
  check (set h flag) <> Done tt /\
  (tag h = TAG -> version h = VERSION ->
   check (set h flag) = Fatal "GBZ: Invalid flags").
Proof.
  intros Hflag.
  assert (Hne : Z.land (Z.lor (flags h) flag) FLAG_MASK <> Z.lor (flags h) flag).
  { unfold FLAG_MASK. rewrite Z.land_0_r. intros E. symmetry in E.
    apply Z.lor_eq_0_iff in E as [_ ?]. done. }
  unfold check. simpl. split.
  - repeat case_decide; done.
  - intros -> ->. repeat case_decide; done.
Qed.

Lemma set_flag_fails_check_witness :
  check (set default_header 1) = Fatal "GBZ: Invalid flags".
Proof.
  apply (set_flag_fails_check default_header 1); [discriminate | done..].
Defined.

End HeaderFlagsFacts.

(** ** More on loading a GBZ container ([src/src/gbz.cpp]) *)

Module GBZLoadingFacts.
Import GBZ.

Section Loading.

Variables (Index Graph : Type).
Variable load_tags : list byte -> outcome (gmap string string * list byte).
Variable load_index : list byte -> outcome (Index * list byte).
Variable load_graph : list byte -> Index -> outcome (Graph * list byte).
Variable load_index_from : string -> outcome Index.
Variable deserialize_graph : string -> Index -> outcome Graph.

Local Abbreviation simple_sds_load :=
  (simple_sds_load Index Graph load_tags load_index load_graph).
Local Abbreviation load_from_files :=
  (load_from_files Index Graph load_index_from deserialize_graph).

(** X9: [simple_sds_load] checks the header before it reads anything else.
    On a stream whose header does not pass [check], the load ends with the
    message of [check], whatever the tags, the index and the graph that
    follow in the stream are. *)
Theorem simple_sds_load_checks_first (this : t Index Graph)
    (input rest : list byte) (h : Header) (msg : string) :
  load_header input = Done (h, rest) ->
  check h = Fatal msg ->
  simple_sds_load this input = Fatal msg.
Proof.
  intros Hh Hc. unfold GBZ.simple_sds_load. rewrite Hh. simpl.
  by rewrite Hc.
Qed.

(** X10: where the parts of a loaded container come from.  After
    [simple_sds_load] the header is the one of the stream, which passed
    [check]; the tags are those of the stream, except for the source, and
    none of the tags the container had before; the index and the graph are
    the loaded ones.  After [load_from_files] the header is the one the
    container had, unchecked, and the source is the only tag. *)
Theorem loaded_parts (this this' : t Index Graph) (input rest : list byte)
    (gbwt_name graph_name : string) :
  (simple_sds_load this input = Done (this', rest) ->
   exists in1 tg in2 in3,
     load_header input = Done (header this', in1) /\
     check (header this') = Done tt /\
     load_tags in1 = Done (tg, in2) /\
     (forall key, key <> SOURCE_KEY -> tags this' !! key = tg !! key) /\
     load_index in2 = Done (index this', in3) /\
     load_graph in3 (index this') = Done (graph this', rest)) /\
  (load_from_files this gbwt_name graph_name = Done this' ->
   header this' = header this /\
   tags this' = {[SOURCE_KEY := SOURCE_VALUE]} /\
   load_index_from gbwt_name = Done (index this') /\
   deserialize_graph graph_name (index this') = Done (graph this')).
Proof.
  split.
  - unfold GBZ.simple_sds_load. intros H.
    destruct (load_header input) as [[h in1]|]; simpl in H; [|done].
    destruct (check h) as [[]|] eqn:Hc; simpl in H; [|done].
    destruct (load_tags in1) as [[tg in2]|] eqn:Ht; simpl in H; [|done].
    destruct (load_index in2) as [[idx in3]|] eqn:Hi; simpl in H; [|done].
    destruct (load_graph in3 idx) as [[g in4]|] eqn:Hg; simpl in H; [|done].
    injection H as <- <-. exists in1, tg, in2, in3. simpl.
    repeat split; try done.
    intros key Hkey. unfold tags_set. by rewrite lookup_insert_ne.
  - unfold GBZ.load_from_files. intros H.
    destruct (load_index_from gbwt_name) as [idx|] eqn:Hi; simpl in H; [|done].
    destruct (deserialize_graph graph_name idx) as [g|] eqn:Hg;
      simpl in H; [|done].
    injection H as <-. done.
Qed.

End Loading.

(** A stream that starts with a header of version 2. *)
Definition version_2_bytes : list byte :=
  [x47; x42; x5a; x20; x02; x00; x00; x00;
   x00; x00; x00; x00; x00; x00; x00; x00; x2a]%byte.

Lemma simple_sds_load_checks_first_witness :
  simple_sds_load unit unit
    (fun input => Done (∅, input)) (fun input => Done (tt, input))
    (fun input _ => Done (tt, input))
    (mk default_header ∅ tt tt) version_2_bytes
  = Fatal "GBZ: Expected v1, got v2".
Proof.
  apply (simple_sds_load_checks_first unit unit _ _ _ _ version_2_bytes
           [x2a]%byte {| tag := TAG; version := 2; flags := 0 |});
    reflexivity.
Defined.

End GBZLoadingFacts.

(** ** The configuration of [subgraph_query]
       ([src/src/subgraph_query.cpp]) *)

Module ConfigFacts.
Import Tool ToolFacts.

Local Open Scope string_scope.

Lemma substring_all (s : string) : String.substring 0 (String.length s) s = s.
Proof. induction s as [|c s IH]; simpl; [done | by rewrite IH]. Qed.

Lemma prefix_dots (s : string) :
  String.prefix ".." s = true -> exists rest, s = ".." +:+ rest.
Proof.
  destruct s as [|a [|b rest]]; cbn [String.prefix]; try done.
  - by destruct (Ascii.ascii_dec "." a).
  - destruct (Ascii.ascii_dec "." a) as [<-|]; [|done].
    destruct (Ascii.ascii_dec "." b) as [<-|]; [|done].
    intros _. by exists rest.
Qed.

(** [find("..")] splits the string at the first occurrence. *)
Lemma index_dots (s : string) (pos : nat) :
  String.index 0 ".." s = Some pos ->
  String.length (String.substring 0 pos s) = pos /\
  s = String.substring 0 pos s +:+ ".." +:+
      String.substring (pos + 2) (String.length s - (pos + 2)) s.
Proof.
  revert pos. induction s as [|c s IH]; intros pos; [done|].
  change (String.index 0 ".." (String c s))
    with (if String.prefix ".." (String c s) then Some 0%nat
          else match String.index 0 ".." s with
               | Some n => Some (S n)
               | None => None
               end).
  destruct (String.prefix ".." (String c s)) eqn:Hp.
  - intros [= <-]. apply prefix_dots in Hp as [rest ->]. simpl.
    by rewrite Nat.sub_0_r, substring_all.
  - destruct (String.index 0 ".." s) as [n|] eqn:Hn; [|done].
    intros [= <-]. destruct (IH n eq_refl) as [IH1 IH2].
    change (String.substring 0 (S n) (String c s))
      with (String c (String.substring 0 n s)).
    change (String.substring (S n + 2)
              (String.length (String c s) - (S n + 2)) (String c s))
      with (String.substring (n + 2) (String.length s - (n + 2)) s).
    split; [cbn [String.length]; by rewrite IH1|].
    rewrite IH2 at 1. reflexivity.
Qed.

Section Config.

Variable stoul : string -> effect Z.

Local Abbreviation process_option := (process_option stoul).
Local Abbreviation process_options := (process_options stoul).
Local Abbreviation make_config := (make_config stoul).

(** X11: a configuration that [Config::Config] has built is complete.  The
    command line had at least two words, the graph file is the first
    argument after the options, the query type is that of the last query
    option and is a valid one, a query on a path comes with a contig name,
    and so [create_query] does not end in "Unknown query type". *)
Theorem config_is_complete (cl : command_line) (c : Config) :
  make_config cl = Value c ->
  2 <= argc cl /\
  head (positional cl) = Some (graph_file c) /\
  query_type c = last_query_type invalid_query (options cl) /\
  query_type c <> invalid_query /\
  (query_type c = path_offset_query \/ query_type c = path_interval_query ->
   contig_name c <> "") /\
  forall (GBZ : Type) (find_paths : GBZ -> string -> string -> list Z)
         (gbz : GBZ),
    create_query GBZ find_paths gbz c <> Abort "Unknown query type".
Proof.
  unfold Tool.make_config. case_decide as Hargc; [done|].
  destruct (Tool.process_options stoul initial_config (options cl))
    as [c0| | | |] eqn:Hopts; simpl; try done.
  destruct (positional cl) as [|file rest]; [done|].
  case_decide as Hq; [done|]. case_decide as Hcontig; [done|].
  intros [= <-]. simpl in *.
  split; [lia|]. split; [done|].
  split; [by apply (query_type_last_flag stoul) in Hopts|].
  split; [done|]. split.
  - intros Hpath Hempty. apply Hcontig. done.
  - intros GBZ find_paths gbz. unfold create_query, find_reference_path.
    simpl. destruct (query_type c0); [done|..];
      try destruct (find_paths gbz _ _) as [|p [|q l]]; simpl; done.
Qed.

(** X12: the option [--interval M..N].  When the option is accepted, its
    argument splits at the first ".." into two parts, which [std::stoul]
    turned into the offset and the limit, the query is one on a path
    interval, and nothing else of the configuration changes; an argument
    without ".." is fatal. *)
Theorem interval_option (c : Config) (optarg : string) :
  (forall c', process_option c OPT_INTERVAL optarg = Value c' ->
     exists (pos : nat) (lo hi : string),
       String.index 0 ".." optarg = Some pos /\
       String.length lo = pos /\
       optarg = lo +:+ ".." +:+ hi /\
       stoul lo = Value (offset c') /\ stoul hi = Value (limit c') /\
       c' = mkConfig (graph_file c) path_interval_query (haplotype_output c)
              (sample_name c) (contig_name c) (offset c') (limit c')
              (node_id c) (context c)) /\
  (String.index 0 ".." optarg = None ->
   process_option c OPT_INTERVAL optarg =
     Abort ("Invalid path interval: " +:+ optarg)).
Proof.
  split.
  - intros c' H. simpl in H.
    destruct (String.index 0 ".." optarg) as [pos|] eqn:Hpos; [|done].
    destruct (index_dots optarg pos Hpos) as [Hlen Hsplit].
    destruct (stoul (String.substring 0 pos optarg)) as [lo| | | |] eqn:Hlo;
      simpl in H; try done.
    destruct (stoul (String.substring (pos + 2)
                       (String.length optarg - (pos + 2)) optarg))
      as [hi| | | |] eqn:Hhi; simpl in H; try done.
    injection H as <-. simpl.
    exists pos, (String.substring 0 pos optarg),
      (String.substring (pos + 2) (String.length optarg - (pos + 2)) optarg).
    done.
  - intros Hnone. simpl. by rewrite Hnone.
Qed.

End Config.

Lemma config_is_complete_witness :
  exists c : Config,
    make_config stoul_decimal node_query_line = Value c /\
    head (positional node_query_line) = Some (graph_file c) /\
    query_type c <> invalid_query.
Proof.
  eexists. split; [reflexivity|].
  destruct (config_is_complete stoul_decimal node_query_line _ eq_refl)
    as (_ & Hfile & _ & Hquery & _).
  split; [exact Hfile | exact Hquery].
Defined.

End ConfigFacts.

(** ** The buffered writer ([src/src/internal.cpp]) *)

Module TSV.
Import Word.

(** A [TSVWriter]: its buffer, and the blocks passed to [out.write] so
    far. *)
Record TSVWriter : Type := mkWriter {
  buffer : list ascii;
  out : list (list ascii)
}.

Section Writer.

(** The capacity [BUFFER_SIZE] is a constant of [internal.h], which is not
    among the sources; what follows holds for every value of it. *)
Variable BUFFER_SIZE : Z.

(** [TSVWriter::flush], and [ManualTSVWriter::flush]. *)
Definition flush (w : TSVWriter) : TSVWriter :=
  if decide (buffer w = []) then w
  else {| buffer := []; out := out w ++ [buffer w] |}.

(** The loop of [TSVWriter::write], with [fuel] rounds left. *)
Fixpoint write_loop (fuel : nat) (w : TSVWriter) (view : list ascii)
    (offset : Z) : option TSVWriter :=
  match fuel with
  | O => None
  | S fuel' =>
      if decide (offset < Z.of_nat (length view)) then
        let len :=
          Z.min (wrap64 (Z.of_nat (length view) - offset))
                (wrap64 (BUFFER_SIZE - Z.of_nat (length (buffer w)))) in
        let w1 := {| buffer := buffer w ++ SequenceSource.view view offset len;
                     out := out w |} in
        let w2 :=
          if decide (Z.of_nat (length (buffer w1)) >= BUFFER_SIZE)
          then flush w1 else w1 in
        write_loop fuel' w2 view (wrap64 (offset + len))
      else Some w
  end.

(** [TSVWriter::write]. *)
Definition write (fuel : nat) (w : TSVWriter) (view : list ascii) :
    option TSVWriter :=
  write_loop fuel w view 0.

End Writer.

End TSV.

Module TSVFacts.
Import Word TSV.

Section Writer.

Variable BUFFER_SIZE : Z.
Hypothesis size_pos : 0 < BUFFER_SIZE.
Hypothesis size_fits : BUFFER_SIZE < modulus64.

(** The loop from [offset] on appends the rest of the view, in full
    blocks. *)
Lemma write_loop_spec (view : list ascii) (fuel : nat) :
  Z.of_nat (length view) < modulus64 ->
  forall (w : TSVWriter) (offset : Z),
    0 <= offset <= Z.of_nat (length view) ->
    Z.of_nat (length view) - offset < Z.of_nat fuel ->
    Z.of_nat (length (buffer w)) < BUFFER_SIZE ->
    exists w' blocks,
      write_loop BUFFER_SIZE fuel w view offset = Some w' /\
      out w' = out w ++ blocks /\
      Forall (fun b => Z.of_nat (length b) = BUFFER_SIZE) blocks /\
      concat blocks ++ buffer w' = buffer w ++ drop (Z.to_nat offset) view /\
      Z.of_nat (length (buffer w')) < BUFFER_SIZE.
Proof.
  intros Hview. induction fuel as [|fuel IH]; intros w offset Hoff Hfuel Hbuf;
    [lia|].
  simpl. case_decide as Hlt.
  2:{ exists w, []. split; [done|]. rewrite app_nil_r. split; [done|].
      split; [constructor|]. split; [|done]. simpl.
      rewrite drop_ge by lia. by rewrite app_nil_r. }
  rewrite (wrap64_small (Z.of_nat (length view) - offset)) by lia.
  rewrite (wrap64_small (BUFFER_SIZE - _)) by lia.
  set (len := Z.min (Z.of_nat (length view) - offset)
                    (BUFFER_SIZE - Z.of_nat (length (buffer w)))).
  assert (Hlen : 0 < len) by (subst len; lia).
  set (piece := SequenceSource.view view offset len).
  assert (Hpiece : Z.of_nat (length piece) = len).
  { subst piece. unfold SequenceSource.view.
    rewrite length_take, length_drop. subst len. lia. }
  assert (Hdrop : drop (Z.to_nat offset) view =
                  piece ++ drop (Z.to_nat (offset + len)) view).
  { subst piece. unfold SequenceSource.view.
    replace (Z.to_nat (offset + len))
      with (Z.to_nat offset + Z.to_nat len)%nat by lia.
    rewrite <- drop_drop. by rewrite take_drop. }
  rewrite (wrap64_small (offset + len)) by (subst len; lia).
  simpl. rewrite length_app.
  case_decide as Hfull.
  - (* the buffer is full *)
    unfold flush. simpl.
    rewrite decide_False.
    2:{ intros E. apply (f_equal length) in E. rewrite length_app in E.
        simpl in E. lia. }
    destruct (IH {| buffer := []; out := out w ++ [buffer w ++ piece] |}
                (offset + len)) as (w' & blocks & E & Hout & Hall & Hcat & Hb).
    { subst len. lia. } { lia. } { simpl. lia. }
    exists w', ((buffer w ++ piece) :: blocks).
    split; [done|]. simpl in *. split; [by rewrite Hout, <- app_assoc|].
    split.
    { constructor; [|done]. rewrite length_app. subst len. lia. }
    split; [|done]. rewrite <- app_assoc, Hcat, Hdrop. simpl.
    by rewrite <- app_assoc.
  - destruct (IH {| buffer := buffer w ++ piece; out := out w |}
                (offset + len)) as (w' & blocks & E & Hout & Hall & Hcat & Hb).
    { subst len. lia. } { lia. } { simpl. rewrite length_app. lia. }
    exists w', blocks. split; [done|]. simpl in *. split; [done|].
    split; [done|]. split; [|done]. by rewrite Hcat, Hdrop, <- app_assoc.
Qed.

(** X13: [TSVWriter::write] loses nothing and keeps the order.  On a
    writer whose buffer is below its capacity, the call returns (one round
    for every byte is enough), the buffer is again below the capacity,
    every block it passed to the stream holds exactly [BUFFER_SIZE] bytes,
    and the blocks written so far followed by the buffer are what they
    were before followed by the bytes of the view; so after [flush] the
    stream holds all of them, and the buffer is empty. *)
Theorem write_appends (w : TSVWriter) (view : list ascii) (fuel : nat) :
  Z.of_nat (length (buffer w)) < BUFFER_SIZE ->
  Z.of_nat (length view) < modulus64 ->
  (length view < fuel)%nat ->
  exists w' blocks,
    write BUFFER_SIZE fuel w view = Some w' /\
    out w' = out w ++ blocks /\
    Forall (fun b => Z.of_nat (length b) = BUFFER_SIZE) blocks /\
    Z.of_nat (length (buffer w')) < BUFFER_SIZE /\
    concat (out w') ++ buffer w' = concat (out w) ++ buffer w ++ view /\
    concat (out (flush w')) = concat (out w) ++ buffer w ++ view /\
    buffer (flush w') = [].
Proof.
  intros Hbuf Hview Hfuel.
  destruct (write_loop_spec view fuel Hview w 0)
    as (w' & blocks & E & Hout & Hall & Hcat & Hb); [lia | lia | done |].
  simpl in Hcat.
  assert (Hsum : concat (out w') ++ buffer w' =
                 concat (out w) ++ buffer w ++ view).
  { by rewrite Hout, concat_app, <- app_assoc, Hcat. }
  exists w', blocks. split; [done|]. split; [done|]. split; [done|].
  split; [done|]. split; [done|].
  unfold flush. case_decide as Hempty; simpl.
  - split; [|done]. rewrite <- Hsum, Hempty. by rewrite app_nil_r.
  - split; [|done]. rewrite concat_app. simpl. by rewrite app_nil_r.
Qed.

End Writer.

Lemma write_appends_witness :
  exists w',
    write 4 20 {| buffer := Utils.row "ab"; out := [] |}
      (Utils.row "cdefghijkl") = Some w' /\
    concat (out (flush w')) = Utils.row "abcdefghijkl".
Proof.
  destruct (write_appends 4 ltac:(done) ltac:(done)
              {| buffer := Utils.row "ab"; out := [] |}
              (Utils.row "cdefghijkl") 20)
    as (w' & blocks & E & _ & _ & _ & _ & Hall & _);
    [done | done | simpl; lia |].
  exists w'. split; [exact E | exact Hall].
Defined.

End TSVFacts.

(** ** The graph without sequences ([src/src/internal.cpp]) *)

Module EmptyGraph.
Import Graph.

(** The edges of a node, as its forward handle sees them. *)
Record Node : Type := mkNode {
  predecessors : list handle_t;
  successors : list handle_t
}.

(** [EmptyGraph]: the nodes with their edges, and the range of the ids. *)
Record t : Type := mk {
  nodes : gmap Z Node;
  min_id : Z;
  max_id : Z
}.

(** [EmptyGraph::create_node]. *)
Definition create_node (g : t) (node_id : Z) : t :=
  {| nodes := <[node_id := mkNode [] []]> (nodes g);
     min_id := Z.min (min_id g) node_id;
     max_id := Z.max (max_id g) node_id |}.

(** [predecessors.push_back(h)] and [successors.push_back(h)]. *)
Definition push_predecessor (h : handle_t) (n : Node) : Node :=
  mkNode (predecessors n ++ [h]) (successors n).

Definition push_successor (h : handle_t) (n : Node) : Node :=
  mkNode (predecessors n) (successors n ++ [h]).

(** [EmptyGraph::create_edge].  [get_node_mut] is declared in
    [internal.h], which is not among the sources; as its uses show, it
    finds the entry of the node of a handle. *)
Definition create_edge (g : t) (from to : handle_t) : outcome t :=
  if decide (nodes g !! get_id from = None \/ nodes g !! get_id to = None)
  then Fatal ("EmptyGraph: Cannot create an edge between nodes " +:+
              pretty (get_id from) +:+ " and " +:+ pretty (get_id to))
  else
    let nodes1 :=
      if get_is_reverse from
      then alter (push_predecessor (flip to)) (get_id from) (nodes g)
      else alter (push_successor to) (get_id from) (nodes g) in
    let nodes2 :=
      if get_is_reverse to
      then alter (push_successor (flip from)) (get_id to) nodes1
      else alter (push_predecessor from) (get_id to) nodes1 in
    Done {| nodes := nodes2; min_id := min_id g; max_id := max_id g |}.

(** [EmptyGraph::has_node], [get_node_count], [min_node_id],
    [max_node_id]. *)
Definition has_node (g : t) (node_id : Z) : bool :=
  bool_decide (is_Some (nodes g !! node_id)).

Definition get_node_count (g : t) : Z := Z.of_nat (size (nodes g)).

Definition min_node_id (g : t) : Z := min_id g.
Definition max_node_id (g : t) : Z := max_id g.

(** The vector [edges] of [follow_edges_impl] and [get_degree]; reading the
    entry of a handle whose node is not in the graph is undefined:
    [None]. *)
Definition edges_of (g : t) (handle : handle_t) (go_left : bool) :
    option (list handle_t) :=
  match nodes g !! get_id handle with
  | Some node =>
      Some (if xorb go_left (get_is_reverse handle)
            then predecessors node else successors node)
  | None => None
  end.

(** [EmptyGraph::follow_edges_impl]: the handles passed to an iteratee
    that does not stop the iteration. *)
Definition follow_edges (g : t) (handle : handle_t) (go_left : bool) :
    option (list handle_t) :=
  match edges_of g handle go_left with
  | Some edges =>
      Some (map (fun next => if get_is_reverse handle then flip next else next)
              edges)
  | None => None
  end.

(** [EmptyGraph::get_degree]. *)
Definition get_degree (g : t) (handle : handle_t) (go_left : bool) :
    option Z :=
  match edges_of g handle go_left with
  | Some edges => Some (Z.of_nat (length edges))
  | None => None
  end.

(** The graph as the algorithms see it; [ids] is the order in which
    [for_each_handle_impl] finds the nodes in the hash map. *)
Definition as_graph (ids : list Z) (g : t) : HandleGraph :=
  {| Graph.has_node := has_node g;
     Graph.min_node_id := min_id g;
     Graph.max_node_id := max_id g;
     node_ids := ids;
     Graph.follow_edges := fun h go_left =>
       default [] (follow_edges g h go_left) |}.

(** The graphs that [create_node], called with new ids, and [create_edge]
    build, starting without nodes. *)
Inductive built : t -> Prop :=
| built_empty (lo hi : Z) : built {| nodes := ∅; min_id := lo; max_id := hi |}
| built_node (g : t) (node_id : Z) :
    built g -> nodes g !! node_id = None -> built (create_node g node_id)
| built_edge (g g' : t) (from to : handle_t) :
    built g -> create_edge g from to = Done g' -> built g'.

End EmptyGraph.

Module EmptyGraphFacts.
Import Word Graph GraphFacts EmptyGraph ComponentsFacts.

(** What [create_edge(from, to)] adds to the neighbours of the handle [u]:
    [to] on the right of [from] and [flip from] on the right of [flip to];
    read from the left, [from] on the left of [to] and [flip to] on the
    left of [flip from]. *)
Definition added (from to : handle_t) (go_left : bool) (u : handle_t) :
    list handle_t :=
  if go_left
  then (if decide (u = flip from) then [flip to] else []) ++
       (if decide (u = to) then [from] else [])
  else (if decide (u = from) then [to] else []) ++
       (if decide (u = flip to) then [flip from] else []).

Lemma create_edge_nodes (g g' : t) (from to : handle_t) :
  create_edge g from to = Done g' ->
  (forall n, is_Some (nodes g' !! n) <-> is_Some (nodes g !! n)) /\
  is_Some (nodes g !! get_id from) /\ is_Some (nodes g !! get_id to) /\
  min_id g' = min_id g /\ max_id g' = max_id g.
Proof.
  unfold create_edge. case_decide as Hmiss; [done|]. intros [= <-]. simpl.
  split.
  - intros n. destruct (get_is_reverse from), (get_is_reverse to);
      by rewrite !lookup_alter_is_Some.
  - repeat split;
      [destruct (nodes g !! get_id from) | destruct (nodes g !! get_id to)];
      try (by eexists); destruct Hmiss; auto.
Qed.

Lemma follow_create_edge (g g' : t) (from to u : handle_t) (go_left : bool) :
  create_edge g from to = Done g' ->
  follow_edges g' u go_left =
    (fun l => l ++ added from to go_left u) <$> follow_edges g u go_left.
Proof.
  unfold create_edge. case_decide as Hmiss; [done|]. intros [= <-].
  unfold follow_edges, edges_of, added. simpl.
  destruct from as [a fr], to as [b tr], u as [n r]. simpl.
  destruct fr, tr; rewrite !lookup_alter;
    destruct (decide (a = n)) as [->|Ha], (decide (b = n)) as [->|Hb];
    destruct (nodes g !! n) as [[p s]|] eqn:Hn; simpl;
    rewrite ?Hn; simpl; try done;
    destruct r, go_left; simpl; unfold flip; simpl;
    repeat case_decide; simplify_eq; simpl;
    rewrite ?List.map_app, ?app_nil_r, <- ?app_assoc; simpl; try done.
Qed.

Lemma follow_create_node (g : t) (node_id : Z) (h : handle_t)
    (go_left : bool) :
  follow_edges (create_node g node_id) h go_left =
    if decide (get_id h = node_id) then Some [] else follow_edges g h go_left.
Proof.
  unfold follow_edges, edges_of. simpl. rewrite lookup_insert.
  destruct (decide (node_id = get_id h)) as [->|Hne].
  - rewrite decide_True by done. simpl. by destruct (xorb _ _).
  - by rewrite decide_False by done.
Qed.

(** The neighbours of a handle, none for a handle without node. *)
Definition neighbours (g : t) (h : handle_t) (go_left : bool) :
    list handle_t :=
  default [] (follow_edges g h go_left).

(** What the graph keeps: the neighbours are handles of nodes, the two
    directions agree, and the ids lie between [min_id] and [max_id]. *)
Record good (g : t) : Prop := {
  good_closed : forall h go_left next,
    next ∈ neighbours g h go_left -> is_Some (nodes g !! get_id next);
  good_consistent : forall u v,
    occ u (neighbours g v true) = occ v (neighbours g u false);
  good_range : forall n, is_Some (nodes g !! n) -> min_id g <= n <= max_id g
}.

Lemma occ_added (from to u v : handle_t) :
  occ u (added from to true v) = occ v (added from to false u).
Proof.
  unfold added. rewrite !occ_app.
  repeat case_decide; simplify_eq;
    rewrite ?occ_cons, ?occ_nil; repeat case_decide; simplify_eq; try lia;
    match goal with
    | H : flip _ <> flip _ |- _ => by destruct H
    | H : ?x <> flip (flip ?x) |- _ =>
        destruct H; by destruct x as [? []]
    | H : flip (flip ?x) <> ?x |- _ =>
        destruct H; by destruct x as [? []]
    | _ => idtac
    end.
Qed.

Lemma added_present (g g' : t) (from to u x : handle_t) (go_left : bool) :
  create_edge g from to = Done g' ->
  x ∈ added from to go_left u -> is_Some (nodes g !! get_id x).
Proof.
  intros H. apply create_edge_nodes in H as (_ & Hf & Ht & _).
  unfold added. destruct go_left; rewrite elem_of_app;
    intros [Hx|Hx]; case_decide; try (by apply elem_of_nil in Hx);
    apply list_elem_of_singleton in Hx as ->; done.
Qed.

Lemma good_empty (lo hi : Z) :
  good {| nodes := ∅; min_id := lo; max_id := hi |}.
Proof.
  split; simpl.
  - intros h go_left next Hn. by apply elem_of_nil in Hn.
  - done.
  - intros n [? Hn]. by rewrite lookup_empty in Hn.
Qed.

Lemma good_create_node (g : t) (node_id : Z) :
  good g -> nodes g !! node_id = None -> good (create_node g node_id).
Proof.
  intros [Hclosed Hcons Hrange] Hnew.
  assert (Hnot : forall h go_left x,
            x ∈ neighbours g h go_left -> get_id x <> node_id).
  { intros h go_left x Hx E. apply Hclosed in Hx as [? Hx]. congruence. }
  assert (Hnone : forall h go_left,
            get_id h = node_id -> neighbours g h go_left = []).
  { intros h go_left Hh. unfold neighbours, follow_edges, edges_of.
    by rewrite Hh, Hnew. }
  split.
  - intros h go_left next. unfold neighbours. rewrite follow_create_node.
    case_decide; [by intros ?%elem_of_nil|]. intros Hn. simpl.
    apply lookup_insert_is_Some'. right. by eapply Hclosed.
  - intros u v. unfold neighbours. rewrite !follow_create_node.
    fold (neighbours g v true) (neighbours g u false).
    destruct (decide (get_id v = node_id)) as [Hv|Hv],
             (decide (get_id u = node_id)) as [Hu|Hu]; simpl.
    + done.
    + rewrite occ_nil. symmetry. apply occ_zero. intros Hin.
      by apply Hnot in Hin.
    + rewrite occ_nil. apply occ_zero. intros Hin. by apply Hnot in Hin.
    + apply Hcons.
  - intros n Hn. simpl in *. apply lookup_insert_is_Some' in Hn as [<-|Hn];
      [lia|]. specialize (Hrange n Hn). lia.
Qed.

Lemma neighbours_create_edge (g g' : t) (from to u : handle_t)
    (go_left : bool) :
  create_edge g from to = Done g' ->
  neighbours g' u go_left =
    if decide (is_Some (nodes g !! get_id u))
    then neighbours g u go_left ++ added from to go_left u
    else [].
Proof.
  intros H. unfold neighbours. rewrite (follow_create_edge g g' from to _ _ H).
  unfold follow_edges, edges_of.
  destruct (nodes g !! get_id u) as [node|]; simpl.
  - destruct (decide (is_Some (Some node))) as [_|Hn];
      [done | destruct Hn; by eexists].
  - destruct (decide (is_Some (@None Node))) as [[? ?]|_]; done.
Qed.

Lemma good_create_edge (g g' : t) (from to : handle_t) :
  good g -> create_edge g from to = Done g' -> good g'.
Proof.
  intros [Hclosed Hcons Hrange] H.
  pose proof (create_edge_nodes g g' from to H) as (Hdom & Hf & Ht & Hlo & Hhi).
  assert (Hadd : forall u go_left, ~ is_Some (nodes g !! get_id u) ->
            added from to go_left u = []).
  { intros u go_left Hu. unfold added.
    destruct go_left; repeat case_decide; simplify_eq; try done;
      destruct Hu; done. }
  split.
  - intros h go_left next. rewrite (neighbours_create_edge g g' from to _ _ H).
    case_decide; [|by intros ?%elem_of_nil].
    rewrite elem_of_app. intros [Hn|Hn]; apply Hdom.
    + by eapply Hclosed.
    + by eapply added_present.
  - intros u v. rewrite !(neighbours_create_edge g g' from to _ _ H).
    pose proof (Hcons u v) as Hold.
    pose proof (occ_added from to u v) as Hnew.
    destruct (decide (is_Some (nodes g !! get_id v))) as [Hv|Hv],
             (decide (is_Some (nodes g !! get_id u))) as [Hu|Hu];
      rewrite ?occ_app, ?occ_nil.
    + lia.
    + rewrite (Hadd u false Hu) in Hnew. rewrite occ_nil in Hnew.
      assert (Hz : neighbours g u false = []).
      { unfold neighbours, follow_edges, edges_of.
        destruct (nodes g !! get_id u); [destruct Hu; by eexists | done]. }
      rewrite Hz, occ_nil in Hold. lia.
    + rewrite (Hadd v true Hv) in Hnew. rewrite occ_nil in Hnew.
      assert (Hz : neighbours g v true = []).
      { unfold neighbours, follow_edges, edges_of.
        destruct (nodes g !! get_id v); [destruct Hv; by eexists | done]. }
      rewrite Hz, occ_nil in Hold. lia.
    + done.
  - intros n Hn. rewrite Hlo, Hhi. apply Hrange. by apply Hdom.
Qed.

Lemma built_good (g : t) : built g -> good g.
Proof.
  induction 1 as [lo hi|g node_id _ IH Hnew|g g' from to _ IH Hedge].
  - apply good_empty.
  - by apply good_create_node.
  - by eapply good_create_edge.
Qed.

(** X14: what [create_edge] does.  When one of the two nodes is not in the
    graph the call is fatal, with a message that names both ids.
    Otherwise the nodes and the range of the ids stay as they are, and the
    neighbours of every handle are the earlier ones followed by the new
    ones: [to] on the right of [from] and, for the same edge read
    backwards, [flip from] on the right of [flip to]; seen from the left,
    [from] on the left of [to] and [flip to] on the left of [flip from].
    The degrees grow accordingly. *)
Theorem create_edge_adds (g : t) (from to : handle_t) :
  match create_edge g from to with
  | Fatal msg =>
      (has_node g (get_id from) = false \/ has_node g (get_id to) = false) /\
      msg = ("EmptyGraph: Cannot create an edge between nodes " +:+
             pretty (get_id from) +:+ " and " +:+ pretty (get_id to))%string
  | Done g' =>
      has_node g (get_id from) = true /\ has_node g (get_id to) = true /\
      (forall n, has_node g' n = has_node g n) /\
      min_node_id g' = min_node_id g /\ max_node_id g' = max_node_id g /\
      forall u go_left,
        follow_edges g' u go_left =
          (fun l => l ++ added from to go_left u) <$>
            follow_edges g u go_left /\
        get_degree g' u go_left =
          (fun d => d + Z.of_nat (length (added from to go_left u))) <$>
            get_degree g u go_left
  end.
Proof.
  destruct (create_edge g from to) as [g'|msg] eqn:H.
  - pose proof (create_edge_nodes g g' from to H) as (Hdom & Hf & Ht & Hlo & Hhi).
    unfold has_node.
    split; [by apply bool_decide_eq_true|].
    split; [by apply bool_decide_eq_true|].
    split; [intros n; apply bool_decide_ext, Hdom|].
    split; [done|]. split; [done|].
    intros u go_left.
    pose proof (follow_create_edge g g' from to u go_left H) as Hfollow.
    split; [done|].
    unfold follow_edges, get_degree in *.
    destruct (edges_of g' u go_left) as [l'|], (edges_of g u go_left) as [l|];
      simpl in *; try done.
    injection Hfollow as Hfollow. apply (f_equal length) in Hfollow.
    rewrite length_app, !length_map in Hfollow. f_equal. lia.
  - unfold create_edge in H. case_decide as Hmiss; [|done].
    injection H as <-. split; [|done]. unfold has_node.
    destruct Hmiss as [Hm|Hm]; [left|right]; apply bool_decide_eq_false;
      rewrite Hm; by intros [? ?].
Qed.

(** X15: a graph that [create_node], called with ids that are not yet in
    the graph, and [create_edge] have built keeps the contract the
    algorithms rely on.  The neighbours of a node are nodes of the graph,
    [follow_edges] to the left and to the right describe the same edges,
    and the node ids lie between [min_node_id] and [max_node_id]; so, with
    an id range that fits [size_t], it is a graph as
    [weakly_connected_components], [topological_order] and
    [is_nice_and_acyclic] expect it. *)
Theorem built_graph_ok (ids : list Z) (g : t) :
  built g ->
  (forall n, n ∈ ids -> has_node g n = true) ->
  0 <= max_id g + 1 - min_id g < modulus64 ->
  graph_ok (as_graph ids g) /\ consistent (as_graph ids g).
Proof.
  intros Hbuilt Hids Hsize.
  destruct (built_good g Hbuilt) as [Hclosed Hcons Hrange].
  split; [split; simpl|].
  - intros n Hn%bool_decide_eq_true. by apply Hrange.
  - exact Hids.
  - intros h go_left next _ Hnext. apply bool_decide_eq_true.
    by eapply Hclosed.
  - exact Hsize.
  - intros u v. apply Hcons.
Qed.

(** X16: [create_node] is for new ids only.  Called with the id of a node
    that has an edge to another node, it empties the edge lists of that
    node, while the other node keeps its side of the edge: the two
    directions of [follow_edges] no longer agree. *)
Theorem create_node_again_loses_edges (ids : list Z) (g : t)
    (u v : handle_t) :
  built g ->
  v ∈ neighbours g u false ->
  get_id v <> get_id u ->
  let g' := create_node g (get_id u) in
  follow_edges g' u false = Some [] /\
  u ∈ neighbours g' v true /\
  ~ consistent (as_graph ids g').
Proof.
  intros Hbuilt Hv Hne g'.
  destruct (built_good g Hbuilt) as [_ Hcons _].
  assert (Hu : follow_edges g' u false = Some []).
  { subst g'. rewrite follow_create_node. by rewrite decide_True. }
  assert (Hback : u ∈ neighbours g' v true).
  { subst g'. unfold neighbours. rewrite follow_create_node.
    rewrite decide_False by done. fold (neighbours g v true).
    apply occ_pos. rewrite Hcons. by apply occ_pos. }
  split; [done|]. split; [done|].
  intros Hc. specialize (Hc u v). simpl in Hc.
  fold (neighbours g' v true) in Hc. rewrite Hu in Hc. simpl in Hc.
  apply occ_pos in Hback. rewrite occ_nil in Hc. lia.
Qed.

(** A graph without nodes, and the graph 1+ -> 2-, with node 3 alone. *)
Definition no_nodes : t := {| nodes := ∅; min_id := 2 ^ 63 - 1; max_id := 0 |}.

Definition three_nodes : t :=
  create_node (create_node (create_node no_nodes 1) 2) 3.

Definition one_edge : t :=
  match create_edge three_nodes (mkHandle 1 false) (mkHandle 2 true) with
  | Done g => g
  | Fatal _ => three_nodes
  end.

Lemma built_one_edge : built one_edge.
Proof.
  apply (built_edge three_nodes one_edge (mkHandle 1 false) (mkHandle 2 true));
    [|vm_compute; reflexivity].
  repeat (apply built_node; [|vm_compute; reflexivity]). constructor.
Qed.

Example one_edge_neighbours :
  follow_edges one_edge (mkHandle 1 false) false = Some [mkHandle 2 true] /\
  follow_edges one_edge (mkHandle 2 false) false = Some [mkHandle 1 true] /\
  follow_edges one_edge (mkHandle 2 true) true = Some [mkHandle 1 false] /\
  follow_edges one_edge (mkHandle 1 true) true = Some [mkHandle 2 false] /\
  get_degree one_edge (mkHandle 3 false) false = Some 0 /\
  follow_edges one_edge (mkHandle 4 false) false = None.
Proof. repeat split; vm_compute; reflexivity. Qed.

Example one_edge_components :
  Components.weakly_connected_components (as_graph [3; 1; 2] one_edge) 20
  = Some [[1; 2]; [3]].
Proof. vm_compute. reflexivity. Qed.

Lemma built_graph_ok_witness :
  graph_ok (as_graph [3; 1; 2] one_edge) /\
  consistent (as_graph [3; 1; 2] one_edge).
Proof.
  apply (built_graph_ok [3; 1; 2] one_edge built_one_edge).
  - intros n Hn.
    repeat (apply elem_of_cons in Hn as [->|Hn]; [reflexivity|]).
    by apply elem_of_nil in Hn.
  - split; [discriminate | reflexivity].
Defined.

Lemma create_node_again_loses_edges_witness :
  follow_edges (create_node one_edge 1) (mkHandle 1 false) false = Some [] /\
  mkHandle 1 false ∈ neighbours (create_node one_edge 1) (mkHandle 2 true) true.
Proof.
  destruct (create_node_again_loses_edges [3; 1; 2] one_edge
              (mkHandle 1 false) (mkHandle 2 true) built_one_edge)
    as (H1 & H2 & _).
  - change (neighbours one_edge (mkHandle 1 false) false)
      with [mkHandle 2 true]. by left.
  - discriminate.
  - split; [exact H1 | exact H2].
Defined.

End EmptyGraphFacts.

(** ** Removing duplicate edges ([src/src/internal.cpp]) *)

Module Duplicates.
Import Graph EmptyGraph.

(** Modelled from the spec: a handle is an encoding of a node id and an
    orientation, and handles compare as their encodings, which belong to
    the path-index library: twice the id, plus one for the reverse
    orientation. *)
Definition encode (h : handle_t) : Z :=
  2 * get_id h + (if get_is_reverse h then 1 else 0).

Definition handle_le (a b : handle_t) : Prop := encode a <= encode b.

#[global] Instance handle_le_dec : RelDecision handle_le.
Proof. intros a b. unfold handle_le. apply _. Defined.

(** Modelled from the spec: [gbwt::removeDuplicates] belongs to the
    path-index library; it sorts the vector and removes the duplicates. *)
Definition removeDuplicates (v : list handle_t) : list handle_t :=
  remove_dups (merge_sort handle_le v).

(** [EmptyGraph::remove_duplicate_edges]. *)
Definition remove_duplicate_edges (g : t) : t :=
  {| nodes :=
       (fun node => mkNode (removeDuplicates (predecessors node))
                           (removeDuplicates (successors node)))
         <$> nodes g;
     min_id := min_id g;
     max_id := max_id g |}.

End Duplicates.

Module DuplicatesFacts.
Import Word Graph GraphFacts EmptyGraph EmptyGraphFacts Duplicates.

#[local] Instance handle_le_total : Total handle_le.
Proof. intros a b. unfold handle_le. lia. Qed.

#[local] Instance handle_le_trans : Transitive handle_le.
Proof. intros a b c. unfold handle_le. lia. Qed.

Lemma encode_inj (a b : handle_t) : encode a = encode b -> a = b.
Proof.
  destruct a as [n [|]], b as [m [|]]; unfold encode; simpl; intros H;
    first [f_equal; lia | lia].
Qed.

Definition handle_lt (a b : handle_t) : Prop := encode a < encode b.

Lemma removeDuplicates_spec (v : list handle_t) :
  NoDup (removeDuplicates v) /\
  (forall x, x ∈ removeDuplicates v <-> x ∈ v) /\
  StronglySorted handle_lt (removeDuplicates v).
Proof.
  unfold removeDuplicates.
  split; [apply NoDup_remove_dups|]. split.
  - intros x. by rewrite elem_of_remove_dups, merge_sort_Permutation.
  - pose proof (StronglySorted_merge_sort handle_le v) as Hs.
    assert (Hle : StronglySorted handle_le
                    (remove_dups (merge_sort handle_le v))).
    { induction Hs as [|x l Hl IH Hx]; simpl; [constructor|].
      destruct (decide_rel elem_of x l); [done|]. constructor; [done|].
      apply Forall_forall. intros y Hy. rewrite elem_of_remove_dups in Hy.
      rewrite Forall_forall in Hx. by apply Hx. }
    pose proof (NoDup_remove_dups (merge_sort handle_le v)) as Hnd.
    clear Hs. induction Hle as [|x l Hl IH Hx]; [constructor|].
    apply NoDup_cons in Hnd as [Hnot Hnd]. constructor; [by apply IH|].
    apply Forall_forall. intros y Hy. rewrite Forall_forall in Hx.
    specialize (Hx y Hy). unfold handle_le, handle_lt in *.
    destruct (decide (encode x = encode y)) as [E|]; [|lia].
    apply encode_inj in E as ->. done.
Qed.

Lemma map_fmap {A B : Type} (f : A -> B) (l : list A) : map f l = f <$> l.
Proof. induction l as [|x l IH]; simpl; [done | by rewrite IH]. Qed.

(** The neighbours after the removal: the same handles, once each. *)
Lemma neighbours_remove (g : t) (h : handle_t) (go_left : bool) :
  NoDup (neighbours (remove_duplicate_edges g) h go_left) /\
  forall x, x ∈ neighbours (remove_duplicate_edges g) h go_left <->
            x ∈ neighbours g h go_left.
Proof.
  unfold neighbours, follow_edges, edges_of. simpl. rewrite lookup_fmap.
  destruct (nodes g !! get_id h) as [[p s]|]; simpl;
    [|split; [constructor | done]].
  rewrite !map_fmap.
  assert (Hinj : Inj (=) (=)
            (fun next => if get_is_reverse h then flip next else next)).
  { intros a b. destruct (get_is_reverse h); [|done].
    destruct a as [? []], b as [? []]; unfold flip; simpl; congruence. }
  destruct (xorb go_left (get_is_reverse h)).
  - destruct (removeDuplicates_spec p) as (Hnd & Hel & _). split.
    + by apply NoDup_fmap_2.
    + intros x. rewrite !list_elem_of_fmap. by setoid_rewrite Hel.
  - destruct (removeDuplicates_spec s) as (Hnd & Hel & _). split.
    + by apply NoDup_fmap_2.
    + intros x. rewrite !list_elem_of_fmap. by setoid_rewrite Hel.
Qed.

(** X17: [remove_duplicate_edges] keeps the graph and its edges.  The
    nodes and the id range are unchanged; the stored edge lists become
    strictly increasing; every handle has the same neighbours as before,
    each of them once; and when the two directions of [follow_edges]
    agreed before, they still do. *)
Theorem remove_duplicate_edges_keeps (ids : list Z) (g : t) :
  consistent (as_graph ids g) ->
  let g' := remove_duplicate_edges g in
  (forall n, has_node g' n = has_node g n) /\
  min_node_id g' = min_node_id g /\ max_node_id g' = max_node_id g /\
  (forall n node, nodes g' !! n = Some node ->
     StronglySorted handle_lt (predecessors node) /\
     StronglySorted handle_lt (successors node)) /\
  (forall h go_left,
     NoDup (neighbours g' h go_left) /\
     forall x, x ∈ neighbours g' h go_left <-> x ∈ neighbours g h go_left) /\
  consistent (as_graph ids g').
Proof.
  intros Hcons g'. split; [|split; [done|split; [done|split; [|split]]]].
  - intros n. unfold has_node. apply bool_decide_ext. subst g'. simpl.
    rewrite lookup_fmap. by rewrite fmap_is_Some.
  - intros n node. subst g'. simpl. rewrite lookup_fmap.
    destruct (nodes g !! n) as [[p s]|]; simpl; [|done]. intros [= <-]. simpl.
    split; apply removeDuplicates_spec.
  - intros h go_left. apply neighbours_remove.
  - intros u v. simpl. fold (neighbours g' v true) (neighbours g' u false).
    destruct (neighbours_remove g v true) as [Hnd1 Hel1].
    destruct (neighbours_remove g u false) as [Hnd2 Hel2].
    subst g'. rewrite (occ_NoDup _ _ Hnd1), (occ_NoDup _ _ Hnd2).
    specialize (Hcons u v). simpl in Hcons.
    fold (neighbours g v true) (neighbours g u false) in Hcons.
    assert (Hiff : u ∈ neighbours g v true <-> v ∈ neighbours g u false).
    { rewrite !occ_pos, Hcons. done. }
    repeat case_decide; try done.
    + exfalso. rewrite Hel1, Hiff, <- Hel2 in *. done.
    + exfalso. rewrite Hel2, <- Hiff, <- Hel1 in *. done.
Qed.

(** The graph 1+ -> 2-, the edge given twice. *)
Definition doubled : t :=
  match create_edge one_edge (mkHandle 1 false) (mkHandle 2 true) with
  | Done g => g
  | Fatal _ => one_edge
  end.

Lemma remove_duplicate_edges_keeps_witness :
  NoDup (neighbours (remove_duplicate_edges doubled) (mkHandle 1 false) false)
  /\ consistent (as_graph [1; 2; 3] (remove_duplicate_edges doubled)).
Proof.
  assert (Hb : built doubled).
  { apply (built_edge one_edge doubled (mkHandle 1 false) (mkHandle 2 true));
      [apply built_one_edge | vm_compute; reflexivity]. }
  assert (Hc : consistent (as_graph [1; 2; 3] doubled)).
  { intros u v. apply (good_consistent doubled (built_good doubled Hb)). }
  destruct (remove_duplicate_edges_keeps [1; 2; 3] doubled Hc)
    as (_ & _ & _ & _ & Hn & Hc').
  split; [apply Hn | exact Hc'].
Defined.

Example doubled_neighbours :
  follow_edges doubled (mkHandle 1 false) false
    = Some [mkHandle 2 true; mkHandle 2 true] /\
  follow_edges (remove_duplicate_edges doubled) (mkHandle 1 false) false
    = Some [mkHandle 2 true].
Proof. split; vm_compute; reflexivity. Qed.

End DuplicatesFacts.

(** ** Sampling the positions of a path ([src/src/internal.cpp]) *)

Module PathSampling.
Import Word.

Section Sampling.

(** A [gbwt::edge_type], a position in the path index. *)
Variable position : Type.

(** The state of the loop of [sample_path_positions]. *)
Record sampler : Type := mkSampler {
  result : list (Z * position);
  offset : Z;
  next_sample : Z
}.

(** One round of the loop, at the position [pos] whose node has the length
    [len]. *)
Definition visit (sample_interval : Z) (st : sampler)
    (p : position * Z) : sampler :=
  let st1 :=
    if decide (offset st >= next_sample st)
    then {| result := result st ++ [(offset st, p.1)];
            offset := offset st;
            next_sample := wrap64 (offset st + sample_interval) |}
    else st in
  {| result := result st1;
     offset := wrap64 (offset st1 + p.2);
     next_sample := next_sample st1 |}.

(** [sample_path_positions]: [path] lists the positions that the index
    visits from [start(seq_id)] by [LF] before the endmarker, each with the
    length of its node; the second component is the value stored to
    [*length]. *)
Definition sample_path_positions (path : list (position * Z))
    (sample_interval : Z) : list (Z * position) * Z :=
  let st := foldl (visit sample_interval)
              {| result := []; offset := 0; next_sample := 0 |} path in
  (result st, offset st).

End Sampling.

Arguments result {position} _.
Arguments offset {position} _.
Arguments next_sample {position} _.
Arguments mkSampler {position} _ _ _.
Arguments visit {position} _ _ _.
Arguments sample_path_positions {position} _ _.

End PathSampling.

Module PathSamplingFacts.
Import Word PathSampling.

Section Sampling.

Variable position : Type.

(** The positions of a path with the offsets at which they start. *)
Fixpoint positions_from (start : Z) (path : list (position * Z)) :
    list (Z * position) :=
  match path with
  | [] => []
  | p :: rest => (start, p.1) :: positions_from (start + p.2) rest
  end.

Definition path_length (path : list (position * Z)) : Z :=
  foldr (fun p n => p.2 + n) 0 path.

Variable interval : Z.
Hypothesis interval_nonneg : 0 <= interval.

(** Two samples are at least the sample interval apart. *)
Definition apart (a b : Z * position) : Prop := a.1 + interval <= b.1.

(** The position at offset [o] is covered by the sample at [s]. *)
Definition covers (s o : Z) : Prop := s <= o /\ (o = s \/ o < s + interval).

Lemma positions_from_ge (path : list (position * Z)) :
  Forall (fun p => 0 <= p.2) path ->
  forall start o q, (o, q) ∈ positions_from start path -> start <= o.
Proof.
  induction 1 as [|p path Hp Hpath IH]; intros start o q Hin; simpl in Hin.
  - by apply elem_of_nil in Hin.
  - apply elem_of_cons in Hin as [[= -> ->]|Hin]; [lia|].
    specialize (IH _ _ _ Hin). lia.
Qed.

Lemma visit_all (path : list (position * Z)) :
  Forall (fun p => 0 <= p.2) path ->
  forall st : sampler position,
    0 <= offset st -> 0 <= next_sample st ->
    next_sample st <= offset st + interval ->
    offset st + path_length path + interval < modulus64 ->
    let st' := foldl (visit interval) st path in
    offset st' = offset st + path_length path /\
    exists new,
      result st' = result st ++ new /\
      sublist new (positions_from (offset st) path) /\
      Forall (fun s => next_sample st <= s.1) new /\
      StronglySorted apart new /\
      (forall o q, (o, q) ∈ positions_from (offset st) path ->
         o < next_sample st \/
         exists s r, (s, r) ∈ new /\ covers s o) /\
      (path <> [] -> offset st >= next_sample st ->
       head new = head (positions_from (offset st) path)).
Proof.
  induction 1 as [|p path Hp Hpath IH]; intros st Ho Hn Hle Hfit; simpl.
  { split; [lia|]. exists []. rewrite app_nil_r. split; [done|].
    split; [constructor|]. split; [constructor|]. split; [constructor|].
    split; [|done]. intros o q Hin. by apply elem_of_nil in Hin. }
  simpl in Hfit.
  pose proof (positions_from_ge path Hpath) as Hge.
  assert (Hlen : 0 <= path_length path).
  { clear -Hpath. induction Hpath; simpl; lia. }
  destruct (decide (offset st >= next_sample st)) as [Hs|Hs].
  - (* the position is sampled *)
    assert (Hv : visit interval st p =
                 {| result := result st ++ [(offset st, p.1)];
                    offset := offset st + p.2;
                    next_sample := offset st + interval |}).
    { unfold visit. destruct (decide (offset st >= next_sample st)); [|done].
      simpl. by rewrite !wrap64_small by lia. }
    rewrite Hv. clear Hv.
    destruct (IH {| result := result st ++ [(offset st, p.1)];
                    offset := offset st + p.2;
                    next_sample := offset st + interval |})
      as (E & new & Hr & Hsub & Hall & Hsorted & Hcov & _); simpl; try lia.
    simpl in *. split; [lia|].
    exists ((offset st, p.1) :: new).
    split; [by rewrite Hr, <- app_assoc|].
    split; [by constructor|].
    split.
    { constructor; [simpl; lia|]. eapply Forall_impl; [exact Hall|].
      intros s Hs'. simpl in *. lia. }
    split.
    { constructor; [done|]. eapply Forall_impl; [exact Hall|].
      intros s Hs'. unfold apart. simpl in *. lia. }
    split; [|done].
    intros o q Hin. right. apply elem_of_cons in Hin as [[= -> ->]|Hin].
    + exists (offset st), (p.1). split; [by left|]. split; [lia|by left].
    + destruct (Hcov o q Hin) as [Hlt|(s & r & Hs' & Hc)].
      * exists (offset st), (p.1). split; [by left|].
        specialize (Hge _ _ _ Hin). split; [lia|]. right. lia.
      * exists s, r. split; [by right | done].
  - assert (Hv : visit interval st p =
                 {| result := result st; offset := offset st + p.2;
                    next_sample := next_sample st |}).
    { unfold visit. destruct (decide (offset st >= next_sample st)); [done|].
      simpl. by rewrite !wrap64_small by lia. }
    rewrite Hv. clear Hv.
    destruct (IH {| result := result st; offset := offset st + p.2;
                    next_sample := next_sample st |})
      as (E & new & Hr & Hsub & Hall & Hsorted & Hcov & _); simpl; try lia.
    simpl in *. split; [lia|]. exists new.
    split; [done|]. split; [by constructor|]. split; [done|].
    split; [done|]. split; [|intros _ ?; lia].
    intros o q Hin. apply elem_of_cons in Hin as [[= -> ->]|Hin].
    + left. lia.
    + by apply (Hcov o q).
Qed.

(** X18: the samples of [sample_path_positions].  For node lengths and a
    sample interval whose sum fits [size_t], the length reported is the sum
    of the node lengths; the samples are positions of the path, in the
    order of the path and each with the offset at which it starts; the
    first position is sampled; two successive samples are at least the
    sample interval apart; and every position of the path starts at a
    sample or less than the sample interval after one. *)
Theorem sample_path_positions_spec (path : list (position * Z)) :
  Forall (fun p => 0 <= p.2) path ->
  path_length path + interval < modulus64 ->
  let samples := (sample_path_positions path interval).1 in
  (sample_path_positions path interval).2 = path_length path /\
  sublist samples (positions_from 0 path) /\
  head samples = head (positions_from 0 path) /\
  StronglySorted apart samples /\
  forall o q, (o, q) ∈ positions_from 0 path ->
    exists s r, (s, r) ∈ samples /\ covers s o.
Proof.
  intros Hpath Hfit samples. subst samples. unfold sample_path_positions.
  destruct (visit_all path Hpath
              {| result := []; offset := 0; next_sample := 0 |})
    as (E & new & Hr & Hsub & _ & Hsorted & Hcov & Hhead); simpl; try lia.
  simpl in *. rewrite Hr, E. split; [lia|]. split; [done|].
  split.
  { destruct path as [|p path]; [by inversion Hsub|].
    apply Hhead; [done | lia]. }
  split; [done|].
  intros o q Hin. destruct (Hcov o q Hin) as [Hlt|?]; [|done].
  pose proof (positions_from_ge path Hpath 0 o q Hin). lia.
Qed.

End Sampling.

Lemma sample_path_positions_spec_witness :
  (sample_path_positions [("a", 50); ("b", 50); ("c", 50)]%string 60).1
    = [(0, "a"); (100, "c")]%string /\
  (sample_path_positions [("a", 50); ("b", 50); ("c", 50)]%string 60).2 = 150.
Proof.
  assert (H : Forall (fun p : string * Z => 0 <= p.2)
                [("a", 50); ("b", 50); ("c", 50)]%string).
  { repeat constructor; simpl; lia. }
  destruct (sample_path_positions_spec string 60 ltac:(lia) _ H)
    as (Hlen & _); [reflexivity|].
  split; [reflexivity | exact Hlen].
Defined.

End PathSamplingFacts.

(** ** More on the construction jobs ([src/src/algorithms.cpp]) *)

Module JobsSizes.
Import Word Jobs JobsFacts.

Section Binning.

Variables (comps : list (list Z)) (size_bound : Z).

Hypothesis nodes_fit : total_nodes comps < modulus64.
Hypothesis components_fit : Z.of_nat (length comps) < modulus64.

Local Abbreviation after := (jobs_after comps size_bound).

(** The sizes of the jobs after [k] rounds, for components within the
    bound, and for components that are not empty. *)
Lemma sizes_after (k : nat) :
  (k <= length comps)%nat ->
  (Forall (fun c => Z.of_nat (length c) <= size_bound) comps ->
   Forall (fun x => x <= size_bound) (nodes_per_job (after k))) /\
  (Forall (fun c => c <> []) comps ->
   Forall (fun x => 0 < x) (nodes_per_job (after k))).
Proof.
  induction k as [|k IH]; intros Hk; [split; intros _; constructor|].
  destruct (lookup_lt_is_Some_2 comps k ltac:(lia)) as [c Hc].
  destruct (IH ltac:(lia)) as [IH1 IH2].
  destruct (invariant_after comps size_bound nodes_fit components_fit k
              ltac:(lia)) as [P1 P2 _ _ _ _ _ _].
  pose proof (total_nodes_take_S comps k c Hc) as Htot.
  pose proof (total_nodes_take_le comps (S k)) as Hle.
  destruct (assign_component_nodes_per_job size_bound (after k)
              (Z.of_nat k) c P1 ltac:(lia)) as [Hfit Hnew].
  rewrite <- (jobs_after_S comps size_bound k c Hc) in Hfit, Hnew.
  assert (Hc1 : Forall (fun c => Z.of_nat (length c) <= size_bound) comps ->
                Z.of_nat (length c) <= size_bound).
  { intros Hall. rewrite Forall_forall in Hall. apply Hall.
    by eapply list_elem_of_lookup_2. }
  assert (Hc2 : Forall (fun c => c <> []) comps -> 0 < Z.of_nat (length c)).
  { intros Hall. rewrite Forall_forall in Hall.
    assert (c <> []) by (apply Hall; by eapply list_elem_of_lookup_2).
    destruct c; [done | simpl; lia]. }
  destruct (decide (fits size_bound (after k) c)) as [Hf|Hf].
  - destruct (Hfit Hf) as (front & E1 & E2). rewrite E2.
    destruct Hf as [_ Hf].
    remember (back (nodes_per_job (after k))) as b eqn:Eb. clear Eb.
    rewrite E1 in IH1, IH2. split; intros Hall.
    + specialize (IH1 Hall). apply Forall_app in IH1 as [Q1 _].
      apply Forall_app. split; [done|]. apply Forall_singleton. lia.
    + specialize (IH2 Hall). apply Forall_app in IH2 as [Q1 Q2].
      rewrite Forall_singleton in Q2.
      apply Forall_app. split; [done|]. apply Forall_singleton. lia.
  - rewrite (Hnew Hf). split; intros Hall.
    + apply Forall_app. split; [by apply IH1|].
      apply Forall_singleton. by apply Hc1.
    + apply Forall_app. split; [by apply IH2|].
      apply Forall_singleton. by apply Hc2.
Qed.

End Binning.

(** X19: the sizes of the jobs of [gbwt_construction_jobs], for components
    that hold fewer than 2^64 nodes in all.  The job sizes add up to the
    number of nodes, there are at most as many jobs as components and at
    least one job when there is a component; when no component is larger
    than the size bound, no job is; and when no component is empty, no job
    is. *)
Theorem construction_jobs_sizes (comps : list (list Z)) (size_bound : Z) :
  total_nodes comps < modulus64 ->
  Z.of_nat (length comps) < modulus64 ->
  let jobs := construction_jobs comps size_bound in
  zsum (nodes_per_job jobs) = total_nodes comps /\
  size jobs <= components jobs /\
  (comps <> [] -> 0 < size jobs) /\
  (Forall (fun c => Z.of_nat (length c) <= size_bound) comps ->
   Forall (fun x => x <= size_bound) (nodes_per_job jobs)) /\
  (Forall (fun c => c <> []) comps ->
   Forall (fun x => 0 < x) (nodes_per_job jobs)).
Proof.
  intros Hnodes Hcomps jobs.
  pose proof (invariant_after comps size_bound Hnodes Hcomps (length comps)
                ltac:(lia)) as [F1 F2 F3 F4 _ _ _ _].
  pose proof (sizes_after comps size_bound Hnodes Hcomps (length comps)
                ltac:(lia)) as [G1 G2].
  rewrite jobs_after_all in *. fold jobs in F1, F2, F3, F4, G1, G2.
  rewrite firstn_all in F2.
  assert (Hc : components jobs = Z.of_nat (length comps)).
  { unfold components, jobs, construction_jobs.
    by rewrite assign_components_keeps. }
  split; [done|]. split; [unfold size; lia|]. split; [|done].
  intros Hne. destruct (F4 0) as (j & _ & Hj); [|unfold size; lia].
  destruct comps; [done | simpl; lia].
Qed.

Lemma construction_jobs_sizes_witness :
  zsum (nodes_per_job (construction_jobs JobsExamples.five 3)) = 8 /\
  Forall (fun x => x <= 3) (nodes_per_job (construction_jobs JobsExamples.five 3)).
Proof.
  destruct (construction_jobs_sizes JobsExamples.five 3)
    as (H1 & _ & _ & H2 & _); [reflexivity | reflexivity |].
  split; [exact H1|]. apply H2. repeat constructor; simpl; lia.
Defined.

(** The nodes of a component are entered one by one. *)
Lemma insert_nodes_lookup (i : Z) (component : list Z) :
  forall (m : gmap Z Z) (x : Z),
    foldl (fun m node_id => <[node_id := i]> m) m component !! x =
      if decide (x ∈ component) then Some i else m !! x.
Proof.
  induction component as [|n c IH]; intros m x; simpl.
  - destruct (decide (x ∈ [])) as [H|H]; [by apply elem_of_nil in H | done].
  - rewrite IH.
    destruct (decide (x ∈ c)) as [Hc|Hc];
      destruct (decide (x ∈ n :: c)) as [Hn|Hn]; try done.
    + destruct Hn. by right.
    + apply elem_of_cons in Hn as [->|?]; [|done].
      by rewrite lookup_insert_eq.
    + rewrite lookup_insert_ne; [done|]. intros ->. destruct Hn. by left.
Qed.

(** The component of a node after [k] rounds: the last one that holds
    it. *)
Lemma node_to_component_after (comps : list (list Z)) (size_bound : Z)
    (k : nat) :
  (k <= length comps)%nat ->
  forall (x v : Z),
    node_to_component (jobs_after comps size_bound k) !! x = Some v <->
    exists (i : nat) (c : list Z),
      v = Z.of_nat i /\ (i < k)%nat /\ comps !! i = Some c /\ x ∈ c /\
      forall (j : nat) (c' : list Z),
        (i < j < k)%nat -> comps !! j = Some c' -> x ∉ c'.
Proof.
  induction k as [|k IH]; intros Hk x v.
  - simpl. rewrite lookup_empty. split; [done|].
    intros (i & c & _ & Hi & _). lia.
  - destruct (lookup_lt_is_Some_2 comps k ltac:(lia)) as [c Hc].
    rewrite (jobs_after_S comps size_bound k c Hc). simpl.
    rewrite insert_nodes_lookup. specialize (IH ltac:(lia) x v).
    destruct (decide (x ∈ c)) as [Hx|Hx].
    + split.
      * intros [= <-]. exists k, c. repeat split; try done; try lia.
      * intros (i & c0 & -> & Hi & Hc0 & Hx0 & Hlast).
        destruct (decide (i = k)) as [->|Hne]; [done|].
        destruct (Hlast k c ltac:(lia) Hc). done.
    + rewrite IH. split.
      * intros (i & c0 & -> & Hi & Hc0 & Hx0 & Hlast).
        exists i, c0. repeat split; try done; try lia.
        intros j c' Hj Hc'. destruct (decide (j = k)) as [->|Hne].
        -- congruence.
        -- apply (Hlast j c'); [lia | done].
      * intros (i & c0 & -> & Hi & Hc0 & Hx0 & Hlast).
        assert (i <> k) by (intros ->; congruence).
        exists i, c0. repeat split; try done; try lia.
        intros j c' Hj Hc'. apply (Hlast j c'); [lia | done].
Qed.

Lemma node_to_component_none (comps : list (list Z)) (size_bound : Z)
    (k : nat) :
  (k <= length comps)%nat ->
  forall x : Z,
    node_to_component (jobs_after comps size_bound k) !! x = None <->
    forall (i : nat) (c : list Z),
      (i < k)%nat -> comps !! i = Some c -> x ∉ c.
Proof.
  induction k as [|k IH]; intros Hk x.
  - simpl. rewrite lookup_empty. split; [|done]. intros _ i c Hi. lia.
  - destruct (lookup_lt_is_Some_2 comps k ltac:(lia)) as [c Hc].
    rewrite (jobs_after_S comps size_bound k c Hc). simpl.
    rewrite insert_nodes_lookup. specialize (IH ltac:(lia) x).
    destruct (decide (x ∈ c)) as [Hx|Hx].
    + split; [done|]. intros Hall. destruct (Hall k c ltac:(lia) Hc Hx).
    + rewrite IH. split; intros Hall i c' Hi Hc'.
      * destruct (decide (i = k)) as [->|Hne]; [congruence|].
        apply (Hall i c'); [lia | done].
      * apply (Hall i c'); [lia | done].
Qed.

(** X20: [node_to_component] after [gbwt_construction_jobs].  A node is
    mapped to a component exactly when some component holds it, and then
    to the last component that holds it; for components without common
    nodes, as [weakly_connected_components] returns them, to the component
    that holds it. *)
Theorem node_to_component_correct (comps : list (list Z)) (size_bound : Z)
    (x : Z) :
  let jobs := construction_jobs comps size_bound in
  (forall v, node_to_component jobs !! x = Some v <->
     exists (i : nat) (c : list Z),
       v = Z.of_nat i /\ comps !! i = Some c /\ x ∈ c /\
       forall (j : nat) (c' : list Z),
         (i < j)%nat -> comps !! j = Some c' -> x ∉ c') /\
  (node_to_component jobs !! x = None <-> x ∉ concat comps) /\
  (NoDup (concat comps) ->
   forall (i : nat) (c : list Z), comps !! i = Some c -> x ∈ c ->
     node_to_component jobs !! x = Some (Z.of_nat i)).
Proof.
  intros jobs.
  assert (Hiff : forall v, node_to_component jobs !! x = Some v <->
     exists (i : nat) (c : list Z),
       v = Z.of_nat i /\ comps !! i = Some c /\ x ∈ c /\
       forall (j : nat) (c' : list Z),
         (i < j)%nat -> comps !! j = Some c' -> x ∉ c').
  { intros v. subst jobs. rewrite <- jobs_after_all.
    rewrite (node_to_component_after comps size_bound (length comps)) by lia.
    split; intros (i & c & -> & H); exists i, c; split; try done.
    - destruct H as (Hi & Hc & Hx & Hlast). repeat split; try done.
      intros j c' Hj Hc'. apply (Hlast j c'); [|done].
      apply lookup_lt_Some in Hc'. lia.
    - destruct H as (Hc & Hx & Hlast). split; [by eapply lookup_lt_Some|].
      repeat split; try done. intros j c' Hj. apply Hlast. lia. }
  split; [exact Hiff|]. split.
  - subst jobs. rewrite <- jobs_after_all.
    rewrite (node_to_component_none comps size_bound (length comps)) by lia.
    split.
    + intros Hall Hin.
      apply list_elem_of_In, in_concat in Hin as (c & Hc & Hx).
      apply list_elem_of_In in Hc, Hx.
      apply list_elem_of_lookup in Hc as [i Hi].
      apply (Hall i c); [by eapply lookup_lt_Some | done..].
    + intros Hnot i c Hi Hc Hx. destruct Hnot.
      apply list_elem_of_In, in_concat. exists c.
      split; apply list_elem_of_In; [|done].
      by eapply list_elem_of_lookup_2.
  - intros Hnd i c Hc Hx. apply Hiff. exists i, c. repeat split; try done.
    intros j c' Hj Hc' Hx'.
    assert (i = j); [|lia].
    eapply (ComponentsFacts.NoDup_concat_unique comps); eauto.
Qed.

End JobsSizes.

(** ** The components of each job ([ConstructionJobs::components_per_job]) *)

Module JobLists.
Import Word Jobs.

(** The body of the loop of [components_per_job] for component [i].
    [job_for_component] is declared in [algorithms.h], which is not among
    the sources; a component without an entry in [component_to_job] is
    taken to have no job below [size()]. *)
Definition add_component (jobs : ConstructionJobs) (result : list (list Z))
    (i : Z) : list (list Z) :=
  match job_for_component jobs i with
  | Some job_id =>
      if decide (job_id < size jobs)
      then alter (fun l => l ++ [i]) (Z.to_nat job_id) result
      else result
  | None => result
  end.

(** [ConstructionJobs::components_per_job]. *)
Definition components_per_job (jobs : ConstructionJobs) : list (list Z) :=
  foldl (add_component jobs)
    (replicate (length (nodes_per_job jobs)) [])
    (seqZ 0 (components jobs)).

End JobLists.

Module JobListsExamples.
Import Jobs JobLists.

Example five_per_job :
  components_per_job (construction_jobs JobsExamples.five 3) =
    [[0; 1]; [2]; [3; 4]].
Proof. vm_compute. reflexivity. Qed.

End JobListsExamples.

Module JobListsFacts.
Import Word Jobs JobsFacts JobLists.

Section Lists.

Variables (comps : list (list Z)) (size_bound : Z).

Hypothesis nodes_fit : total_nodes comps < modulus64.
Hypothesis components_fit : Z.of_nat (length comps) < modulus64.

Local Abbreviation after := (jobs_after comps size_bound).
Local Abbreviation jobs := (construction_jobs comps size_bound).
Local Abbreviation used k := (length (nodes_per_job (after k))).

(** A round keeps the number of jobs or adds one job, and the component
    of the round is in the last job. *)
Lemma used_S (k : nat) :
  (k < length comps)%nat ->
  (used (S k) = used k /\ (0 < used k)%nat \/ used (S k) = S (used k)) /\
  component_to_job jobs !! Z.of_nat k = Some (Z.of_nat (used (S k)) - 1).
Proof.
  intros Hk. destruct (lookup_lt_is_Some_2 comps k Hk) as [c Hc].
  pose proof (invariant_after comps size_bound nodes_fit components_fit k
                ltac:(lia)) as [P1 P2 _ _ _ _ _ _].
  pose proof (invariant_after comps size_bound nodes_fit components_fit (S k)
                ltac:(lia)) as [_ _ _ _ _ S6 _ _].
  pose proof (total_nodes_take_S comps k c Hc) as Htot.
  pose proof (total_nodes_take_le comps (S k)) as Hle.
  destruct (assign_component_nodes_per_job size_bound (after k)
              (Z.of_nat k) c P1 ltac:(lia)) as [Hfit Hnew].
  rewrite <- (jobs_after_S comps size_bound k c Hc) in Hfit, Hnew.
  split.
  - destruct (decide (fits size_bound (after k) c)) as [Hf|Hf].
    + left. destruct (Hfit Hf) as (front & E1 & E2).
      apply (f_equal length) in E1, E2.
      rewrite length_app in E1, E2. simpl in E1, E2. split; lia.
    + right. rewrite (Hnew Hf), length_app. simpl. lia.
  - rewrite <- jobs_after_all.
    rewrite (job_stable comps size_bound (S k) (length comps)) by lia.
    specialize (S6 ltac:(lia)).
    replace (Z.of_nat (S k) - 1) with (Z.of_nat k) in S6 by lia.
    exact S6.
Qed.

Lemma used_mono (k k' : nat) :
  (k <= k')%nat -> (k' <= length comps)%nat -> (used k <= used k')%nat.
Proof.
  intros Hkk. induction Hkk as [|k' Hkk IH]; intros Hk'; [done|].
  destruct (used_S k' ltac:(lia)) as [[[E _]|E] _]; rewrite E;
    specialize (IH ltac:(lia)); lia.
Qed.

Lemma used_all : used (length comps) = length (nodes_per_job jobs).
Proof. by rewrite jobs_after_all. Qed.

(** The result of [components_per_job] after the first [k] components: a
    list for each job in use, and empty lists for the other jobs. *)
Record lists_after (k : nat) (result : list (list Z)) : Prop := {
  la_split : exists pre,
    result = pre ++ replicate (length (nodes_per_job jobs) - used k) [] /\
    length pre = used k /\
    concat pre = seqZ 0 (Z.of_nat k) /\
    Forall (fun l => l <> []) pre /\
    forall (j : nat) (l : list Z), pre !! j = Some l ->
      forall i, i ∈ l <->
        0 <= i < Z.of_nat k /\ component_to_job jobs !! i = Some (Z.of_nat j)
}.

Lemma lists_after_k (k : nat) :
  (k <= length comps)%nat ->
  lists_after k (foldl (add_component jobs)
                   (replicate (length (nodes_per_job jobs)) [])
                   (seqZ 0 (Z.of_nat k))).
Proof.
  induction k as [|k IH]; intros Hk.
  - constructor. exists []. simpl. rewrite Nat.sub_0_r.
    repeat split; try done.
  - rewrite seqZ_S, foldl_app, Z.add_0_l. simpl.
    destruct (IH ltac:(lia)) as [(pre & E & Hlen & Hcat & Hne & Hmem)].
    rewrite E. clear E IH.
    destruct (used_S k ltac:(lia)) as [Hstep Hjob].
    pose proof (used_mono (S k) (length comps) ltac:(lia) ltac:(lia)) as Hm.
    rewrite used_all in Hm.
    unfold add_component at 1, job_for_component. rewrite Hjob.
    destruct (decide (Z.of_nat (used (S k)) - 1 < size jobs)) as [_|Hn];
      [|unfold size in Hn; lia].
    assert (Hin : forall (j : nat) (l : list Z) (i : Z),
              pre !! j = Some l -> i ∈ l -> i <> Z.of_nat k).
    { intros j l i Hl Hi. apply (Hmem j l Hl) in Hi. lia. }
    constructor. destruct Hstep as [[Hsame Hpos]|Hnew].
    + (* the component joins the last job in use *)
      destruct (lookup_lt_is_Some_2 pre (used k - 1)%nat ltac:(lia))
        as [l Hl].
      exists (alter (fun l => l ++ [Z.of_nat k]) (used k - 1)%nat pre).
      rewrite Hsame.
      replace (Z.to_nat (Z.of_nat (used k) - 1)) with (used k - 1)%nat by lia.
      split; [|split; [|split; [|split]]].
      * apply list_eq. intros n.
        destruct (decide (n = (used k - 1)%nat)) as [->|Hne'].
        -- rewrite list_lookup_alter_eq, !lookup_app_l
             by (rewrite ?length_alter; lia).
           by rewrite list_lookup_alter_eq.
        -- rewrite list_lookup_alter_ne by done.
           destruct (decide (n < length pre)%nat).
           ++ rewrite !lookup_app_l by (rewrite ?length_alter; lia).
              by rewrite list_lookup_alter_ne.
           ++ rewrite !lookup_app_r by (rewrite ?length_alter; lia).
              by rewrite length_alter.
      * by rewrite length_alter.
      * rewrite seqZ_S, Z.add_0_l, <- Hcat.
        assert (Hd : drop (S (used k - 1)) pre = []).
        { apply drop_ge. lia. }
        assert (Hpre : pre = take (used k - 1) pre ++ [l]).
        { rewrite <- (take_drop_middle pre _ l Hl) at 1. by rewrite Hd. }
        assert (Hfront : length (take (used k - 1) pre) = (used k - 1)%nat).
        { rewrite length_take. lia. }
        rewrite Hpre. generalize dependent (take (used k - 1) pre).
        intros front _ Hfront. rewrite alter_app_r_alt by lia.
        rewrite Hfront, Nat.sub_diag. simpl.
        rewrite !concat_app. simpl. by rewrite !app_nil_r, app_assoc.
      * apply Forall_alter; [done|]. intros l' _. by destruct l'.
      * intros j l' Hl' i.
        destruct (decide (j = (used k - 1)%nat)) as [->|Hj].
        -- rewrite list_lookup_alter_eq, Hl in Hl'. simpl in Hl'.
           injection Hl' as <-. rewrite elem_of_app, list_elem_of_singleton.
           rewrite (Hmem _ l Hl). split.
           ++ intros [[Hi Hc]| ->]; [split; [lia | done]|].
              split; [lia|]. rewrite Hjob, Hsame. f_equal. lia.
           ++ intros [Hi Hc].
              destruct (decide (i = Z.of_nat k)) as [->|Hik]; [by right|].
              left. split; [lia | done].
        -- rewrite list_lookup_alter_ne in Hl' by done.
           rewrite (Hmem j l' Hl'). split.
           ++ intros [Hi Hc]. split; [lia | done].
           ++ intros [Hi Hc]. split; [|done].
              destruct (decide (i = Z.of_nat k)) as [->|Hik]; [|lia].
              rewrite Hjob in Hc. injection Hc as Hc. lia.
    + (* the component starts a job *)
      exists (pre ++ [[Z.of_nat k]]). rewrite Hnew.
      replace (Z.to_nat (Z.of_nat (S (used k)) - 1)) with (used k) by lia.
      replace (length (nodes_per_job jobs) - used k)%nat
        with (S (length (nodes_per_job jobs) - S (used k))) by lia.
      split; [|split; [|split; [|split]]].
      * rewrite alter_app_r_alt by lia. rewrite Hlen, Nat.sub_diag.
        simpl. by rewrite <- app_assoc.
      * rewrite length_app. simpl. lia.
      * rewrite concat_app, Hcat, seqZ_S. simpl. by rewrite Z.add_0_l.
      * apply Forall_app. split; [done|]. by apply Forall_singleton.
      * intros j l' Hl' i.
        destruct (decide (j < length pre)%nat) as [Hj|Hj].
        -- rewrite lookup_app_l in Hl' by done.
           rewrite (Hmem j l' Hl'). split.
           ++ intros [Hi Hc]. split; [lia | done].
           ++ intros [Hi Hc]. split; [|done].
              destruct (decide (i = Z.of_nat k)) as [->|Hik]; [|lia].
              rewrite Hjob in Hc. injection Hc as Hc. lia.
        -- rewrite lookup_app_r in Hl' by lia.
           destruct (j - length pre)%nat as [|n] eqn:En; [|done].
           simpl in Hl'. injection Hl' as <-.
           assert (j = used k) by lia. subst j.
           rewrite list_elem_of_singleton. split.
           ++ intros ->. split; [lia|]. rewrite Hjob, Hnew. f_equal. lia.
           ++ intros [Hi Hc].
              destruct (decide (i = Z.of_nat k)) as [->|Hik]; [done|].
              (* an earlier component is in a job in use *)
              exfalso.
              pose proof (invariant_after comps size_bound nodes_fit
                            components_fit k ltac:(lia))
                as [_ _ _ S4 _ _ _ _].
              destruct (S4 i ltac:(lia)) as (j' & Hj' & Hlt).
              rewrite <- (job_stable comps size_bound k (length comps))
                in Hj' by lia.
              rewrite jobs_after_all in Hj'. rewrite Hc in Hj'.
              injection Hj' as <-. lia.
Qed.

End Lists.

(** X21: [components_per_job] after [gbwt_construction_jobs], for
    components that hold fewer than 2^64 nodes in all.  There is one list
    for each job and no list is empty; the lists, one after the other,
    are the components 0, 1, ... in order; and the list of job [j] holds
    exactly the components whose job is [j]. *)
Theorem components_per_job_partition (comps : list (list Z))
    (size_bound : Z) :
  total_nodes comps < modulus64 ->
  Z.of_nat (length comps) < modulus64 ->
  let jobs := construction_jobs comps size_bound in
  let result := components_per_job jobs in
  Z.of_nat (length result) = size jobs /\
  Forall (fun l => l <> []) result /\
  concat result = seqZ 0 (components jobs) /\
  (forall (j : nat) (l : list Z), result !! j = Some l ->
     forall i, i ∈ l <-> job_for_component jobs i = Some (Z.of_nat j)).
Proof.
  intros Hnodes Hcomps jobs result.
  assert (Hc : components jobs = Z.of_nat (length comps)).
  { unfold components, jobs, construction_jobs.
    by rewrite assign_components_keeps. }
  destruct (lists_after_k comps size_bound Hnodes Hcomps (length comps)
              ltac:(lia)) as [(pre & E & Hlen & Hcat & Hne & Hmem)].
  rewrite <- Hc in E, Hcat. fold jobs in E. 
  change (foldl _ _ _) with result in E.
  rewrite used_all, Nat.sub_diag in E. simpl in E. rewrite app_nil_r in E.
  subst pre. rewrite used_all in Hlen.
  split; [unfold size; by rewrite Hlen|]. split; [done|]. split; [done|].
  intros j l Hl i. rewrite (Hmem j l Hl). unfold job_for_component.
  split; [by intros [_ ?]|]. intros Hi. split; [|done].
  pose proof (invariant_after comps size_bound Hnodes Hcomps (length comps)
                ltac:(lia)) as [_ _ _ _ F5 _ _ _].
  rewrite jobs_after_all in F5.
  destruct (decide (0 <= i < Z.of_nat (length comps))) as [?|Hout]; [done|].
  specialize (F5 i Hout). fold jobs in F5. congruence.
Qed.

Lemma components_per_job_partition_witness :
  concat (components_per_job (construction_jobs JobsExamples.five 3)) =
    [0; 1; 2; 3; 4].
Proof.
  destruct (components_per_job_partition JobsExamples.five 3)
    as (_ & _ & H & _); [reflexivity | reflexivity |].
  exact H.
Defined.

End JobListsFacts.

(** ** The sets of the union-find structure *)

Module UnionFind.
Import Word Graph Components DisjointSetsFacts.

Local Open Scope nat_scope.

(** The root of a slot, and slots of the same set. *)
Definition root_of (parent : list nat) (i r : nat) : Prop :=
  exists l, path_to_root parent i r l.

Definition same_set (parent : list nat) (i j : nat) : Prop :=
  exists r, root_of parent i r /\ root_of parent j r.

Lemma root_of_unique (parent : list nat) (i r r' : nat) :
  root_of parent i r -> root_of parent i r' -> r = r'.
Proof.
  intros [l H] [l' H']. by destruct (path_deterministic _ _ _ _ _ _ H H').
Qed.

Lemma root_of_lt (parent : list nat) (i r : nat) :
  root_of parent i r -> i < length parent.
Proof.
  intros [l H]. destruct (path_head _ _ _ _ H) as [l' ->].
  apply (path_range _ _ _ _ H). by left.
Qed.

Lemma root_of_root (parent : list nat) (i r : nat) :
  root_of parent i r -> parent !! r = Some r.
Proof. intros [l H]. by apply path_root in H as [? _]. Qed.

Lemma root_of_self (parent : list nat) (r : nat) :
  parent !! r = Some r -> root_of parent r r.
Proof. exists [r]. by constructor. Qed.

Lemma same_set_refl (parent : list nat) (i : nat) :
  forest parent -> i < length parent -> same_set parent i i.
Proof. intros Hf Hi. destruct (Hf i Hi) as (r & l & H). exists r. split; by exists l. Qed.

Lemma same_set_sym (parent : list nat) (i j : nat) :
  same_set parent i j -> same_set parent j i.
Proof. intros (r & Hi & Hj). by exists r. Qed.

Lemma same_set_trans (parent : list nat) (i j k : nat) :
  same_set parent i j -> same_set parent j k -> same_set parent i k.
Proof.
  intros (r & Hi & Hj) (r' & Hj' & Hk).
  rewrite (root_of_unique _ _ _ _ Hj Hj') in Hi. by exists r'.
Qed.

(** Slots of the same set are the slots with the same root. *)
Lemma same_set_roots (parent : list nat) (i j ri rj : nat) :
  root_of parent i ri -> root_of parent j rj ->
  same_set parent i j <-> ri = rj.
Proof.
  intros Hi Hj. split.
  - intros (r & Hi' & Hj').
    rewrite (root_of_unique _ _ _ _ Hi Hi').
    by rewrite (root_of_unique _ _ _ _ Hj Hj').
  - intros ->. by exists rj.
Qed.

(** A change of the parents that keeps the root of every path keeps the
    roots. *)
Lemma roots_kept (parent parent' : list nat) :
  length parent' = length parent -> forest parent ->
  (forall j r l, path_to_root parent j r l ->
     exists l', path_to_root parent' j r l') ->
  forall j r, root_of parent' j r <-> root_of parent j r.
Proof.
  intros Hlen Hf Hkeep j r. split.
  - intros H. pose proof (root_of_lt _ _ _ H) as Hj. rewrite Hlen in Hj.
    destruct (Hf j Hj) as (r0 & l0 & H0).
    destruct (Hkeep _ _ _ H0) as [l1 H1].
    assert (r = r0) by (eapply root_of_unique; [exact H | by exists l1]).
    subst. by exists l0.
  - intros [l H]. destruct (Hkeep _ _ _ H) as [l' H']. by exists l'.
Qed.

(** [find] returns the root of the slot of the node; path splitting
    changes no root. *)
Lemma find_roots (ds : DisjointSets) (node : Z) :
  well_formed ds -> slot (offset ds) node < size ds ->
  exists ds' root,
    find ds node = Some (ds', root) /\
    well_formed ds' /\ size ds' = size ds /\ offset ds' = offset ds /\
    rank ds' = rank ds /\
    root_of (parent ds) (slot (offset ds) node) root /\
    forall j r, root_of (parent ds') j r <-> root_of (parent ds) j r.
Proof.
  intros [Hrank Hforest] Hslot.
  destruct (Hforest _ Hslot) as (r & l & Hpath).
  pose proof (path_length _ _ _ _ Hpath) as Hlen.
  destruct (find_loop_total (S (size ds)) (parent ds) _ r l Hpath)
    as (parent' & E & Hl' & Hr' & Hkeep).
  { unfold size. lia. }
  unfold find. rewrite E. simpl.
  pose proof (roots_kept (parent ds) parent' Hl' Hforest Hkeep) as Hroots.
  eexists _, r. split; [done|].
  split; [split; simpl|].
  - congruence.
  - intros j Hj. rewrite Hl' in Hj. destruct (Hforest j Hj) as (r' & l' & Hp').
    destruct (Hkeep _ _ _ Hp') as [l'' Hl'']. eauto.
  - split; [done|]. split; [done|]. split; [done|].
    split; [by exists l | exact Hroots].
Qed.

(** Linking the root [b] under the root [a]: the slots below [b] get the
    root [a], the other slots keep their root. *)
Lemma link_paths (parent : list nat) (a b : nat) :
  parent !! a = Some a -> parent !! b = Some b -> a <> b ->
  forall j r l, path_to_root parent j r l ->
    exists l', path_to_root (<[b := a]> parent) j
                 (if decide (r = b) then a else r) l'.
Proof.
  intros Ha Hb Hab j r l H.
  assert (Hlt : b < length parent) by (by eapply lookup_lt_Some).
  induction H as [r Hr|j q r l Hj Hq H IH].
  - destruct (decide (r = b)) as [->|Hne].
    + exists [b; a]. econstructor; [by apply list_lookup_insert_eq|done|].
      constructor. by rewrite list_lookup_insert_ne.
    + exists [r]. constructor. by rewrite list_lookup_insert_ne.
  - destruct IH as (l' & Hl'). exists (j :: l').
    econstructor; [|done|done].
    rewrite list_lookup_insert_ne; [done|]. intros ->. congruence.
Qed.

Lemma link_roots (parent : list nat) (a b : nat) :
  forest parent ->
  parent !! a = Some a -> parent !! b = Some b -> a <> b ->
  forall j r', root_of (<[b := a]> parent) j r' <->
    exists r, root_of parent j r /\ r' = if decide (r = b) then a else r.
Proof.
  intros Hf Ha Hb Hab j r'. split.
  - intros H. pose proof (root_of_lt _ _ _ H) as Hj.
    rewrite length_insert in Hj.
    destruct (Hf j Hj) as (r & l & Hp). exists r. split; [by exists l|].
    destruct (link_paths parent a b Ha Hb Hab j r l Hp) as [l' Hl'].
    eapply root_of_unique; [exact H | by exists l'].
  - intros (r & [l Hp] & ->).
    destruct (link_paths parent a b Ha Hb Hab j r l Hp) as [l' Hl'].
    by exists l'.
Qed.

(** [set_union] links the root of one node under the root of the
    other. *)
Lemma set_union_roots (ds : DisjointSets) (node_a node_b : Z) :
  well_formed ds ->
  slot (offset ds) node_a < size ds -> slot (offset ds) node_b < size ds ->
  exists ds' ra rb keep drop,
    set_union ds node_a node_b = Some ds' /\
    well_formed ds' /\ size ds' = size ds /\ offset ds' = offset ds /\
    root_of (parent ds) (slot (offset ds) node_a) ra /\
    root_of (parent ds) (slot (offset ds) node_b) rb /\
    (keep = ra /\ drop = rb \/ keep = rb /\ drop = ra) /\
    forall j r', root_of (parent ds') j r' <->
      exists r, root_of (parent ds) j r /\
                r' = if decide (r = drop) then keep else r.
Proof.
  intros Hwf Ha Hb.
  destruct (find_roots ds node_a Hwf Ha)
    as (ds1 & a & E1 & Hwf1 & Hs1 & Ho1 & Hk1 & Hra & Hroots1).
  destruct (find_roots ds1 node_b Hwf1)
    as (ds2 & b & E2 & Hwf2 & Hs2 & Ho2 & Hk2 & Hrb & Hroots2).
  { rewrite Hs1, Ho1. done. }
  assert (Hroots : forall j r,
            root_of (parent ds2) j r <-> root_of (parent ds) j r).
  { intros j r. by rewrite Hroots2, Hroots1. }
  rewrite Ho1 in Hrb. apply Hroots1 in Hrb.
  assert (Hpa : parent ds2 !! a = Some a).
  { apply (root_of_root _ a a), Hroots, root_of_self.
    by eapply root_of_root. }
  assert (Hpb : parent ds2 !! b = Some b).
  { apply (root_of_root _ b b), Hroots, root_of_self.
    by eapply root_of_root. }
  unfold set_union. rewrite E1. simpl. rewrite E2. simpl.
  case_decide as Hab.
  { exists ds2, a, b, a, b. split; [done|].
    split; [done|]. split; [congruence|]. split; [congruence|].
    split; [done|]. split; [done|]. split; [by left|].
    intros j r'. rewrite Hroots. split.
    - intros H. exists r'. split; [done|]. by case_decide; subst.
    - intros (r & H & ->). by case_decide; subst. }
  destruct Hwf2 as [Hrank Hforest].
  assert (Hla : a < length (parent ds2)) by (by eapply lookup_lt_Some).
  assert (Hlb : b < length (parent ds2)) by (by eapply lookup_lt_Some).
  destruct (lookup_lt_is_Some_2 (rank ds2) a ltac:(lia)) as [ra Era].
  destruct (lookup_lt_is_Some_2 (rank ds2) b ltac:(lia)) as [rb Erb].
  rewrite Era, Erb. simpl.
  assert (Hlink : forall x y, parent ds2 !! x = Some x ->
            parent ds2 !! y = Some y -> x <> y ->
            forest (<[y := x]> (parent ds2)) /\
            forall j r', root_of (<[y := x]> (parent ds2)) j r' <->
              exists r, root_of (parent ds) j r /\
                        r' = if decide (r = y) then x else r).
  { intros x y Hx Hy Hxy. split.
    - intros j Hj. rewrite length_insert in Hj.
      destruct (Hforest j Hj) as (r & l & Hp).
      eapply path_link; eauto.
    - intros j r'. rewrite (link_roots _ x y Hforest Hx Hy Hxy).
      split; intros (r & H & ->); exists r; (split; [by apply Hroots|done]). }
  case_decide as Hlt.
  - rewrite decide_True by done. rewrite Erb, Era. simpl.
    destruct (Hlink b a Hpb Hpa ltac:(done)) as [Hf' Hr'].
    eexists _, a, b, b, a. split; [done|].
    split; [split|]; simpl.
    + case_decide; rewrite ?length_insert; done.
    + done.
    + unfold size in *. simpl. rewrite length_insert.
      split; [congruence|]. split; [congruence|].
      split; [done|]. split; [done|]. split; [by right|]. done.
  - rewrite decide_True by done. rewrite Era, Erb. simpl.
    destruct (Hlink a b Hpa Hpb Hab) as [Hf' Hr'].
    eexists _, a, b, a, b. split; [done|].
    split; [split|]; simpl.
    + case_decide; rewrite ?length_insert; done.
    + done.
    + unfold size in *. simpl. rewrite length_insert.
      split; [congruence|]. split; [congruence|].
      split; [done|]. split; [done|]. split; [by left|]. done.
Qed.

(** After [set_union] two slots are in the same set exactly when they
    were, or when one was with the first node and the other with the
    second. *)
Lemma set_union_same (ds : DisjointSets) (node_a node_b : Z) :
  well_formed ds ->
  slot (offset ds) node_a < size ds -> slot (offset ds) node_b < size ds ->
  exists ds',
    set_union ds node_a node_b = Some ds' /\
    well_formed ds' /\ size ds' = size ds /\ offset ds' = offset ds /\
    forall i j,
      same_set (parent ds') i j <->
        same_set (parent ds) i j \/
        same_set (parent ds) i (slot (offset ds) node_a) /\
          same_set (parent ds) (slot (offset ds) node_b) j \/
        same_set (parent ds) i (slot (offset ds) node_b) /\
          same_set (parent ds) (slot (offset ds) node_a) j.
Proof.
  intros Hwf Ha Hb.
  destruct (set_union_roots ds node_a node_b Hwf Ha Hb)
    as (ds' & ra & rb & keep & drop & E & Hwf' & Hs & Ho & Hra & Hrb &
        Hkd & Hroots).
  exists ds'. split; [done|]. split; [done|]. split; [done|].
  split; [done|]. intros i j. split.
  - intros (r' & Hi & Hj).
    apply Hroots in Hi as (ri & Hi & Ei).
    apply Hroots in Hj as (rj & Hj & Ej).
    assert (Hcases : ri = rj \/ ri = keep /\ rj = drop \/
                     ri = drop /\ rj = keep).
    { destruct (decide (ri = drop)); destruct (decide (rj = drop));
        subst; auto. }
    destruct Hcases as [->|[[-> ->]|[-> ->]]].
    + left. by exists rj.
    + destruct Hkd as [[-> ->]|[-> ->]].
      * right. left. split; [by exists ra | by exists rb].
      * right. right. split; [by exists rb | by exists ra].
    + destruct Hkd as [[-> ->]|[-> ->]].
      * right. right. split; [by exists rb | by exists ra].
      * right. left. split; [by exists ra | by exists rb].
  - assert (Hnew : forall x y,
              same_set (parent ds) x (slot (offset ds) node_a) ->
              same_set (parent ds) (slot (offset ds) node_b) y ->
              same_set (parent ds') x y).
    { intros x y (r1 & Hx & Hr1) (r2 & Hr2 & Hy).
      rewrite (root_of_unique _ _ _ _ Hr1 Hra) in Hx.
      rewrite (root_of_unique _ _ _ _ Hr2 Hrb) in Hy.
      exists keep. split; apply Hroots.
      - exists ra. split; [done|].
        destruct Hkd as [[-> ->]|[-> ->]]; by case_decide.
      - exists rb. split; [done|].
        destruct Hkd as [[-> ->]|[-> ->]]; by case_decide. }
    intros [(r & Hi & Hj)|[[Hi Hj]|[Hi Hj]]].
    + exists (if decide (r = drop) then keep else r).
      split; apply Hroots; by exists r.
    + by apply Hnew.
    + apply same_set_sym, Hnew; by apply same_set_sym.
Qed.

Lemma make_sets_well_formed (n : nat) (offset : Z) :
  well_formed (make_sets n offset).
Proof.
  split; simpl.
  - by rewrite length_replicate, length_seq.
  - intros i Hi. rewrite length_seq in Hi. exists i, [i]. constructor.
    by apply lookup_seq_lt.
Qed.

(** In a new structure every slot is its own root. *)
Lemma make_sets_roots (n : nat) (offset : Z) (i r : nat) :
  root_of (parent (make_sets n offset)) i r <-> i < n /\ r = i.
Proof.
  simpl. split.
  - intros H. pose proof (root_of_lt _ _ _ H) as Hi.
    rewrite length_seq in Hi. split; [done|].
    eapply root_of_unique; [exact H|].
    apply root_of_self. by apply lookup_seq_lt.
  - intros [Hi ->]. apply root_of_self. by apply lookup_seq_lt.
Qed.

End UnionFind.

(** ** The components are the connected parts of the graph *)

Module Connectivity.
Import Word Graph Components.

(** [y] is a neighbour of the node [x]: an edge leads from a handle of [x]
    to a handle of [y]. *)
Definition linked (graph : HandleGraph) (x y : Z) : Prop :=
  has_node graph x = true /\
  exists (h next : handle_t) (go_left : bool),
    get_id h = x /\ next ∈ follow_edges graph h go_left /\ get_id next = y.

(** Connected by edges, followed in any direction. *)
Definition connected (graph : HandleGraph) : relation Z :=
  rtsc (linked graph).

(** The contract of [follow_edges] for the two orientations of a node: the
    handles on one side of a handle are, flipped, the handles on the other
    side of the flipped handle. *)
Definition mirrored (graph : HandleGraph) : Prop :=
  forall (h next : handle_t) (go_left : bool),
    next ∈ follow_edges graph h go_left ->
    flip next ∈ follow_edges graph (flip h) (negb go_left).

(** [for_each_handle] visits every node. *)
Definition ids_complete (graph : HandleGraph) : Prop :=
  forall id, has_node graph id = true -> id ∈ node_ids graph.

End Connectivity.

Module ConnectivityFacts.
Import Word Graph Components DisjointSetsFacts UnionFind ComponentsFacts.
Import Connectivity.

Section Search.

Variable graph : HandleGraph.
Hypothesis graph_good : graph_ok graph.
Hypothesis graph_mirrored : mirrored graph.

Local Abbreviation slot_of x := (slot (min_node_id graph) x).

(** Slots of the same node, or of connected nodes. *)
Definition related (i j : nat) : Prop :=
  i = j \/
  exists x y, present graph x /\ present graph y /\
              slot_of x = i /\ slot_of y = j /\ connected graph x y.

Lemma related_sym (i j : nat) : related i j -> related j i.
Proof.
  intros [->|(x & y & Hx & Hy & Hi & Hj & Hc)]; [by left|].
  right. exists y, x. repeat split; try done; by symmetry.
Qed.

Lemma related_trans (i j k : nat) : related i j -> related j k -> related i k.
Proof.
  intros [->|(x & y & Hx & Hy & Hi & Hj & Hc)]; [done|].
  intros [<-|(y' & z & Hy' & Hz & Hj' & Hk & Hc')].
  - right. by exists x, y.
  - assert (y' = y) as ->.
    { apply (slot_inj graph graph_good); [done..|congruence]. }
    right. exists x, z. repeat split; try done.
    by transitivity y.
Qed.

Lemma related_linked (x y : Z) :
  present graph x -> linked graph x y -> related (slot_of x) (slot_of y).
Proof.
  intros Hx Hl. right. exists x, y. repeat split; try done.
  - destruct Hl as (_ & h & next & go_left & <- & Hn & <-).
    by eapply (ok_closed graph graph_good h go_left).
  - by apply rtsc_lr.
Qed.

(** What the search keeps: slots of one set belong to connected nodes, and
    a node that was found is in one set with its neighbours. *)
Record search_inv (s : search) : Prop := {
  conn_sound : forall i j,
    same_set (parent (components s)) i j -> related i j;
  conn_done : forall x, present graph x ->
    found s !! slot_of x = Some true ->
    forall y, linked graph x y ->
      same_set (parent (components s)) (slot_of x) (slot_of y)
}.

(** Visiting the neighbours of a node unites each with the node, and
    nothing else. *)
Lemma handle_edges_same (id : Z) (nexts : list handle_t) :
  present graph id ->
  forall (ds : DisjointSets) (handles : list handle_t),
    sets_ok graph ds ->
    (forall next, next ∈ nexts -> present graph (get_id next)) ->
    exists ds',
      foldl (handle_edge id) (Some (ds, handles)) nexts =
        Some (ds', reverse nexts ++ handles) /\
      sets_ok graph ds' /\
      (forall i j, same_set (parent ds) i j -> same_set (parent ds') i j) /\
      (forall next, next ∈ nexts ->
         same_set (parent ds') (slot_of id) (slot_of (get_id next))) /\
      (forall R : relation nat,
         (forall i j, R i j -> R j i) ->
         (forall i j k, R i j -> R j k -> R i k) ->
         (forall i j, same_set (parent ds) i j -> R i j) ->
         (forall next, next ∈ nexts ->
            R (slot_of id) (slot_of (get_id next))) ->
         forall i j, same_set (parent ds') i j -> R i j).
Proof.
  intros Hid. induction nexts as [|next nexts IH];
    intros ds handles (Hwf & Hsize & Hoff) Hp.
  - exists ds. split; [done|]. split; [done|]. split; [done|].
    split; [by intros ? ?%elem_of_nil|]. intros R _ _ H _. exact H.
  - simpl.
    assert (Hnext : present graph (get_id next)) by (apply Hp; by left).
    pose proof (slot_present graph graph_good id Hid) as Hs_id.
    pose proof (slot_present graph graph_good _ Hnext) as Hs_next.
    destruct (set_union_same ds id (get_id next) Hwf)
      as (ds1 & E & Hwf1 & Hs1 & Ho1 & Hsame).
    { by rewrite Hsize, Hoff. }
    { by rewrite Hsize, Hoff. }
    rewrite E. simpl. rewrite Hoff in Hsame.
    destruct (IH ds1 (next :: handles))
      as (ds' & E' & Hok' & Hmono & Hnew & Hsound).
    { split; [done|]. split; congruence. }
    { intros x Hx. apply Hp. by right. }
    exists ds'. split; [by rewrite E', reverse_cons, <- app_assoc|].
    split; [done|]. split; [|split].
    + intros i j H. apply Hmono, Hsame. by left.
    + intros x [->|Hx]%elem_of_cons; [|by apply Hnew].
      apply Hmono, Hsame. right. left.
      destruct Hwf as [_ Hf]. unfold size in Hsize.
      split; apply same_set_refl; try done; by rewrite Hsize.
    + intros R Rs Rt H0 H1 i j H.
      apply (Hsound R Rs Rt); [|intros; apply H1; by right|done].
      intros i' j' [H'|[[Hi Hj]|[Hi Hj]]]%Hsame.
      * by apply H0.
      * eapply Rt; [apply H0, Hi|].
        eapply Rt; [apply H1; by left|]. by apply H0.
      * eapply Rt; [apply H0, Hi|].
        eapply Rt; [apply Rs, H1; by left|]. by apply H0.
Qed.

(** The edges of the flipped handle lead to the same nodes. *)
Lemma neighbour_of_handle (h : handle_t) (y : Z) :
  linked graph (get_id h) y ->
  exists next go_left,
    next ∈ follow_edges graph h go_left /\ get_id next = y.
Proof.
  intros (_ & h' & next & go_left & Hid & Hn & Hy).
  destruct (decide (get_is_reverse h' = get_is_reverse h)) as [Hr|Hr].
  - assert (h' = h) as -> by (destruct h, h'; simpl in *; congruence).
    by exists next, go_left.
  - assert (flip h' = h) as <-.
    { destruct h as [a b], h' as [a' b']. unfold flip. simpl in *.
      f_equal; [done|]. by destruct b, b'. }
    exists (flip next), (negb go_left). split; [|done].
    by apply graph_mirrored.
Qed.

(** The inner loop returns with the invariant, and with every handle of
    the stack found. *)
Lemma search_loop_connects (m : nat) :
  forall (handles : list handle_t) (s : search),
    unfound (found s) = m -> search_ok graph s -> search_inv s ->
    (forall h, h ∈ handles -> present graph (get_id h)) ->
    exists (n0 : nat) (s' : search),
      search_ok graph s' /\ search_inv s' /\
      (forall i, found s !! i = Some true -> found s' !! i = Some true) /\
      (forall h, h ∈ handles ->
         found s' !! slot_of (get_id h) = Some true) /\
      forall fuel, (n0 <= fuel)%nat ->
        search_loop graph fuel s handles = Some s'.
Proof.
  induction m as [m IHm] using lt_wf_ind.
  induction handles as [|h rest IHrest]; intros s Hm Hok Hinv Hp.
  - exists 1%nat, s. split; [done|]. split; [done|]. split; [done|].
    split; [by intros ? ?%elem_of_nil|].
    intros [|fuel] Hf; [lia | done].
  - destruct Hok as (Hlen & Hsets).
    assert (Hh : present graph (get_id h)) by (apply Hp; by left).
    pose proof (slot_present graph graph_good _ Hh) as Hslot.
    destruct (lookup_lt_is_Some_2 (found s) (slot_of (get_id h))
                ltac:(lia)) as [b Hb].
    destruct b.
    + destruct (IHrest s Hm) as (n1 & s' & Hok' & Hinv' & Hmono & Hall & Hrun).
      { done. } { done. } { intros x Hx. apply Hp. by right. }
      exists (S n1), s'. split; [done|]. split; [done|]. split; [done|].
      split.
      * intros x [->|Hx]%elem_of_cons; [by apply Hmono | by apply Hall].
      * intros [|fuel] Hf; [lia|]. simpl. rewrite Hb. simpl.
        apply Hrun. lia.
    + destruct (handle_edges_same (get_id h) (follow_edges graph h false)
                  Hh (components s) rest Hsets)
        as (ds1 & E1 & Hok1 & Hmono1 & Hnew1 & Hsound1).
      { intros x Hx. by eapply (ok_closed graph graph_good h false). }
      destruct (handle_edges_same (get_id h) (follow_edges graph h true)
                  Hh ds1 (reverse (follow_edges graph h false) ++ rest) Hok1)
        as (ds2 & E2 & Hok2 & Hmono2 & Hnew2 & Hsound2).
      { intros x Hx. by eapply (ok_closed graph graph_good h true). }
      set (s1 := {| found := <[slot_of (get_id h) := true]> (found s);
                    components := ds2 |}).
      assert (Hmono_s1 : forall i, found s !! i = Some true ->
                found s1 !! i = Some true).
      { intros i Hi. subst s1. simpl.
        rewrite list_lookup_insert_ne; [done|]. intros <-. congruence. }
      assert (Hinv1 : search_inv s1).
      { destruct Hinv as [I1 I2]. split; subst s1; simpl.
        - apply (Hsound2 related related_sym related_trans).
          + apply (Hsound1 related related_sym related_trans); [done|].
            intros next Hn. apply related_linked; [done|]. split; [done|].
            by exists h, next, false.
          + intros next Hn. apply related_linked; [done|]. split; [done|].
            by exists h, next, true.
        - intros x Hx Hfound y Hl.
          destruct (decide (slot_of x = slot_of (get_id h))) as [Heq|Hne].
          + assert (x = get_id h) as ->.
            { by apply (slot_inj graph graph_good). }
            destruct (neighbour_of_handle h y Hl)
              as (next & go_left & Hn & <-).
            destruct go_left; [by apply Hnew2|]. by apply Hmono2, Hnew1.
          + rewrite list_lookup_insert_ne in Hfound by done.
            by apply Hmono2, Hmono1, I2. }
      destruct (IHm (unfound (found s1)))
        with (handles := reverse (follow_edges graph h true) ++
                         reverse (follow_edges graph h false) ++ rest)
             (s := s1) as (n1 & s' & Hok' & Hinv' & Hmono & Hall & Hrun).
      { subst s1 m. simpl. by apply unfound_insert. }
      { done. }
      { split; [|done]. subst s1. simpl. by rewrite length_insert. }
      { done. }
      { intros x. rewrite !elem_of_app, !elem_of_reverse.
        intros [Hx|[Hx|Hx]].
        - by eapply (ok_closed graph graph_good h true).
        - by eapply (ok_closed graph graph_good h false).
        - apply Hp. by right. }
      exists (S n1), s'. split; [done|]. split; [done|].
      split; [|split].
      * intros i Hi. by apply Hmono, Hmono_s1.
      * intros x [->|Hx]%elem_of_cons.
        -- apply Hmono. subst s1. simpl.
           apply list_lookup_insert_eq. lia.
        -- apply Hall. rewrite !elem_of_app. by right; right.
      * intros [|fuel] Hf; [lia|]. simpl. rewrite Hb. simpl.
        rewrite E1, E2. simpl. apply Hrun. lia.
Qed.

(** The outer loop returns with the invariant, and with every visited
    node found. *)
Lemma visit_connects (ids : list Z) :
  forall s : search,
    search_ok graph s -> search_inv s ->
    (forall id, id ∈ ids -> present graph id) ->
    exists (n0 : nat) (s' : search),
      search_ok graph s' /\ search_inv s' /\
      (forall i, found s !! i = Some true -> found s' !! i = Some true) /\
      (forall id, id ∈ ids -> found s' !! slot_of id = Some true) /\
      forall fuel, (n0 <= fuel)%nat ->
        foldl (visit graph fuel) (Some s) ids = Some s'.
Proof.
  induction ids as [|id ids IH]; intros s Hok Hinv Hp.
  - exists 0%nat, s. split; [done|]. split; [done|]. split; [done|].
    split; [by intros ? ?%elem_of_nil | done].
  - assert (Hid : present graph id) by (apply Hp; by left).
    pose proof (slot_present graph graph_good _ Hid) as Hslot.
    pose proof Hok as (Hlen & Hsets).
    destruct (lookup_lt_is_Some_2 (found s) (slot_of id) ltac:(lia))
      as [b Hb].
    destruct b.
    + destruct (IH s Hok Hinv) as (n1 & s' & Hok' & Hinv' & Hmono & Hall & Hrun).
      { intros x Hx. apply Hp. by right. }
      exists n1, s'. split; [done|]. split; [done|]. split; [done|].
      split.
      * intros x [->|Hx]%elem_of_cons; [by apply Hmono | by apply Hall].
      * intros fuel Hf. simpl. rewrite Hb. simpl. by apply Hrun.
    + destruct (search_loop_connects (unfound (found s))
                  [get_handle id false] s)
        as (n1 & s1 & Hok1 & Hinv1 & Hmono1 & Hall1 & Hrun1).
      { done. } { done. } { done. }
      { intros h ->%list_elem_of_singleton. done. }
      destruct (IH s1 Hok1 Hinv1)
        as (n2 & s' & Hok' & Hinv' & Hmono & Hall & Hrun2).
      { intros x Hx. apply Hp. by right. }
      exists (max n1 n2), s'. split; [done|]. split; [done|].
      split; [|split].
      * intros i Hi. by apply Hmono, Hmono1.
      * intros x [->|Hx]%elem_of_cons; [|by apply Hall].
        apply Hmono, (Hall1 (get_handle id false)). by left.
      * intros fuel Hf. simpl. rewrite Hb. simpl.
        rewrite Hrun1 by lia. apply Hrun2. lia.
Qed.

End Search.

Section Sets.

Variable graph : HandleGraph.
Hypothesis graph_good : graph_ok graph.

(** The parents when [sets] is called. *)
Variable parent0 : list nat.

Local Abbreviation slot_of x := (slot (min_node_id graph) x).

(** What the loop of [sets] keeps: the roots, and one list for each root
    that was met. *)
Record groups (st : sets_state) : Prop := {
  grp_roots : forall j r,
    root_of (parent (sets_ds st)) j r <-> root_of parent0 j r;
  grp_member : forall idx c x,
    sets_result st !! idx = Some c -> x ∈ c ->
    exists r, root_of parent0 (slot_of x) r /\
              root_to_set st !! r = Some idx;
  grp_inj : forall r r' idx,
    root_to_set st !! r = Some idx -> root_to_set st !! r' = Some idx ->
    r = r'
}.

Lemma sets_step_groups (processed : list Z) (st st' : sets_state)
    (node : Z) :
  sets_inv graph processed st -> groups st ->
  sets_step (has_node graph) st node = Some st' -> groups st'.
Proof.
  intros [(Hwf & Hsize & Hoff) I2 I3 I4 I5] [G1 G2 G3]. unfold sets_step.
  destruct (has_node graph node) eqn:Hnode; simpl.
  2:{ intros [= <-]. done. }
  destruct (find_roots (sets_ds st) node Hwf)
    as (ds' & root & E & Hwf' & Hs' & Ho' & _ & Hroot & Hroots).
  { rewrite Hsize, Hoff. by apply slot_present. }
  rewrite E. simpl. rewrite Hoff in Hroot. apply G1 in Hroot.
  destruct (root_to_set st !! root) as [idx|] eqn:Hr.
  - rewrite Hr. simpl. pose proof (I2 _ _ Hr) as Hidx.
    destruct (decide (idx < length (sets_result st))%nat); [|done].
    intros [= <-]. split; simpl.
    + intros j r. by rewrite Hroots.
    + intros k c x Hc Hx. destruct (decide (k = idx)) as [->|Hk].
      * rewrite list_lookup_alter_eq in Hc.
        destruct (sets_result st !! idx) as [c0|] eqn:Hc0; [|done].
        simpl in Hc. injection Hc as <-.
        apply elem_of_app in Hx as [Hx|Hx]; [by eapply G2|].
        apply list_elem_of_singleton in Hx as ->. by exists root.
      * rewrite list_lookup_alter_ne in Hc by done. by eapply G2.
    + done.
  - rewrite lookup_insert_eq. simpl.
    destruct (decide (length (sets_result st) <
                      length (sets_result st ++ [[]]))%nat) as [_|Hn].
    2:{ rewrite length_app in Hn. simpl in Hn. lia. }
    assert (Hres : alter (fun c => c ++ [node]) (length (sets_result st))
                     (sets_result st ++ [[]]) = sets_result st ++ [[node]]).
    { replace (length (sets_result st))
        with (length (sets_result st) + 0)%nat at 1 by lia.
      by rewrite alter_app_r. }
    rewrite Hres. intros [= <-]. split; simpl.
    + intros j r. by rewrite Hroots.
    + intros k c x Hc Hx.
      destruct (decide (k < length (sets_result st))%nat) as [Hk|Hk].
      * rewrite lookup_app_l in Hc by done.
        destruct (G2 k c x Hc Hx) as (r & Hr1 & Hr2). exists r.
        split; [done|]. rewrite lookup_insert_ne; [done|].
        intros <-. congruence.
      * rewrite lookup_app_r in Hc by lia.
        destruct (k - length (sets_result st))%nat as [|k'] eqn:Ek;
          [|done].
        simpl in Hc. injection Hc as <-.
        apply list_elem_of_singleton in Hx as ->. exists root.
        split; [done|]. rewrite lookup_insert_eq. f_equal. lia.
    + intros r r' idx Hi Hi'.
      destruct (decide (r = root)) as [->|Hne];
        destruct (decide (r' = root)) as [->|Hne']; try done.
      * rewrite lookup_insert_eq in Hi. injection Hi as <-.
        rewrite lookup_insert_ne in Hi' by done.
        pose proof (I2 _ _ Hi'). lia.
      * rewrite lookup_insert_eq in Hi'. injection Hi' as <-.
        rewrite lookup_insert_ne in Hi by done.
        pose proof (I2 _ _ Hi). lia.
      * rewrite lookup_insert_ne in Hi, Hi' by done. by eapply G3.
Qed.

Lemma sets_loop_groups (rest : list Z) :
  forall (processed : list Z) (st st' : sets_state),
    StronglySorted Z.lt (processed ++ rest) ->
    sets_inv graph processed st -> groups st ->
    sets_loop (has_node graph) st rest = Some st' -> groups st'.
Proof.
  induction rest as [|node rest IH]; intros processed st st' Hsorted I G;
    simpl.
  - by intros [= <-].
  - destruct (sets_step_inv graph graph_good processed st node I)
      as (st1 & E & I1).
    { intros x Hx. apply (StronglySorted_app_1_elem_of _ _ _ _ _ Hsorted Hx).
      by left. }
    rewrite E. simpl.
    intros Hloop.
    apply (IH (processed ++ [node]) st1 st'); [by rewrite <- app_assoc | done | | done].
    exact (sets_step_groups processed st st1 node I G E).
Qed.

End Sets.

(** The components hold the nodes, each once, none of them is empty, and
    two nodes are in one component exactly when edges connect them. *)
Lemma components_connected (graph : HandleGraph) :
  graph_ok graph -> ids_fit graph -> mirrored graph -> ids_complete graph ->
  exists (n0 : nat) (comps : list (list Z)),
    (forall fuel, (n0 <= fuel)%nat ->
       weakly_connected_components graph fuel = Some comps) /\
    (forall id, id ∈ concat comps <-> has_node graph id = true) /\
    NoDup (concat comps) /\
    Forall (fun c => c <> []) comps /\
    Z.of_nat (length (concat comps)) <=
      max_node_id graph + 1 - min_node_id graph /\
    forall x y, has_node graph x = true -> has_node graph y = true ->
      ((exists c, c ∈ comps /\ x ∈ c /\ y ∈ c) <-> connected graph x y).
Proof.
  intros Hok Hfit Hmir Hids. pose proof (ok_size graph Hok) as Hsize.
  pose proof (sets_bound graph (proj1 Hsize) Hfit) as Hbound.
  set (n := Z.to_nat (max_node_id graph + 1 - min_node_id graph)) in *.
  set (s0 := {| found := replicate n false;
                components := make_sets n (min_node_id graph) |}).
  destruct (visit_connects graph Hok Hmir (node_ids graph) s0)
    as (n0 & s1 & (Hlen1 & Hsets1) & [J1 J2] & _ & Hfound & Hrun).
  { split; [by apply length_replicate | apply make_sets_ok]. }
  { split; subst s0; simpl.
    - intros i j (r & Hi & Hj).
      apply (make_sets_roots n (min_node_id graph)) in Hi as [_ ->].
      apply (make_sets_roots n (min_node_id graph)) in Hj as [_ ->].
      by left.
    - intros x _ Hx. apply lookup_replicate in Hx as [? _]. done. }
  { intros id Hid. by apply (ok_ids graph Hok). }
  destruct Hsets1 as (Hwf1 & Hsize1 & Hoff1).
  set (st0 := {| sets_ds := components s1; sets_result := [];
                 root_to_set := ∅ |}).
  assert (I0 : sets_inv graph [] st0).
  { split; simpl;
      first [ done | constructor
            | intros r i Hr; by rewrite lookup_empty in Hr ]. }
  destruct (sets_loop_total graph Hok
              (seqZ (min_node_id graph) (Z.of_nat n)) [] st0)
    as (st & Hloop & [_ _ I3 I4 _]); [apply seqZ_sorted | done |].
  simpl in I3.
  assert (G : groups graph (parent (components s1)) st).
  { apply (sets_loop_groups graph Hok (parent (components s1))
             (seqZ (min_node_id graph) (Z.of_nat n)) [] st0);
      [apply seqZ_sorted | done | | done].
    split; simpl; [done | |].
    - intros idx c x Hc. by rewrite lookup_nil in Hc.
    - intros r r' idx Hr. by rewrite lookup_empty in Hr. }
  destruct G as [_ G2 G3].
  exists n0, (sets_result st). split.
  { intros fuel Hfuel. unfold weakly_connected_components.
    rewrite wrap64_small by lia. fold n. fold s0.
    rewrite (Hrun fuel Hfuel). simpl. unfold sets.
    rewrite Hoff1. fold (size (components s1)). rewrite Hsize1.
    fold n. fold st0. rewrite Hbound, Hloop. done. }
  split.
  { intros id. rewrite I3, list_elem_of_filter, elem_of_seqZ.
    split; [by intros [? _]|]. intros Hid. split; [done|].
    pose proof (ok_range graph Hok id Hid). subst n. lia. }
  split; [rewrite I3; apply NoDup_filter, NoDup_seqZ|].
  split; [eapply Forall_impl; [exact I4|]; by intros c [? _]|].
  split.
  { rewrite I3.
    pose proof (length_filter (fun x => has_node graph x = true)
                  (seqZ (min_node_id graph) (Z.of_nat n))) as Hle.
    rewrite length_seqZ in Hle. subst n. lia. }
  assert (Hin : forall x, has_node graph x = true ->
            exists idx c r,
              sets_result st !! idx = Some c /\ x ∈ c /\
              root_of (parent (components s1))
                (slot (min_node_id graph) x) r /\
              root_to_set st !! r = Some idx).
  { intros x Hx.
    assert (Hc : x ∈ concat (sets_result st)).
    { rewrite I3, list_elem_of_filter, elem_of_seqZ. split; [done|].
      pose proof (ok_range graph Hok x Hx). subst n. lia. }
    apply list_elem_of_In, in_concat in Hc as (c & Hc & Hxc).
    apply list_elem_of_In in Hc, Hxc.
    apply list_elem_of_lookup in Hc as [idx Hidx].
    destruct (G2 idx c x Hidx Hxc) as (r & Hr1 & Hr2).
    by exists idx, c, r. }
  assert (Hsame : forall x y, has_node graph x = true ->
            connected graph x y ->
            has_node graph y = true /\
            same_set (parent (components s1))
              (slot (min_node_id graph) x) (slot (min_node_id graph) y)).
  { intros x y Hx Hc. induction Hc as [x|x z y Hxz Hzy IH].
    - split; [done|]. destruct Hwf1 as [_ Hf]. apply same_set_refl; [done|].
      unfold size in Hsize1. rewrite Hsize1.
      by apply (slot_present graph Hok).
    - assert (Hz : has_node graph z = true /\
                   same_set (parent (components s1))
                     (slot (min_node_id graph) x)
                     (slot (min_node_id graph) z)).
      { destruct Hxz as [Hl|Hl].
        - split.
          + destruct Hl as (_ & h & next & go_left & <- & Hn & <-).
            by eapply (ok_closed graph Hok h go_left).
          + apply J2; [done | | done]. apply Hfound. by apply Hids.
        - pose proof Hl as [Hz _]. split; [done|].
          apply same_set_sym, J2; [done | | done].
          apply Hfound. by apply Hids. }
      destruct Hz as [Hz Hxz']. destruct (IH Hz) as [Hy Hzy'].
      split; [done|]. by eapply same_set_trans. }
  intros x y Hx Hy. split.
  - intros (c & Hc & Hxc & Hyc).
    apply list_elem_of_lookup in Hc as [idx Hidx].
    destruct (G2 idx c x Hidx Hxc) as (rx & Hrx & Hix).
    destruct (G2 idx c y Hidx Hyc) as (ry & Hry & Hiy).
    assert (rx = ry) as -> by (by eapply G3).
    destruct (J1 (slot (min_node_id graph) x) (slot (min_node_id graph) y))
      as [Heq|(x' & y' & Hx' & Hy' & Ex & Ey & Hc)].
    + by exists ry.
    + apply (slot_inj graph Hok) in Heq as ->; done.
    + apply (slot_inj graph Hok) in Ex as ->; [|done..].
      apply (slot_inj graph Hok) in Ey as ->; done.
  - intros Hc. destruct (Hsame x y Hx Hc) as [_ (r & Hrx & Hry)].
    destruct (Hin x Hx) as (i & ci & rx & Hci & Hxc & Hrx' & Hix).
    destruct (Hin y Hy) as (j & cj & ry & Hcj & Hyc & Hry' & Hjy).
    pose proof (root_of_unique _ _ _ _ Hrx Hrx'). subst rx.
    pose proof (root_of_unique _ _ _ _ Hry Hry'). subst ry.
    assert (i = j) as -> by congruence.
    assert (ci = cj) as -> by congruence.
    exists cj. split; [by eapply list_elem_of_lookup_2 | done].
Qed.

(** A graph given by its edges keeps the contract of the two
    orientations. *)
Lemma of_edges_mirrored (ids : list Z) (edges : list (handle_t * handle_t)) :
  mirrored (of_edges ids edges).
Proof.
  intros h next go_left. simpl.
  set (all := edges ++ map (fun e => (flip e.2, flip e.1)) edges).
  assert (Hflip : forall a, flip (flip a) = a).
  { intros [a b]. unfold flip. simpl. by rewrite negb_involutive. }
  assert (Hall : forall a b, (a, b) ∈ all -> (flip b, flip a) ∈ all).
  { intros a b. subst all. rewrite !elem_of_app.
    intros [H|H]; [right | left].
    - apply list_elem_of_fmap. by exists (a, b).
    - apply list_elem_of_fmap in H as ([a' b'] & [= -> ->] & H).
      simpl. by rewrite !Hflip. }
  destruct go_left; simpl; intros H;
    apply list_elem_of_fmap in H as ([a b] & Hn & H);
    apply list_elem_of_filter in H as [E H]; simpl in Hn, E;
    apply list_elem_of_fmap.
  - exists (flip b, flip a). split; [by rewrite Hn|].
    apply list_elem_of_filter. split; [simpl; by rewrite E | by apply Hall].
  - exists (flip b, flip a). split; [by rewrite Hn|].
    apply list_elem_of_filter. split; [simpl; by rewrite E | by apply Hall].
Qed.

(** X24: on a graph that keeps the contract ([graph_ok], the two
    orientations of a node mirror each other, [for_each_handle] visits
    every node) and whose ids fit [nid_t] together with
    [max_node_id + 1], [weakly_connected_components] returns, with enough
    fuel for its loops, components such that two nodes are in the same
    component exactly when a chain of edges, followed in any direction,
    connects them. *)
Theorem weakly_connected_components_connected (graph : HandleGraph) :
  graph_ok graph -> ids_fit graph -> mirrored graph ->
  ids_complete graph ->
  exists (n0 : nat) (comps : list (list Z)),
    (forall fuel, (n0 <= fuel)%nat ->
       weakly_connected_components graph fuel = Some comps) /\
    forall x y, has_node graph x = true -> has_node graph y = true ->
      ((exists c, c ∈ comps /\ x ∈ c /\ y ∈ c) <-> connected graph x y).
Proof.
  intros Hok Hfit Hmir Hids.
  destruct (components_connected graph Hok Hfit Hmir Hids)
    as (n0 & comps & Hrun & _ & _ & _ & _ & Hconn).
  by exists n0, comps.
Qed.

Lemma three_parts_contract :
  graph_ok ComponentsExamples.three_parts /\
  ids_fit ComponentsExamples.three_parts /\
  mirrored ComponentsExamples.three_parts /\
  ids_complete ComponentsExamples.three_parts.
Proof.
  split; [|split; [|split]].
  - apply of_edges_ok; [|split; [discriminate | reflexivity]].
    repeat constructor; simpl; set_solver.
  - split; [discriminate | reflexivity].
  - apply of_edges_mirrored.
  - intros id Hid. by apply bool_decide_eq_true in Hid.
Qed.

Lemma weakly_connected_components_connected_witness :
  exists (n0 : nat) (comps : list (list Z)),
    (forall fuel, (n0 <= fuel)%nat ->
       weakly_connected_components ComponentsExamples.three_parts fuel
         = Some comps) /\
    ((exists c, c ∈ comps /\ 3 ∈ c /\ 4 ∈ c) <->
     connected ComponentsExamples.three_parts 3 4).
Proof.
  destruct three_parts_contract as (Hok & Hfit & Hmir & Hids).
  destruct (weakly_connected_components_connected
              ComponentsExamples.three_parts Hok Hfit Hmir Hids)
    as (n0 & comps & Hrun & Hconn).
  exists n0, comps. split; [exact Hrun|]. by apply Hconn.
Defined.

End ConnectivityFacts.

(** ** What [find] and [set_union] do to the sets *)

Module UnionFindFacts.
Import Word Graph Components DisjointSetsFacts UnionFind.

Local Open Scope nat_scope.

(** X22: [find] on a well-formed structure returns the root of the slot
    of the node, and path splitting changes the root of no slot; so two
    calls return the same root exactly when the two nodes are in the same
    set. *)
Theorem find_returns_root (ds : DisjointSets) (node node' : Z) :
  well_formed ds ->
  slot (offset ds) node < size ds -> slot (offset ds) node' < size ds ->
  exists ds' root ds'' root',
    find ds node = Some (ds', root) /\
    find ds' node' = Some (ds'', root') /\
    well_formed ds'' /\
    root_of (parent ds) (slot (offset ds) node) root /\
    (forall j r, root_of (parent ds'') j r <-> root_of (parent ds) j r) /\
    (root = root' <->
       same_set (parent ds) (slot (offset ds) node)
         (slot (offset ds) node')).
Proof.
  intros Hwf Hn Hn'.
  destruct (find_roots ds node Hwf Hn)
    as (ds1 & r1 & E1 & Hwf1 & Hs1 & Ho1 & _ & Hr1 & Hroots1).
  destruct (find_roots ds1 node' Hwf1)
    as (ds2 & r2 & E2 & Hwf2 & Hs2 & Ho2 & _ & Hr2 & Hroots2).
  { by rewrite Hs1, Ho1. }
  rewrite Ho1 in Hr2. apply Hroots1 in Hr2.
  exists ds1, r1, ds2, r2. split; [done|]. split; [done|].
  split; [done|]. split; [done|]. split.
  - intros j r. by rewrite Hroots2, Hroots1.
  - symmetry. by apply same_set_roots.
Qed.

Lemma find_returns_root_witness :
  exists ds' root ds'' root',
    find (make_sets 3 10) 11 = Some (ds', root) /\
    find ds' 12 = Some (ds'', root') /\
    (root = root' <-> same_set (parent (make_sets 3 10)) 1 2).
Proof.
  destruct (find_returns_root (make_sets 3 10) 11 12)
    as (ds' & root & ds'' & root' & E1 & E2 & _ & _ & _ & H).
  - apply make_sets_well_formed.
  - vm_compute. lia.
  - vm_compute. lia.
  - exists ds', root, ds'', root'. split; [exact E1|]. split; [exact E2|].
    exact H.
Defined.

(** X23: [set_union] on a well-formed structure returns a well-formed
    structure of the same size in which the two nodes are in the same
    set, and two slots are in the same set exactly when they were before,
    or when one was with the first node and the other with the second. *)
Theorem set_union_merges (ds : DisjointSets) (node_a node_b : Z) :
  well_formed ds ->
  slot (offset ds) node_a < size ds -> slot (offset ds) node_b < size ds ->
  exists ds',
    set_union ds node_a node_b = Some ds' /\
    well_formed ds' /\ size ds' = size ds /\ offset ds' = offset ds /\
    same_set (parent ds') (slot (offset ds) node_a)
      (slot (offset ds) node_b) /\
    forall i j,
      same_set (parent ds') i j <->
        same_set (parent ds) i j \/
        same_set (parent ds) i (slot (offset ds) node_a) /\
          same_set (parent ds) (slot (offset ds) node_b) j \/
        same_set (parent ds) i (slot (offset ds) node_b) /\
          same_set (parent ds) (slot (offset ds) node_a) j.
Proof.
  intros Hwf Ha Hb.
  destruct (set_union_same ds node_a node_b Hwf Ha Hb)
    as (ds' & E & Hwf' & Hs & Ho & Hsame).
  exists ds'. split; [done|]. split; [done|]. split; [done|].
  split; [done|]. split; [|done].
  apply Hsame. right. left. destruct Hwf as [_ Hf].
  split; by apply same_set_refl.
Qed.

Lemma set_union_merges_witness :
  exists ds',
    set_union (make_sets 3 10) 11 12 = Some ds' /\
    same_set (parent ds') 1 2.
Proof.
  destruct (set_union_merges (make_sets 3 10) 11 12)
    as (ds' & E & _ & _ & _ & H & _).
  - apply make_sets_well_formed.
  - vm_compute. lia.
  - vm_compute. lia.
  - exists ds'. split; [exact E | exact H].
Defined.

End UnionFindFacts.

(** ** Connected nodes share a job ([gbwt_construction_jobs]) *)

Module ComponentJobsFacts.
Import Word Graph Components ComponentsFacts Connectivity ConnectivityFacts.

Lemma total_nodes_concat (comps : list (list Z)) :
  Jobs.total_nodes comps = Z.of_nat (length (concat comps)).
Proof.
  unfold Jobs.total_nodes. induction comps as [|c comps IH]; simpl; [done|].
  rewrite IH, length_app. lia.
Qed.

Lemma components_le_nodes (comps : list (list Z)) :
  Forall (fun c => c <> []) comps ->
  (length comps <= length (concat comps))%nat.
Proof.
  induction 1 as [|c comps Hc _ IH]; simpl; [done|].
  rewrite length_app. destruct c; [done | simpl; lia].
Qed.

(** The component of a node, for components without common nodes. *)
Lemma node_to_component_unique (comps : list (list Z)) (size_bound : Z)
    (i : nat) (c : list Z) (x : Z) :
  NoDup (concat comps) -> comps !! i = Some c -> x ∈ c ->
  Jobs.node_to_component (Jobs.construction_jobs comps size_bound) !! x =
    Some (Z.of_nat i).
Proof.
  intros Hnd Hc Hx. rewrite <- JobsFacts.jobs_after_all.
  apply (proj2 (JobsSizes.node_to_component_after comps size_bound
                  (length comps) ltac:(done) x (Z.of_nat i))).
  exists i, c. split; [done|]. split; [by eapply lookup_lt_Some|].
  split; [done|]. split; [done|]. intros j c' Hj Hc' Hx'.
  assert (i = j); [|lia]. by eapply (NoDup_concat_unique comps).
Qed.

(** X25: on a graph that keeps the contract and whose ids fit [nid_t]
    together with [max_node_id + 1], [gbwt_construction_jobs] returns
    (with enough fuel for the loops of the component search) jobs
    in which every node has a component and every component a job below
    the number of jobs, and two nodes have the same component, hence the
    same job, exactly when edges connect them. *)
Theorem construction_jobs_keep_components (graph : HandleGraph)
    (size_bound : Z) :
  graph_ok graph -> ids_fit graph -> mirrored graph ->
  ids_complete graph ->
  exists (n0 : nat) (jobs : Jobs.ConstructionJobs),
    (forall fuel, (n0 <= fuel)%nat ->
       gbwt_construction_jobs graph fuel size_bound = Some jobs) /\
    (forall x, has_node graph x = true ->
       exists c j,
         Jobs.node_to_component jobs !! x = Some c /\
         Jobs.job_for_component jobs c = Some j /\
         0 <= j < Jobs.size jobs) /\
    (forall x y, has_node graph x = true -> has_node graph y = true ->
       (Jobs.node_to_component jobs !! x = Jobs.node_to_component jobs !! y
        <-> connected graph x y)).
Proof.
  intros Hok Hids_fit Hmir Hids.
  destruct (components_connected graph Hok Hids_fit Hmir Hids)
    as (n0 & comps & Hrun & Hall & Hnd & Hne & Hfit & Hconn).
  set (jobs := Jobs.construction_jobs comps size_bound).
  pose proof (ok_size graph Hok) as Hsize.
  assert (Hnodes : Jobs.total_nodes comps < modulus64).
  { rewrite total_nodes_concat. lia. }
  assert (Hcomps : Z.of_nat (length comps) < modulus64).
  { pose proof (components_le_nodes comps Hne). lia. }
  assert (Hin : forall x, has_node graph x = true ->
            exists (i : nat) c, comps !! i = Some c /\ x ∈ c /\
              Jobs.node_to_component jobs !! x = Some (Z.of_nat i)).
  { intros x Hx. apply Hall in Hx.
    apply list_elem_of_In, in_concat in Hx as (c & Hc & Hxc).
    apply list_elem_of_In in Hc, Hxc.
    apply list_elem_of_lookup in Hc as [i Hi]. exists i, c.
    split; [done|]. split; [done|]. by apply (node_to_component_unique comps size_bound i c). }
  exists n0, jobs. split; [|split].
  - intros fuel Hfuel. unfold gbwt_construction_jobs.
    by rewrite (Hrun fuel Hfuel).
  - intros x Hx. destruct (Hin x Hx) as (i & c & Hc & Hxc & Hn).
    pose proof (JobsFacts.invariant_after comps size_bound Hnodes Hcomps
                  (length comps) ltac:(lia)) as [_ _ _ F4 _ _ _ _].
    rewrite JobsFacts.jobs_after_all in F4. fold jobs in F4.
    destruct (F4 (Z.of_nat i)) as (j & Hj & Hlt).
    { apply lookup_lt_Some in Hc. lia. }
    exists (Z.of_nat i), j. split; [done|]. split; [done|].
    unfold Jobs.size. lia.
  - intros x y Hx Hy. rewrite <- (Hconn x y Hx Hy).
    destruct (Hin x Hx) as (i & ci & Hci & Hxc & Hnx).
    destruct (Hin y Hy) as (j & cj & Hcj & Hyc & Hny).
    rewrite Hnx, Hny. split.
    + intros [= Hij]. assert (i = j) as -> by lia.
      assert (ci = cj) as -> by congruence.
      exists cj. split; [by eapply list_elem_of_lookup_2 | done].
    + intros (c & Hc & Hxc' & Hyc').
      apply list_elem_of_lookup in Hc as [k Hk].
      assert (i = k) by (by eapply (NoDup_concat_unique comps)).
      assert (j = k) by (by eapply (NoDup_concat_unique comps)).
      by subst.
Qed.

Lemma construction_jobs_keep_components_witness :
  exists (n0 : nat) (jobs : Jobs.ConstructionJobs),
    (forall fuel, (n0 <= fuel)%nat ->
       gbwt_construction_jobs ComponentsExamples.three_parts fuel 3
         = Some jobs) /\
    (Jobs.node_to_component jobs !! 3 = Jobs.node_to_component jobs !! 4
     <-> connected ComponentsExamples.three_parts 3 4).
Proof.
  destruct three_parts_contract as (Hok & Hfit & Hmir & Hids).
  destruct (construction_jobs_keep_components
              ComponentsExamples.three_parts 3 Hok Hfit Hmir Hids)
    as (n0 & jobs & Hrun & _ & Hconn).
  exists n0, jobs. split; [exact Hrun|]. by apply Hconn.
Defined.

End ComponentJobsFacts.

(** ** The topological order of an acyclic subgraph is complete *)

Module TopologicalOrderComplete.
Import Word Graph GraphFacts TopologicalOrder TopologicalOrderFacts.

Section Visited.

Variable graph : HandleGraph.

(** The keys of the map [indegrees]. *)
Variable K : list handle_t.

Hypothesis graph_consistent : consistent graph.
Hypothesis K_nodup : NoDup K.

(** A part of the keys that holds every predecessor of [v] among the keys
    contributes all the edges into [v]. *)
Lemma flow_all (D : list handle_t) (v : handle_t) :
  NoDup D -> (forall x, x ∈ D -> x ∈ K) ->
  (forall u, u ∈ K -> edge graph u v -> u ∈ D) ->
  flow graph K v = flow graph D v.
Proof.
  intros HD Hsub Hall.
  destruct (submseteq_Permutation D K (NoDup_submseteq _ _ HD Hsub))
    as [K' HK'].
  assert (Hrest : forall x, x ∈ K' ->
            occ v (follow_edges graph x false) = 0%nat).
  { intros x Hx.
    destruct (decide (occ v (follow_edges graph x false) = 0%nat))
      as [|Hpos]; [done|]. exfalso.
    assert (He : edge graph x v) by (apply occ_pos; lia).
    assert (HxK : x ∈ K) by (rewrite HK', elem_of_app; by right).
    pose proof (Hall x HxK He) as HxD.
    rewrite HK' in K_nodup. apply NoDup_app in K_nodup as (_ & Hd & _).
    by apply (Hd x HxD). }
  unfold flow. rewrite HK', sum_list_with_app.
  assert (Hzero : sum_list_with
                    (fun u => occ v (follow_edges graph u false)) K' = 0%nat).
  { clear HK'. induction K' as [|a K' IH]; simpl; [done|].
    rewrite (Hrest a) by (by left). apply IH.
    intros x Hx. apply Hrest. by right. }
  lia.
Qed.

(** A predecessor among the keys. *)
Definition predecessor (x y : handle_t) : Prop :=
  edge graph y x /\ y ∈ K /\ x ∈ K.

(** When the third loop ends, every key that is reached from the keys
    without predecessors after finitely many edges is in the result. *)
Lemma all_visited (st : state) (done : list handle_t) :
  inv graph K st done [] [] -> active st = [] ->
  (forall v, sn predecessor v) ->
  forall v, v ∈ K -> v ∈ result st.
Proof.
  intros I Ha Hsn v. induction (Hsn v) as [v _ IH]. intros Hv.
  destruct (inv_done_cur graph K st done [] [] I) as [Hnd Hsub].
  rewrite app_nil_r in Hnd, Hsub.
  apply (inv_zero graph K _ _ _ _ I v Hv).
  unfold relaxed. rewrite occ_nil, Nat.add_0_r.
  rewrite (indegree_in_flow graph graph_consistent K v K_nodup).
  rewrite (flow_all done v); [lia | done | by intros x Hx; apply Hsub |].
  intros u Hu He.
  assert (Hr : u ∈ result st) by (apply IH; [by split | done]).
  rewrite (inv_perm graph K _ _ _ _ I), Ha in Hr.
  by rewrite !app_nil_r in Hr.
Qed.

End Visited.

(** Without a cycle, every handle is reached after finitely many edges. *)
Lemma acyclic_sn (graph : HandleGraph) (subgraph : list Z) (v : handle_t) :
  (forall u, ~ tc (edge_within graph subgraph) u u) ->
  sn (predecessor graph (inserted graph subgraph)) v.
Proof.
  intros Hacyclic.
  assert (Hflip : forall x y,
            tc (predecessor graph (inserted graph subgraph)) x y ->
            tc (edge_within graph subgraph) y x).
  { assert (Hstep : forall x y,
              predecessor graph (inserted graph subgraph) x y ->
              edge_within graph subgraph y x).
    { intros x y (He & Hy & Hx). split; [done|].
      split; by apply elem_of_inserted. }
    induction 1 as [x y Hxy | x y z Hxy _ IH].
    - by apply tc_once, Hstep.
    - eapply tc_r; [exact IH | by apply Hstep]. }
  apply tc_finite_sn.
  - intros x Hx. by apply (Hacyclic x), Hflip.
  - exists (inserted graph subgraph). intros y Hy.
    induction Hy as [x y (_ & ? & _) | x y z _ _ IH]; done.
Qed.

(** A list of all handles of the subgraph that respects the edges shows
    that there is no cycle. *)
Lemma listed_acyclic (graph : HandleGraph) (subgraph : list Z)
    (r : list handle_t) :
  (forall h, in_subgraph graph subgraph h -> h ∈ r) ->
  (forall i j u v, r !! i = Some u -> r !! j = Some v ->
     edge graph u v -> (i < j)%nat) ->
  forall u, ~ tc (edge_within graph subgraph) u u.
Proof.
  intros Hall Hord u Hcyc.
  assert (Hu : in_subgraph graph subgraph u)
    by (by eapply tc_edge_within_start).
  destruct (list_elem_of_lookup_1 _ _ (Hall u Hu)) as [i Hi].
  pose proof (tc_positions graph subgraph r Hall Hord u u Hcyc i i Hi Hi).
  lia.
Qed.

(** Without a cycle the order is complete. *)
Lemma acyclic_order (graph : HandleGraph)
    (map_order : list handle_t -> list handle_t) (subgraph : list Z)
    (fuel : nat) :
  consistent graph ->
  degrees_fit graph ->
  (forall l, map_order l ≡ₚ l) ->
  NoDup subgraph ->
  2 * Z.of_nat (length subgraph) < modulus64 ->
  (2 * length subgraph < fuel)%nat ->
  (forall u, ~ tc (edge_within graph subgraph) u u) ->
  exists r : list handle_t,
    topological_order graph map_order fuel subgraph = Some r /\
    length r = (2 * length (present graph subgraph))%nat /\
    NoDup r /\
    (forall h, h ∈ r <-> in_subgraph graph subgraph h) /\
    (forall i j u v, r !! i = Some u -> r !! j = Some v ->
       edge graph u v -> (i < j)%nat).
Proof.
  intros Hcons Hdeg Horder Hnd Hsize Hfuel Hacyclic.
  unfold topological_order.
  destruct (decide (subgraph = [])) as [->|Hne].
  { exists []. split; [done|]. split; [done|]. split; [constructor|].
    split.
    - intros h. split; [by intros ?%elem_of_nil|].
      intros [Hh _]. by apply elem_of_nil in Hh.
    - intros i j u v Hi. by rewrite lookup_nil in Hi. }
  set (K := inserted graph subgraph).
  assert (HK : NoDup K) by (by apply NoDup_inserted).
  set (st0 := {| indegrees := list_to_map (map (fun h => (h, 0)) K);
                 active := []; result := [] |}).
  assert (S0 : seeded graph K st0 []).
  { split; simpl; try done.
    - intros v. rewrite initial_lookup. case_decide; split; done.
    - intros v Hv. by apply elem_of_nil in Hv.
    - intros v Hv _. rewrite initial_lookup. by rewrite decide_True. }
  pose proof (determine_indegrees_seeded graph K Hdeg (map_order K) st0 []
                S0) as S1.
  simpl in S1. specialize (S1 ltac:(by rewrite Horder)).
  specialize (S1 ltac:(intros x Hx; by rewrite Horder in Hx)).
  apply (seeded_inv graph K Hcons HK _ _) in S1; [|apply Horder].
  pose proof (length_inserted graph subgraph) as HlenK. fold K in HlenK.
  pose proof (length_filter (fun node => has_node graph node = true) subgraph)
    as Hlp. fold (present graph subgraph) in Hlp.
  destruct (follow_active_inv graph K Hcons Hdeg HK fuel _ [] S1)
    as (st2 & done' & Hrun & I2 & Hact).
  { simpl. lia. }
  rewrite Hrun. simpl.
  rewrite length_present.
  rewrite (wrap64_small (Z.of_nat _)) by lia.
  rewrite wrap64_small by lia.
  pose proof (all_visited graph K Hcons HK st2 done' I2 Hact
                (fun v => acyclic_sn graph subgraph v Hacyclic)) as Hall.
  destruct I2 as [I1 I2 I3 I4 I5 I6 I7].
  assert (Hperm : result st2 ≡ₚ K).
  { apply NoDup_Permutation; [done..|]. intros x. split; [apply I5 | apply Hall]. }
  assert (Hlen : length (result st2) = length K) by (by rewrite Hperm).
  case_decide as Hbad; [lia|].
  exists (result st2). split; [done|]. split; [lia|]. split; [done|].
  split.
  - intros h. rewrite Hperm. apply elem_of_inserted.
  - intros i j u v Hi Hj Hedge.
    destruct (I7 u v) as (i' & j' & Hi' & Hj' & Hlt).
    + by eapply list_elem_of_lookup_2.
    + apply I5. by eapply list_elem_of_lookup_2.
    + done.
    + rewrite (NoDup_lookup _ i i' u I3 Hi Hi').
      rewrite (NoDup_lookup _ j j' v I3 Hj Hj'). done.
Qed.

(** X26: on a graph whose two directions of [follow_edges] agree, and for
    a set of node ids listed without repetition whose handles lie on no
    cycle, [topological_order] returns both orientations of every node of
    the set that is in the graph, each once, and every edge between two of
    them goes from an earlier to a later position. *)
Theorem topological_order_complete (graph : HandleGraph)
    (map_order : list handle_t -> list handle_t) (subgraph : list Z)
    (fuel : nat) :
  consistent graph ->
  degrees_fit graph ->
  (forall l, map_order l ≡ₚ l) ->
  NoDup subgraph ->
  2 * Z.of_nat (length subgraph) < modulus64 ->
  (2 * length subgraph < fuel)%nat ->
  (forall u, ~ tc (edge_within graph subgraph) u u) ->
  exists r : list handle_t,
    topological_order graph map_order fuel subgraph = Some r /\
    length r = (2 * length (present graph subgraph))%nat /\
    NoDup r /\
    (forall h, h ∈ r <-> in_subgraph graph subgraph h) /\
    (forall i j u v, r !! i = Some u -> r !! j = Some v ->
       edge graph u v -> (i < j)%nat).
Proof. apply acyclic_order. Qed.

Lemma diamond_acyclic :
  forall u,
    ~ tc (edge_within TopologicalOrderExamples.diamond [3; 1; 2; 7]) u u.
Proof.
  apply (listed_acyclic _ _
           (map (fun p => mkHandle p.1 p.2)
              [(3, true); (1, false); (2, false); (3, false); (2, true);
               (1, true)])).
  - intros [n b] [Hs Hp]. simpl in Hs.
    apply list_elem_of_In in Hs. simpl in Hs.
    destruct Hs as [<-|[<-|[<-|[<-|[]]]]]; try discriminate Hp;
      destruct b; apply list_elem_of_In; simpl; tauto.
  - intros i j u v Hi Hj He. unfold edge in He.
    apply list_elem_of_In in He.
    do 6 (destruct i as [|i];
          [injection Hi as <-; vm_compute in He;
           repeat (destruct He as [<-|He]; [|]); try done;
           do 6 (destruct j as [|j]; [try discriminate Hj; try lia|]);
           discriminate Hj|]).
    discriminate Hi.
Qed.

Lemma topological_order_complete_witness :
  exists r : list handle_t,
    topological_order TopologicalOrderExamples.diamond id 10 [3; 1; 2; 7]
      = Some r /\
    length r = 6%nat.
Proof.
  assert (H1 : consistent TopologicalOrderExamples.diamond)
    by apply of_edges_consistent.
  assert (H2 : degrees_fit TopologicalOrderExamples.diamond)
    by (apply of_edges_degrees_fit; reflexivity).
  assert (H3 : forall l : list handle_t, id l ≡ₚ l) by reflexivity.
  assert (H4 : NoDup [3; 1; 2; 7]) by (by apply (bool_decide_unpack _)).
  assert (H5 : 2 * Z.of_nat (length [3; 1; 2; 7]) < modulus64) by reflexivity.
  assert (H6 : (2 * length [3; 1; 2; 7] < 10)%nat) by (simpl; lia).
  destruct (topological_order_complete TopologicalOrderExamples.diamond id
              [3; 1; 2; 7] 10 H1 H2 H3 H4 H5 H6 diamond_acyclic)
    as (r & Hr & Hlen & _).
  exists r. split; [exact Hr | exact Hlen].
Defined.

End TopologicalOrderComplete.

(** ** A nice acyclic component has a topological order *)

Module NiceOrderFacts.
Import Word Graph GraphFacts TopologicalOrder TopologicalOrderFacts.
Import NiceAcyclic NiceAcyclicFacts Connectivity TopologicalOrderComplete.

Section Nice.

Variables (graph : HandleGraph) (component : list Z) (o : Z -> bool).

Hypothesis graph_consistent : consistent graph.
Hypothesis graph_mirrored : mirrored graph.
Hypothesis component_nice : nice graph component o.

(** An edge between two handles is an edge between the flipped handles,
    in the other direction. *)
Lemma edge_within_flip (u v : handle_t) :
  edge_within graph component u v ->
  edge_within graph component (flip v) (flip u).
Proof.
  intros (He & Hu & Hv). split; [|split; [exact Hv | exact Hu]].
  unfold edge in *. apply (graph_mirrored u v false) in He. simpl in He.
  apply occ_pos. rewrite <- graph_consistent. by apply occ_pos.
Qed.

Lemma tc_edge_within_flip (u v : handle_t) :
  tc (edge_within graph component) u v ->
  tc (edge_within graph component) (flip v) (flip u).
Proof.
  induction 1 as [x y Hxy | x y z Hxy _ IH].
  - by apply tc_once, edge_within_flip.
  - eapply tc_r; [exact IH | by apply edge_within_flip].
Qed.

(** A path from a chosen handle passes through chosen handles. *)
Lemma tc_chosen (u v : handle_t) :
  tc (edge_within graph component) u v ->
  chosen graph component o u ->
  tc (chosen_edge graph component o) u v.
Proof.
  induction 1 as [x y (He & _ & _) | x y z (He & _ & _) _ IH]; intros Hx.
  - apply tc_once. split; [done|]. split; [done|].
    by apply (nice_forward graph component o component_nice x y).
  - assert (Hy : chosen graph component o y)
      by (by apply (nice_forward graph component o component_nice x y)).
    eapply tc_l; [|by apply IH]. by split.
Qed.

(** The handles of a nice component lie on no cycle. *)
Lemma nice_acyclic_handles (u : handle_t) :
  ~ tc (edge_within graph component) u u.
Proof.
  intros Hcyc.
  assert (Hu : u ∈ inserted graph component).
  { apply elem_of_inserted. by eapply tc_edge_within_start. }
  destruct (decide (get_is_reverse u = o (get_id u))) as [Ho|Ho].
  - apply (nice_acyclic graph component o component_nice u).
    apply tc_chosen; [done|]. by split.
  - apply (nice_acyclic graph component o component_nice (flip u)).
    apply tc_chosen; [by apply tc_edge_within_flip|]. split.
    + apply elem_of_inserted. apply elem_of_inserted in Hu. exact Hu.
    + simpl. destruct (get_is_reverse u), (o (get_id u)); done.
Qed.

End Nice.

(** X27: when [is_nice_and_acyclic] returns head nodes for a component (a
    set of node ids closed under the edges, on a graph that keeps the
    contract of [follow_edges]), [topological_order] of the same component
    is not empty: it holds both orientations of every node of the
    component that is in the graph, each once, with every edge from an
    earlier to a later position. *)
Theorem nice_component_has_order (graph : HandleGraph)
    (map_order : list handle_t -> list handle_t) (component : list Z)
    (fuel : nat) :
  consistent graph ->
  mirrored graph ->
  degrees_fit graph ->
  (forall h, get_degree graph h true < NOT_SEEN) ->
  (forall l, map_order l ≡ₚ l) ->
  NoDup component ->
  closed graph component ->
  2 * Z.of_nat (length component) < modulus64 ->
  (2 * length component < fuel)%nat ->
  exists heads : list Z,
    is_nice_and_acyclic graph fuel component = Some heads /\
    (heads <> [] ->
       exists order : list handle_t,
         topological_order graph map_order fuel component = Some order /\
         order <> [] /\
         length order = (2 * length (present graph component))%nat /\
         NoDup order /\
         (forall h, h ∈ order <-> in_subgraph graph component h) /\
         (forall i j u v, order !! i = Some u -> order !! j = Some v ->
            edge graph u v -> (i < j)%nat)).
Proof.
  intros Hcons Hmir Hdeg Hmark Horder Hnd Hclosed Hfit Hfuel.
  destruct (is_nice_and_acyclic_outcome graph component Hcons Hmark Hnd
              (closed_inserted graph component Hclosed) Hfit fuel Hfuel)
    as (heads & Hheads & Hall & Hnice).
  exists heads. split; [done|]. intros Hne.
  destruct (Hnice Hne) as [o N].
  destruct (acyclic_order graph map_order component fuel Hcons Hdeg Horder
              Hnd Hfit Hfuel
              (nice_acyclic_handles graph component o Hcons Hmir N))
    as (order & Ho & Hlen & Hnd' & Hmem & Hord).
  exists order. split; [done|]. split; [|done].
  intros ->. simpl in Hlen.
  rewrite (Hall (ex_intro _ o N)) in Hne.
  destruct (filter (is_head graph) component) as [|n l] eqn:Hf;
    [done|].
  assert (Hn : n ∈ filter (is_head graph) component)
    by (rewrite Hf; by left).
  apply list_elem_of_filter in Hn as [[Hp _] Hc].
  assert (Hin : n ∈ present graph component).
  { unfold present. by apply list_elem_of_filter. }
  destruct (present graph component); [by apply elem_of_nil in Hin|].
  simpl in Hlen. lia.
Qed.

Lemma nice_component_has_order_witness :
  exists (heads : list Z) (order : list handle_t),
    is_nice_and_acyclic TopologicalOrderExamples.diamond 20 [8; 1; 2; 9; 3]
      = Some heads /\
    topological_order TopologicalOrderExamples.diamond id 20 [8; 1; 2; 9; 3]
      = Some order /\
    order <> [].
Proof.
  assert (H1 : consistent TopologicalOrderExamples.diamond)
    by apply of_edges_consistent.
  assert (H2 : mirrored TopologicalOrderExamples.diamond)
    by apply ConnectivityFacts.of_edges_mirrored.
  assert (H3 : degrees_fit TopologicalOrderExamples.diamond)
    by (apply of_edges_degrees_fit; reflexivity).
  assert (H4 : forall h,
            get_degree TopologicalOrderExamples.diamond h true < NOT_SEEN)
    by (apply of_edges_degrees_marked; reflexivity).
  assert (H5 : forall l : list handle_t, id l ≡ₚ l) by reflexivity.
  assert (H6 : NoDup [8; 1; 2; 9; 3]) by (by apply (bool_decide_unpack _)).
  assert (H7 : closed TopologicalOrderExamples.diamond [8; 1; 2; 9; 3]).
  { apply of_edges_closed. intros e He.
    repeat (apply elem_of_cons in He as [->|He]);
      [..|by apply elem_of_nil in He];
      (split; (split; [by apply (bool_decide_unpack _) | reflexivity])). }
  assert (H8 : 2 * Z.of_nat (length [8; 1; 2; 9; 3]) < modulus64)
    by reflexivity.
  assert (H9 : (2 * length [8; 1; 2; 9; 3] < 20)%nat) by (simpl; lia).
  destruct (nice_component_has_order TopologicalOrderExamples.diamond id
              [8; 1; 2; 9; 3] 20 H1 H2 H3 H4 H5 H6 H7 H8 H9)
    as (heads & Hheads & Horder).
  assert (Hne : heads <> []).
  { intros ->. vm_compute in Hheads. discriminate Hheads. }
  destruct (Horder Hne) as (order & Ho & Hn & _).
  exists heads, order. split; [exact Hheads|]. split; [exact Ho | exact Hn].
Defined.

End NiceOrderFacts.

(** ** The components of a graph built with [EmptyGraph] *)

Module EmptyGraphEdges.
Import Graph EmptyGraph.

(** The graphs that [create_node], called with new ids, and [create_edge]
    build, with the edges in the order of their creation. *)
Inductive built_with : list (handle_t * handle_t) -> t -> Prop :=
| with_empty (lo hi : Z) :
    built_with [] {| nodes := ∅; min_id := lo; max_id := hi |}
| with_node (edges : list (handle_t * handle_t)) (g : t) (node_id : Z) :
    built_with edges g -> nodes g !! node_id = None ->
    built_with edges (create_node g node_id)
| with_edge (edges : list (handle_t * handle_t)) (g g' : t)
    (from to : handle_t) :
    built_with edges g -> create_edge g from to = Done g' ->
    built_with (edges ++ [(from, to)]) g'.

(** An edge was created from a handle of [x] to a handle of [y]. *)
Definition joined (edges : list (handle_t * handle_t)) (x y : Z) : Prop :=
  exists e, e ∈ edges /\ get_id e.1 = x /\ get_id e.2 = y.

End EmptyGraphEdges.

Module EmptyGraphComponents.
Import Word Graph GraphFacts EmptyGraph ComponentsFacts EmptyGraphFacts.
Import Connectivity ConnectivityFacts EmptyGraphEdges.

Lemma built_with_built (edges : list (handle_t * handle_t)) (g : t) :
  built_with edges g -> built g.
Proof.
  induction 1 as [lo hi|edges g node_id _ IH Hnew|edges g g' from to _ IH He].
  - constructor.
  - by constructor.
  - by econstructor.
Qed.

(** Whatever the nodes and their edge lists are, the two orientations of
    a node mirror each other. *)
Lemma as_graph_mirrored (ids : list Z) (g : t) : mirrored (as_graph ids g).
Proof.
  intros [n r] [m s] go_left. simpl.
  unfold follow_edges, edges_of. simpl.
  destruct (nodes g !! n) as [node|]; simpl; [|by intros ?%elem_of_nil].
  replace (xorb (negb go_left) (negb r)) with (xorb go_left r)
    by (by destruct go_left, r).
  generalize (if xorb go_left r then predecessors node else successors node).
  intros l Hl. apply list_elem_of_fmap in Hl as (e & He & Hin).
  apply list_elem_of_fmap. destruct r; simpl in *.
  - exists e. split; [|done]. rewrite He. unfold flip. simpl.
    destruct e as [a b]. simpl. by rewrite negb_involutive.
  - exists e. split; [|done]. by rewrite He.
Qed.

Lemma added_source (g g' : t) (from to u x : handle_t) (go_left : bool) :
  create_edge g from to = Done g' ->
  x ∈ added from to go_left u -> is_Some (nodes g !! get_id u).
Proof.
  intros H. apply create_edge_nodes in H as (_ & Hf & Ht & _).
  unfold added. destruct go_left; rewrite elem_of_app;
    intros [Hx|Hx]; case_decide; try (by apply elem_of_nil in Hx);
    subst; done.
Qed.

(** The neighbours of a handle are what the created edges added. *)
Lemma neighbours_built_with (edges : list (handle_t * handle_t)) (g : t) :
  built_with edges g ->
  forall (u next : handle_t) (go_left : bool),
    next ∈ neighbours g u go_left <->
    exists e, e ∈ edges /\ next ∈ added e.1 e.2 go_left u.
Proof.
  induction 1 as [lo hi|edges g node_id _ IH Hnew|edges g g' from to _ IH He];
    intros u next go_left.
  - unfold neighbours, follow_edges, edges_of. simpl.
    rewrite lookup_empty. simpl. split; [by intros ?%elem_of_nil|].
    intros (e & He & _). by apply elem_of_nil in He.
  - rewrite <- IH. unfold neighbours. rewrite follow_create_node.
    case_decide as Hu; [|done].
    unfold follow_edges, edges_of. by rewrite Hu, Hnew.
  - rewrite (neighbours_create_edge g g' from to _ _ He).
    case_decide as Hu.
    + rewrite elem_of_app, IH. split.
      * intros [(e & Hin & Hn)|Hn].
        -- exists e. split; [|done]. apply elem_of_app. by left.
        -- exists (from, to). split; [|done]. apply elem_of_app.
           right. by left.
      * intros (e & Hin & Hn). apply elem_of_app in Hin as [Hin|Hin].
        -- left. by exists e.
        -- apply list_elem_of_singleton in Hin as ->. by right.
    + split; [by intros ?%elem_of_nil|].
      intros (e & Hin & Hn). apply elem_of_app in Hin as [Hin|Hin].
      * assert (Hold : next ∈ neighbours g u go_left)
          by (apply IH; by exists e).
        unfold neighbours, follow_edges, edges_of in Hold.
        destruct (nodes g !! get_id u); [destruct Hu; by eexists|].
        by apply elem_of_nil in Hold.
      * apply list_elem_of_singleton in Hin as ->. simpl in Hn.
        destruct Hu. by eapply added_source.
Qed.

(** The handles of a created edge are handles of nodes. *)
Lemma edges_present (edges : list (handle_t * handle_t)) (g : t) :
  built_with edges g ->
  forall e, e ∈ edges ->
    is_Some (nodes g !! get_id e.1) /\ is_Some (nodes g !! get_id e.2).
Proof.
  induction 1 as [lo hi|edges g node_id _ IH Hnew|edges g g' from to _ IH He];
    intros e Hin.
  - by apply elem_of_nil in Hin.
  - destruct (IH e Hin) as [H1 H2]. simpl.
    split; apply lookup_insert_is_Some'; by right.
  - pose proof (create_edge_nodes g g' from to He) as (Hdom & Hf & Ht & _).
    apply elem_of_app in Hin as [Hin|Hin].
    + destruct (IH e Hin) as [H1 H2]. split; by apply Hdom.
    + apply list_elem_of_singleton in Hin as ->. split; by apply Hdom.
Qed.

(** The neighbours of a node are the nodes it was joined with. *)
Lemma linked_joined (ids : list Z) (edges : list (handle_t * handle_t))
    (g : t) :
  built_with edges g ->
  forall x y, linked (as_graph ids g) x y <->
              joined edges x y \/ joined edges y x.
Proof.
  intros Hb x y. split.
  - intros (_ & h & next & go_left & <- & Hn & <-). simpl in Hn.
    fold (neighbours g h go_left) in Hn.
    apply (neighbours_built_with edges g Hb) in Hn as ([a b] & Hin & Hn).
    unfold added in Hn. simpl in Hn.
    destruct go_left; apply elem_of_app in Hn as [Hn|Hn];
      case_decide; try (by apply elem_of_nil in Hn);
      apply list_elem_of_singleton in Hn; subst; simpl.
    + left. by exists (a, b).
    + right. by exists (a, b).
    + left. by exists (a, b).
    + right. by exists (a, b).
  - intros [([a b] & Hin & <- & <-)|([a b] & Hin & <- & <-)];
      destruct (edges_present edges g Hb (a, b) Hin) as [Ha Hb'];
      simpl in *.
    + split; [by apply bool_decide_eq_true|].
      exists a, b, false. split; [done|]. split; [|done]. simpl.
      fold (neighbours g a false).
      apply (neighbours_built_with edges g Hb). exists (a, b).
      split; [done|]. unfold added. simpl. apply elem_of_app. left.
      rewrite decide_True by done. by left.
    + split; [by apply bool_decide_eq_true|].
      exists b, a, true. split; [done|]. split; [|done]. simpl.
      fold (neighbours g b true).
      apply (neighbours_built_with edges g Hb). exists (a, b).
      split; [done|]. unfold added. simpl. apply elem_of_app. right.
      rewrite decide_True by done. by left.
Qed.

Lemma connected_joined (ids : list Z) (edges : list (handle_t * handle_t))
    (g : t) :
  built_with edges g ->
  forall x y, connected (as_graph ids g) x y <-> rtsc (joined edges) x y.
Proof.
  intros Hb x y. unfold connected. split.
  - induction 1 as [x|x z y Hxz _ IH]; [done|].
    transitivity z; [|done].
    destruct Hxz as [Hl|Hl];
      apply (linked_joined ids edges g Hb) in Hl as [Hj|Hj].
    + by apply rtsc_lr.
    + by apply rtsc_rl.
    + by apply rtsc_rl.
    + by apply rtsc_lr.
  - induction 1 as [x|x z y Hxz _ IH]; [done|].
    transitivity z; [|done].
    destruct Hxz as [Hj|Hj].
    + apply rtsc_lr, (linked_joined ids edges g Hb). by left.
    + apply rtsc_rl, (linked_joined ids edges g Hb). by left.
Qed.

(** X28: for a graph built with [EmptyGraph::create_node], called with
    new ids, and [EmptyGraph::create_edge], with an id range that fits
    [size_t] and ids that fit [nid_t] together with [max_id + 1]:
    [weakly_connected_components] returns components that hold
    exactly the created nodes, and two nodes are in the same component
    exactly when a chain of created edges, in any direction and between
    any orientations, joins them. *)
Theorem built_graph_components (edges : list (handle_t * handle_t))
    (ids : list Z) (g : t) :
  built_with edges g ->
  (forall n, n ∈ ids <-> has_node g n = true) ->
  0 <= max_id g + 1 - min_id g < modulus64 ->
  - 2 ^ 63 <= min_id g /\ max_id g + 1 < 2 ^ 63 ->
  exists (n0 : nat) (comps : list (list Z)),
    (forall fuel, (n0 <= fuel)%nat ->
       Components.weakly_connected_components (as_graph ids g) fuel
         = Some comps) /\
    (forall id, id ∈ concat comps <-> has_node g id = true) /\
    forall x y, has_node g x = true -> has_node g y = true ->
      ((exists c, c ∈ comps /\ x ∈ c /\ y ∈ c) <->
       rtsc (joined edges) x y).
Proof.
  intros Hb Hids Hsize Hfit.
  destruct (built_good g (built_with_built edges g Hb))
    as [Hclosed Hcons Hrange].
  assert (Hok : graph_ok (as_graph ids g)).
  { split; simpl.
    - intros n Hn%bool_decide_eq_true. by apply Hrange.
    - intros n Hn. by apply Hids.
    - intros h go_left next _ Hnext. apply bool_decide_eq_true.
      by eapply Hclosed.
    - exact Hsize. }
  destruct (components_connected (as_graph ids g) Hok Hfit
              (as_graph_mirrored ids g))
    as (n0 & comps & Hrun & Hall & _ & _ & _ & Hconn).
  { intros id Hid. by apply Hids. }
  exists n0, comps. split; [done|]. split; [done|].
  intros x y Hx Hy. rewrite <- (connected_joined ids edges g Hb).
  by apply Hconn.
Qed.

Lemma built_with_one_edge :
  built_with [(mkHandle 1 false, mkHandle 2 true)] one_edge.
Proof.
  apply (with_edge [] three_nodes one_edge (mkHandle 1 false)
           (mkHandle 2 true)); [|vm_compute; reflexivity].
  repeat (apply with_node; [|vm_compute; reflexivity]). constructor.
Qed.

Lemma one_edge_nodes (n : Z) :
  n ∈ [3; 1; 2] <-> has_node one_edge n = true.
Proof.
  assert (E : create_edge three_nodes (mkHandle 1 false) (mkHandle 2 true)
              = Done one_edge) by (vm_compute; reflexivity).
  destruct (create_edge_nodes _ _ _ _ E) as (Hdom & _).
  unfold has_node. rewrite bool_decide_eq_true, Hdom.
  unfold three_nodes, create_node. simpl.
  rewrite !lookup_insert_is_Some'. rewrite lookup_empty.
  rewrite !elem_of_cons, elem_of_nil. split.
  - intros [->|[->|[->|[]]]]; auto.
  - intros [<-|[<-|[<-|[? ?]]]]; auto. done.
Qed.

Lemma built_graph_components_witness :
  exists (n0 : nat) (comps : list (list Z)),
    (forall fuel, (n0 <= fuel)%nat ->
       Components.weakly_connected_components
         (as_graph [3; 1; 2] one_edge) fuel = Some comps) /\
    ((exists c, c ∈ comps /\ 1 ∈ c /\ 2 ∈ c) <->
     rtsc (joined [(mkHandle 1 false, mkHandle 2 true)]) 1 2).
Proof.
  destruct (built_graph_components [(mkHandle 1 false, mkHandle 2 true)]
              [3; 1; 2] one_edge built_with_one_edge one_edge_nodes)
    as (n0 & comps & Hrun & _ & Hconn).
  - split; [discriminate | reflexivity].
  - split; [discriminate | reflexivity].
  - exists n0, comps. split; [exact Hrun|]. by apply Hconn.
Defined.

End EmptyGraphComponents.

(** ** The components as input of [is_nice_and_acyclic] *)

Module ComponentHeadsFacts.
Import Word Graph GraphFacts Components ComponentsFacts.
Import TopologicalOrder TopologicalOrderFacts NiceAcyclic NiceAcyclicFacts.
Import Connectivity ConnectivityFacts.

Lemma NoDup_concat_member (l : list (list Z)) (c : list Z) :
  NoDup (concat l) -> c ∈ l ->
  NoDup c /\ (length c <= length (concat l))%nat.
Proof.
  induction l as [|a l IH]; intros Hnd Hc; [by apply elem_of_nil in Hc|].
  simpl in *. apply NoDup_app in Hnd as (Ha & _ & Hl). rewrite length_app.
  apply elem_of_cons in Hc as [->|Hc]; [split; [done | lia]|].
  destruct (IH Hl Hc). split; [done | lia].
Qed.

(** X29: on a graph that keeps the contract and whose ids fit [nid_t]
    together with [max_node_id + 1], every component that
    [weakly_connected_components] returns lists nodes of the graph without
    repetition and is closed under the edges; so [is_nice_and_acyclic]
    returns on it.  It returns the nodes whose forward handle has no
    predecessor when the component is [nice] (some orientation of its
    nodes is kept by every edge, has no cycle, and has a handle without
    predecessors exactly where that handle is a forward one), and it
    returns a list that is not empty only then. *)
Theorem components_are_closed (graph : HandleGraph) :
  graph_ok graph -> ids_fit graph -> mirrored graph ->
  ids_complete graph ->
  consistent graph ->
  (forall h, get_degree graph h true < NOT_SEEN) ->
  2 * (max_node_id graph + 1 - min_node_id graph) < modulus64 ->
  exists (n0 : nat) (comps : list (list Z)),
    (forall fuel, (n0 <= fuel)%nat ->
       weakly_connected_components graph fuel = Some comps) /\
    forall c, c ∈ comps ->
      NoDup c /\
      (forall x, x ∈ c -> has_node graph x = true) /\
      closed graph c /\
      forall fuel, (2 * length c < fuel)%nat ->
        exists heads,
          is_nice_and_acyclic graph fuel c = Some heads /\
          ((exists o, nice graph c o) ->
             heads = filter (is_head graph) c) /\
          (heads <> [] -> exists o, nice graph c o).
Proof.
  intros Hok Hfit Hmir Hids Hcons Hmark Hrange.
  destruct (components_connected graph Hok Hfit Hmir Hids)
    as (n0 & comps & Hrun & Hall & Hnd & _ & Hlen & Hconn).
  exists n0, comps. split; [done|]. intros c Hc.
  destruct (NoDup_concat_member comps c Hnd Hc) as [Hndc Hlenc].
  assert (Hpresent : forall x, x ∈ c -> has_node graph x = true).
  { intros x Hx. apply Hall, list_elem_of_In, in_concat. exists c.
    split; by apply list_elem_of_In. }
  assert (Hclosed : closed graph c).
  { intros h go_left next [Hh Hp] Hnext.
    assert (Hn : has_node graph (get_id next) = true)
      by (by eapply (ok_closed graph Hok h go_left)).
    split; [|done].
    assert (Hl : connected graph (get_id h) (get_id next)).
    { apply rtsc_lr. split; [done|]. by exists h, next, go_left. }
    apply (Hconn _ _ Hp Hn) in Hl as (c' & Hc' & Hh' & Hn').
    apply list_elem_of_lookup in Hc as [i Hi].
    apply list_elem_of_lookup in Hc' as [j Hj].
    assert (i = j) by (by eapply (NoDup_concat_unique comps)).
    subst j. by replace c with c' by congruence. }
  split; [done|]. split; [done|]. split; [done|].
  intros fuel Hfuel.
  apply (is_nice_and_acyclic_outcome graph c Hcons Hmark Hndc
           (closed_inserted graph c Hclosed)); [lia | done].
Qed.

Lemma components_are_closed_witness :
  exists (n0 : nat) (comps : list (list Z)),
    (forall fuel, (n0 <= fuel)%nat ->
       weakly_connected_components ComponentsExamples.three_parts fuel
         = Some comps) /\
    forall c, c ∈ comps -> closed ComponentsExamples.three_parts c.
Proof.
  destruct three_parts_contract as (Hok & Hfit & Hmir & Hids).
  destruct (components_are_closed ComponentsExamples.three_parts Hok Hfit
              Hmir Hids)
    as (n0 & comps & Hrun & Hc).
  - apply of_edges_consistent.
  - apply of_edges_degrees_marked. reflexivity.
  - reflexivity.
  - exists n0, comps. split; [exact Hrun|]. intros c Hin.
    by destruct (Hc c Hin) as (_ & _ & H & _).
Defined.

End ComponentHeadsFacts.

(** ** Ids that are not nodes, in [topological_order] *)

Module TopologicalOrderMissing.
Import Word Graph GraphFacts TopologicalOrder TopologicalOrderFacts.
Import NiceAcyclicFacts TopologicalOrderComplete.

(** A result that is not empty holds every handle of the subgraph once,
    and shows that the subgraph has no cycle. *)
Lemma order_sound (graph : HandleGraph)
    (map_order : list handle_t -> list handle_t) (subgraph : list Z)
    (fuel : nat) :
  consistent graph ->
  degrees_fit graph ->
  (forall l, map_order l ≡ₚ l) ->
  NoDup subgraph ->
  2 * Z.of_nat (length subgraph) < modulus64 ->
  (2 * length subgraph < fuel)%nat ->
  exists r : list handle_t,
    topological_order graph map_order fuel subgraph = Some r /\
    (r = [] \/
     NoDup r /\
     (forall h, h ∈ r <-> in_subgraph graph subgraph h) /\
     forall u, ~ tc (edge_within graph subgraph) u u).
Proof.
  intros Hcons Hdeg Horder Hnd Hsize Hfuel.
  unfold topological_order.
  destruct (decide (subgraph = [])) as [->|Hne].
  { exists []. split; [done | by left]. }
  set (K := inserted graph subgraph).
  assert (HK : NoDup K) by (by apply NoDup_inserted).
  set (st0 := {| indegrees := list_to_map (map (fun h => (h, 0)) K);
                 active := []; result := [] |}).
  assert (S0 : seeded graph K st0 []).
  { split; simpl; try done.
    - intros v. rewrite initial_lookup. case_decide; split; done.
    - intros v Hv. by apply elem_of_nil in Hv.
    - intros v Hv _. rewrite initial_lookup. by rewrite decide_True. }
  pose proof (determine_indegrees_seeded graph K Hdeg (map_order K) st0 []
                S0) as S1.
  simpl in S1. specialize (S1 ltac:(by rewrite Horder)).
  specialize (S1 ltac:(intros x Hx; by rewrite Horder in Hx)).
  apply (seeded_inv graph K Hcons HK _ _) in S1; [|apply Horder].
  pose proof (length_inserted graph subgraph) as HlenK. fold K in HlenK.
  pose proof (length_filter (fun node => has_node graph node = true) subgraph)
    as Hlp. fold (present graph subgraph) in Hlp.
  destruct (follow_active_inv graph K Hcons Hdeg HK fuel _ [] S1)
    as (st2 & done' & Hrun & I2 & Hact).
  { simpl. lia. }
  rewrite Hrun. simpl.
  rewrite length_present.
  rewrite (wrap64_small (Z.of_nat _)) by lia.
  rewrite wrap64_small by lia.
  case_decide as Hlen; [exists []; split; [done | by left]|].
  assert (Hlen' : length (result st2) = length K) by lia.
  destruct I2 as [I1 I2 I3 I4 I5 I6 I7].
  assert (Hperm : result st2 ≡ₚ K).
  { apply submseteq_length_Permutation; [|lia].
    by apply NoDup_submseteq. }
  assert (Hmem : forall h, h ∈ result st2 <-> in_subgraph graph subgraph h).
  { intros h. rewrite Hperm. apply elem_of_inserted. }
  exists (result st2). split; [done|]. right.
  split; [done|]. split; [done|].
  apply (listed_acyclic graph subgraph (result st2)).
  - intros h. apply Hmem.
  - intros i j u v Hi Hj Hedge.
    destruct (I7 u v) as (i' & j' & Hi' & Hj' & Hlt).
    + by eapply list_elem_of_lookup_2.
    + apply I5. by eapply list_elem_of_lookup_2.
    + done.
    + rewrite (NoDup_lookup _ i i' u I3 Hi Hi').
      rewrite (NoDup_lookup _ j j' v I3 Hj Hj'). done.
Qed.

(** The nodes of the graph in two lists of ids. *)
Definition same_nodes (graph : HandleGraph) (l l' : list Z) : Prop :=
  l' ≡ₚ present graph l.

Lemma same_nodes_handles (graph : HandleGraph) (l l' : list Z)
    (h : handle_t) :
  same_nodes graph l l' ->
  in_subgraph graph l' h <-> in_subgraph graph l h.
Proof.
  unfold same_nodes, in_subgraph, present. intros ->.
  rewrite list_elem_of_filter. tauto.
Qed.

Lemma same_nodes_cycle (graph : HandleGraph) (l l' : list Z) :
  (forall h, in_subgraph graph l' h <-> in_subgraph graph l h) ->
  (forall u, ~ tc (edge_within graph l) u u) ->
  forall u, ~ tc (edge_within graph l') u u.
Proof.
  intros Hsame Hacyclic u Hcyc. apply (Hacyclic u).
  assert (Hpath : forall x y, tc (edge_within graph l') x y ->
                              tc (edge_within graph l) x y).
  { induction 1 as [x y (He & Hx & Hy)|x y z (He & Hx & Hy) _ IH].
    - apply tc_once. split; [done|]. split; by apply Hsame.
    - eapply tc_l; [|exact IH]. split; [done|]. split; by apply Hsame. }
  by apply Hpath.
Qed.

(** X30: [topological_order] ignores the ids of the set that are not
    nodes of the graph.  Called with the set, and called with the nodes
    of the set that are in the graph, in whatever order the two sets and
    the two maps are iterated, it returns lists that hold the same
    handles, each once or not at all: both are empty, or both hold every
    handle of the nodes of the set that are in the graph. *)
Theorem topological_order_ignores_missing (graph : HandleGraph)
    (order order' : list handle_t -> list handle_t)
    (subgraph subgraph' : list Z) (fuel : nat) :
  consistent graph ->
  degrees_fit graph ->
  (forall l, order l ≡ₚ l) ->
  (forall l, order' l ≡ₚ l) ->
  NoDup subgraph ->
  same_nodes graph subgraph subgraph' ->
  2 * Z.of_nat (length subgraph) < modulus64 ->
  (2 * length subgraph < fuel)%nat ->
  exists r r' : list handle_t,
    topological_order graph order fuel subgraph = Some r /\
    topological_order graph order' fuel subgraph' = Some r' /\
    NoDup r /\ r ≡ₚ r' /\
    (r = [] \/ forall h, h ∈ r <-> in_subgraph graph subgraph h).
Proof.
  intros Hcons Hdeg Horder Horder' Hnd Hsame Hsize Hfuel.
  pose proof (length_filter (fun node => has_node graph node = true) subgraph)
    as Hlp. fold (present graph subgraph) in Hlp.
  assert (Hlen' : length subgraph' = length (present graph subgraph)).
  { unfold same_nodes in Hsame. by rewrite Hsame. }
  assert (Hnd' : NoDup subgraph').
  { unfold same_nodes in Hsame. rewrite Hsame. by apply NoDup_filter. }
  pose proof (fun h => same_nodes_handles graph subgraph subgraph' h Hsame)
    as Hhandles.
  destruct (order_sound graph order subgraph fuel Hcons Hdeg Horder Hnd
              Hsize Hfuel) as (r & Hr & Hcase).
  destruct (order_sound graph order' subgraph' fuel Hcons Hdeg Horder' Hnd')
    as (r' & Hr' & Hcase'); [lia | lia |].
  exists r, r'. split; [done|]. split; [done|].
  assert (Hfull : (forall u, ~ tc (edge_within graph subgraph) u u) ->
            NoDup r /\ r ≡ₚ r' /\
            forall h, h ∈ r <-> in_subgraph graph subgraph h).
  { intros Hacyclic.
    destruct (acyclic_order graph order subgraph fuel Hcons Hdeg Horder
                Hnd Hsize Hfuel Hacyclic)
      as (r0 & Hr0 & _ & Hnd0 & Hmem0 & _).
    destruct (acyclic_order graph order' subgraph' fuel Hcons Hdeg Horder'
                Hnd') as (r1 & Hr1 & _ & Hnd1 & Hmem1 & _); [lia | lia | |].
    { by apply (same_nodes_cycle graph subgraph subgraph'). }
    assert (r0 = r) by congruence. assert (r1 = r') by congruence.
    subst r0 r1. split; [done|]. split; [|done].
    apply NoDup_Permutation; [done..|]. intros h.
    by rewrite Hmem0, Hmem1, Hhandles. }
  destruct Hcase as [->|(_ & _ & Hacyclic)].
  - destruct Hcase' as [->|(_ & _ & Hacyclic')].
    + split; [constructor|]. split; [done | by left].
    + destruct Hfull as (H1 & H2 & H3).
      { apply (same_nodes_cycle graph subgraph' subgraph); [|done].
        intros h. by rewrite Hhandles. }
      split; [done|]. split; [done | by left].
  - destruct (Hfull Hacyclic) as (H1 & H2 & H3).
    split; [done|]. split; [done | by right].
Qed.

Lemma topological_order_ignores_missing_witness :
  exists r r' : list handle_t,
    topological_order TopologicalOrderExamples.diamond id 10 [3; 1; 2; 7]
      = Some r /\
    topological_order TopologicalOrderExamples.diamond reverse 10 [2; 3; 1]
      = Some r' /\
    r ≡ₚ r'.
Proof.
  assert (H1 : consistent TopologicalOrderExamples.diamond)
    by apply of_edges_consistent.
  assert (H2 : degrees_fit TopologicalOrderExamples.diamond)
    by (apply of_edges_degrees_fit; reflexivity).
  assert (H3 : forall l : list handle_t, id l ≡ₚ l) by reflexivity.
  assert (H4 : forall l : list handle_t, reverse l ≡ₚ l)
    by apply reverse_Permutation.
  assert (H5 : NoDup [3; 1; 2; 7]) by (by apply (bool_decide_unpack _)).
  assert (H6 : same_nodes TopologicalOrderExamples.diamond [3; 1; 2; 7]
                 [2; 3; 1]).
  { unfold same_nodes.
    change (present TopologicalOrderExamples.diamond [3; 1; 2; 7])
      with [3; 1; 2].
    apply (Permutation_cons_append [3; 1] 2). }
  assert (H7 : 2 * Z.of_nat (length [3; 1; 2; 7]) < modulus64) by reflexivity.
  assert (H8 : (2 * length [3; 1; 2; 7] < 10)%nat) by (simpl; lia).
  destruct (topological_order_ignores_missing
              TopologicalOrderExamples.diamond id reverse [3; 1; 2; 7]
              [2; 3; 1] 10 H1 H2 H3 H4 H5 H6 H7 H8)
    as (r & r' & Hr & Hr' & _ & Hperm & _).
  exists r, r'. split; [exact Hr|]. split; [exact Hr' | exact Hperm].
Defined.

End TopologicalOrderMissing.

(** ** An orientation-consistent DAG that is not nice *)

Module OrientedDag.
Import Word Graph GraphFacts TopologicalOrder TopologicalOrderFacts.
Import NiceAcyclic NiceAcyclicFacts TopologicalOrderComplete.
Import TopologicalOrderExamples.

(** An orientation-consistent DAG, in the words of the claim: in the
    orientation [o] of the nodes no edge joins a chosen handle and one
    that is not chosen, and the chosen handles have no cycle.  This is
    [nice] without its condition on the handles without predecessors. *)
Record oriented_dag (graph : HandleGraph) (component : list Z)
    (o : Z -> bool) : Prop := {
  dag_forward : forall u v,
    chosen graph component o u -> edge graph u v ->
    chosen graph component o v;
  dag_backward : forall u v,
    chosen graph component o v -> edge graph u v ->
    chosen graph component o u;
  dag_acyclic : forall v, ~ tc (chosen_edge graph component o) v v
}.

Lemma nice_oriented_dag (graph : HandleGraph) (component : list Z)
    (o : Z -> bool) :
  nice graph component o <->
  oriented_dag graph component o /\
  forall v, v ∈ inserted graph component -> indeg graph v = 0%nat ->
    (chosen graph component o v <-> get_is_reverse v = false).
Proof.
  split.
  - intros [F B A H]. split; [by split | exact H].
  - intros [[F B A] H]. by split.
Qed.

(** 3+ -> 2+ and 1- -> 2+. *)
Definition reverse_source : HandleGraph :=
  of_edges [1; 2; 3] [(fw 3, fw 2); (rv 1, fw 2)].

(** Node 1 in reverse, nodes 2 and 3 forward. *)
Definition one_reversed (n : Z) : bool := bool_decide (n = 1).

Lemma reverse_source_chosen (v : handle_t) :
  chosen reverse_source [1; 2; 3] one_reversed v <->
  v = rv 1 \/ v = fw 2 \/ v = fw 3.
Proof.
  unfold chosen. rewrite elem_of_inserted. unfold in_subgraph.
  destruct v as [n b]. simpl. split.
  - intros [[Hn _] Hb]. apply list_elem_of_In in Hn. simpl in Hn.
    destruct Hn as [<-|[<-|[<-|[]]]]; vm_compute in Hb; subst b; auto.
  - intros [E|[E|E]]; injection E as -> ->; repeat split;
      apply list_elem_of_In; simpl; auto.
Qed.

Lemma reverse_source_acyclic :
  forall u, ~ tc (edge_within reverse_source [1; 2; 3]) u u.
Proof.
  apply (listed_acyclic _ _
           (map (fun p => mkHandle p.1 p.2)
              [(3, false); (1, true); (2, false); (2, true); (3, true);
               (1, false)])).
  - intros [n b] [Hs Hp]. simpl in Hs.
    apply list_elem_of_In in Hs. simpl in Hs.
    destruct Hs as [<-|[<-|[<-|[]]]];
      destruct b; apply list_elem_of_In; simpl; tauto.
  - intros i j u v Hi Hj He. unfold edge in He.
    apply list_elem_of_In in He.
    do 6 (destruct i as [|i];
          [injection Hi as <-; vm_compute in He;
           repeat (destruct He as [<-|He]; [|]); try done;
           do 6 (destruct j as [|j]; [try discriminate Hj; try lia|]);
           discriminate Hj|]).
    discriminate Hi.
Qed.

Lemma reverse_source_oriented :
  oriented_dag reverse_source [1; 2; 3] one_reversed.
Proof.
  split.
  - intros u v Hu He. apply reverse_source_chosen.
    apply reverse_source_chosen in Hu. unfold edge in He.
    apply list_elem_of_In in He.
    destruct Hu as [-> | [-> | ->]]; vm_compute in He;
      repeat (destruct He as [<-|He]; [|]); auto; done.
  - intros u v Hv He. apply reverse_source_chosen.
    apply reverse_source_chosen in Hv.
    assert (Hp : u ∈ follow_edges reverse_source v true).
    { apply occ_pos. unfold reverse_source.
      rewrite (of_edges_consistent _ _ u v). by apply occ_pos. }
    apply list_elem_of_In in Hp.
    destruct Hv as [-> | [-> | ->]]; vm_compute in Hp;
      repeat (destruct Hp as [<-|Hp]; [|]); auto; done.
  - intros v Hcyc. apply (reverse_source_acyclic v).
    assert (Hstep : forall x y,
              chosen_edge reverse_source [1; 2; 3] one_reversed x y ->
              edge_within reverse_source [1; 2; 3] x y).
    { intros x y (He & [Hx _] & [Hy _]). split; [done|].
      split; by apply (proj1 (elem_of_inserted _ _ _)). }
    assert (Hpath : forall x y,
              tc (chosen_edge reverse_source [1; 2; 3] one_reversed) x y ->
              tc (edge_within reverse_source [1; 2; 3]) x y).
    { induction 1 as [x y Hxy|x y z Hxy _ IH].
      - by apply tc_once, Hstep.
      - eapply tc_l; [by apply Hstep | exact IH]. }
    by apply Hpath.
Qed.

(** C6, as stated, fails: the component 3+ -> 2+, 1- -> 2+ is an
    orientation-consistent DAG and node 3 is a head node, but node 2 is
    reached from 3+ only, through one of its two incoming edges, and the
    function returns the empty list. *)
Lemma oriented_dag_without_heads :
  (exists o, oriented_dag reverse_source [1; 2; 3] o) /\
  filter (is_head reverse_source) [1; 2; 3] = [3] /\
  is_nice_and_acyclic reverse_source 10 [1; 2; 3] = Some [].
Proof.
  split; [exists one_reversed; apply reverse_source_oriented|].
  split; vm_compute; reflexivity.
Qed.

End OrientedDag.
